(** * narou-py: the Aozora text converter (src/narou_py/aozora/text_converter_mixin.py)

    A shallow embedding of [AozoraTextConverterMixin].  A Python [str] is a
    sequence of Unicode code points, so a string is a list of code points
    ([N]); the string literals of the source are written as UTF-8 literals
    and decoded by [u].  Regular expressions are kept as syntax trees that
    mirror the patterns of the source and are run by a backtracking matcher
    with the priorities of Python's [re] (leftmost match, greedy and lazy
    quantifiers, alternation in order). *)

From Stdlib Require Import String Ascii.
From Stdlib Require Import List NArith Bool Arith Lia.
Import ListNotations.

(* ================================================================== *)
(** ** Code points and strings *)

Definition char := N.
Bind Scope N_scope with char.
Definition str := list char.

Definition chr_eqb (a b : char) : bool := N.eqb a b.
Arguments chr_eqb : simpl never.

Fixpoint str_eqb (a b : str) : bool :=
  match a, b with
  | [], [] => true
  | x :: a', y :: b' => chr_eqb x y && str_eqb a' b'
  | _, _ => false
  end.

(** UTF-8 decoding of a source literal into code points. *)
Fixpoint utf8_bytes (s : string) : list N :=
  match s with
  | EmptyString => []
  | String a r => N_of_ascii a :: utf8_bytes r
  end.

Fixpoint utf8_decode (need : nat) (acc : N) (bs : list N) : str :=
  match bs with
  | [] => []
  | b :: r =>
      match need with
      | O =>
          if (b <? 0x80)%N then b :: utf8_decode 0 0%N r
          else if (b <? 0xE0)%N then utf8_decode 1 (b - 0xC0)%N r
          else if (b <? 0xF0)%N then utf8_decode 2 (b - 0xE0)%N r
          else utf8_decode 3 (b - 0xF0)%N r
      | S O => (acc * 64 + (b - 0x80))%N :: utf8_decode 0 0%N r
      | S n => utf8_decode n (acc * 64 + (b - 0x80))%N r
      end
  end.

(** The escapes [\n], [\t], [\r] and [\\] of a Python literal. *)
Fixpoint py_escapes (bs : list N) : list N :=
  match bs with
  | [] => []
  | b :: r =>
      match r with
      | c :: r' =>
          if (b =? 92)%N then
            if (c =? 110)%N then 10%N :: py_escapes r'
            else if (c =? 116)%N then 9%N :: py_escapes r'
            else if (c =? 114)%N then 13%N :: py_escapes r'
            else if (c =? 92)%N then 92%N :: py_escapes r'
            else b :: py_escapes r
          else b :: py_escapes r
      | [] => [b]
      end
  end.

(** [u "..."] is the Python literal ['...']; [ch "x"] its single character. *)
Definition u (s : string) : str := utf8_decode 0 0%N (py_escapes (utf8_bytes s)).
Definition ch (s : string) : char := hd 0%N (u s).
Arguments u s%_string.
Arguments ch s%_string.

(** [c in '...']: membership of a character in a literal. *)
Definition mem (c : char) (s : str) : bool := existsb (chr_eqb c) s.
(** A range [a-b] of a character class. *)
Definition in_range (a b c : char) : bool := ((a <=? c) && (c <=? b))%N.

Definition nl : char := 10%N.

(* ================================================================== *)
(** ** Python's string methods *)

Definition is_empty (s : str) : bool := match s with [] => true | _ => false end.
Definition is_nil {A : Type} (l : list A) : bool := match l with [] => true | _ => false end.

(** [s.startswith(p)] *)
Fixpoint starts_with (p s : str) : bool :=
  match p, s with
  | [], _ => true
  | x :: p', y :: s' => chr_eqb x y && starts_with p' s'
  | _ :: _, [] => false
  end.

(** [s.replace(old, new)] for a non-empty [old]: the occurrences are found
    left to right and do not overlap; [skip] counts the characters of a
    found occurrence that are still to be passed over. *)
Fixpoint replace_from (old new : str) (skip : nat) (s : str) : str :=
  match s with
  | [] => []
  | c :: r =>
      match skip with
      | S k => replace_from old new k r
      | O =>
          if starts_with old s then new ++ replace_from old new (length old - 1) r
          else c :: replace_from old new 0 r
      end
  end.

Definition replace (old new s : str) : str := replace_from old new 0 s.

(** [s.split('\n')] *)
Fixpoint split_on (sep : char) (s : str) : list str :=
  match s with
  | [] => [[]]
  | c :: r =>
      if chr_eqb c sep then [] :: split_on sep r
      else match split_on sep r with
           | l :: ls => (c :: l) :: ls
           | [] => [[c]]
           end
  end.

(** [sep.join(ls)] *)
Fixpoint join (sep : str) (ls : list str) : str :=
  match ls with
  | [] => []
  | l :: r => match r with [] => l | _ :: _ => l ++ sep ++ join sep r end
  end.

(** [s.lstrip(chars)], [s.rstrip(chars)], [s.strip(chars)] *)
Fixpoint lstrip (p : char -> bool) (s : str) : str :=
  match s with
  | [] => []
  | c :: r => if p c then lstrip p r else s
  end.

Fixpoint rstrip (p : char -> bool) (s : str) : str :=
  match s with
  | [] => []
  | c :: r =>
      match rstrip p r with
      | [] => if p c then [] else [c]
      | r' => c :: r'
      end
  end.

Definition strip (p : char -> bool) (s : str) : str := rstrip p (lstrip p s).

(** [str.maketrans(a, b)] and [s.translate(table)]: the table is a dict, so
    of two entries with one key the later one counts. *)
Definition maketrans (a b : str) : list (char * char) := rev (combine a b).

Fixpoint translate_char (tbl : list (char * char)) (c : char) : char :=
  match tbl with
  | [] => c
  | (k, v) :: t => if chr_eqb c k then v else translate_char t c
  end.

Definition translate (tbl : list (char * char)) (s : str) : str :=
  map (translate_char tbl) s.

(** ['x' * n] *)
Fixpoint str_repeat (s : str) (n : nat) : str :=
  match n with
  | O => []
  | S k => s ++ str_repeat s k
  end.

(* ================================================================== *)
(** ** Regular expressions *)

(** The patterns of the source, as syntax.  [Chr p] is one character drawn
    from a class (a literal, a bracket class, [\d], [\s] or the dot);
    [Rep greedy lo hi r] is a quantifier ([r*] is [Rep true 0 None r],
    [r+?] is [Rep false 1 None r], [r{3,}] is [Rep true 3 None r]);
    [Grp i r] is the capturing group number [i]; [Bol] and [Eol] are [^]
    and [$] under [re.MULTILINE]; [EndZ] is [\Z]. *)
Inductive regex : Type :=
| Eps
| Chr (p : char -> bool)
| Bol
| Eol
| EndZ
| Seq (r1 r2 : regex)
| Alt (r1 r2 : regex)
| Rep (greedy : bool) (lo : nat) (hi : option nat) (r : regex)
| Grp (i : nat) (r : regex).

(** The matcher's state: the character before the current position, the
    input still to read, the number of characters read since the match
    began, and the groups captured so far. *)
Record mstate : Type := MState {
  ms_prev : option char;
  ms_rest : str;
  ms_len : nat;
  ms_caps : list (nat * str)
}.

Definition ms_init (prev : option char) (s : str) : mstate :=
  MState prev s 0 [].

Definition ms_advance (st : mstate) (c : char) (t : str) : mstate :=
  MState (Some c) t (S (ms_len st)) (ms_caps st).

Definition ms_capture (i : nat) (st0 st : mstate) : mstate :=
  MState (ms_prev st) (ms_rest st) (ms_len st)
         ((i, firstn (ms_len st - ms_len st0) (ms_rest st0)) :: ms_caps st).

Definition cont := mstate -> option mstate.

Definition hi_open (hi : option nat) : bool :=
  match hi with Some O => false | _ => true end.
Definition hi_pred (hi : option nat) : option nat :=
  match hi with Some n => Some (pred n) | None => None end.

(** A quantifier: [fuel] bounds the iterations, each of which has to read
    at least one character (no pattern of the source repeats a body that
    can match the empty string). *)
Fixpoint rep_loop (body : mstate -> cont -> option mstate)
    (greedy : bool) (lo : nat) (hi : option nat) (fuel : nat)
    (st : mstate) (k : cont) : option mstate :=
  match fuel with
  | O => None
  | S f =>
      let more :=
        if hi_open hi then
          body st (fun st' =>
            if length (ms_rest st') <? length (ms_rest st)
            then rep_loop body greedy (pred lo) (hi_pred hi) f st' k
            else None)
        else None in
      match lo with
      | S _ => more
      | O =>
          if greedy then
            match more with Some r => Some r | None => k st end
          else
            match k st with Some r => Some r | None => more end
      end
  end.

(** Backtracking matcher in continuation-passing style: [mt r st k] is the
    first way, in the order of Python's [re], to match [r] from [st] such
    that the continuation [k] accepts what follows. *)
Fixpoint mt (r : regex) (st : mstate) (k : cont) : option mstate :=
  match r with
  | Eps => k st
  | Chr p =>
      match ms_rest st with
      | c :: t => if p c then k (ms_advance st c t) else None
      | [] => None
      end
  | Bol =>
      match ms_prev st with
      | None => k st
      | Some c => if chr_eqb c nl then k st else None
      end
  | Eol =>
      match ms_rest st with
      | [] => k st
      | c :: _ => if chr_eqb c nl then k st else None
      end
  | EndZ => if is_empty (ms_rest st) then k st else None
  | Seq r1 r2 => mt r1 st (fun st' => mt r2 st' k)
  | Alt r1 r2 =>
      match mt r1 st k with
      | Some res => Some res
      | None => mt r2 st k
      end
  | Rep greedy lo hi r1 =>
      rep_loop (mt r1) greedy lo hi (S (length (ms_rest st))) st k
  | Grp i r1 => mt r1 st (fun st' => k (ms_capture i st st'))
  end.

Definition accept : cont := fun st => Some st.
Definition at_end : cont := fun st => if is_empty (ms_rest st) then Some st else None.

(** A match object: [group(0)], the numbered groups, [start()], and the
    characters of [match.string] just before [start()] and at [end()]. *)
Record rmatch : Type := RMatch {
  m_text : str;
  m_caps : list (nat * str);
  m_start : nat;
  m_prev : option char;
  m_next : option char
}.

Fixpoint cap_lookup (i : nat) (caps : list (nat * str)) : str :=
  match caps with
  | [] => []
  | (j, s) :: t => if Nat.eqb i j then s else cap_lookup i t
  end.

(** [match.group(i)] for [i >= 1] *)
Definition m_group (m : rmatch) (i : nat) : str := cap_lookup i (m_caps m).

(** The match of [r] that starts at the head of [s], if any. *)
Definition match_here (r : regex) (pos : nat) (prev : option char) (s : str)
  : option (rmatch * nat) :=
  match mt r (ms_init prev s) accept with
  | Some st =>
      Some (RMatch (firstn (ms_len st) s) (ms_caps st) pos prev (hd_error (ms_rest st)),
            ms_len st)
  | None => None
  end.

(** [re.sub(r, repl, s)]: the scan goes left to right; at a position where
    [r] matches, the replacement is written and the scan goes on after the
    match ([skip] counts the matched characters still to pass over); else
    the character is copied.  An empty match is replaced and the scan moves
    on by one character. *)
Fixpoint sub_loop (r : regex) (repl : rmatch -> str)
    (skip pos : nat) (prev : option char) (s : str) : str :=
  match s with
  | [] =>
      match skip with
      | S _ => []
      | O => match match_here r pos prev [] with
             | Some (m, _) => repl m
             | None => []
             end
      end
  | c :: t =>
      match skip with
      | S k => sub_loop r repl k (S pos) (Some c) t
      | O =>
          match match_here r pos prev s with
          | Some (m, len) =>
              repl m ++
              match len with
              | O => c :: sub_loop r repl 0 (S pos) (Some c) t
              | S k => sub_loop r repl k (S pos) (Some c) t
              end
          | None => c :: sub_loop r repl 0 (S pos) (Some c) t
          end
      end
  end.

Definition re_sub (r : regex) (repl : rmatch -> str) (s : str) : str :=
  sub_loop r repl 0 0 None s.

(** [re.fullmatch(r, s) is not None] *)
Definition re_fullmatch (r : regex) (s : str) : bool :=
  match mt r (ms_init None s) at_end with Some _ => true | None => false end.

(** [re.split(r, s)] and [re.split(r, s, maxsplit=n)] for a pattern without
    groups that matches no empty string; [limit = None] is no bound. *)
Fixpoint split_loop (r : regex) (limit : option nat)
    (skip : nat) (prev : option char) (cur : str) (s : str) : list str :=
  match s with
  | [] => [rev cur]
  | c :: t =>
      match skip with
      | S k => split_loop r limit k (Some c) cur t
      | O =>
          if hi_open limit then
            match match_here r 0 prev s with
            | Some (_, S k) => rev cur :: split_loop r (hi_pred limit) k (Some c) [] t
            | _ => split_loop r limit 0 (Some c) (c :: cur) t
            end
          else split_loop r limit 0 (Some c) (c :: cur) t
      end
  end.

Definition re_split (r : regex) (limit : option nat) (s : str) : list str :=
  split_loop r limit 0 None [] s.

(** Pattern building blocks. *)
Definition lit (c : char) : regex := Chr (chr_eqb c).
Fixpoint lits (s : str) : regex :=
  match s with
  | [] => Eps
  | c :: t => match t with [] => lit c | _ :: _ => Seq (lit c) (lits t) end
  end.
Fixpoint seqs (rs : list regex) : regex :=
  match rs with
  | [] => Eps
  | r :: t => match t with [] => r | _ :: _ => Seq r (seqs t) end
  end.
Definition cls (s : str) : regex := Chr (fun c => mem c s).
Definition ncls (s : str) : regex := Chr (fun c => negb (mem c s)).
Definition plus (r : regex) : regex := Rep true 1 None r.
Definition star (r : regex) : regex := Rep true 0 None r.
Definition opt (r : regex) : regex := Rep true 0 (Some 1) r.
Definition plus_lazy (r : regex) : regex := Rep false 1 None r.
Definition star_lazy (r : regex) : regex := Rep false 0 None r.
Definition at_least (n : nat) (r : regex) : regex := Rep true n None r.
(** The dot, without and with [re.DOTALL]. *)
Definition dot : regex := Chr (fun c => negb (chr_eqb c nl)).
Definition dot_all : regex := Chr (fun _ => true).

(* ================================================================== *)
(** ** Blank-line packing (_normalize_border_line, _pack_blank_lines) *)

(** The characters of the literal [' 　\t']. *)
Definition sp_chars : str := u " 　\t".
Definition is_sp (c : char) : bool := mem c sp_chars.

(** [_normalize_border_line(line)]; [None] is Python's [None]. *)
Definition _normalize_border_line (line : str) : option str :=
  let stripped := strip is_sp line in
  if is_empty stripped then None
  else if re_fullmatch (at_least 5 (cls (u "＊*"))) stripped then
    Some (replace (u "*") (u "＊") stripped)
  else if re_fullmatch (plus (cls (u "◆◇■□●○★☆"))) stripped then
    Some stripped
  else None.

(** The local variables of the loop of [_pack_blank_lines]. *)
Record pack_state : Type := PackState {
  packed : list str;
  blank_run : nat;
  prev_border : bool
}.

Definition pack_init : pack_state := PackState [] 0 false.

(** [packed[-1] != ''] (read only where [packed] is not empty). *)
Definition last_nonblank (p : list str) : bool := negb (is_empty (last p [])).

(** [blank_run in (1, 3)] *)
Definition in_1_3 (n : nat) : bool := Nat.eqb n 1 || Nat.eqb n 3.

(** The inner function [append_blanks(count)]: both branches of its [if]
    append the empty line. *)
Fixpoint append_blanks (p : list str) (count : nat) : list str :=
  match count with
  | O => p
  | S k => append_blanks (p ++ [[]]) k
  end.

(** One turn of [for line in lines]. *)
Definition pack_step (st : pack_state) (line : str) : pack_state :=
  if is_empty (strip is_sp line) then
    PackState (packed st) (S (blank_run st)) (prev_border st)
  else
    match _normalize_border_line line with
    | Some border =>
        let p1 :=
          if 0 <? blank_run st then
            append_blanks (packed st) (if in_1_3 (blank_run st) then 1 else 2)
          else if negb (is_nil (packed st)) && last_nonblank (packed st) then
            packed st ++ [[]]
          else packed st in
        PackState (p1 ++ [str_repeat (u "　") 4 ++ border]) 0 true
    | None =>
        let p1 :=
          if is_nil (packed st) && (1 <=? blank_run st) then packed st ++ [[]]
          else if prev_border st && (1 <=? blank_run st) then
            append_blanks (packed st) (if in_1_3 (blank_run st) then 1 else 2)
          else if (2 <=? blank_run st) && last_nonblank (packed st) then
            let p2 := packed st ++ [[]] in
            let p3 := if 4 <=? blank_run st then p2 ++ [[]] else p2 in
            let p4 := if 8 <=? blank_run st then p3 ++ [[]] else p3 in
            if 10 <=? blank_run st then p4 ++ [[]] else p4
          else packed st in
        PackState (p1 ++ [rstrip is_sp line]) 0 false
    end.

Definition pack_lines (st : pack_state) (lines : list str) : pack_state :=
  fold_left pack_step lines st.

(** [while packed and packed[-1] == '': packed.pop()] *)
Fixpoint pop_blanks (p : list str) : list str :=
  match p with
  | [] => []
  | l :: r =>
      match pop_blanks r with
      | [] => if is_empty l then [] else [l]
      | r' => l :: r'
      end
  end.

Definition _pack_blank_lines (text : str) : str :=
  let lines := split_on nl text in
  let st := pack_lines pack_init lines in
  let result := join [nl] (pop_blanks (packed st)) in
  let result := replace (u "\n！」") (u "！」") result in
  let result := replace (u "\n？」") (u "？」") result in
  result.

(* ================================================================== *)
(** ** Character classes of Python's [re] *)

(** [\d] in a [str] pattern is any Unicode decimal digit (category Nd);
    the blocks of ten digits below are those of Unicode 14.0.0, the
    database of Python 3.11. *)
Definition decimal_blocks : list N :=
  [0x30; 0x660; 0x6F0; 0x7C0; 0x966; 0x9E6; 0xA66; 0xAE6; 0xB66; 0xBE6;
   0xC66; 0xCE6; 0xD66; 0xDE6; 0xE50; 0xED0; 0xF20; 0x1040; 0x1090; 0x17E0;
   0x1810; 0x1946; 0x19D0; 0x1A80; 0x1A90; 0x1B50; 0x1BB0; 0x1C40; 0x1C50;
   0xA620; 0xA8D0; 0xA900; 0xA9D0; 0xA9F0; 0xAA50; 0xABF0; 0xFF10; 0x104A0;
   0x10D30; 0x11066; 0x110F0; 0x11136; 0x111D0; 0x112F0; 0x11450; 0x114D0;
   0x11650; 0x116C0; 0x11730; 0x118E0; 0x11950; 0x11C50; 0x11D50; 0x11DA0;
   0x16A60; 0x16AC0; 0x16B50; 0x1D7CE; 0x1D7D8; 0x1D7E2; 0x1D7EC; 0x1D7F6;
   0x1E140; 0x1E2F0; 0x1E950; 0x1FBF0]%N.

Definition is_digit (c : char) : bool :=
  existsb (fun a => in_range a (a + 9)%N c) decimal_blocks.

(** [\s] in a [str] pattern: the Unicode whitespace characters. *)
Definition is_space (c : char) : bool :=
  in_range 0x09%N 0x0D%N c || in_range 0x1C%N 0x20%N c ||
  mem c [0x85; 0xA0; 0x1680; 0x2028; 0x2029; 0x202F; 0x205F; 0x3000]%N ||
  in_range 0x2000%N 0x200A%N c.

(** [x == 'c'] for [x] a character or the empty string. *)
Definition opt_is (o : option char) (c : char) : bool :=
  match o with Some x => chr_eqb x c | None => false end.

(* ================================================================== *)
(** ** Digits, exclamation marks, ellipses *)

(** The text kinds: the values of [text_type] ('title', 'story',
    'chapter', 'subtitle', 'introduction', 'body', 'postscript',
    'textfile'). *)
Inductive text_type : Type :=
| Title | Story | Chapter | Subtitle | Introduction | Body | Postscript | Textfile.

Definition is_subtitle (t : text_type) : bool :=
  match t with Subtitle => true | _ => false end.

(** [text_type in ('subtitle', 'chapter', 'story')] *)
Definition is_heading_kind (t : text_type) : bool :=
  match t with Subtitle | Chapter | Story => true | _ => false end.

Definition _KANJI_NUM : str := u "〇一二三四五六七八九".
Definition _ZENKAKU_NUM : str := u "０１２３４５６７８９".

(** The inner function [tcy] of [_hankaku_num_to_zenkaku_num] and of
    [_convert_tatechuyoko]. *)
Definition tcy (value : str) : str := u "［＃縦中横］" ++ value ++ u "［＃縦中横終わり］".

Definition hankaku_repl (text_type : text_type) (m : rmatch) : str :=
  let token := m_text m in
  if length token =? 2 then tcy token
  else if (length token =? 3) && is_subtitle text_type && (m_start m =? 0) then tcy token
  else translate (maketrans (u "0123456789") _ZENKAKU_NUM) token.

Definition _hankaku_num_to_zenkaku_num (text : str) (text_type : text_type) : str :=
  re_sub (plus (Chr is_digit)) (hankaku_repl text_type) text.

Definition _digits_to_kanji (text : str) : str :=
  translate (maketrans (u "0123456789０１２３４５６７８９")
                       (u "〇一二三四五六七八九〇一二三四五六七八九")) text.

Definition bang_repl (m : rmatch) : str :=
  let token := m_text m in
  if opt_is (m_prev m) (ch "？") || opt_is (m_next m) (ch "？") then token
  else
    let length := length token in
    if length =? 3 then tcy (u "!!!")
    else if 4 <=? length then
      let length := if length mod 2 =? 1 then length + 1 else length in
      str_repeat (tcy (u "!!")) (length / 2)
    else token.

Definition mixed_repl (m : rmatch) : str :=
  let token := m_text m in
  if length token =? 2 then tcy (translate (maketrans (u "！？") (u "!?")) token)
  else if (length token =? 3) &&
          (str_eqb token (u "！！？") || str_eqb token (u "？！！")) then
    tcy (translate (maketrans (u "！？") (u "!?")) token)
  else token.

(** The first substitution of [_convert_tatechuyoko], over the runs of ！. *)
Definition tatechuyoko_bang (text : str) : str :=
  re_sub (plus (lit (ch "！"))) bang_repl text.

Definition _convert_tatechuyoko (text : str) : str :=
  let text := tatechuyoko_bang text in
  re_sub (plus (cls (u "！？"))) mixed_repl text.

Definition ellipsis_repl (m : rmatch) : str :=
  if opt_is (m_prev m) (ch "―") || opt_is (m_next m) (ch "―") then m_text m
  else
    let count := length (m_text m) in
    str_repeat (u "…") (((count + 5) / 6) * 2).

(** One turn of [for char in ('・', '。', '、', '．')]. *)
Definition ellipsis_pass (text : str) (char : char) : str :=
  re_sub (at_least 3 (lit char)) ellipsis_repl text.

(** The whole [for] loop of [_convert_horizontal_ellipsis]. *)
Definition ellipsis_fold (text : str) : str :=
  fold_left ellipsis_pass [ch "・"; ch "。"; ch "、"; ch "．"] text.

Definition _convert_horizontal_ellipsis (text : str) : str :=
  let text := ellipsis_fold text in
  let text := replace (u "。。") (u "。") text in
  let text := replace (u "、、") (u "、") text in
  text.

(* ================================================================== *)
(** ** Notions used to state the properties *)

(** The length of the longest prefix of [s] made of [p]-characters. *)
Fixpoint run_len (p : char -> bool) (s : str) : nat :=
  match s with
  | c :: t => if p c then S (run_len p t) else 0
  | [] => 0
  end.

(** [s] does not begin with a [p]-character. *)
Definition no_head (p : char -> bool) (s : str) : Prop :=
  match s with [] => True | c :: _ => p c = false end.

(** The character seen before the position reached after reading [a]
    from a position whose previous character is [prev]. *)
Fixpoint prev_after (prev : option char) (a : str) : option char :=
  match a with
  | [] => prev
  | c :: t => prev_after (Some c) t
  end.

(** [s] does not end with a [p]-character. *)
Definition no_last (p : char -> bool) (s : str) : Prop :=
  match prev_after None s with None => True | Some c => p c = false end.

(** The matcher's state after reading [n] more characters. *)
Fixpoint ms_skip (st : mstate) (n : nat) : mstate :=
  match n with
  | O => st
  | S k =>
      match ms_rest st with
      | c :: t => ms_skip (ms_advance st c t) k
      | [] => st
      end
  end.

(** The kanji numeral of a half-width or a full-width digit; any other
    character stays. *)
Definition kanji_digit (c : char) : char :=
  if in_range 0x30 0x39 c then nth (N.to_nat (c - 0x30)) _KANJI_NUM c
  else if in_range 0xFF10 0xFF19 c then nth (N.to_nat (c - 0xFF10)) _KANJI_NUM c
  else c.

(** The full-width digit of a half-width digit; any other character stays. *)
Definition zenkaku_digit (c : char) : char :=
  if in_range 0x30 0x39 c then (c + 0xFEE0)%N else c.

(** The classes of the two patterns of [_convert_tatechuyoko]. *)
Definition is_bang : char -> bool := chr_eqb (ch "！").
Definition is_bang_or_q : char -> bool := fun c => mem c (u "！？").

(** [n] copies of a character. *)
Definition chars (c : char) (n : nat) : str := repeat c n.

(** What [bang_repl] writes for a run, given the tests on its neighbours. *)
Definition bang_image (run : str) (left_q right_q : bool) : str :=
  if left_q || right_q then run
  else if length run =? 3 then tcy (u "!!!")
  else if 4 <=? length run then
    str_repeat (tcy (u "!!")) ((if length run mod 2 =? 1 then length run + 1 else length run) / 2)
  else run.

(** What [mixed_repl] writes for a run. *)
Definition mixed_image (run : str) (_ _ : bool) : str :=
  if length run =? 2 then tcy (translate (maketrans (u "！？") (u "!?")) run)
  else if (length run =? 3) && (str_eqb run (u "！！？") || str_eqb run (u "？！！")) then
    tcy (translate (maketrans (u "！？") (u "!?")) run)
  else run.

(** [s.endswith(c)] and [s.startswith(c)] for one character. *)
Definition ends_with (s : str) (c : char) : bool := opt_is (prev_after None s) c.
Definition begins_with (s : str) (c : char) : bool := opt_is (hd_error s) c.

(** What [ellipsis_repl] writes for a run, given the tests on its neighbours. *)
Definition ellipsis_image (run : str) (left_dash right_dash : bool) : str :=
  if left_dash || right_dash then run
  else str_repeat (u "…") (((length run + 5) / 6) * 2).

(** The characters whose runs [_convert_horizontal_ellipsis] folds. *)
Definition ellipsis_chars : list char := [ch "・"; ch "。"; ch "、"; ch "．"].

(** The passes of [_convert_horizontal_ellipsis] over the characters [ds]. *)
Definition ellipsis_passes (ds : list char) (text : str) : str :=
  fold_left ellipsis_pass ds text.

(** [not line.strip(' 　\t')]: the line is blank. *)
Definition is_blank (line : str) : bool := is_empty (strip is_sp line).

(** What the loop of [_pack_blank_lines] appends for a line that is not
    blank: the border line behind four full-width spaces, or the line
    without its trailing whitespace. *)
Definition emitted (line : str) : str :=
  match _normalize_border_line line with
  | Some border => str_repeat (u "　") 4 ++ border
  | None => rstrip is_sp line
  end.

Definition is_border (line : str) : bool :=
  match _normalize_border_line line with Some _ => true | None => false end.

(** The list [packed] is empty or ends with a line that is not empty. *)
Definition packed_ok (st : pack_state) : Prop :=
  packed st = [] \/ last_nonblank (packed st) = true.

(** A line that is neither blank nor a border line. *)
Definition plain_line (l : str) : bool := negb (is_blank l) && negb (is_border l).

(** The line holds no newline. *)
Definition nl_free (l : str) : bool := forallb (fun c => negb (chr_eqb nl c)) l.

(** What follows the first line in [join [nl] (l :: r)]. *)
Definition join_tail (r : list str) : str :=
  match r with [] => [] | _ :: _ => nl :: join [nl] r end.

(** On joined lines, [replace ('\n' + pat) pat] appends every line that
    begins with [pat] to the line before it. *)
Fixpoint merge_lines (pat : str) (cur : str) (rest : list str) : list str :=
  match rest with
  | [] => [cur]
  | l :: r =>
      if starts_with pat l then merge_lines pat (cur ++ l) r
      else cur :: merge_lines pat l r
  end.

Definition merge_all (pat : str) (ls : list str) : list str :=
  match ls with [] => [] | l :: r => merge_lines pat l r end.

(** A line as [_pack_blank_lines] leaves it: without newline, not empty,
    without trailing whitespace, and not a border line. *)
Definition packed_line (l : str) : Prop :=
  nl_free l = true /\ l <> [] /\ rstrip is_sp l = l /\ is_border l = false.

(** The two patterns that [_pack_blank_lines] joins to the line before. *)
Definition bang_quote : str := u "！」".
Definition question_quote : str := u "？」".

(* ================================================================== *)
(** ** Tag stripping (_delete_tag) *)

(** The pattern [r'<.+?>'] under [re.DOTALL]. *)
Definition re_tag : regex := seqs [lit (ch "<"); plus_lazy dot_all; lit (ch ">")].

(** One turn of the loop body: [re.sub(r'<.+?>', '', text, flags=re.DOTALL)]. *)
Definition strip_tags (text : str) : str := re_sub re_tag (fun _ => []) text.

(** [text != previous], where [previous] is [None] before the first turn. *)
Definition differs (text : str) (previous : option str) : bool :=
  match previous with
  | None => true
  | Some p => negb (str_eqb text p)
  end.

(** The loop [while text != previous: previous = text; text = re.sub(...)];
    [fuel] bounds the number of turns and [None] says it ran out. *)
Fixpoint delete_tag_loop (fuel : nat) (text : str) (previous : option str)
  : option str :=
  if differs text previous then
    match fuel with
    | O => None
    | S f => delete_tag_loop f (strip_tags text) (Some text)
    end
  else Some text.

(** [_delete_tag(text)]: the loop never needs more than [len(text) + 1]
    turns (see [delete_tag_terminates]), so the second branch is never
    taken. *)
Definition _delete_tag (text : str) : str :=
  match delete_tag_loop (S (length text)) text None with
  | Some result => result
  | None => text
  end.

(** What the matcher has read between two of its states. *)
Definition reach (st st2 : mstate) : Prop :=
  ms_len st <= ms_len st2 /\
  ms_len st2 + length (ms_rest st2) = ms_len st + length (ms_rest st).

(* ================================================================== *)
(** ** The stages of the pipeline *)

(** [re.sub] with a replacement function that appends to a list of the
    enclosing function: the list is threaded through the scan. *)
Fixpoint sub_loop_st {A : Type} (r : regex) (repl : A -> rmatch -> str * A)
    (skip pos : nat) (prev : option char) (acc : A) (s : str) : str * A :=
  match s with
  | [] =>
      match skip with
      | S _ => ([], acc)
      | O => match match_here r pos prev [] with
             | Some (m, _) => repl acc m
             | None => ([], acc)
             end
      end
  | c :: t =>
      match skip with
      | S k => sub_loop_st r repl k (S pos) (Some c) acc t
      | O =>
          match match_here r pos prev s with
          | Some (m, len) =>
              let (out, acc1) := repl acc m in
              let (rest, acc2) :=
                match len with
                | O => let (o, a) := sub_loop_st r repl 0 (S pos) (Some c) acc1 t in
                       (c :: o, a)
                | S k => sub_loop_st r repl k (S pos) (Some c) acc1 t
                end in
              (out ++ rest, acc2)
          | None =>
              let (o, a) := sub_loop_st r repl 0 (S pos) (Some c) acc t in
              (c :: o, a)
          end
      end
  end.

Definition re_sub_st {A : Type} (r : regex) (repl : A -> rmatch -> str * A)
    (acc : A) (s : str) : str * A :=
  sub_loop_st r repl 0 0 None acc s.

(** A letter of a pattern compiled with [re.IGNORECASE]: it matches both
    cases, and i, s, k also match the characters whose case folding meets
    theirs (U+0130, U+0131, U+017F, U+212A). *)
Definition case_variants (c : char) : str :=
  let lower := if in_range 0x41 0x5A c then (c + 32)%N else c in
  if in_range 0x61 0x7A lower then
    [lower; (lower - 32)%N] ++
    (if chr_eqb lower 0x69 then [0x130; 0x131]%N
     else if chr_eqb lower 0x73 then [0x17F]%N
     else if chr_eqb lower 0x6B then [0x212A]%N
     else [])
  else [c].

Definition ilit (c : char) : regex := Chr (fun x => mem x (case_variants c)).
Definition ilits (s : str) : regex := seqs (map ilit s).

(** The double quote, which a literal cannot hold. *)
Definition dq : char := 34%N.

Definition is_alpha (c : char) : bool := in_range 0x41 0x5A c || in_range 0x61 0x7A c.
Definition is_alnum (c : char) : bool := is_alpha c || in_range 0x30 0x39 c.

Definition _URL_SENTINEL_OPEN : char := 0xE000%N.
Definition _URL_SENTINEL_CLOSE : char := 0xE001%N.
Definition _URL_SENTINEL_BASE : N := 0xE100%N.
Definition _ENGLISH_SENTINEL_OPEN : char := 0xE002%N.
Definition _ENGLISH_SENTINEL_CLOSE : char := 0xE003%N.
Definition _ENGLISH_SENTINEL_BASE : N := 0xE200%N.
Definition _NUM_SENTINEL_OPEN : char := 0xE005%N.
Definition _NUM_SENTINEL_CLOSE : char := 0xE006%N.
Definition _NUM_SENTINEL_BASE : N := 0xE300%N.
Definition _KOME_SENTINEL : char := 0xE004%N.

(** [f'{open}{chr(base + idx)}{close}'].  ([chr] is total here; Python's
    raises [ValueError] above U+10FFFF, that is from the 1,052,416th
    protected span of one fragment on.) *)
Definition sentinel (open : char) (base : N) (close : char) (idx : nat) : str :=
  [open; (base + N.of_nat idx)%N; close].

(** [for idx, x in enumerate(table): text = text.replace(sentinel(idx), image(x))] *)
Fixpoint rebuild_from (open : char) (base : N) (close : char)
    (image : str -> str) (idx : nat) (table : list str) (text : str) : str :=
  match table with
  | [] => text
  | x :: rest =>
      rebuild_from open base close image (S idx) rest
        (replace (sentinel open base close idx) (image x) text)
  end.

Definition _hankakukana_to_zenkakukana (text : str) : str :=
  replace (u "—") (u "―") (replace (u "－") (u "−") text).

Definition _alphabet_to_zenkaku (text : str) : str :=
  translate (maketrans (u "abcdefghijklmnopqrstuvwxyzABCDEFGHIJKLMNOPQRSTUVWXYZ")
                       (u "ａｂｃｄｅｆｇｈｉｊｋｌｍｎｏｐｑｒｓｔｕｖｗｘｙｚＡＢＣＤＥＦＧＨＩＪＫＬＭＮＯＰＱＲＳＴＵＶＷＸＹＺ"))
            text.

(** The class of the pattern of [_stash_urls] after [https?://]. *)
Definition is_url_char (c : char) : bool :=
  is_alnum c || mem c (u "-._~:/?#[]@!$&'()*+,;=%").

Definition re_url : regex :=
  seqs [lits (u "http"); opt (lit (ch "s")); lits (u "://"); plus (Chr is_url_char)].

Definition _stash_urls (text : str) : str * list str :=
  re_sub_st re_url
    (fun urls m =>
       (sentinel _URL_SENTINEL_OPEN _URL_SENTINEL_BASE _URL_SENTINEL_CLOSE (length urls),
        urls ++ [m_text m]))
    [] text.

Definition _rebuild_urls (text : str) (urls : list str) : str :=
  rebuild_from _URL_SENTINEL_OPEN _URL_SENTINEL_BASE _URL_SENTINEL_CLOSE
    (fun url => u "<a href=" ++ [dq] ++ url ++ [dq] ++ u ">" ++ url ++ u "</a>")
    0 urls text.

(** The class of the pattern of [_stash_english_sentences]. *)
Definition is_english_char (c : char) : bool :=
  is_alnum c || mem c (u "_.,!?' &:;-") || chr_eqb c dq.

(** [len([chunk for chunk in token.split(' ') if chunk]) >= 2] *)
Definition sentence_like (token : str) : bool :=
  2 <=? length (filter (fun chunk => negb (is_empty chunk)) (split_on (ch " ") token)).

(** [len(token) >= 8 and re.search(r'[A-Za-z]', token) is not None] *)
Definition long_ascii_word (token : str) : bool :=
  (8 <=? length token) && existsb is_alpha token.

Definition english_repl (english_sentences : list str) (m : rmatch)
  : str * list str :=
  let token := m_text m in
  if sentence_like token || long_ascii_word token then
    (sentinel _ENGLISH_SENTINEL_OPEN _ENGLISH_SENTINEL_BASE _ENGLISH_SENTINEL_CLOSE
       (length english_sentences),
     english_sentences ++ [token])
  else (_alphabet_to_zenkaku token, english_sentences).

Definition _stash_english_sentences (text : str) : str * list str :=
  re_sub_st (plus (Chr is_english_char)) english_repl [] text.

Definition _rebuild_english_sentences (text : str) (english_sentences : list str) : str :=
  rebuild_from _ENGLISH_SENTINEL_OPEN _ENGLISH_SENTINEL_BASE _ENGLISH_SENTINEL_CLOSE
    (fun sentence => sentence) 0 english_sentences text.

Definition _rebuild_hankaku_num_and_comma (text : str) (nums : list str) : str :=
  rebuild_from _NUM_SENTINEL_OPEN _NUM_SENTINEL_BASE _NUM_SENTINEL_CLOSE
    (fun num => num) 0 nums text.

Definition _stash_kome (text : str) : str := replace (u "※") [_KOME_SENTINEL] text.

Definition _rebuild_kome_to_gaiji (text : str) : str :=
  replace [_KOME_SENTINEL] (u "※［＃米印、1-2-8］") text.

Definition _symbols_to_zenkaku (text : str) : str :=
  let text :=
    re_sub (seqs [cls (u "‘’'"); Grp 1 (plus_lazy (Chr (fun c => negb (chr_eqb c dq || chr_eqb c nl))));
                  cls (u "‘’'")])
           (fun m => u "〝" ++ m_group m 1 ++ u "〟") text in
  let text :=
    re_sub (seqs [Chr (fun c => mem c (u "“”〝〟") || chr_eqb c dq);
                  Grp 1 (plus_lazy (Chr (fun c => negb (chr_eqb c dq || chr_eqb c nl))));
                  Chr (fun c => mem c (u "“”〝〟") || chr_eqb c dq)])
           (fun m => u "〝" ++ m_group m 1 ++ u "〟") text in
  let text :=
    translate
      (maketrans (u "-=+/*《》'" ++ [dq] ++ u "%$#&!?<>＜＞()|‐,._;:[]{}")
                 (u "－＝＋／＊≪≫’〝％＄＃＆！？〈〉〈〉（）｜－，．＿；：［］｛｝"))
      text in
  replace (u "\\") (u "￥") text.

(** [digit_class]: [\d０-９] and the kanji digits. *)
Definition is_digit_class (c : char) : bool :=
  is_digit c || in_range (ch "０") (ch "９") c || mem c _KANJI_NUM.

(** The class [[\d０-９,，]]. *)
Definition is_num_or_comma (c : char) : bool :=
  is_digit c || in_range (ch "０") (ch "９") c || mem c (u ",，").

Definition num_repl (num_and_comma : list str) (m : rmatch) : str * list str :=
  let token := m_text m in
  if mem (ch ",") token || mem (ch "，") token then
    if existsb is_digit token then
      (sentinel _NUM_SENTINEL_OPEN _NUM_SENTINEL_BASE _NUM_SENTINEL_CLOSE
         (length num_and_comma),
       num_and_comma ++ [replace (u "，") (u ",") token])
    else (token, num_and_comma)
  else (_digits_to_kanji token, num_and_comma).

(** The first substitution of [_convert_numbers]: a point between two
    digits becomes ・. *)
Definition decimal_point_to_nakaten (text : str) : str :=
  re_sub (seqs [Grp 1 (plus_lazy (Chr is_digit_class)); cls (u ".．");
                Grp 2 (plus_lazy (Chr is_digit_class))])
         (fun m => m_group m 1 ++ u "・" ++ m_group m 2) text.

Definition _convert_numbers (text : str) (text_type : text_type) : str * list str :=
  let text := decimal_point_to_nakaten text in
  if is_heading_kind text_type then
    (_hankaku_num_to_zenkaku_num text text_type, [])
  else re_sub_st (plus (Chr is_num_or_comma)) num_repl [] text.

Definition is_zenkaku_alpha (c : char) : bool :=
  in_range (ch "Ａ") (ch "Ｚ") c || in_range (ch "ａ") (ch "ｚ") c.
Definition is_kanji_num_run (c : char) : bool := mem c _KANJI_NUM || mem c (u "・～").

Definition _exception_reconvert_kanji_to_num (text : str) : str :=
  let to_zenkaku_digits := translate (maketrans _KANJI_NUM _ZENKAKU_NUM) in
  let text :=
    re_sub (seqs [Grp 1 (Chr is_zenkaku_alpha); Grp 2 (plus (Chr is_kanji_num_run))])
           (fun m => m_group m 1 ++ to_zenkaku_digits (m_group m 2)) text in
  re_sub (seqs [Grp 1 (plus (Chr is_kanji_num_run));
                Grp 2 (Chr (fun c => is_zenkaku_alpha c || mem c (u "％㎜㎝㎞㎎㎏㏄㎡㎥")))])
         (fun m => to_zenkaku_digits (m_group m 1) ++ m_group m 2) text.

Definition _insert_separate_space (text : str) : str :=
  let close_chars := u "」］｝] }』】〉》〕＞>≫)）" ++ [dq] ++ u "”’〟　☆★♪［―" in
  re_sub (seqs [Grp 1 (plus (cls (u "!?！？"))); Grp 2 (ncls (u "!?！？"))])
    (fun m =>
       let m1 := m_group m 1 in
       let m2 := m_group m 2 in
       let m2 := if existsb (str_eqb m2) [u " "; u "　"; u "、"; u "。"] then u "　" else m2 in
       if negb (existsb (fun c => mem c close_chars) m2) then m1 ++ u "　" ++ m2
       else m1 ++ m2)
    text.

Definition _convert_novel_rule (text : str) : str :=
  let text := re_sub (seqs [lit (ch "。"); Grp 1 (cls (u "」』）"))])
                     (fun m => m_group m 1) text in
  let text := re_sub (plus (cls (u "…")))
                     (fun m => if length (m_text m) mod 2 =? 0 then m_text m
                               else m_text m ++ u "…") text in
  let text := re_sub (plus (cls (u "‥")))
                     (fun m => if length (m_text m) mod 2 =? 0 then m_text m
                               else m_text m ++ u "‥") text in
  re_sub (lits (u "。　")) (fun _ => u "。") text.

Definition _convert_double_angle_quotation_to_gaiji (text : str) : str :=
  let text := replace (u "≪") (u "※［＃始め二重山括弧］") text in
  replace (u "≫") (u "※［＃終わり二重山括弧］") text.

Definition _restore_explicit_ruby (text : str) : str :=
  re_sub (seqs [lit (ch "｜"); Grp 1 (plus (ncls (u "｜≪≫\n"))); lit (ch "≪");
                Grp 2 (plus (ncls (u "≪≫\n"))); lit (ch "≫")])
    (fun m =>
       let base := m_group m 1 in
       let ruby := m_group m 2 in
       if re_fullmatch (plus (cls (u "…‥。．、,-"))) ruby then m_text m
       else u "｜" ++ base ++ u "《" ++ ruby ++ u "》")
    text.

Definition _replace_tatesen (text : str) : str :=
  let text :=
    re_sub (seqs [lit (ch "｜"); Grp 1 (plus (ncls (u "｜《》\n"))); lit (ch "《");
                  Grp 2 (plus (ncls (u "《》\n"))); lit (ch "》")])
           (fun m => u "［＃ルビ用縦線］" ++ m_group m 1 ++ u "《" ++ m_group m 2 ++ u "》")
           text in
  let text := replace (u "｜") (u "※［＃縦線］") text in
  replace (u "［＃ルビ用縦線］") (u "｜") text.

Definition _auto_join_line (text : str) : str :=
  re_sub
    (seqs [Grp 1 (ncls (u "、")); lit (ch "、"); lit nl;
           star (Seq (star (cls (u " 　\t"))) (lit nl));
           lit (ch "　");
           Grp 2 (Chr (fun c => negb (mem c (u "「『(（【<＜〈《≪・■…‥―　") ||
                                      in_range (ch "１") (ch "９") c ||
                                      in_range (ch "一") (ch "九") c)))])
    (fun m => m_group m 1 ++ u "、" ++ m_group m 2) text.

(** Both branches of [_ensure_story_linebreaks] return the text. *)
Definition _ensure_story_linebreaks (text : str) : str :=
  if negb (mem (ch "<") text) && negb (mem (ch ">") text) then text else text.

Definition _half_indent_bracket (text : str) : str :=
  re_sub (seqs [Bol; star (cls (u " 　\t"));
                Grp 1 (Alt (cls (u "〔「『(（【〈《≪〝")) (lits (u "※［＃始め二重山括弧］")))])
         (fun m => u "［＃二分アキ］" ++ m_group m 1) text.

(** The class [[　\s]]. *)
Definition is_ws (c : char) : bool := chr_eqb c (ch "　") || is_space c.

(** [re.sub(r'[ 　\t]+$', '', text, flags=re.MULTILINE)] *)
Definition strip_line_ends (text : str) : str :=
  re_sub (Seq (plus (cls (u " 　\t"))) Eol) (fun _ => []) text.

(** [re.sub(r'[　\s]+\Z', '', text)] *)
Definition strip_text_end (text : str) : str :=
  re_sub (Seq (plus (Chr is_ws)) EndZ) (fun _ => []) text.

Section Pipeline.
(** [html.unescape] of Python's standard library. *)
Variable html_unescape : str -> str.

(** The inner function [ruby_repl] of [_html_to_aozora]. *)
Definition ruby_repl (m : rmatch) : str :=
  let ruby_inner := m_group m 1 in
  let splited_ruby := re_split (ilits (u "<rt>")) None ruby_inner in
  match splited_ruby with
  | s0 :: s1 :: _ =>
      let ruby_base := _delete_tag (hd [] (re_split (ilits (u "<rp>")) (Some 1) s0)) in
      let ruby_text := _delete_tag (hd [] (re_split (ilits (u "<rp>")) (Some 1) s1)) in
      if re_fullmatch (plus (cls (u "・、"))) ruby_text then
        u "［＃傍点］" ++ ruby_base ++ u "［＃傍点終わり］"
      else u "｜" ++ ruby_base ++ u "《" ++ ruby_text ++ u "》"
  | _ => _delete_tag (hd [] splited_ruby)
  end.

Definition _html_to_aozora (value : str) (pre_html : bool) : str :=
  if is_empty value then []
  else
    let text := value in
    let text :=
      if negb pre_html then
        let text := re_sub (plus (cls (u "\r\n"))) (fun _ => []) text in
        re_sub (seqs [ilits (u "<br"); star_lazy dot; lit (ch ">")]) (fun _ => u "\n") text
      else text in
    let text := re_sub (seqs [opt (lit nl); ilits (u "</p>")]) (fun _ => u "\n") text in
    let text := re_sub (seqs [ilits (u "<ruby>"); Grp 1 (plus_lazy dot_all); ilits (u "</ruby>")])
                       ruby_repl text in
    let text := re_sub (ilits (u "<b>")) (fun _ => u "［＃太字］") text in
    let text := re_sub (ilits (u "</b>")) (fun _ => u "［＃太字終わり］") text in
    let text := re_sub (ilits (u "<i>")) (fun _ => u "［＃斜体］") text in
    let text := re_sub (ilits (u "</i>")) (fun _ => u "［＃斜体終わり］") text in
    let text := re_sub (ilits (u "<s>")) (fun _ => u "［＃取消線］") text in
    let text := re_sub (ilits (u "</s>")) (fun _ => u "［＃取消線終わり］") text in
    let text :=
      re_sub (seqs [ilits (u "<img"); plus_lazy dot; ilits (u "src="); lit dq;
                    Grp 1 (plus_lazy dot); lit dq; star_lazy dot; lit (ch ">")])
             (fun m => u "［＃挿絵（" ++ m_group m 1 ++ u "）入る］") text in
    let text :=
      re_sub (seqs [lits (u "<em class=" ++ [dq] ++ u "emphasisDots" ++ [dq] ++ u ">");
                    Grp 1 (plus_lazy dot_all); lits (u "</em>")])
             (fun m => u "［＃傍点］" ++ m_group m 1 ++ u "［＃傍点終わり］") text in
    let text := _delete_tag text in
    html_unescape text.

Definition _convert_html_fragment_to_aozora (value : str) (text_type : text_type) : str :=
  if is_empty value then []
  else
    let pre_html :=
      match text_type with Story => true | _ => false end &&
      negb (mem (ch "<") value) && negb (mem (ch ">") value) in
    let text := _html_to_aozora value pre_html in
    let text := _hankakukana_to_zenkakukana text in
    let text := match text_type with
                | Story => _ensure_story_linebreaks text
                | _ => text
                end in
    let text := _auto_join_line text in
    let text := replace (u "【改ページ】") [] text in
    let text := re_sub (ilits (u "<KBR>")) (fun _ => u "\n") text in
    let text := re_sub (ilits (u "<PBR>")) (fun _ => u "\n") text in
    let '(text, urls) := _stash_urls text in
    let '(text, english_sentences) := _stash_english_sentences text in
    let text := _stash_kome text in
    let text := _symbols_to_zenkaku text in
    let '(text, num_and_comma) := _convert_numbers text text_type in
    let text := if negb (is_heading_kind text_type)
                then _exception_reconvert_kanji_to_num text else text in
    let text := _insert_separate_space text in
    let text := _convert_tatechuyoko text in
    let text := _convert_novel_rule text in
    let text := _convert_horizontal_ellipsis text in
    let text := _restore_explicit_ruby text in
    let text := _replace_tatesen text in
    let text := _convert_double_angle_quotation_to_gaiji text in
    let text := _rebuild_english_sentences text english_sentences in
    let text := _rebuild_hankaku_num_and_comma text num_and_comma in
    let text := _rebuild_urls text urls in
    let text := _rebuild_kome_to_gaiji text in
    let text := re_sub (at_least 3 (lit (ch "　"))) (fun _ => u "　　") text in
    let text :=
      match text_type with
      | Body | Textfile =>
          let text := _half_indent_bracket text in
          let text := _pack_blank_lines text in
          _convert_tatechuyoko text
      | Introduction | Postscript => _pack_blank_lines text
      | _ => text
      end in
    let text := strip_line_ends text in
    strip_text_end text.
End Pipeline.

(** [html.unescape] on a string that holds no ['&']: the library returns
    such a string as it is.  It stands for [html.unescape] in the concrete
    runs of the pipeline below, whose fragments hold no ['&']. *)
Definition unescape_plain (s : str) : str := s.

(** [sub in s] *)
Fixpoint occurs (sub s : str) : bool :=
  starts_with sub s || match s with [] => false | _ :: t => occurs sub t end.

(* ================================================================== *)
(** ** Stash and restore, in general *)












(* ================================================================== *)
(** ** Notions for the character substitutions *)

(** [s] with every occurrence of the character [c] replaced by [new]. *)
Definition subst_char (c : char) (new : str) (s : str) : str :=
  flat_map (fun x => if chr_eqb c x then new else [x]) s.

(** The full-width letter of a half-width letter; any other character
    stays. *)
Definition zenkaku_alpha (c : char) : char :=
  if is_alpha c then (c + 0xFEE0)%N else c.

(** The keys of the table of [_symbols_to_zenkaku]. *)
Definition symbol_keys : str :=
  u "-=+/*《》'" ++ [dq] ++ u "%$#&!?<>＜＞()|‐,._;:[]{}".

(** What [_hankakukana_to_zenkakukana] writes for a character. *)
Definition dash_image (c : char) : char :=
  if chr_eqb (ch "－") c then ch "−" else if chr_eqb (ch "—") c then ch "―" else c.

(* ================================================================== *)
(** ** Notions for the patterns *)

(** Every match of [r] reads a character of the class [ok]: a sufficient
    condition, read off the syntax of the pattern. *)
Fixpoint needs (ok : char -> bool) (r : regex) : Prop :=
  match r with
  | Chr p => forall c, p c = true -> ok c = true
  | Seq r1 r2 => needs ok r1 \/ needs ok r2
  | Alt r1 r2 => needs ok r1 /\ needs ok r2
  | Rep _ lo _ r1 => 1 <= lo /\ needs ok r1
  | Grp _ r1 => needs ok r1
  | Eps | Bol | Eol | EndZ => False
  end.

(** No character of [s] is in the class [ok]. *)
Definition free_of (ok : char -> bool) (s : str) : bool :=
  forallb (fun c => negb (ok c)) s.

(** [a] is [b] with some characters deleted. *)
Inductive subseq : str -> str -> Prop :=
| subseq_nil : subseq [] []
| subseq_drop a c b : subseq a b -> subseq a (c :: b)
| subseq_keep a c b : subseq a b -> subseq (c :: a) (c :: b).

(** The two shapes of a normalized border line: five or more ＊, or one or
    more of the decorative characters. *)
Definition star_line (b : str) : bool :=
  (5 <=? length b) && forallb (chr_eqb (ch "＊")) b.
Definition deco_line (b : str) : bool :=
  (1 <=? length b) && forallb (fun c => mem c (u "◆◇■□●○★☆")) b.

(** The number of empty lines a list of lines begins with, and the test
    that it holds no run of more than [n] empty lines. *)
Fixpoint blank_prefix (ls : list str) : nat :=
  match ls with
  | l :: r => if is_empty l then S (blank_prefix r) else 0
  | [] => 0
  end.

Fixpoint blank_runs_le (n : nat) (ls : list str) : bool :=
  match ls with
  | [] => true
  | _ :: r => (blank_prefix ls <=? n) && blank_runs_le n r
  end.

(** A line as the loop of [_pack_blank_lines] appends it for a line that
    is not blank: without newline, not empty, without trailing whitespace. *)
Definition emitted_line (l : str) : Prop :=
  nl_free l = true /\ l <> [] /\ rstrip is_sp l = l.

(** [$] under [re.MULTILINE] at the head of [s]: the end of the string or a
    line break. *)
Definition eol_next (s : str) : bool :=
  match s with [] => true | c :: _ => chr_eqb c nl end.

(** [text] with the trailing [p]-characters of every line removed. *)
Definition rstrip_lines (p : char -> bool) (text : str) : str :=
  join [nl] (map (rstrip p) (split_on nl text)).

(* ================================================================== *)
(** ** Notions for plain text *)

(** Hiragana, katakana with the long vowel mark, and the CJK unified
    ideographs: the characters of ordinary Japanese text that no stage
    of the converter rewrites. *)
Definition is_kana_kanji (c : char) : bool :=
  in_range 0x3041 0x3096 c || in_range 0x30A1 0x30FA c || chr_eqb c 0x30FC ||
  in_range 0x4E00 0x9FFF c.

Definition not_kana_kanji (c : char) : bool := negb (is_kana_kanji c).

(** The range [a-b] holds none of these characters. *)
Definition range_clear (a b : N) : bool :=
  ((b <? 0x3041) || ((0x3096 <? a) && (b <? 0x30A1)) ||
   ((0x30FA <? a) && (b <? 0x30FC)) || ((0x30FC <? a) && (b <? 0x4E00)) ||
   (0x9FFF <? a))%N.

(** Every maximal run of [c] in [s] has an even length; [n] counts the
    copies of [c] read just before [s]. *)
Fixpoint even_runs (c : char) (n : nat) (s : str) : bool :=
  match s with
  | [] => Nat.even n
  | x :: t =>
      if chr_eqb x c then even_runs c (S n) t
      else Nat.even n && even_runs c 0 t
  end.

(** The class [[!?！？]] and the string [close_chars] of
    [_insert_separate_space]. *)
Definition is_exclamation (c : char) : bool := mem c (u "!?！？").
Definition close_chars : str :=
  u "」］｝] }』】〉》〕＞>≫)）" ++ [dq] ++ u "”’〟　☆★♪［―".

(** What a substitution of the shape of [_half_indent_bracket] makes of one
    line: the [sp]-characters that begin the line are replaced by [mark]
    when a character of [opening] or the string [gaiji] follows them. *)
Definition mark_line (sp : char -> bool) (opening gaiji mark line : str) : str :=
  let body := lstrip sp line in
  if starts_with gaiji body then mark ++ body
  else match body with
       | c :: _ => if mem c opening then mark ++ body else line
       | [] => line
       end.

Definition half_indent_line : str -> str :=
  mark_line is_sp (u "〔「『(（【〈《≪〝") (u "※［＃始め二重山括弧］") (u "［＃二分アキ］").

(** [prev] is the start of the text or a line feed: [^] of [re.MULTILINE]
    matches behind it. *)
Definition line_start (prev : option char) : bool :=
  match prev with None => true | Some c => chr_eqb c nl end.

(** The inner function [to_zenkaku_digits] of
    [_exception_reconvert_kanji_to_num], on one character. *)
Definition kanji_to_zenkaku (c : char) : char :=
  translate_char (maketrans _KANJI_NUM _ZENKAKU_NUM) c.

(** [b] is [a], or the full-width digit of the kanji numeral [a]. *)
Definition digit_or_same (a b : char) : Prop :=
  b = a \/ (mem a _KANJI_NUM = true /\ b = kanji_to_zenkaku a).

(** The class of the character that begins the joined line in
    [_auto_join_line]. *)
Definition join_head_ok (c : char) : bool :=
  negb (mem c (u "「『(（【<＜〈《≪・■…‥―　") ||
        in_range (ch "１") (ch "９") c ||
        in_range (ch "一") (ch "九") c).

(** The lines of the text after the two replacements that end
    [_pack_blank_lines], given its lines before them. *)
Definition fixups (ls : list str) : list str :=
  merge_all question_quote (merge_all bang_quote ls).

(** The kind of the nearest line before a position that is not blank:
    none, a border line, or an ordinary line. *)
Inductive line_kind : Type := NoLine | BorderLine | OrdinaryLine.

Definition kind_of_line (l : str) : line_kind :=
  if is_border l then BorderLine else OrdinaryLine.

(** What the loop of [_pack_blank_lines] knows of the lines before the
    current one: nothing appended yet, a border line last, or an ordinary
    line last. *)
Definition state_kind (st : pack_state) : line_kind :=
  if is_nil (packed st) then NoLine
  else if prev_border st then BorderLine else OrdinaryLine.

(** The number of empty lines that the loop of [_pack_blank_lines] appends
    before a line [l] that is not blank, which stands behind [run] blank
    lines and a line of kind [k]. *)
Definition blanks_for (k : line_kind) (run : nat) (l : str) : nat :=
  if is_border l then
    if 0 <? run then (if in_1_3 run then 1 else 2)
    else match k with NoLine => 0 | _ => 1 end
  else
    match k with
    | NoLine => if 1 <=? run then 1 else 0
    | BorderLine => if 1 <=? run then (if in_1_3 run then 1 else 2) else 0
    | OrdinaryLine =>
        if 2 <=? run then
          1 + (if 4 <=? run then 1 else 0) + (if 8 <=? run then 1 else 0) +
          (if 10 <=? run then 1 else 0)
        else 0
    end.

(** The lines that the loop appends for the lines [ls], read behind [run]
    blank lines and a line of kind [k]. *)
Fixpoint pack_out (k : line_kind) (run : nat) (ls : list str) : list str :=
  match ls with
  | [] => []
  | l :: r =>
      if is_blank l then pack_out k (S run) r
      else repeat [] (blanks_for k run l) ++ emitted l :: pack_out (kind_of_line l) 0 r
  end.

(** The line begins with ！」 or with ？」. *)
Definition begins_joined (l : str) : bool :=
  starts_with bang_quote l || starts_with question_quote l.

(** The lines [ls], read behind [run] blank lines and a line of kind [k]:
    two ordinary lines have at most one blank line between them, and no
    line that begins with ！」 or ？」 has a border line as the nearest line
    before it that is not blank. *)
Fixpoint spaced_from (k : line_kind) (run : nat) (ls : list str) : bool :=
  match ls with
  | [] => true
  | l :: r =>
      if is_blank l then spaced_from k (S run) r
      else if is_border l then spaced_from BorderLine 0 r
      else
        match k with
        | NoLine => true
        | BorderLine => negb (begins_joined l)
        | OrdinaryLine => run <=? 1
        end && spaced_from OrdinaryLine 0 r
  end.

Definition spaced (ls : list str) : bool := spaced_from NoLine 0 ls.

(** A line of a text that [_pack_blank_lines] returns as it is: an empty
    line; or a border line as the loop emits it, or an ordinary line as the
    loop emits it, behind as many empty lines as the loop appends there;
    and a line that begins with ！」 or ？」 stands directly behind an
    ordinary line, or has no line before it that is not blank. *)
Definition settle_ok (k : line_kind) (run : nat) (l : str) : Prop :=
  match l with
  | [] => True
  | _ :: _ =>
      blanks_for k run l = run /\
      if is_border l then emitted l = l
      else packed_line l /\
           (begins_joined l = true -> k <> BorderLine /\ (run = 0 \/ k = NoLine))
  end.

Fixpoint settled_from (k : line_kind) (run : nat) (ls : list str) : Prop :=
  match ls with
  | [] => run = 0
  | l :: r =>
      settle_ok k run l /\
      settled_from (if is_empty l then k else kind_of_line l)
                   (if is_empty l then S run else 0) r
  end.

(* ================================================================== *)
(** ** Notions for the protected spans *)

(** The words that a pattern can read, with the groups it captures on the
    way (the newest first): the language of the pattern, the anchors
    reading nothing. *)
Inductive langc : regex -> str -> list (nat * str) -> Prop :=
| langc_eps : langc Eps [] []
| langc_chr p c : p c = true -> langc (Chr p) [c] []
| langc_bol : langc Bol [] []
| langc_eol : langc Eol [] []
| langc_endz : langc EndZ [] []
| langc_seq r1 r2 w1 w2 c1 c2 :
    langc r1 w1 c1 -> langc r2 w2 c2 -> langc (Seq r1 r2) (w1 ++ w2) (c2 ++ c1)
| langc_alt_l r1 r2 w c : langc r1 w c -> langc (Alt r1 r2) w c
| langc_alt_r r1 r2 w c : langc r2 w c -> langc (Alt r1 r2) w c
| langc_rep_stop g hi r : langc (Rep g 0 hi r) [] []
| langc_rep_more g lo hi r w1 w2 c1 c2 :
    langc r w1 c1 -> langc (Rep g (pred lo) (hi_pred hi) r) w2 c2 ->
    langc (Rep g lo hi r) (w1 ++ w2) (c2 ++ c1)
| langc_grp i r w c : langc r w c -> langc (Grp i r) w ((i, w) :: c).

(** What the matcher has read and captured between two of its states. *)
Definition reads (st st2 : mstate) (w : str) (c : list (nat * str)) : Prop :=
  ms_rest st = w ++ ms_rest st2 /\
  ms_len st2 = ms_len st + length w /\
  ms_caps st2 = c ++ ms_caps st.

(** Every character class of the pattern lies in the class [P]. *)
Fixpoint only (P : char -> bool) (r : regex) : Prop :=
  match r with
  | Chr p => forall c, p c = true -> P c = true
  | Seq r1 r2 | Alt r1 r2 => only P r1 /\ only P r2
  | Rep _ _ _ r1 | Grp _ r1 => only P r1
  | Eps | Bol | Eol | EndZ => True
  end.

(** [holds spans x]: the strings [spans] occur in [x] one behind the
    other, in this order and without overlap. *)
Inductive holds : list str -> str -> Prop :=
| holds_nil x : holds [] x
| holds_skip c x spans : holds spans x -> holds spans (c :: x)
| holds_span s x spans : holds spans x -> holds (s :: spans) (s ++ x).

(** The private-use characters from U+E000 up to U+FF00, the last
    character before the full-width forms: the sentinels of the protected
    spans are made of them as long as the index of a span is small
    enough. *)
Definition is_private (c : char) : bool := in_range 0xE000 0xFF00 c.

(** The text that [_convert_html_fragment_to_aozora] gives to
    [_stash_urls], for a [value] that is not empty. *)
Definition text_before_stash (html_unescape : str -> str) (value : str)
    (text_type : text_type) : str :=
  let pre_html :=
    match text_type with Story => true | _ => false end &&
    negb (mem (ch "<") value) && negb (mem (ch ">") value) in
  let text := _html_to_aozora html_unescape value pre_html in
  let text := _hankakukana_to_zenkakukana text in
  let text := match text_type with
              | Story => _ensure_story_linebreaks text
              | _ => text
              end in
  let text := _auto_join_line text in
  let text := replace (u "【改ページ】") [] text in
  let text := re_sub (ilits (u "<KBR>")) (fun _ => u "\n") text in
  re_sub (ilits (u "<PBR>")) (fun _ => u "\n") text.

(** The stages of [_convert_html_fragment_to_aozora] between the three
    stash steps and the three restore steps, from [_stash_kome] to
    [_convert_numbers] and from there to
    [_convert_double_angle_quotation_to_gaiji]. *)
Definition stages_to_numbers (text : str) : str :=
  _symbols_to_zenkaku (_stash_kome text).

Definition stages_to_restore (text : str) (text_type : text_type) : str :=
  let text := if negb (is_heading_kind text_type)
              then _exception_reconvert_kanji_to_num text else text in
  let text := _insert_separate_space text in
  let text := _convert_tatechuyoko text in
  let text := _convert_novel_rule text in
  let text := _convert_horizontal_ellipsis text in
  let text := _restore_explicit_ruby text in
  let text := _replace_tatesen text in
  _convert_double_angle_quotation_to_gaiji text.

(** The stages behind the three restore steps. *)
Definition stages_after_restore (text : str) (text_type : text_type) : str :=
  let text := _rebuild_kome_to_gaiji text in
  let text := re_sub (at_least 3 (lit (ch "　"))) (fun _ => u "　　") text in
  let text :=
    match text_type with
    | Body | Textfile =>
        let text := _half_indent_bracket text in
        let text := _pack_blank_lines text in
        _convert_tatechuyoko text
    | Introduction | Postscript => _pack_blank_lines text
    | _ => text
    end in
  let text := strip_line_ends text in
  strip_text_end text.

(* ================================================================== *)
(** * Properties *)

(** ** Equality tests *)

Lemma chr_eqb_spec a b : reflect (a = b) (chr_eqb a b).
Proof. apply N.eqb_spec. Qed.

Lemma str_eqb_spec a b : reflect (a = b) (str_eqb a b).
Proof.
  revert b; induction a as [|x a IH]; intros [|y b]; simpl; try (constructor; congruence).
  destruct (chr_eqb_spec x y) as [->|Hn]; simpl.
  - destruct (IH b) as [->|Hn]; constructor; congruence.
  - constructor; congruence.
Qed.


(** ** The matcher on a run of one character class *)

Section ClassRun.
Variable p : char -> bool.

Lemma ms_skip_len st n :
  n <= length (ms_rest st) -> ms_len (ms_skip st n) = ms_len st + n.
Proof.
  revert st; induction n as [|n IH]; intros [pv rest len caps] Hn; simpl in *.
  - lia.
  - destruct rest as [|c t]; simpl in *; [lia|].
    rewrite IH; simpl; lia.
Qed.

Lemma ms_skip_rest st n : ms_rest (ms_skip st n) = skipn n (ms_rest st).
Proof.
  revert st; induction n as [|n IH]; intros [pv rest len caps]; simpl.
  - reflexivity.
  - destruct rest as [|c t]; simpl; [reflexivity|].
    rewrite IH; reflexivity.
Qed.

Lemma ms_skip_caps st n : ms_caps (ms_skip st n) = ms_caps st.
Proof.
  revert st; induction n as [|n IH]; intros [pv rest len caps]; simpl.
  - reflexivity.
  - destruct rest as [|c t]; simpl; [reflexivity|].
    rewrite IH; reflexivity.
Qed.

Lemma run_len_le s : run_len p s <= length s.
Proof. induction s as [|c t IH]; simpl; [lia|]. destruct (p c); simpl; lia. Qed.

(** A greedy quantifier over one class reads the whole run, when the
    run is long enough. *)
Lemma rep_class_accept fuel lo st :
  length (ms_rest st) < fuel ->
  rep_loop (mt (Chr p)) true lo None fuel st accept =
  if lo <=? run_len p (ms_rest st)
  then Some (ms_skip st (run_len p (ms_rest st))) else None.
Proof.
  revert lo st; induction fuel as [|fuel IH]; intros lo [pv rest len caps] Hf;
    simpl in Hf; [lia|].
  destruct rest as [|c t].
  - destruct lo; reflexivity.
  - cbn [rep_loop hi_open hi_pred mt ms_rest run_len].
    destruct (p c) eqn:Hp.
    + cbn [ms_advance ms_rest length].
      assert (Hlt : (length t <? S (length t)) = true) by (apply Nat.ltb_lt; lia).
      rewrite Hlt, IH by (simpl in *; lia).
      cbn [ms_rest ms_skip].
      destruct lo as [|lo]; cbn [pred Nat.leb]; [|reflexivity].
      reflexivity.
    + destruct lo; reflexivity.
Qed.

(** Anchored at the end of the string, the quantifier matches exactly
    the strings made of the class that are long enough. *)
Lemma rep_class_at_end fuel lo st :
  length (ms_rest st) < fuel ->
  rep_loop (mt (Chr p)) true lo None fuel st at_end =
  if (lo <=? length (ms_rest st)) && forallb p (ms_rest st)
  then Some (ms_skip st (length (ms_rest st))) else None.
Proof.
  revert lo st; induction fuel as [|fuel IH]; intros lo [pv rest len caps] Hf;
    simpl in Hf; [lia|].
  destruct rest as [|c t].
  - destruct lo; reflexivity.
  - cbn [rep_loop hi_open hi_pred mt ms_rest forallb length].
    destruct (p c) eqn:Hp.
    + cbn [ms_advance ms_rest length].
      assert (Hlt : (length t <? S (length t)) = true) by (apply Nat.ltb_lt; lia).
      rewrite Hlt, IH by (simpl in *; lia).
      cbn [ms_advance ms_rest ms_skip andb].
      destruct lo as [|lo]; cbn [pred Nat.leb andb].
      * destruct (forallb p t); reflexivity.
      * reflexivity.
    + rewrite andb_false_r. destruct lo; reflexivity.
Qed.

Lemma fullmatch_class lo s :
  re_fullmatch (Rep true lo None (Chr p)) s = (lo <=? length s) && forallb p s.
Proof.
  unfold re_fullmatch. cbn [mt].
  rewrite rep_class_at_end by (simpl; lia).
  cbn [ms_init ms_rest].
  destruct ((lo <=? length s) && forallb p s); reflexivity.
Qed.

Lemma match_here_class lo pos prev s :
  match_here (Rep true lo None (Chr p)) pos prev s =
  if lo <=? run_len p s
  then Some (RMatch (firstn (run_len p s) s) [] pos prev
                    (hd_error (skipn (run_len p s) s)), run_len p s)
  else None.
Proof.
  unfold match_here. cbn [mt].
  rewrite rep_class_accept by (simpl; lia).
  cbn [ms_init ms_rest].
  destruct (lo <=? run_len p s); [|reflexivity].
  rewrite ms_skip_len, ms_skip_rest, ms_skip_caps by (apply run_len_le).
  reflexivity.
Qed.
End ClassRun.

(** ** [re.sub] over the runs of one character class

    For a pattern [[class]{lo,}] the matches are the maximal runs of the
    class that have at least [lo] characters.  The replacement function
    reads the run, whether it starts the string, and the characters next to
    it on both sides. *)

Lemma prev_after_cons (x y : option char) (t : str) :
  t <> [] -> prev_after x t = prev_after y t.
Proof. destruct t; [congruence|reflexivity]. Qed.

Lemma prev_after_app x a b : prev_after x (a ++ b) = prev_after (prev_after x a) b.
Proof. revert x; induction a as [|c a IH]; intros x; simpl; auto. Qed.

Lemma no_last_tail p c t : no_last p (c :: t) -> t <> [] -> no_last p t.
Proof.
  unfold no_last; simpl; intros H Ht.
  rewrite (prev_after_cons None (Some c)) by assumption. exact H.
Qed.

Section RunSub.
Variable p : char -> bool.
Variable lo : nat.
Hypothesis lo_pos : 1 <= lo.
Variable g : str -> bool -> option char -> option char -> str.

Let R : regex := Rep true lo None (Chr p).
Let repl : rmatch -> str :=
  fun m => g (m_text m) (Nat.eqb (m_start m) 0) (m_prev m) (m_next m).

Lemma match_here_run pos prev s :
  match_here R pos prev s =
  if lo <=? run_len p s
  then Some (RMatch (firstn (run_len p s) s) [] pos prev
                    (hd_error (skipn (run_len p s) s)), run_len p s)
  else None.
Proof. apply match_here_class. Qed.

Lemma run_len_all run rest :
  forallb p run = true -> no_head p rest -> run_len p (run ++ rest) = length run.
Proof.
  induction run as [|c run IH]; simpl; intros Hall Hh.
  - destruct rest as [|d rest]; simpl in *; [reflexivity|now rewrite Hh].
  - apply andb_true_iff in Hall as [Hc Hall]. rewrite Hc, IH by assumption. reflexivity.
Qed.

Lemma sub_nil pos prev : sub_loop R repl 0 pos prev [] = [].
Proof.
  cbn [sub_loop]. rewrite match_here_run. cbn [run_len].
  destruct lo; [lia|reflexivity].
Qed.

Lemma sub_nonp pos prev c t :
  p c = false ->
  sub_loop R repl 0 pos prev (c :: t) = c :: sub_loop R repl 0 (S pos) (Some c) t.
Proof.
  intros Hc. cbn [sub_loop]. rewrite match_here_run.
  cbn [run_len]. rewrite Hc. destruct lo; [lia|reflexivity].
Qed.

Lemma sub_skip a rest pos prev :
  sub_loop R repl (length a) pos prev (a ++ rest) =
  sub_loop R repl 0 (pos + length a) (prev_after prev a) rest.
Proof.
  revert pos prev; induction a as [|c a IH]; intros pos prev; simpl.
  - rewrite Nat.add_0_r. reflexivity.
  - rewrite IH. f_equal. lia.
Qed.

Lemma sub_run run rest pos prev :
  run <> [] -> forallb p run = true -> no_head p rest -> lo <= length run ->
  sub_loop R repl 0 pos prev (run ++ rest) =
  g run (Nat.eqb pos 0) prev (hd_error rest) ++
  sub_loop R repl 0 (pos + length run) (prev_after prev run) rest.
Proof.
  intros Hne Hall Hh Hlo.
  destruct run as [|c run]; [congruence|].
  cbn [app sub_loop]. rewrite match_here_run.
  change (c :: run ++ rest) with ((c :: run) ++ rest).
  rewrite run_len_all by assumption.
  apply Nat.leb_le in Hlo. rewrite Hlo.
  rewrite firstn_app, Nat.sub_diag, firstn_all, firstn_O, app_nil_r.
  rewrite skipn_app, Nat.sub_diag, skipn_all, skipn_O.
  cbn [length app].
  rewrite sub_skip. unfold repl at 1. cbn [m_text m_start m_prev m_next prev_after].
  f_equal. f_equal. lia.
Qed.

Lemma sub_short run rest pos prev :
  forallb p run = true -> no_head p rest -> length run < lo ->
  sub_loop R repl 0 pos prev (run ++ rest) =
  run ++ sub_loop R repl 0 (pos + length run) (prev_after prev run) rest.
Proof.
  revert pos prev; induction run as [|c run IH]; intros pos prev Hall Hh Hlo.
  - simpl. rewrite Nat.add_0_r. reflexivity.
  - cbn [app sub_loop]. rewrite match_here_run.
    change (c :: run ++ rest) with ((c :: run) ++ rest).
    rewrite run_len_all by assumption.
    apply Nat.leb_gt in Hlo as Hlo'. rewrite Hlo'.
    simpl in Hall. apply andb_true_iff in Hall as [_ Hall].
    rewrite IH; [|assumption|assumption|simpl in Hlo; lia].
    cbn [prev_after length].
    replace (pos + S (length run)) with (S pos + length run) by lia. reflexivity.
Qed.

Lemma sub_shift s skip pos pos' prev :
  sub_loop R repl skip (S pos) prev s = sub_loop R repl skip (S pos') prev s.
Proof.
  revert skip pos pos' prev; induction s as [|c t IH]; intros skip pos pos' prev.
  - destruct skip; [|reflexivity]. now rewrite !sub_nil.
  - cbn [sub_loop]. destruct skip as [|k]; [|apply IH].
    rewrite !match_here_run.
    destruct (lo <=? run_len p (c :: t)).
    + unfold repl at 1 3. cbn [m_text m_start m_prev m_next Nat.eqb].
      f_equal. destruct (run_len p (c :: t)); [f_equal|]; apply IH.
    + f_equal. apply IH.
Qed.

Lemma sub_context s pos pos' prev prev' :
  no_head p s ->
  sub_loop R repl 0 pos prev s = sub_loop R repl 0 pos' prev' s.
Proof.
  destruct s as [|c t]; intros Hh.
  - now rewrite !sub_nil.
  - simpl in Hh. rewrite !sub_nonp by assumption. f_equal. apply sub_shift.
Qed.

Lemma run_len_closed pre x :
  pre <> [] -> no_last p pre ->
  run_len p (pre ++ x) = run_len p pre /\ run_len p pre < length pre.
Proof.
  induction pre as [|c t IH]; intros Hne Hl; [congruence|].
  cbn [app run_len length]. destruct (p c) eqn:Hc; [|split; [reflexivity|lia]].
  destruct t as [|d t].
  - unfold no_last in Hl. simpl in Hl. congruence.
  - destruct IH as [E L]; [congruence|apply (no_last_tail _ _ _ Hl); congruence|].
    rewrite E. split; [reflexivity|lia].
Qed.

Lemma sub_app_skip pre x skip pos prev :
  no_last p pre -> skip = 0 \/ skip < length pre ->
  sub_loop R repl skip pos prev (pre ++ x) =
  sub_loop R repl skip pos prev pre ++
  sub_loop R repl 0 (pos + length pre) (prev_after prev pre) x.
Proof.
  revert skip pos prev; induction pre as [|c t IH]; intros skip pos prev Hl Hs.
  - destruct Hs as [->|Hs]; [|simpl in Hs; lia].
    simpl. rewrite Nat.add_0_r. destruct (match_here R pos prev []) eqn:E.
    + pose proof (sub_nil pos prev) as Hn. cbn [sub_loop] in Hn. rewrite E in Hn.
      destruct p0. rewrite Hn. reflexivity.
    + reflexivity.
  - assert (Htl : t <> [] -> no_last p t) by (apply (no_last_tail _ _ _ Hl)).
    assert (Hnil : no_last p []) by exact I.
    assert (IH' : forall skip pos prev, skip = 0 \/ skip < length t ->
              sub_loop R repl skip pos prev (t ++ x) =
              sub_loop R repl skip pos prev t ++
              sub_loop R repl 0 (pos + length t) (prev_after prev t) x).
    { intros. apply IH; [|assumption]. destruct t; [exact I|apply Htl; congruence]. }
    cbn [app sub_loop prev_after length].
    replace (pos + S (length t)) with (S pos + length t) by lia.
    destruct skip as [|k].
    + rewrite !match_here_run.
      change (c :: t ++ x) with ((c :: t) ++ x).
      destruct (run_len_closed (c :: t) x) as [E L]; [congruence|assumption|].
      rewrite E. destruct (lo <=? run_len p (c :: t)) eqn:Hlo.
      * rewrite firstn_app.
        replace (run_len p (c :: t) - length (c :: t)) with 0 by lia.
        rewrite firstn_O, app_nil_r.
        rewrite skipn_app.
        replace (run_len p (c :: t) - length (c :: t)) with 0 by lia.
        rewrite skipn_O.
        assert (Hhd : hd_error (skipn (run_len p (c :: t)) (c :: t) ++ x) =
                      hd_error (skipn (run_len p (c :: t)) (c :: t))).
        { destruct (skipn (run_len p (c :: t)) (c :: t)) eqn:Es; [|reflexivity].
          apply (f_equal (@length _)) in Es. rewrite length_skipn in Es.
          simpl length in Es at 2. lia. }
        rewrite Hhd, <- app_assoc. f_equal.
        destruct (run_len p (c :: t)) as [|k] eqn:En.
        -- simpl. f_equal. apply IH'. now left.
        -- apply IH'. simpl in L. right; lia.
      * simpl. f_equal. apply IH'. now left.
    + apply IH'. destruct Hs as [Hs|Hs]; [discriminate|]. simpl in Hs. right; lia.
Qed.

(** The replacement of one run, in its context. *)
Lemma re_sub_run pre run post :
  no_last p pre -> run <> [] -> forallb p run = true -> no_head p post ->
  re_sub R repl (pre ++ run ++ post) =
  re_sub R repl pre ++
  (if lo <=? length run
   then g run (is_nil pre) (prev_after None pre) (hd_error post)
   else run) ++
  re_sub R repl post.
Proof.
  intros Hl Hne Hall Hh. unfold re_sub.
  rewrite sub_app_skip by (auto).
  f_equal. cbn [Nat.add].
  destruct (lo <=? length run) eqn:Hlo.
  - apply Nat.leb_le in Hlo. rewrite sub_run by assumption.
    f_equal.
    + f_equal. destruct pre; reflexivity.
    + apply sub_context; assumption.
  - apply Nat.leb_gt in Hlo. rewrite sub_short by assumption.
    f_equal. apply sub_context; assumption.
Qed.

Lemma run_len_prefix s : forallb p (firstn (run_len p s) s) = true.
Proof.
  induction s as [|c t IH]; simpl; [reflexivity|].
  destruct (p c) eqn:Hc; simpl; [now rewrite Hc|reflexivity].
Qed.

Lemma run_len_full s :
  s <> [] -> run_len p s = length s ->
  exists x, prev_after None s = Some x /\ p x = true.
Proof.
  induction s as [|c t IH]; intros Hne Hn; [congruence|].
  simpl in Hn. destruct (p c) eqn:Hc; [|discriminate].
  destruct t as [|d t].
  - exists c. auto.
  - destruct IH as [x [E Hx]]; [congruence|now injection Hn|].
    exists x. split; [|assumption]. simpl in *. exact E.
Qed.

(** The last character written is the last character read, or the last
    character of the replacement of a run that ends the text. *)
Lemma sub_last (L : char -> Prop) :
  (forall run z pv nx, run <> [] -> forallb p run = true ->
     exists out y, g run z pv nx = out ++ [y] /\ L y) ->
  forall s skip pos prev, skip < length s ->
  exists out y, sub_loop R repl skip pos prev s = out ++ [y] /\
    (prev_after None s = Some y \/
     ((exists x, prev_after None s = Some x /\ p x = true) /\ L y)).
Proof.
  intros Hg. induction s as [|c t IH]; intros skip pos prev Hs; simpl in Hs; [lia|].
  assert (Hpa : t <> [] -> prev_after None (c :: t) = prev_after None t).
  { intros Ht. simpl. now apply prev_after_cons. }
  cbn [sub_loop]. destruct skip as [|k].
  - rewrite match_here_run. destruct (lo <=? run_len p (c :: t)) eqn:Hlo.
    + apply Nat.leb_le in Hlo.
      destruct (run_len p (c :: t)) as [|n] eqn:En; [lia|].
      pose proof (run_len_le p (c :: t)) as Hle. rewrite En in Hle. simpl in Hle.
      unfold repl at 1. cbn [m_text m_start m_prev m_next].
      destruct (Nat.eq_dec n (length t)) as [Hn|Hn].
      * subst n.
        pose proof (sub_skip t [] (S pos) (Some c)) as Hk.
        rewrite app_nil_r, sub_nil in Hk. rewrite Hk, app_nil_r.
        destruct (Hg (firstn (S (length t)) (c :: t)) (pos =? 0) prev
                     (hd_error (skipn (S (length t)) (c :: t)))) as [out [y [E Ly]]].
        { simpl. congruence. }
        { rewrite <- En. apply run_len_prefix. }
        exists out, y. split; [exact E|]. right. split; [|exact Ly].
        apply run_len_full; [congruence|]. rewrite En. reflexivity.
      * destruct (IH n (S pos) (Some c)) as [out [y [E Hy]]]; [lia|].
        rewrite E. eexists (_ ++ out), y. rewrite app_assoc. split; [reflexivity|].
        rewrite Hpa by (destruct t; simpl in *; [lia|congruence]). exact Hy.
    + destruct t as [|d t].
      * rewrite sub_nil. exists [], c. split; [reflexivity|]. now left.
      * destruct (IH 0 (S pos) (Some c)) as [out [y [E Hy]]]; [simpl; lia|].
        rewrite E. exists (c :: out), y. split; [reflexivity|].
        rewrite Hpa by congruence. exact Hy.
  - destruct (IH k (S pos) (Some c)) as [out [y [E Hy]]]; [lia|].
    exists out, y. split; [exact E|].
    rewrite Hpa by (destruct t; simpl in *; [lia|congruence]). exact Hy.
Qed.

(** The first character written is the first character read, or the
    first character of the replacement of a run that begins the text. *)
Lemma sub_head (L : char -> Prop) :
  (forall run z pv nx, run <> [] -> forallb p run = true ->
     exists y out, g run z pv nx = y :: out /\ L y) ->
  forall c t pos prev,
  exists y out, sub_loop R repl 0 pos prev (c :: t) = y :: out /\
    (y = c \/ (p c = true /\ L y)).
Proof.
  intros Hg c t pos prev. cbn [sub_loop]. rewrite match_here_run.
  destruct (lo <=? run_len p (c :: t)) eqn:Hlo.
  - apply Nat.leb_le in Hlo.
    assert (Hc : p c = true).
    { simpl in Hlo. destruct (p c); [reflexivity|lia]. }
    unfold repl at 1. cbn [m_text m_start m_prev m_next].
    destruct (Hg (firstn (run_len p (c :: t)) (c :: t)) (pos =? 0) prev
                 (hd_error (skipn (run_len p (c :: t)) (c :: t)))) as [y [out [E Ly]]].
    { simpl. rewrite Hc. simpl. congruence. }
    { apply run_len_prefix. }
    rewrite E. eexists y, _. split; [reflexivity|]. right. auto.
  - eexists c, _. split; [reflexivity|]. now left.
Qed.

(** Text without characters of the class is copied. *)
Lemma sub_copy_prefix m b pos prev :
  forallb (fun c => negb (p c)) m = true ->
  sub_loop R repl 0 pos prev (m ++ b) =
  m ++ sub_loop R repl 0 (pos + length m) (prev_after prev m) b.
Proof.
  revert pos prev; induction m as [|c t IH]; intros pos prev Hm.
  - simpl. now rewrite Nat.add_0_r.
  - simpl in Hm. apply andb_true_iff in Hm as [Hc Hm].
    cbn [app]. rewrite sub_nonp by (now apply negb_true_iff).
    rewrite IH by assumption. cbn [prev_after length].
    replace (pos + S (length t)) with (S pos + length t) by lia. reflexivity.
Qed.

Lemma sub_copy s pos prev :
  forallb (fun c => negb (p c)) s = true ->
  sub_loop R repl 0 pos prev s = s.
Proof.
  revert pos prev; induction s as [|c t IH]; intros pos prev Hs.
  - apply sub_nil.
  - simpl in Hs. apply andb_true_iff in Hs as [Hc Hs].
    rewrite sub_nonp by (now apply negb_true_iff). now rewrite IH.
Qed.
End RunSub.

(** ** Replacements that only test the neighbours of the run

    [bang_repl] and [ellipsis_repl] read the run and compare the characters
    next to it with one fixed character. *)

Lemma run_len_app_no_head p a x :
  no_head p x -> run_len p (a ++ x) = run_len p a.
Proof.
  intros Hx. induction a as [|c a IH]; simpl.
  - destruct x as [|d x]; simpl in *; [reflexivity|now rewrite Hx].
  - now rewrite IH.
Qed.

Section CtxSub.
Variable p : char -> bool.
Variable lo : nat.
Hypothesis lo_pos : 1 <= lo.
Variable q : option char -> bool.
Hypothesis q_none : q None = false.
Variable h : str -> bool -> bool -> str.

Let R : regex := Rep true lo None (Chr p).
Let g : str -> bool -> option char -> option char -> str :=
  fun run _ pv nx => h run (q pv) (q nx).
Let repl : rmatch -> str :=
  fun m => g (m_text m) (Nat.eqb (m_start m) 0) (m_prev m) (m_next m).

Lemma match_here_ctx pos prev s :
  match_here R pos prev s =
  if lo <=? run_len p s
  then Some (RMatch (firstn (run_len p s) s) [] pos prev
                    (hd_error (skipn (run_len p s) s)), run_len p s)
  else None.
Proof. apply match_here_class. Qed.

Lemma ctx_sub_context s skip pos pos' prev prev' :
  q prev = q prev' ->
  sub_loop R repl skip pos prev s = sub_loop R repl skip pos' prev' s.
Proof.
  revert skip pos pos' prev prev'; induction s as [|c t IH];
    intros skip pos pos' prev prev' Hq.
  - destruct skip; [|reflexivity].
    unfold R, repl. now rewrite !(sub_nil p lo lo_pos g).
  - cbn [sub_loop]. destruct skip as [|k]; [|now apply IH].
    rewrite !match_here_ctx.
    destruct (lo <=? run_len p (c :: t)).
    + unfold repl at 1 3, g. cbn [m_text m_start m_prev m_next]. rewrite Hq.
      f_equal. destruct (run_len p (c :: t)); [f_equal|]; now apply IH.
    + f_equal. now apply IH.
Qed.

Lemma ctx_sub_app pre x skip pos prev :
  no_head p x -> q (hd_error x) = false -> skip <= length pre ->
  sub_loop R repl skip pos prev (pre ++ x) =
  sub_loop R repl skip pos prev pre ++
  sub_loop R repl 0 (pos + length pre) (prev_after prev pre) x.
Proof.
  intros Hx Hqx.
  revert skip pos prev; induction pre as [|c t IH]; intros skip pos prev Hs.
  - simpl in Hs. assert (skip = 0) by lia. subst skip.
    unfold R, repl. rewrite (sub_nil p lo lo_pos g). simpl. now rewrite Nat.add_0_r.
  - cbn [app sub_loop prev_after length].
    replace (pos + S (length t)) with (S pos + length t) by lia.
    destruct skip as [|k]; [|apply IH; simpl in Hs; lia].
    rewrite !match_here_ctx.
    change (c :: t ++ x) with ((c :: t) ++ x).
    rewrite run_len_app_no_head by assumption.
    pose proof (run_len_le p (c :: t)) as Hle.
    destruct (lo <=? run_len p (c :: t)) eqn:Hlo.
    + apply Nat.leb_le in Hlo.
      rewrite firstn_app.
      replace (run_len p (c :: t) - length (c :: t)) with 0 by lia.
      rewrite firstn_O, app_nil_r, skipn_app.
      replace (run_len p (c :: t) - length (c :: t)) with 0 by lia.
      rewrite skipn_O.
      assert (Hq : q (hd_error (skipn (run_len p (c :: t)) (c :: t) ++ x)) =
                   q (hd_error (skipn (run_len p (c :: t)) (c :: t)))).
      { destruct (skipn (run_len p (c :: t)) (c :: t)); [|reflexivity].
        simpl. now rewrite Hqx, q_none. }
      unfold repl at 1 3, g. cbn [m_text m_start m_prev m_next]. rewrite Hq.
      rewrite <- app_assoc. f_equal.
      destruct (run_len p (c :: t)) as [|n] eqn:En; [lia|].
      apply IH. simpl in Hle. lia.
    + simpl. f_equal. apply IH. lia.
Qed.

(** A substitution passes by a stretch of text that holds no character
    of the class and does not show the tested character at its ends. *)
Lemma ctx_sub_around a m b :
  m <> [] -> forallb (fun c => negb (p c)) m = true ->
  q (hd_error m) = false -> q (prev_after None m) = false ->
  re_sub R repl (a ++ m ++ b) = re_sub R repl a ++ m ++ re_sub R repl b.
Proof.
  intros Hne Hm Hh Hl. unfold re_sub.
  rewrite ctx_sub_app.
  - f_equal. unfold R, repl.
    rewrite (sub_copy_prefix p lo lo_pos g) by assumption. f_equal.
    apply ctx_sub_context.
    rewrite (prev_after_cons _ None) by assumption. now rewrite Hl, q_none.
  - destruct m as [|c m]; [congruence|]. simpl in *.
    apply andb_true_iff in Hm as [Hc _]. now apply negb_true_iff.
  - destruct m; [congruence|exact Hh].
  - lia.
Qed.

(** The replacement of one run, in its context. *)
Lemma ctx_sub_run pre run post :
  no_last p pre -> run <> [] -> forallb p run = true -> no_head p post ->
  re_sub R repl (pre ++ run ++ post) =
  re_sub R repl pre ++
  (if lo <=? length run
   then h run (q (prev_after None pre)) (q (hd_error post))
   else run) ++
  re_sub R repl post.
Proof.
  intros. unfold R, repl. rewrite (re_sub_run p lo lo_pos g) by assumption.
  reflexivity.
Qed.
End CtxSub.

(** ** Digit tables *)

Ltac split_on_keys c :=
  repeat match goal with
         | |- context [N.eqb c ?k] =>
             destruct (N.eqb_spec c k); [subst c; vm_compute; reflexivity|]
         end.

Ltac range_cases :=
  repeat match goal with
         | |- context [N.leb ?a ?b] => destruct (N.leb_spec a b)
         end;
  cbn [andb]; try reflexivity; exfalso; lia.

Lemma kanji_table c :
  translate_char (maketrans (u "0123456789０１２３４５６７８９")
                            (u "〇一二三四五六七八九〇一二三四五六七八九")) c =
  kanji_digit c.
Proof.
  match goal with |- translate_char ?t _ = _ =>
    let t' := eval vm_compute in t in change t with t' end.
  unfold kanji_digit, in_range. cbn [translate_char]. unfold chr_eqb.
  split_on_keys c. range_cases.
Qed.

Lemma zenkaku_table c :
  translate_char (maketrans (u "0123456789") _ZENKAKU_NUM) c = zenkaku_digit c.
Proof.
  match goal with |- translate_char ?t _ = _ =>
    let t' := eval vm_compute in t in change t with t' end.
  unfold zenkaku_digit, in_range. cbn [translate_char]. unfold chr_eqb.
  split_on_keys c. range_cases.
Qed.

(** C8: [_digits_to_kanji] maps every half-width digit 0-9 and every
    full-width digit ０-９ to its kanji numeral of 〇一二三四五六七八九 and
    leaves every other character as it is, position by position, so length
    and order are kept; ['123４５６abc７８９0'] becomes
    ['一二三四五六abc七八九〇']. *)
Theorem digits_to_kanji_spec (s : str) :
  _digits_to_kanji s = map kanji_digit s /\
  length (_digits_to_kanji s) = length s /\
  (forall i c, nth_error s i = Some c ->
               nth_error (_digits_to_kanji s) i = Some (kanji_digit c)) /\
  map kanji_digit (u "0123456789") = _KANJI_NUM /\
  map kanji_digit (u "０１２３４５６７８９") = _KANJI_NUM /\
  (forall c, mem c (u "0123456789０１２３４５６７８９") = false -> kanji_digit c = c) /\
  _digits_to_kanji (u "123４５６abc７８９0") = u "一二三四五六abc七八九〇".
Proof.
  assert (E : _digits_to_kanji s = map kanji_digit s).
  { unfold _digits_to_kanji, translate. apply map_ext. exact kanji_table. }
  rewrite E.
  split; [reflexivity|].
  split; [apply length_map|].
  split; [intros i c Hi; rewrite nth_error_map, Hi; reflexivity|].
  split; [vm_compute; reflexivity|].
  split; [vm_compute; reflexivity|].
  split; [|vm_compute; reflexivity].
  intros c Hc. unfold kanji_digit, in_range.
  destruct ((0x30 <=? c) && (c <=? 0x39))%N eqn:E1.
  - exfalso. apply andb_true_iff in E1 as [A B]. apply N.leb_le in A, B.
    assert (D : (c = 48 \/ c = 49 \/ c = 50 \/ c = 51 \/ c = 52 \/ c = 53 \/ c = 54 \/
                 c = 55 \/ c = 56 \/ c = 57)%N) by lia.
    repeat (destruct D as [D|D]; [subst c; vm_compute in Hc; discriminate|]).
    subst c; vm_compute in Hc; discriminate.
  - destruct ((0xFF10 <=? c) && (c <=? 0xFF19))%N eqn:E2; [|reflexivity].
    exfalso. apply andb_true_iff in E2 as [A B]. apply N.leb_le in A, B.
    assert (D : (c = 65296 \/ c = 65297 \/ c = 65298 \/ c = 65299 \/ c = 65300 \/
                 c = 65301 \/ c = 65302 \/ c = 65303 \/ c = 65304 \/ c = 65305)%N) by lia.
    repeat (destruct D as [D|D]; [subst c; vm_compute in Hc; discriminate|]).
    subst c; vm_compute in Hc; discriminate.
Qed.

(** ** Vertical-mixed digits *)

Lemma hankaku_repl_shape kind m :
  hankaku_repl kind m =
  (fun run z (_ _ : option char) =>
     if length run =? 2 then tcy run
     else if (length run =? 3) && is_subtitle kind && z then tcy run
     else map zenkaku_digit run)
    (m_text m) (m_start m =? 0) (m_prev m) (m_next m).
Proof.
  unfold hankaku_repl, translate. cbv beta zeta.
  rewrite (map_ext _ _ zenkaku_table). reflexivity.
Qed.

Lemma re_sub_ext r f f' s : (forall m, f m = f' m) -> re_sub r f s = re_sub r f' s.
Proof.
  intros E. unfold re_sub. generalize 0 at 1 3. generalize 0. generalize (@None char).
  induction s as [|c t IH]; intros prev pos skip; cbn [sub_loop].
  - destruct skip; [|reflexivity]. destruct (match_here r pos prev []) as [[m n]|]; auto.
  - destruct skip; [|apply IH].
    destruct (match_here r pos prev (c :: t)) as [[m n]|].
    + rewrite E. f_equal. destruct n; [f_equal|]; apply IH.
    + f_equal. apply IH.
Qed.

(** C5 (as amended): in [_hankaku_num_to_zenkaku_num], for every text kind
    (so for subtitle, chapter and story), a maximal run of exactly two
    digits is wrapped unchanged in ［＃縦中横］…［＃縦中横終わり］; a maximal
    run of exactly three digits is wrapped if and only if the kind is
    subtitle and the run begins the string; in every other run each
    half-width digit 0-9 becomes its full-width digit and the other
    decimal digits that [\d] matches stay as they are.  The text before
    and after the run is converted independently. *)
Theorem hankaku_num_runs (kind : text_type) (pre run post : str) :
  no_last is_digit pre -> run <> [] -> forallb is_digit run = true ->
  no_head is_digit post ->
  _hankaku_num_to_zenkaku_num (pre ++ run ++ post) kind =
  _hankaku_num_to_zenkaku_num pre kind ++
  (if length run =? 2 then tcy run
   else if (length run =? 3) && is_subtitle kind && is_nil pre then tcy run
   else map zenkaku_digit run) ++
  _hankaku_num_to_zenkaku_num post kind.
Proof.
  intros Hl Hne Hall Hh. unfold _hankaku_num_to_zenkaku_num, plus.
  rewrite !(re_sub_ext _ _ _ _ (hankaku_repl_shape kind)).
  rewrite (re_sub_run is_digit 1 (le_n 1)
             (fun run z (_ _ : option char) =>
                if length run =? 2 then tcy run
                else if (length run =? 3) && is_subtitle kind && z then tcy run
                else map zenkaku_digit run) pre run post Hl Hne Hall Hh).
  destruct run as [|c run]; [congruence|]. reflexivity.
Qed.

(** C5 on the chapter heading 第12話 and on the subtitle 123話. *)
Lemma hankaku_num_runs_witness :
  (no_last is_digit (u "第") /\ forallb is_digit (u "12") = true /\
   no_head is_digit (u "話") /\
   _hankaku_num_to_zenkaku_num (u "第" ++ u "12" ++ u "話") Chapter =
   u "第" ++ tcy (u "12") ++ u "話") /\
  (forallb is_digit (u "123") = true /\ no_head is_digit (u "話") /\
   _hankaku_num_to_zenkaku_num ([] ++ u "123" ++ u "話") Subtitle =
   tcy (u "123") ++ u "話").
Proof.
  split.
  - split; [vm_compute; first [exact I | reflexivity]|]. split; [vm_compute; reflexivity|].
    split; [vm_compute; first [exact I | reflexivity]|].
    rewrite (hankaku_num_runs Chapter (u "第") (u "12") (u "話")).
    + vm_compute; reflexivity.
    + vm_compute; first [exact I | reflexivity].
    + discriminate.
    + vm_compute; reflexivity.
    + vm_compute; first [exact I | reflexivity].
  - split; [vm_compute; reflexivity|]. split; [vm_compute; first [exact I | reflexivity]|].
    rewrite (hankaku_num_runs Subtitle [] (u "123") (u "話")).
    + vm_compute; reflexivity.
    + vm_compute; first [exact I | reflexivity].
    + discriminate.
    + vm_compute; reflexivity.
    + vm_compute; first [exact I | reflexivity].
Defined.

(** C5 as stated fails: the runs are runs of the characters that [\d]
    matches, and only the half-width digits are written full-width.  A
    chapter heading of four Arabic-Indic digits is a digit run of length
    four that stays as it is, with no full-width digit in the result; and
    the half-width 1 followed by the full-width ２ is wrapped as a run of
    two digits, although the half-width digit stands alone. *)
Lemma hankaku_num_other_digits :
  forallb is_digit (u "٣٣٣٣") = true /\
  _hankaku_num_to_zenkaku_num (u "٣٣٣٣") Chapter = u "٣٣٣٣" /\
  existsb (fun c => mem c _ZENKAKU_NUM) (_hankaku_num_to_zenkaku_num (u "٣٣٣٣") Chapter) = false /\
  _hankaku_num_to_zenkaku_num (u "1２") Chapter = tcy (u "1２").
Proof. vm_compute. repeat split. Qed.

(** ** Exclamation marks *)

Ltac div_facts m d :=
  pose proof (Nat.div_mod_eq m d);
  pose proof (Nat.mod_upper_bound m d ltac:(lia)).

Lemma chars_all p c n : p c = true -> forallb p (chars c n) = true.
Proof. intros Hc. induction n; simpl; [reflexivity|now rewrite Hc]. Qed.

Lemma chars_none p c n : p c = false -> forallb (fun x => negb (p x)) (chars c n) = true.
Proof. intros Hc. induction n; simpl; [reflexivity|now rewrite Hc]. Qed.

Lemma chars_length c n : length (chars c n) = n.
Proof. apply repeat_length. Qed.

Lemma chars_nonempty c n : 1 <= n -> chars c n <> [].
Proof. destruct n; simpl; [lia|congruence]. Qed.

Lemma chars_head c n : 1 <= n -> hd_error (chars c n) = Some c.
Proof. destruct n; simpl; [lia|reflexivity]. Qed.

Lemma chars_last c n x : 1 <= n -> prev_after x (chars c n) = Some c.
Proof.
  intros Hn.
  assert (H : forall k, prev_after (Some c) (chars c k) = Some c)
    by (induction k; simpl; auto).
  destruct n as [|n]; [lia|]. simpl. apply H.
Qed.

Lemma str_repeat_all p s n :
  forallb p s = true -> forallb p (str_repeat s n) = true.
Proof.
  intros Hs. induction n; simpl; [reflexivity|]. rewrite forallb_app, Hs. exact IHn.
Qed.

Lemma no_last_weaken (p q : char -> bool) s :
  (forall c, p c = true -> q c = true) -> no_last q s -> no_last p s.
Proof.
  unfold no_last. intros Hpq. destruct (prev_after None s) as [c|]; [|auto].
  intros Hq. destruct (p c) eqn:Hp; [|reflexivity]. apply Hpq in Hp. congruence.
Qed.

Lemma no_head_weaken (p q : char -> bool) s :
  (forall c, p c = true -> q c = true) -> no_head q s -> no_head p s.
Proof.
  unfold no_head. intros Hpq. destruct s as [|c s]; [auto|].
  intros Hq. destruct (p c) eqn:Hp; [|reflexivity]. apply Hpq in Hp. congruence.
Qed.

Lemma bang_is_bang_or_q c : is_bang c = true -> is_bang_or_q c = true.
Proof.
  unfold is_bang, is_bang_or_q. intros H. apply N.eqb_eq in H. subst c. reflexivity.
Qed.

Lemma not_q_of_no_last s :
  no_last is_bang_or_q s -> opt_is (prev_after None s) (ch "？") = false.
Proof.
  unfold no_last. destruct (prev_after None s) as [c|]; [|reflexivity].
  simpl. destruct (chr_eqb_spec c (ch "？")) as [->|]; [discriminate|reflexivity].
Qed.

Lemma not_q_of_no_head s :
  no_head is_bang_or_q s -> opt_is (hd_error s) (ch "？") = false.
Proof.
  destruct s as [|c s]; [reflexivity|]. simpl.
  destruct (chr_eqb_spec c (ch "？")) as [->|]; [discriminate|reflexivity].
Qed.

Lemma bang_repl_shape m :
  bang_repl m =
  (fun run (_ : bool) pv nx =>
     bang_image run (opt_is pv (ch "？")) (opt_is nx (ch "？")))
    (m_text m) (m_start m =? 0) (m_prev m) (m_next m).
Proof. reflexivity. Qed.

Lemma mixed_repl_shape m :
  mixed_repl m =
  (fun run (_ : bool) pv nx =>
     mixed_image run ((fun _ : option char => false) pv) ((fun _ : option char => false) nx))
    (m_text m) (m_start m =? 0) (m_prev m) (m_next m).
Proof. reflexivity. Qed.

(** The ！-run substitution on one run with its context. *)
Lemma tatechuyoko_bang_run pre post n :
  no_last is_bang pre -> no_head is_bang post -> 1 <= n ->
  tatechuyoko_bang (pre ++ chars (ch "！") n ++ post) =
  tatechuyoko_bang pre ++
  bang_image (chars (ch "！") n)
             (opt_is (prev_after None pre) (ch "？")) (opt_is (hd_error post) (ch "？")) ++
  tatechuyoko_bang post.
Proof.
  intros Hl Hh Hn.
  pose proof (ctx_sub_run is_bang 1 (le_n 1) (fun o => opt_is o (ch "？")) bang_image
                pre (chars (ch "！") n) post Hl (chars_nonempty _ n Hn)
                (chars_all is_bang (ch "！") n eq_refl) Hh) as E.
  rewrite chars_length in E.
  etransitivity; [exact E|].
  destruct n as [|n]; [lia|]. reflexivity.
Qed.

(** The mixed-run substitution passes by text without ！ and ？. *)
Lemma tatechuyoko_mixed_around a m b :
  m <> [] -> forallb (fun c => negb (is_bang_or_q c)) m = true ->
  re_sub (plus (cls (u "！？"))) mixed_repl (a ++ m ++ b) =
  re_sub (plus (cls (u "！？"))) mixed_repl a ++ m ++
  re_sub (plus (cls (u "！？"))) mixed_repl b.
Proof.
  intros Hne Hm.
  exact (ctx_sub_around is_bang_or_q 1 (le_n 1) (fun _ => false) eq_refl mixed_image
           a m b Hne Hm eq_refl eq_refl).
Qed.

Lemma tatechuyoko_wrapped pre post n image :
  no_last is_bang_or_q pre -> no_head is_bang_or_q post -> 1 <= n ->
  bang_image (chars (ch "！") n) false false = image ->
  image <> [] -> forallb (fun c => negb (is_bang_or_q c)) image = true ->
  _convert_tatechuyoko (pre ++ chars (ch "！") n ++ post) =
  _convert_tatechuyoko pre ++ image ++ _convert_tatechuyoko post.
Proof.
  intros Hl Hh Hn Him Hne Hall. unfold _convert_tatechuyoko.
  rewrite tatechuyoko_bang_run; auto.
  - rewrite not_q_of_no_last, not_q_of_no_head, Him by assumption.
    apply tatechuyoko_mixed_around; assumption.
  - apply (no_last_weaken _ _ _ bang_is_bang_or_q Hl).
  - apply (no_head_weaken _ _ _ bang_is_bang_or_q Hh).
Qed.

(** C6 (as amended): in [_convert_tatechuyoko], a maximal run of ！ that has
    no ？ next to it becomes ［＃縦中横］!!!［＃縦中横終わり］ when its length
    is 3, and ceil(n/2) copies of ［＃縦中横］!!［＃縦中横終わり］ when its
    length n is at least 4 (three copies for n = 5).  A run of ！ with a ？
    next to it is left untouched by the substitution over the ！-runs; the
    substitution over the mixed ！/？ runs that follows may still wrap it. *)
Theorem tatechuyoko_bang_runs (pre post : str) (n : nat) :
  (no_last is_bang_or_q pre -> no_head is_bang_or_q post ->
   (n = 3 ->
    _convert_tatechuyoko (pre ++ chars (ch "！") n ++ post) =
    _convert_tatechuyoko pre ++ tcy (u "!!!") ++ _convert_tatechuyoko post) /\
   (forall k, 4 <= n -> n <= 2 * k < n + 2 ->
    _convert_tatechuyoko (pre ++ chars (ch "！") n ++ post) =
    _convert_tatechuyoko pre ++ str_repeat (tcy (u "!!")) k ++ _convert_tatechuyoko post) /\
   (n = 5 ->
    _convert_tatechuyoko (pre ++ chars (ch "！") n ++ post) =
    _convert_tatechuyoko pre ++ (tcy (u "!!") ++ tcy (u "!!") ++ tcy (u "!!")) ++
    _convert_tatechuyoko post)) /\
  (no_last is_bang pre -> no_head is_bang post -> 1 <= n ->
   opt_is (prev_after None pre) (ch "？") || opt_is (hd_error post) (ch "？") = true ->
   tatechuyoko_bang (pre ++ chars (ch "！") n ++ post) =
   tatechuyoko_bang pre ++ chars (ch "！") n ++ tatechuyoko_bang post).
Proof.
  assert (Hk : forall k, 4 <= n -> n <= 2 * k < n + 2 ->
               bang_image (chars (ch "！") n) false false = str_repeat (tcy (u "!!")) k).
  { intros k H4 Hk. unfold bang_image. rewrite chars_length. cbn [orb].
    destruct (n =? 3) eqn:E3; [apply Nat.eqb_eq in E3; lia|].
    apply Nat.leb_le in H4 as H4'. rewrite H4'. f_equal.
    div_facts n 2. destruct (n mod 2 =? 1) eqn:E.
    - apply Nat.eqb_eq in E. div_facts (n + 1) 2. lia.
    - apply Nat.eqb_neq in E. lia. }
  split.
  - intros Hl Hh. split; [|split].
    + intros ->. apply tatechuyoko_wrapped; auto; try reflexivity. discriminate.
    + intros k H4 Hn. apply tatechuyoko_wrapped; auto; try lia.
      * destruct k; [lia|]. simpl. discriminate.
      * apply str_repeat_all. reflexivity.
    + intros ->. apply tatechuyoko_wrapped; auto; try reflexivity. discriminate.
  - intros Hl Hh Hn Hq. rewrite tatechuyoko_bang_run by assumption.
    unfold bang_image. rewrite Hq. reflexivity.
Qed.

(** C6 on a run of five ！ between two kana. *)
Lemma tatechuyoko_bang_runs_witness :
  no_last is_bang_or_q (u "あ") /\ no_head is_bang_or_q (u "い") /\
  _convert_tatechuyoko (u "あ" ++ chars (ch "！") 5 ++ u "い") =
  _convert_tatechuyoko (u "あ") ++ (tcy (u "!!") ++ tcy (u "!!") ++ tcy (u "!!")) ++
  _convert_tatechuyoko (u "い").
Proof.
  split; [vm_compute; first [exact I | reflexivity]|]. split; [vm_compute; first [exact I | reflexivity]|].
  apply (proj1 (tatechuyoko_bang_runs (u "あ") (u "い") 5)).
  - vm_compute; first [exact I | reflexivity].
  - vm_compute; first [exact I | reflexivity].
  - reflexivity.
Defined.

(** C6 as stated fails in its last sentence: a run of ！ with a ？ next to
    it does not come out of [_convert_tatechuyoko] untouched, the
    substitution over the mixed runs wraps it together with the ？. *)
Lemma bang_next_to_question_wrapped :
  _convert_tatechuyoko (u "！？") = tcy (u "!?") /\
  _convert_tatechuyoko (u "あ？！！い") = u "あ" ++ tcy (u "?!!") ++ u "い" /\
  occurs (u "！") (_convert_tatechuyoko (u "あ？！！い")) = false.
Proof. vm_compute. repeat split. Qed.

(** ** [str.replace] around a block *)

Lemma chr_eqb_sym a b : chr_eqb a b = chr_eqb b a.
Proof. apply N.eqb_sym. Qed.

Lemma starts_with_length old s : starts_with old s = true -> length old <= length s.
Proof.
  revert s; induction old as [|o old IH]; intros [|x s]; simpl; intros H;
    try discriminate; try lia.
  apply andb_true_iff in H as [_ H]. apply IH in H. lia.
Qed.

Lemma starts_with_app old x y rest :
  mem y old = false ->
  starts_with old (x ++ y :: rest) = starts_with old x.
Proof.
  revert x; induction old as [|o old IH]; intros x Hy; [destruct x; reflexivity|].
  simpl in Hy. apply orb_false_iff in Hy as [Hyo Hy].
  destruct x as [|a x]; simpl.
  - rewrite chr_eqb_sym, Hyo. reflexivity.
  - rewrite IH by assumption. reflexivity.
Qed.

Lemma replace_copy old new m b :
  old <> [] -> forallb (fun c => negb (mem c old)) m = true ->
  replace_from old new 0 (m ++ b) = m ++ replace_from old new 0 b.
Proof.
  intros Hold. induction m as [|c m IH]; intros Hm; [reflexivity|].
  simpl in Hm. apply andb_true_iff in Hm as [Hc Hm]. apply negb_true_iff in Hc.
  cbn [app replace_from].
  destruct old as [|o old]; [congruence|].
  simpl in Hc. apply orb_false_iff in Hc as [Hco _].
  cbn [starts_with]. rewrite chr_eqb_sym, Hco. cbn [andb].
  now rewrite IH.
Qed.

Lemma replace_app_block old new a m b skip :
  old <> [] -> m <> [] -> forallb (fun c => negb (mem c old)) m = true ->
  skip <= length a ->
  replace_from old new skip (a ++ m ++ b) =
  replace_from old new skip a ++ m ++ replace_from old new 0 b.
Proof.
  intros Hold Hne Hm. revert skip; induction a as [|x a IH]; intros skip Hs.
  - simpl in Hs. assert (skip = 0) by lia. subst. simpl. now apply replace_copy.
  - cbn [app replace_from]. destruct skip as [|k]; [|apply IH; simpl in Hs; lia].
    destruct m as [|y m]; [congruence|].
    change (x :: a ++ (y :: m) ++ b) with ((x :: a) ++ y :: (m ++ b)).
    rewrite starts_with_app
      by (simpl in Hm; apply andb_true_iff in Hm as [Hy _]; now apply negb_true_iff).
    destruct (starts_with old (x :: a)) eqn:E.
    + apply starts_with_length in E. simpl in E.
      rewrite IH by lia. now rewrite app_assoc.
    + simpl. f_equal. apply IH. lia.
Qed.

Lemma replace_around old new a m b :
  old <> [] -> m <> [] -> forallb (fun c => negb (mem c old)) m = true ->
  replace old new (a ++ m ++ b) = replace old new a ++ m ++ replace old new b.
Proof. intros. unfold replace. apply replace_app_block; auto. lia. Qed.

(** ** Ellipsis folding *)

Lemma ends_with_no_last s c : ends_with s c = false -> no_last (chr_eqb c) s.
Proof.
  unfold ends_with, no_last. destruct (prev_after None s) as [x|]; [|auto].
  simpl. now rewrite chr_eqb_sym.
Qed.

Lemma begins_with_no_head s c : begins_with s c = false -> no_head (chr_eqb c) s.
Proof.
  unfold begins_with, no_head. destruct s as [|x s]; [auto|].
  simpl. now rewrite chr_eqb_sym.
Qed.

Lemma ends_with_snoc out y c : ends_with (out ++ [y]) c = chr_eqb y c.
Proof. unfold ends_with. rewrite prev_after_app. reflexivity. Qed.

Lemma all_same_last d run :
  run <> [] -> forallb (chr_eqb d) run = true -> exists out, run = out ++ [d].
Proof.
  induction run as [|x run IH]; intros Hne Hall; [congruence|].
  simpl in Hall. apply andb_true_iff in Hall as [Hx Hall].
  apply N.eqb_eq in Hx. subst x.
  destruct run as [|y run].
  - exists []. reflexivity.
  - destruct IH as [out E]; [congruence|assumption|].
    exists (d :: out). rewrite E. reflexivity.
Qed.

Lemma str_repeat_char c k : str_repeat [c] k = chars c k.
Proof. induction k; simpl; [reflexivity|now rewrite IHk]. Qed.

Lemma ellipsis_count_pos n : 1 <= n -> 1 <= ((n + 5) / 6) * 2.
Proof. intros Hn. div_facts (n + 5) 6. lia. Qed.

Lemma ellipsis_image_last d run a b :
  run <> [] -> forallb (chr_eqb d) run = true ->
  exists out y, ellipsis_image run a b = out ++ [y] /\ (y = ch "…" \/ y = d).
Proof.
  intros Hne Hall. unfold ellipsis_image. destruct (a || b).
  - destruct (all_same_last d run Hne Hall) as [out E]. exists out, d. auto.
  - change (u "…") with [ch "…"]. rewrite str_repeat_char.
    assert (Hk : 1 <= ((length run + 5) / 6) * 2).
    { apply ellipsis_count_pos. destruct run; simpl; [congruence|lia]. }
    destruct (((length run + 5) / 6) * 2) as [|k]; [lia|].
    exists (chars (ch "…") k), (ch "…"). split; [|auto].
    unfold chars. simpl. apply repeat_cons.
Qed.

Lemma ellipsis_image_head d run a b :
  run <> [] -> forallb (chr_eqb d) run = true ->
  exists y out, ellipsis_image run a b = y :: out /\ (y = ch "…" \/ y = d).
Proof.
  intros Hne Hall. unfold ellipsis_image. destruct (a || b).
  - destruct run as [|x run]; [congruence|]. simpl in Hall.
    apply andb_true_iff in Hall as [Hx _]. apply N.eqb_eq in Hx. subst x.
    exists d, run. auto.
  - change (u "…") with [ch "…"]. rewrite str_repeat_char.
    assert (Hk : 1 <= ((length run + 5) / 6) * 2).
    { apply ellipsis_count_pos. destruct run; simpl; [congruence|lia]. }
    destruct (((length run + 5) / 6) * 2) as [|k]; [lia|].
    exists (ch "…"), (chars (ch "…") k). auto.
Qed.

Lemma ellipsis_pass_unfold s d :
  ellipsis_pass s d =
  sub_loop (Rep true 3 None (Chr (chr_eqb d)))
    (fun m => (fun run (_ : bool) pv nx =>
                 ellipsis_image run (opt_is pv (ch "―")) (opt_is nx (ch "―")))
              (m_text m) (m_start m =? 0) (m_prev m) (m_next m))
    0 0 None s.
Proof. reflexivity. Qed.

(** A pass over the runs of [d] keeps how the text ends and begins, as
    far as any character other than [d] and … is concerned. *)
Lemma ellipsis_pass_ends d x s :
  chr_eqb d x = false -> chr_eqb (ch "…") x = false ->
  ends_with (ellipsis_pass s d) x = ends_with s x.
Proof.
  intros Hd He. destruct s as [|c t]; [reflexivity|].
  destruct (sub_last (chr_eqb d) 3 ltac:(lia)
              (fun run (_ : bool) pv nx =>
                 ellipsis_image run (opt_is pv (ch "―")) (opt_is nx (ch "―")))
              (fun y => y = ch "…" \/ y = d)
              (fun run z pv nx Hne Hall => ellipsis_image_last d run _ _ Hne Hall)
              (c :: t) 0 0 None ltac:(simpl; lia))
    as [out [y [E [Hy|[[x' [Hx' Hp]] Hy]]]]].
  - rewrite ellipsis_pass_unfold, E, ends_with_snoc.
    unfold ends_with. rewrite Hy. reflexivity.
  - rewrite ellipsis_pass_unfold, E, ends_with_snoc.
    unfold ends_with. rewrite Hx'. simpl.
    apply N.eqb_eq in Hp. subst x'. rewrite Hd.
    destruct Hy as [->| ->]; assumption.
Qed.

Lemma ellipsis_pass_begins d x s :
  chr_eqb d x = false -> chr_eqb (ch "…") x = false ->
  begins_with (ellipsis_pass s d) x = begins_with s x.
Proof.
  intros Hd He. destruct s as [|c t].
  - reflexivity.
  - destruct (sub_head (chr_eqb d) 3 ltac:(lia)
                (fun run (_ : bool) pv nx =>
                   ellipsis_image run (opt_is pv (ch "―")) (opt_is nx (ch "―")))
                (fun y => y = ch "…" \/ y = d)
                (fun run z pv nx Hne Hall => ellipsis_image_head d run _ _ Hne Hall)
                c t 0 None)
      as [y [out [E [Hy|[Hp Hy]]]]].
    + rewrite ellipsis_pass_unfold, E. subst y. reflexivity.
    + rewrite ellipsis_pass_unfold, E.
      unfold begins_with. simpl. apply N.eqb_eq in Hp. subst c. rewrite Hd.
      destruct Hy as [->| ->]; assumption.
Qed.

(** The pass over the runs of [d] on one run of [d]. *)
Lemma ellipsis_pass_self d pre post n :
  ends_with pre d = false -> begins_with post d = false -> 1 <= n ->
  ellipsis_pass (pre ++ chars d n ++ post) d =
  ellipsis_pass pre d ++
  (if 3 <=? n
   then ellipsis_image (chars d n) (ends_with pre (ch "―")) (begins_with post (ch "―"))
   else chars d n) ++
  ellipsis_pass post d.
Proof.
  intros Hl Hh Hn.
  pose proof (ctx_sub_run (chr_eqb d) 3 ltac:(lia) (fun o => opt_is o (ch "―"))
                ellipsis_image pre (chars d n) post
                (ends_with_no_last _ _ Hl) (chars_nonempty _ n Hn)
                (chars_all (chr_eqb d) d n (N.eqb_refl d))
                (begins_with_no_head _ _ Hh)) as E.
  rewrite chars_length in E. exact E.
Qed.

(** The pass over the runs of [d] passes by a block without [d] that does
    not show a dash at its ends. *)
Lemma ellipsis_pass_other d a m b :
  m <> [] -> forallb (fun c => negb (chr_eqb d c)) m = true ->
  begins_with m (ch "―") = false -> ends_with m (ch "―") = false ->
  ellipsis_pass (a ++ m ++ b) d = ellipsis_pass a d ++ m ++ ellipsis_pass b d.
Proof.
  intros Hne Hm Hb He.
  exact (ctx_sub_around (chr_eqb d) 3 ltac:(lia) (fun o => opt_is o (ch "―")) eq_refl
           ellipsis_image a m b Hne Hm Hb He).
Qed.

Lemma ellipsis_passes_block ds a m b :
  m <> [] -> forallb (fun x => negb (mem x ds)) m = true ->
  begins_with m (ch "―") = false -> ends_with m (ch "―") = false ->
  ellipsis_passes ds (a ++ m ++ b) =
  ellipsis_passes ds a ++ m ++ ellipsis_passes ds b.
Proof.
  intros Hne Hm Hb He. revert a b; induction ds as [|d ds IH]; intros a b; [reflexivity|].
  unfold ellipsis_passes in *. cbn [fold_left].
  assert (Hd : forallb (fun c => negb (chr_eqb d c)) m = true /\
               forallb (fun x => negb (mem x ds)) m = true).
  { clear -Hm. induction m as [|x m IHm]; [auto|]. simpl in Hm.
    apply andb_true_iff in Hm as [Hx Hm]. apply negb_true_iff, orb_false_iff in Hx as [Hx1 Hx2].
    destruct (IHm Hm) as [H1 H2]. simpl. rewrite chr_eqb_sym, Hx1, Hx2, H1, H2. auto. }
  destruct Hd as [Hd Hds].
  rewrite ellipsis_pass_other by assumption. now apply IH.
Qed.

Lemma ellipsis_passes_ends ds x s :
  mem x ds = false -> chr_eqb (ch "…") x = false ->
  ends_with (ellipsis_passes ds s) x = ends_with s x.
Proof.
  intros Hx He. revert s; induction ds as [|d ds IH]; intros s; [reflexivity|].
  simpl in Hx. apply orb_false_iff in Hx as [Hxd Hx].
  unfold ellipsis_passes in *. cbn [fold_left].
  rewrite IH by assumption. apply ellipsis_pass_ends; [now rewrite chr_eqb_sym|assumption].
Qed.

Lemma ellipsis_passes_begins ds x s :
  mem x ds = false -> chr_eqb (ch "…") x = false ->
  begins_with (ellipsis_passes ds s) x = begins_with s x.
Proof.
  intros Hx He. revert s; induction ds as [|d ds IH]; intros s; [reflexivity|].
  simpl in Hx. apply orb_false_iff in Hx as [Hxd Hx].
  unfold ellipsis_passes in *. cbn [fold_left].
  rewrite IH by assumption. apply ellipsis_pass_begins; [now rewrite chr_eqb_sym|assumption].
Qed.

Lemma chars_begins c k x : 1 <= k -> begins_with (chars c k) x = chr_eqb c x.
Proof. intros Hk. unfold begins_with. now rewrite chars_head. Qed.

Lemma chars_ends c k x : 1 <= k -> ends_with (chars c k) x = chr_eqb c x.
Proof. intros Hk. unfold ends_with. now rewrite chars_last. Qed.

(** The passes over [ds1], [c], [ds2] on one run of [c], when [c] is in
    neither [ds1] nor [ds2] and the dash and … are in none of them. *)
Lemma ellipsis_passes_run ds1 c ds2 pre post n :
  mem c (ds1 ++ ds2) = false -> mem (ch "―") (ds1 ++ c :: ds2) = false ->
  mem (ch "…") (ds1 ++ c :: ds2) = false ->
  ends_with pre c = false -> begins_with post c = false -> 1 <= n ->
  ellipsis_passes (ds1 ++ c :: ds2) (pre ++ chars c n ++ post) =
  ellipsis_passes (ds1 ++ c :: ds2) pre ++
  (if 3 <=? n
   then ellipsis_image (chars c n) (ends_with pre (ch "―")) (begins_with post (ch "―"))
   else chars c n) ++
  ellipsis_passes (ds1 ++ c :: ds2) post.
Proof.
  intros Hc Hdash Hell Hl Hh Hn.
  unfold mem in Hc, Hdash, Hell. rewrite existsb_app in Hc, Hdash, Hell.
  apply orb_false_iff in Hc as [Hc1 Hc2].
  apply orb_false_iff in Hdash as [Hd1 Hd2]. cbn [existsb] in Hd2.
  apply orb_false_iff in Hd2 as [Hdc Hd2].
  apply orb_false_iff in Hell as [He1 He2]. cbn [existsb] in He2.
  apply orb_false_iff in He2 as [Hec He2].
  unfold ellipsis_passes. rewrite !fold_left_app. cbn [fold_left].
  fold (ellipsis_passes ds1 (pre ++ chars c n ++ post)).
  fold (ellipsis_passes ds1 pre). fold (ellipsis_passes ds1 post).
  rewrite (ellipsis_passes_block ds1).
  - rewrite ellipsis_pass_self.
    + rewrite (ellipsis_passes_ends ds1 (ch "―")), (ellipsis_passes_begins ds1 (ch "―"))
        by (try assumption; reflexivity).
      set (M := if 3 <=? n then _ else _).
      fold (ellipsis_passes ds2 (ellipsis_pass (ellipsis_passes ds1 pre) c ++ M ++
                                 ellipsis_pass (ellipsis_passes ds1 post) c)).
      assert (HM : M = chars c n \/ exists k, 1 <= k /\ M = chars (ch "…") k).
      { subst M. destruct (3 <=? n); [|now left]. unfold ellipsis_image.
        destruct (_ || _); [now left|]. right.
        change (u "…") with [ch "…"]. rewrite str_repeat_char, chars_length.
        eexists. split; [|reflexivity]. now apply ellipsis_count_pos. }
      apply ellipsis_passes_block.
      * destruct HM as [->|[k [Hk ->]]]; now apply chars_nonempty.
      * destruct HM as [->|[k [Hk ->]]]; apply (chars_none (fun x => mem x ds2)); assumption.
      * destruct HM as [->|[k [Hk ->]]]; rewrite chars_begins by assumption;
          [now rewrite chr_eqb_sym|reflexivity].
      * destruct HM as [->|[k [Hk ->]]]; rewrite chars_ends by assumption;
          [now rewrite chr_eqb_sym|reflexivity].
    + rewrite ellipsis_passes_ends; auto.
    + rewrite ellipsis_passes_begins; auto.
    + assumption.
  - now apply chars_nonempty.
  - apply (chars_none (fun x => mem x ds1)). assumption.
  - rewrite chars_begins by assumption. now rewrite chr_eqb_sym.
  - rewrite chars_ends by assumption. now rewrite chr_eqb_sym.
Qed.

(** The whole loop on one run of one of the four characters. *)
Lemma ellipsis_fold_run c pre post n :
  In c ellipsis_chars ->
  ends_with pre c = false -> begins_with post c = false -> 1 <= n ->
  ellipsis_fold (pre ++ chars c n ++ post) =
  ellipsis_fold pre ++
  (if 3 <=? n
   then ellipsis_image (chars c n) (ends_with pre (ch "―")) (begins_with post (ch "―"))
   else chars c n) ++
  ellipsis_fold post.
Proof.
  intros Hc Hl Hh Hn. unfold ellipsis_chars in Hc.
  destruct Hc as [<-|[<-|[<-|[<-|[]]]]].
  - apply (ellipsis_passes_run [] (ch "・") [ch "。"; ch "、"; ch "．"]); auto.
  - apply (ellipsis_passes_run [ch "・"] (ch "。") [ch "、"; ch "．"]); auto.
  - apply (ellipsis_passes_run [ch "・"; ch "。"] (ch "、") [ch "．"]); auto.
  - apply (ellipsis_passes_run [ch "・"; ch "。"; ch "、"] (ch "．") []); auto.
Qed.

(** C7 (as amended): in [_convert_horizontal_ellipsis], a maximal run of
    n >= 3 copies of ・, 。, 、 or ． with no dash ― next to it becomes
    ceil(n/6)*2 copies of … (seven ・ become four …).  A run with a dash
    next to it is left untouched by the folding loop; the whole function
    leaves it untouched when the character is ・ or ．, while the
    replacements of 。。 and 、、 that follow the loop still shorten such a
    run of 。 or 、. *)
Theorem ellipsis_runs (c : char) (pre post : str) (n : nat) :
  In c ellipsis_chars -> 3 <= n ->
  ends_with pre c = false -> begins_with post c = false ->
  (ends_with pre (ch "―") = false -> begins_with post (ch "―") = false ->
   (forall q, 6 * q < n + 6 -> n <= 6 * q ->
      _convert_horizontal_ellipsis (pre ++ chars c n ++ post) =
      _convert_horizontal_ellipsis pre ++ chars (ch "…") (q * 2) ++
      _convert_horizontal_ellipsis post) /\
   (c = ch "・" -> n = 7 ->
      _convert_horizontal_ellipsis (pre ++ u "・・・・・・・" ++ post) =
      _convert_horizontal_ellipsis pre ++ u "…………" ++
      _convert_horizontal_ellipsis post)) /\
  (ends_with pre (ch "―") || begins_with post (ch "―") = true ->
   ellipsis_fold (pre ++ chars c n ++ post) =
   ellipsis_fold pre ++ chars c n ++ ellipsis_fold post /\
   (c = ch "・" \/ c = ch "．" ->
    _convert_horizontal_ellipsis (pre ++ chars c n ++ post) =
    _convert_horizontal_ellipsis pre ++ chars c n ++
    _convert_horizontal_ellipsis post)).
Proof.
  intros Hc Hn Hl Hh.
  pose proof (ellipsis_fold_run c pre post n Hc Hl Hh ltac:(lia)) as E.
  apply Nat.leb_le in Hn as Hn'. rewrite Hn' in E.
  assert (Hfold : forall q, ends_with pre (ch "―") = false ->
            begins_with post (ch "―") = false -> 6 * q < n + 6 -> n <= 6 * q ->
            _convert_horizontal_ellipsis (pre ++ chars c n ++ post) =
            _convert_horizontal_ellipsis pre ++ chars (ch "…") (q * 2) ++
            _convert_horizontal_ellipsis post).
  { intros q Hpd Hqd Hq1 Hq2. unfold _convert_horizontal_ellipsis.
    rewrite E, Hpd, Hqd. unfold ellipsis_image. cbn [orb].
    change (u "…") with [ch "…"]. rewrite str_repeat_char, chars_length.
    replace ((n + 5) / 6) with q by (div_facts (n + 5) 6; lia).
    assert (Hne : chars (ch "…") (q * 2) <> []) by (apply chars_nonempty; lia).
    rewrite (replace_around (u "。。")); [|discriminate|assumption|now apply chars_none].
    rewrite (replace_around (u "、、")); [|discriminate|assumption|now apply chars_none].
    reflexivity. }
  split.
  - intros Hpd Hqd. split; [intros q; now apply Hfold|].
    intros -> ->. apply (Hfold 2); auto; lia.
  - intros Hd. unfold ellipsis_image in E. rewrite Hd in E.
    split; [exact E|].
    intros Hcc. unfold _convert_horizontal_ellipsis. rewrite E.
    assert (Hne : chars c n <> []) by (apply chars_nonempty; lia).
    destruct Hcc as [-> | ->].
    + rewrite (replace_around (u "。。")); [|discriminate|assumption|now apply chars_none].
      rewrite (replace_around (u "、、")); [|discriminate|assumption|now apply chars_none].
      reflexivity.
    + rewrite (replace_around (u "。。")); [|discriminate|assumption|now apply chars_none].
      rewrite (replace_around (u "、、")); [|discriminate|assumption|now apply chars_none].
      reflexivity.
Qed.

(** C7 on a run of seven ・ between two kana. *)
Lemma ellipsis_runs_witness :
  In (ch "・") ellipsis_chars /\
  ends_with (u "あ") (ch "・") = false /\ begins_with (u "い") (ch "・") = false /\
  ends_with (u "あ") (ch "―") = false /\ begins_with (u "い") (ch "―") = false /\
  _convert_horizontal_ellipsis (u "あ" ++ chars (ch "・") 7 ++ u "い") =
  _convert_horizontal_ellipsis (u "あ") ++ chars (ch "…") (2 * 2) ++
  _convert_horizontal_ellipsis (u "い").
Proof.
  split; [left; reflexivity|]. split; [reflexivity|]. split; [reflexivity|].
  split; [reflexivity|]. split; [reflexivity|].
  refine (proj1 (proj1 (ellipsis_runs (ch "・") (u "あ") (u "い") 7
                          (or_introl eq_refl) _ eq_refl eq_refl) eq_refl eq_refl) 2 _ _); lia.
Defined.

(** C7 as stated fails in its last sentence: a run of three 。 that follows
    a dash is kept by the folding loop, and the replacement of 。。 by 。
    that ends the function shortens it to two. *)
Lemma ellipsis_after_dash_shortened :
  ellipsis_fold (u "―。。。") = u "―。。。" /\
  _convert_horizontal_ellipsis (u "―。。。") = u "―。。".
Proof. vm_compute. repeat split. Qed.

(** ** Blank-line packing: the loop *)

Lemma rstrip_nil_iff p s : rstrip p s = [] <-> forallb p s = true.
Proof.
  induction s as [|c s IH]; simpl; [tauto|].
  destruct (rstrip p s) eqn:E.
  - destruct (p c); simpl; [tauto|]. split; discriminate.
  - split; [discriminate|]. intros [_ H]%andb_true_iff. apply IH in H. discriminate.
Qed.

Lemma lstrip_nil_iff p s : lstrip p s = [] <-> forallb p s = true.
Proof.
  induction s as [|c s IH]; simpl; [tauto|].
  destruct (p c); simpl; [exact IH|]. split; discriminate.
Qed.

Lemma lstrip_forallb p s : forallb p (lstrip p s) = forallb p s.
Proof.
  induction s as [|c s IH]; simpl; [reflexivity|].
  destruct (p c) eqn:E; simpl; [exact IH|now rewrite E].
Qed.

Lemma strip_nil_iff p s : strip p s = [] <-> forallb p s = true.
Proof. unfold strip. rewrite rstrip_nil_iff, lstrip_forallb. tauto. Qed.

Lemma is_blank_spec line : is_blank line = forallb is_sp line.
Proof.
  unfold is_blank. destruct (forallb is_sp line) eqn:E.
  - apply strip_nil_iff in E. now rewrite E.
  - destruct (strip is_sp line) eqn:Es; [|reflexivity].
    apply strip_nil_iff in Es. congruence.
Qed.

Lemma rstrip_nonblank line : is_blank line = false -> rstrip is_sp line <> [].
Proof. rewrite is_blank_spec. intros H E. apply rstrip_nil_iff in E. congruence. Qed.

Lemma last_snoc (p : list str) (l : str) : last (p ++ [l]) [] = l.
Proof. apply last_last. Qed.

Lemma emitted_nonempty line : is_blank line = false -> emitted line <> [].
Proof.
  intros H. unfold emitted. destruct (_normalize_border_line line).
  - discriminate.
  - now apply rstrip_nonblank.
Qed.

(** Each turn for a line that is not blank appends what the line emits,
    after the blank lines its branch asks for. *)
Lemma pack_step_nonblank st line :
  is_blank line = false ->
  exists blanks,
    pack_step st line =
    PackState ((packed st ++ blanks) ++ [emitted line]) 0 (is_border line).
Proof.
  intros Hb. unfold pack_step, emitted, is_border. fold (is_blank line). rewrite Hb.
  destruct (_normalize_border_line line) as [b|].
  - destruct (0 <? blank_run st).
    + destruct (in_1_3 (blank_run st)); simpl.
      * exists [[]]. reflexivity.
      * exists [[]; []]. now rewrite <- !app_assoc.
    + destruct (negb (is_nil (packed st)) && last_nonblank (packed st)).
      * exists [[]]. reflexivity.
      * exists []. now rewrite app_nil_r.
  - destruct (is_nil (packed st) && (1 <=? blank_run st)).
    + exists [[]]. reflexivity.
    + destruct (prev_border st && (1 <=? blank_run st)).
      * destruct (in_1_3 (blank_run st)); simpl.
        -- exists [[]]. reflexivity.
        -- exists [[]; []]. now rewrite <- !app_assoc.
      * destruct ((2 <=? blank_run st) && last_nonblank (packed st)).
        -- exists ([[]] ++ (if 4 <=? blank_run st then [[]] else []) ++
                   (if 8 <=? blank_run st then [[]] else []) ++
                   (if 10 <=? blank_run st then [[]] else [])).
           destruct (4 <=? blank_run st), (8 <=? blank_run st), (10 <=? blank_run st);
             rewrite ?app_nil_r, <- ?app_assoc; reflexivity.
        -- exists []. now rewrite app_nil_r.
Qed.

Lemma pack_step_blank st line :
  is_blank line = true ->
  pack_step st line = PackState (packed st) (S (blank_run st)) (prev_border st).
Proof. intros Hb. unfold pack_step. fold (is_blank line). now rewrite Hb. Qed.

Lemma pack_step_ok st line : packed_ok st -> packed_ok (pack_step st line).
Proof.
  intros Hok. destruct (is_blank line) eqn:Hb.
  - rewrite pack_step_blank by assumption. exact Hok.
  - destruct (pack_step_nonblank st line Hb) as [blanks ->].
    right. unfold last_nonblank. cbn [packed]. rewrite last_snoc.
    destruct (emitted line) eqn:E; [|reflexivity].
    now apply emitted_nonempty in E.
Qed.

Lemma pack_lines_ok lines st : packed_ok st -> packed_ok (pack_lines st lines).
Proof.
  revert st; induction lines as [|l lines IH]; intros st Hok; [exact Hok|].
  simpl. apply IH. now apply pack_step_ok.
Qed.

Lemma pack_lines_app st a b : pack_lines st (a ++ b) = pack_lines (pack_lines st a) b.
Proof. apply fold_left_app. Qed.

Lemma pack_lines_blanks st bs :
  forallb is_blank bs = true ->
  pack_lines st bs = PackState (packed st) (length bs + blank_run st) (prev_border st).
Proof.
  revert st; induction bs as [|b bs IH]; intros st Hbs.
  - destruct st. reflexivity.
  - simpl in Hbs. apply andb_true_iff in Hbs as [Hb Hbs].
    simpl. rewrite pack_step_blank, IH by assumption. cbn [packed blank_run prev_border].
    f_equal. lia.
Qed.

(** C3: on the quoted input, [_pack_blank_lines] returns exactly the
    quoted output. *)
Theorem pack_blank_lines_example :
  _pack_blank_lines
    (u "一行目\n\n二行目\n\n\n三行目\n　\n\n四行目\n*****\n\n\n五行目\n") =
  u "一行目\n二行目\n\n三行目\n\n四行目\n\n　　　　＊＊＊＊＊\n\n\n五行目".
Proof. vm_compute. reflexivity. Qed.

(** ** Lines: [split], [join] and [replace] across line ends *)

Lemma join_cons l r : join [nl] (l :: r) = l ++ join_tail r.
Proof. destruct r; simpl; [now rewrite app_nil_r|reflexivity]. Qed.

Lemma split_cons_nonempty s : split_on nl s <> [].
Proof.
  induction s as [|c s IH]; simpl; [discriminate|].
  destruct (chr_eqb c nl); [discriminate|].
  destruct (split_on nl s); [congruence|discriminate].
Qed.

Lemma join_split s : join [nl] (split_on nl s) = s.
Proof.
  induction s as [|c s IH]; [reflexivity|]. cbn [split_on].
  destruct (chr_eqb_spec c nl) as [->|Hc].
  - rewrite join_cons. cbn [app].
    pose proof (split_cons_nonempty s) as Hne.
    destruct (split_on nl s) as [|l ls] eqn:E; [congruence|].
    unfold join_tail. now rewrite IH.
  - pose proof (split_cons_nonempty s) as Hne.
    destruct (split_on nl s) as [|l ls] eqn:E; [congruence|].
    rewrite join_cons in *. cbn [app]. now rewrite IH.
Qed.

Lemma split_nl_free s : forallb nl_free (split_on nl s) = true.
Proof.
  induction s as [|c s IH]; [reflexivity|]. cbn [split_on].
  destruct (chr_eqb_spec c nl) as [->|Hc].
  - exact IH.
  - assert (E : chr_eqb nl c = false)
      by (destruct (chr_eqb_spec nl c); [congruence|reflexivity]).
    destruct (split_on nl s) as [|l ls]; cbn [forallb] in *;
      unfold nl_free at 1; cbn [forallb]; rewrite E; cbn [negb andb].
    + reflexivity.
    + exact IH.
Qed.

Lemma split_app_line l rest :
  nl_free l = true -> split_on nl (l ++ nl :: rest) = l :: split_on nl rest.
Proof.
  induction l as [|c l IH]; intros Hl.
  - simpl. reflexivity.
  - simpl in Hl. apply andb_true_iff in Hl as [Hc Hl].
    cbn [app split_on]. rewrite chr_eqb_sym. apply negb_true_iff in Hc. rewrite Hc.
    now rewrite IH.
Qed.

Lemma split_line l : nl_free l = true -> split_on nl l = [l].
Proof.
  induction l as [|c l IH]; intros Hl; [reflexivity|].
  simpl in Hl. apply andb_true_iff in Hl as [Hc Hl].
  cbn [split_on]. rewrite chr_eqb_sym. apply negb_true_iff in Hc. rewrite Hc.
  now rewrite IH.
Qed.

Lemma split_join ls :
  ls <> [] -> forallb nl_free ls = true -> split_on nl (join [nl] ls) = ls.
Proof.
  induction ls as [|l ls IH]; intros Hne Hls; [congruence|].
  simpl in Hls. apply andb_true_iff in Hls as [Hl Hls].
  rewrite join_cons. destruct ls as [|l' ls].
  - simpl. rewrite app_nil_r. now apply split_line.
  - unfold join_tail. rewrite split_app_line by assumption.
    rewrite IH; [reflexivity|discriminate|assumption].
Qed.

Lemma replace_copy_first o old new a b :
  forallb (fun c => negb (chr_eqb o c)) a = true ->
  replace_from (o :: old) new 0 (a ++ b) = a ++ replace_from (o :: old) new 0 b.
Proof.
  induction a as [|c a IH]; intros Ha; [reflexivity|].
  simpl in Ha. apply andb_true_iff in Ha as [Hc Ha]. apply negb_true_iff in Hc.
  cbn [app replace_from starts_with]. rewrite Hc. cbn [andb]. now rewrite IH.
Qed.

Lemma replace_skip old new a b :
  replace_from old new (length a) (a ++ b) = replace_from old new 0 b.
Proof. induction a as [|c a IH]; [reflexivity|]. simpl. exact IH. Qed.

Lemma starts_with_split pat l :
  starts_with pat l = true -> l = pat ++ skipn (length pat) l.
Proof.
  revert l; induction pat as [|a pat IH]; intros l H; [reflexivity|].
  destruct l as [|c l]; [discriminate|]. simpl in H.
  apply andb_true_iff in H as [Hc H]. apply N.eqb_eq in Hc. subst c.
  simpl. f_equal. now apply IH.
Qed.

Lemma starts_with_app_r pat l z :
  starts_with pat l = true -> starts_with pat (l ++ z) = true.
Proof.
  revert l; induction pat as [|a pat IH]; intros l H; [reflexivity|].
  destruct l as [|c l]; [discriminate|]. simpl in *.
  apply andb_true_iff in H as [Hc H]. rewrite Hc. now apply IH.
Qed.

Lemma starts_with_other (sp : char -> bool) g :
  match g with x :: _ => sp x = false | [] => False end ->
  forall c t, sp c = true -> starts_with g (c :: t) = false.
Proof.
  destruct g as [|x g]; [contradiction|]. intros Hx c t Hc. cbn [starts_with].
  destruct (chr_eqb_spec x c) as [E|]; [|reflexivity]. subst c. congruence.
Qed.

Lemma starts_with_join_tail pat l r :
  nl_free pat = true ->
  starts_with pat (l ++ join_tail r) = starts_with pat l.
Proof.
  intros Hp. destruct r as [|l' r]; simpl.
  - now rewrite app_nil_r.
  - apply starts_with_app. unfold mem.
    clear -Hp. induction pat as [|a pat IH]; [reflexivity|].
    simpl in *. apply andb_true_iff in Hp as [Ha Hp].
    apply negb_true_iff in Ha. rewrite Ha. now apply IH.
Qed.

Lemma merge_lines_nonempty pat cur rest : merge_lines pat cur rest <> [].
Proof.
  revert cur; induction rest as [|l r IH]; intros cur; simpl; [discriminate|].
  destruct (starts_with pat l); [apply IH|discriminate].
Qed.

Lemma nl_free_app a b : nl_free (a ++ b) = nl_free a && nl_free b.
Proof. apply forallb_app. Qed.

(** [replace ('\n' + pat) pat] on joined lines. *)
Lemma replace_merge pat cur rest :
  pat <> [] -> nl_free pat = true ->
  nl_free cur = true -> forallb nl_free rest = true ->
  replace (nl :: pat) pat (join [nl] (cur :: rest)) =
  join [nl] (merge_lines pat cur rest).
Proof.
  intros Hne Hp. unfold replace. rewrite join_cons.
  revert cur; induction rest as [|l r IH]; intros cur Hcur Hrest.
  - simpl. rewrite app_nil_r.
    pose proof (replace_copy_first nl pat pat cur [] Hcur) as E.
    rewrite app_nil_r in E. rewrite E. cbn [replace_from]. apply app_nil_r.
  - simpl in Hrest. apply andb_true_iff in Hrest as [Hl Hr].
    unfold join_tail at 1. rewrite join_cons.
    rewrite replace_copy_first by assumption.
    cbn [replace_from starts_with merge_lines].
    unfold chr_eqb at 1. rewrite N.eqb_refl. cbn [andb].
    rewrite starts_with_join_tail by assumption.
    destruct (starts_with pat l) eqn:Hs.
    + rewrite <- IH by (rewrite ?nl_free_app, ?Hcur, ?Hl; auto).
      apply starts_with_split in Hs.
      remember (skipn (length pat) l) as l' eqn:El'. clear El'. subst l.
      replace (length (nl :: pat) - 1) with (length pat) by (simpl; lia).
      rewrite <- (app_assoc pat l'), replace_skip.
      transitivity ((cur ++ pat) ++ replace_from (nl :: pat) pat 0 (l' ++ join_tail r)).
      * now rewrite <- app_assoc.
      * rewrite <- replace_copy_first.
        -- f_equal. now rewrite <- !app_assoc.
        -- fold (nl_free (cur ++ pat)). rewrite nl_free_app, Hcur, Hp. reflexivity.
    + rewrite IH by assumption.
      rewrite join_cons.
      pose proof (merge_lines_nonempty pat l r) as Hm.
      destruct (merge_lines pat l r) as [|m ms]; [congruence|].
      unfold join_tail. now rewrite join_cons.
Qed.

(** ** Stripping *)

Lemma rstrip_idem p s : rstrip p (rstrip p s) = rstrip p s.
Proof.
  induction s as [|c s IH]; [reflexivity|]. cbn [rstrip].
  destruct (rstrip p s) as [|d r] eqn:E.
  - destruct (p c) eqn:Hc; [reflexivity|]. cbn [rstrip]. now rewrite Hc.
  - cbn [rstrip]. cbn [rstrip] in IH. rewrite IH. reflexivity.
Qed.

Lemma rstrip_prefix p s : exists w, s = rstrip p s ++ w.
Proof.
  induction s as [|c t IH]; [now exists []|]. destruct IH as (w & IH).
  cbn [rstrip]. destruct (rstrip p t) as [|d r].
  - destruct (p c); [exists (c :: t)|exists t]; reflexivity.
  - exists w. cbn [app]. f_equal. exact IH.
Qed.

Lemma lstrip_rstrip p s : lstrip p (rstrip p s) = rstrip p (lstrip p s).
Proof.
  induction s as [|c s IH]; [reflexivity|]. cbn [rstrip lstrip].
  destruct (p c) eqn:Hc.
  - destruct (rstrip p s) as [|d r] eqn:E.
    + apply rstrip_nil_iff in E. apply lstrip_nil_iff in E. rewrite E. reflexivity.
    + cbn [lstrip]. rewrite Hc. exact IH.
  - cbn [rstrip]. destruct (rstrip p s) as [|d r]; cbn [lstrip]; now rewrite Hc.
Qed.

Lemma strip_rstrip p s : strip p (rstrip p s) = strip p s.
Proof. unfold strip. now rewrite lstrip_rstrip, rstrip_idem. Qed.

Lemma rstrip_incl (f p : char -> bool) s :
  forallb f s = true -> forallb f (rstrip p s) = true.
Proof.
  induction s as [|c s IH]; [auto|]. cbn [forallb rstrip].
  intros [Hc Hs]%andb_true_iff. specialize (IH Hs).
  destruct (rstrip p s) as [|d r].
  - destruct (p c); [reflexivity|]. simpl. now rewrite Hc.
  - cbn [forallb] in *. now rewrite Hc, IH.
Qed.

Lemma rstrip_app p a b : rstrip p b <> [] -> rstrip p (a ++ b) = a ++ rstrip p b.
Proof.
  intros Hb. induction a as [|c a IH]; [reflexivity|].
  cbn [app rstrip]. rewrite IH.
  destruct (a ++ rstrip p b) eqn:E; [|reflexivity].
  apply app_eq_nil in E as [_ E]. congruence.
Qed.

Lemma forallb_weaken (f g : char -> bool) s :
  (forall c, f c = true -> g c = true) -> forallb f s = true -> forallb g s = true.
Proof.
  intros Hfg. induction s as [|c s IH]; [auto|]. simpl.
  intros [Hc Hs]%andb_true_iff. rewrite (Hfg _ Hc). now apply IH.
Qed.

Lemma strip_forallb (f q : char -> bool) s :
  forallb f (strip q s) = true -> forallb (fun c => f c || q c) s = true.
Proof.
  assert (Hr : forall t, forallb f (rstrip q t) = true ->
                         forallb (fun c => f c || q c) t = true).
  { induction t as [|c t IH]; [auto|]. cbn [rstrip forallb].
    destruct (rstrip q t) as [|d r] eqn:E.
    - intros H. apply rstrip_nil_iff in E.
      rewrite (forallb_weaken q (fun c => f c || q c) t) by
        (try assumption; intros x Hx; rewrite Hx; apply orb_true_r).
      destruct (q c); [now rewrite orb_true_r|]. simpl in H.
      apply andb_true_iff in H as [-> _]. reflexivity.
    - cbn [forallb]. intros [Hc H]%andb_true_iff. rewrite Hc. apply IH. exact H. }
  unfold strip. intros H. apply Hr in H. clear Hr.
  induction s as [|c s IH]; [auto|]. cbn [lstrip forallb] in *.
  destruct (q c) eqn:Hc.
  - rewrite orb_true_r. now apply IH.
  - cbn [forallb] in H. rewrite Hc in H. exact H.
Qed.

(** A line that holds a character outside the whitespace and the border
    characters is no border line. *)
Lemma not_border_of_char z s :
  In z s -> is_sp z = false -> mem z (u "＊*") = false ->
  mem z (u "◆◇■□●○★☆") = false -> is_border s = false.
Proof.
  intros Hin Hsp H1 H2. unfold is_border, _normalize_border_line.
  destruct (is_empty (strip is_sp s)); [reflexivity|].
  unfold at_least, plus, cls. rewrite !fullmatch_class.
  assert (E : forall f, f z = false -> forallb f (strip is_sp s) = false).
  { intros f Hf. destruct (forallb f (strip is_sp s)) eqn:Ef; [|reflexivity].
    apply strip_forallb in Ef. rewrite forallb_forall in Ef.
    specialize (Ef z Hin). rewrite Hf, Hsp in Ef. discriminate. }
  rewrite !E by assumption. now rewrite !andb_false_r.
Qed.

Lemma normalize_rstrip l :
  _normalize_border_line (rstrip is_sp l) = _normalize_border_line l.
Proof. unfold _normalize_border_line. now rewrite strip_rstrip. Qed.

Lemma packed_line_rstrip l :
  nl_free l = true -> plain_line l = true -> packed_line (rstrip is_sp l).
Proof.
  intros Hn Hp. apply andb_true_iff in Hp as [Hb Hbd].
  apply negb_true_iff in Hb, Hbd. repeat split.
  - now apply rstrip_incl.
  - now apply rstrip_nonblank.
  - apply rstrip_idem.
  - unfold is_border in *. now rewrite normalize_rstrip.
Qed.

Lemma packed_line_plain l : packed_line l -> plain_line l = true.
Proof.
  intros (_ & Hne & Hr & Hb). unfold plain_line. rewrite Hb, andb_true_r.
  apply negb_true_iff. rewrite is_blank_spec.
  destruct (forallb is_sp l) eqn:E; [|reflexivity].
  apply rstrip_nil_iff in E. congruence.
Qed.

(** Appending a line that begins with one of the two patterns keeps a
    packed line packed. *)
Lemma packed_line_app pat a b :
  pat = bang_quote \/ pat = question_quote ->
  packed_line a -> packed_line b -> starts_with pat b = true ->
  packed_line (a ++ b).
Proof.
  intros Hpat (Ha1 & Ha2 & Ha3 & Ha4) (Hb1 & Hb2 & Hb3 & Hb4) Hs.
  repeat split.
  - now rewrite nl_free_app, Ha1, Hb1.
  - destruct a; [congruence|discriminate].
  - rewrite rstrip_app by congruence. now rewrite Hb3.
  - apply (not_border_of_char (ch "」")); try reflexivity.
    apply in_or_app. right. apply starts_with_split in Hs. rewrite Hs.
    apply in_or_app. left. destruct Hpat as [-> | ->]; simpl; auto.
Qed.

(** ** Merged lines *)

Lemma merge_lines_Forall (Q : str -> Prop) pat cur rest :
  (forall a b, Q a -> Q b -> starts_with pat b = true -> Q (a ++ b)) ->
  Q cur -> Forall Q rest -> Forall Q (merge_lines pat cur rest).
Proof.
  intros Hq. revert cur; induction rest as [|l r IH]; intros cur Hc Hr; simpl.
  - constructor; [assumption|constructor].
  - inversion Hr as [|? ? Hl Hr']; subst.
    destruct (starts_with pat l) eqn:Hs.
    + apply IH; auto.
    + constructor; [assumption|]. apply IH; auto.
Qed.

(** The first merged line is [cur] with the lines appended to it; every
    other merged line is a line of [rest] that does not begin with [pat],
    with the lines appended to it. *)
Lemma merge_lines_shape pat cur rest :
  exists x t,
    merge_lines pat cur rest = (cur ++ x) :: t /\
    (x = [] \/ starts_with pat x = true) /\
    Forall (fun m => exists l0 y, m = l0 ++ y /\ In l0 rest /\
                                  starts_with pat l0 = false /\
                                  (y = [] \/ starts_with pat y = true)) t.
Proof.
  revert cur; induction rest as [|l r IH]; intros cur; simpl.
  - exists [], []. rewrite app_nil_r. auto.
  - destruct (starts_with pat l) eqn:Hs.
    + destruct (IH (cur ++ l)) as (x & t & E & Hx & Ht).
      exists (l ++ x), t. rewrite E, <- app_assoc. split; [reflexivity|]. split.
      * right. now apply starts_with_app_r.
      * eapply Forall_impl; [|exact Ht].
        intros m (l0 & y & Em & Hin & H0 & Hy). exists l0, y. auto.
    + destruct (IH l) as (x & t & E & Hx & Ht).
      exists [], (merge_lines pat l r). rewrite app_nil_r.
      split; [reflexivity|]. split; [now left|]. rewrite E. constructor.
      * exists l, x. auto.
      * eapply Forall_impl; [|exact Ht].
        intros m (l0 & y & Em & Hin & H0 & Hy). exists l0, y. auto.
Qed.

Lemma merge_lines_fixed pat cur rest :
  Forall (fun l => starts_with pat l = false) rest ->
  merge_lines pat cur rest = cur :: rest.
Proof.
  revert cur; induction rest as [|l r IH]; intros cur Hr; [reflexivity|].
  inversion Hr as [|? ? Hl Hr']; subst. simpl. rewrite Hl. f_equal. now apply IH.
Qed.

(** A line that does not begin with the two-character pattern [a b] still
    does not after text is appended whose first character is not [b]. *)
Lemma starts_with_ext a b l y :
  l <> [] -> starts_with [a; b] l = false ->
  (forall c y', y = c :: y' -> chr_eqb b c = false) ->
  starts_with [a; b] (l ++ y) = false.
Proof.
  intros Hne Hl Hy. destruct l as [|c1 l]; [congruence|].
  destruct l as [|c2 l].
  - simpl. destruct y as [|c y'].
    + now rewrite andb_false_r.
    + rewrite (Hy c y' eq_refl). simpl. now rewrite andb_false_r.
  - simpl in *. exact Hl.
Qed.

Lemma starts_with_hd pat y c y' :
  starts_with pat y = true -> y = c :: y' -> pat <> [] -> hd_error pat = Some c.
Proof.
  intros Hs -> Hne. destruct pat as [|a pat]; [congruence|]. simpl in Hs.
  apply andb_true_iff in Hs as [Ha _]. apply N.eqb_eq in Ha. now subst.
Qed.

Lemma merged_no_start (pat pat' : str) l0 y :
  (pat = bang_quote \/ pat = question_quote) ->
  (pat' = bang_quote \/ pat' = question_quote) ->
  l0 <> [] -> starts_with pat l0 = false ->
  (y = [] \/ starts_with pat' y = true) ->
  starts_with pat (l0 ++ y) = false.
Proof.
  intros Hp Hp' Hne Hl Hy.
  assert (Hc : forall c y', y = c :: y' -> chr_eqb (ch "」") c = false).
  { intros c y' E. destruct Hy as [->|Hy]; [discriminate|].
    assert (Hh : hd_error pat' = Some c).
    { apply (starts_with_hd pat' y c y' Hy E). destruct Hp' as [-> | ->]; discriminate. }
    destruct Hp' as [-> | ->]; injection Hh as <-; reflexivity. }
  destruct Hp as [-> | ->].
  - apply (starts_with_ext (ch "！") (ch "」")); assumption.
  - apply (starts_with_ext (ch "？") (ch "」")); assumption.
Qed.

Lemma forallb_Forall (f : str -> bool) ls :
  forallb f ls = true <-> Forall (fun l => f l = true) ls.
Proof. rewrite forallb_forall, Forall_forall. tauto. Qed.

(** ** The matcher reads forward *)

Lemma reach_refl st : reach st st.
Proof. unfold reach. lia. Qed.

Lemma reach_trans a b c : reach a b -> reach b c -> reach a c.
Proof. unfold reach. lia. Qed.

Lemma rep_reach body :
  (forall st k st', body st k = Some st' -> exists st2, k st2 = Some st' /\ reach st st2) ->
  forall fuel g lo hi st k st',
    rep_loop body g lo hi fuel st k = Some st' ->
    exists st2, k st2 = Some st' /\ reach st st2.
Proof.
  intros Hb. induction fuel as [|f IH]; intros g lo hi st k st' H; [discriminate|].
  cbn [rep_loop] in H.
  assert (Hmore : forall r,
    (if hi_open hi then
       body st (fun st1 =>
         if length (ms_rest st1) <? length (ms_rest st)
         then rep_loop body g (pred lo) (hi_pred hi) f st1 k else None)
     else None) = Some r ->
    exists st2, k st2 = Some r /\ reach st st2).
  { intros r Hr. destruct (hi_open hi); [|discriminate].
    apply Hb in Hr as (st1 & Hk & R1).
    destruct (length (ms_rest st1) <? length (ms_rest st)); [|discriminate].
    apply IH in Hk as (st2 & Hk & R2). exists st2. split; [exact Hk|].
    eapply reach_trans; eassumption. }
  destruct lo as [|lo]; [|now apply Hmore].
  destruct g.
  - destruct (if hi_open hi then _ else None) as [r|] eqn:E.
    + injection H as <-. now apply Hmore.
    + exists st. split; [exact H|apply reach_refl].
  - destruct (k st) as [r|] eqn:E.
    + injection H as <-. exists st. split; [exact E|apply reach_refl].
    + now apply Hmore.
Qed.

Lemma mt_reach r :
  forall st k st', mt r st k = Some st' -> exists st2, k st2 = Some st' /\ reach st st2.
Proof.
  induction r as [|p| | | |r1 IH1 r2 IH2|r1 IH1 r2 IH2|g lo hi r1 IH1|i r1 IH1];
    intros st k st' H; cbn [mt] in H.
  - exists st. split; [exact H|apply reach_refl].
  - destruct (ms_rest st) as [|c t] eqn:E; [discriminate|].
    destruct (p c); [|discriminate].
    eexists. split; [exact H|]. unfold reach, ms_advance. cbn [ms_len ms_rest].
    rewrite E. simpl. lia.
  - exists st. split; [|apply reach_refl].
    destruct (ms_prev st) as [c|]; [|exact H]. destruct (chr_eqb c nl); [exact H|discriminate].
  - exists st. split; [|apply reach_refl].
    destruct (ms_rest st) as [|c t]; [exact H|]. destruct (chr_eqb c nl); [exact H|discriminate].
  - exists st. split; [|apply reach_refl].
    destruct (is_empty (ms_rest st)); [exact H|discriminate].
  - apply IH1 in H as (st1 & H & R1). apply IH2 in H as (st2 & H & R2).
    exists st2. split; [exact H|]. eapply reach_trans; eassumption.
  - destruct (mt r1 st k) as [r|] eqn:E.
    + injection H as <-. now apply IH1.
    + now apply IH2.
  - eapply rep_reach; [|exact H]. exact IH1.
  - apply IH1 in H as (st1 & H & R1). eexists. split; [exact H|].
    unfold reach, ms_capture in *. cbn [ms_len ms_rest]. exact R1.
Qed.

(** A match never reads past the end of the text. *)
Lemma match_here_length r pos prev s m n :
  match_here r pos prev s = Some (m, n) -> n <= length s.
Proof.
  unfold match_here. destruct (mt r (ms_init prev s) accept) as [st|] eqn:E; [|discriminate].
  intros H. injection H as _ <-.
  apply mt_reach in E as (st2 & Ha & R). injection Ha as ->.
  unfold reach, ms_init in R. cbn [ms_len ms_rest] in R. lia.
Qed.

(** ** Substitution by the empty string *)

(** When every match of [r] has at least [k >= 1] characters, replacing
    the matches by the empty string leaves the text as it is or makes it
    at least [k] characters shorter. *)
Lemma sub_empty_shrinks r k :
  1 <= k ->
  (forall pos prev s m n, match_here r pos prev s = Some (m, n) -> k <= n) ->
  forall s skip pos prev, skip <= length s ->
    sub_loop r (fun _ => []) skip pos prev s = skipn skip s \/
    length (sub_loop r (fun _ => []) skip pos prev s) + k <= length s - skip.
Proof.
  intros Hk Hmin. induction s as [|c t IH]; intros skip pos prev Hs.
  - simpl in Hs. assert (skip = 0) by lia. subst. cbn [sub_loop].
    destruct (match_here r pos prev []) as [[m n]|] eqn:E; [|now left].
    pose proof (Hmin _ _ _ _ _ E). apply match_here_length in E. simpl in E. lia.
  - cbn [sub_loop]. destruct skip as [|j].
    + destruct (match_here r pos prev (c :: t)) as [[m n]|] eqn:E.
      * pose proof (Hmin _ _ _ _ _ E) as Hn. apply match_here_length in E. simpl in E.
        destruct n as [|j]; [lia|]. cbn [app]. right.
        destruct (IH j (S pos) (Some c) ltac:(lia)) as [H|H].
        -- rewrite H, length_skipn. simpl. lia.
        -- simpl. lia.
      * destruct (IH 0 (S pos) (Some c) ltac:(lia)) as [H|H].
        -- left. rewrite H. reflexivity.
        -- right. simpl in *. lia.
    + simpl in Hs. destruct (IH j (S pos) (Some c) ltac:(lia)) as [H|H].
      * left. exact H.
      * right. simpl. exact H.
Qed.

(** ** Tag stripping *)

(** A match of [<.+?>] has at least three characters. *)
Lemma re_tag_min pos prev s m n :
  match_here re_tag pos prev s = Some (m, n) -> 3 <= n.
Proof.
  unfold match_here. destruct (mt re_tag (ms_init prev s) accept) as [st|] eqn:E; [|discriminate].
  intros H. injection H as _ <-.
  unfold re_tag, seqs, plus_lazy, lit, dot_all in E. cbn [mt] in E.
  cbn [ms_init ms_rest] in E.
  destruct s as [|c0 t0]; [discriminate|].
  destruct (chr_eqb (ch "<") c0); [|discriminate].
  cbn [rep_loop hi_open hi_pred ms_advance ms_rest mt pred] in E.
  destruct t0 as [|c1 t1]; [discriminate|].
  cbn [ms_advance ms_rest] in E.
  destruct (length t1 <? length (c1 :: t1)); [|discriminate].
  apply (rep_reach (mt (Chr (fun _ => true))) (mt_reach _)) in E as (st2 & Hk & [R _]).
  cbn [ms_len ms_advance ms_init] in R.
  destruct (ms_rest st2) as [|c2 t2]; [discriminate|].
  destruct (chr_eqb (ch ">") c2); [|discriminate].
  injection Hk as <-. cbn [ms_advance ms_len]. lia.
Qed.

Lemma strip_tags_shrinks text :
  strip_tags text = text \/ length (strip_tags text) + 3 <= length text.
Proof.
  destruct (sub_empty_shrinks re_tag 3 ltac:(lia) re_tag_min text 0 0 None ltac:(lia))
    as [H|H].
  - left. exact H.
  - right. unfold strip_tags, re_sub. lia.
Qed.

Lemma differs_false text p : differs text (Some p) = false <-> text = p.
Proof.
  unfold differs. destruct (str_eqb_spec text p); simpl; split; congruence.
Qed.

(** After the first turn: with enough fuel the loop returns a fixed point
    of [strip_tags], and more fuel does not change the result. *)
Lemma delete_tag_loop_converges fuel t :
  length t <= fuel ->
  exists r, strip_tags r = r /\
            forall fuel', fuel <= fuel' ->
                          delete_tag_loop fuel' (strip_tags t) (Some t) = Some r.
Proof.
  revert t; induction fuel as [|f IH]; intros t Hf.
  - assert (t = []) by (destruct t; [reflexivity|simpl in Hf; lia]). subst t.
    exists []. split; [reflexivity|]. intros fuel' _. destruct fuel'; reflexivity.
  - destruct (strip_tags_shrinks t) as [E|E].
    + exists t. split; [exact E|]. intros fuel' _. rewrite E.
      assert (Hd : differs t (Some t) = false) by (now apply differs_false).
      destruct fuel'; cbn [delete_tag_loop]; rewrite Hd; reflexivity.
    + destruct (IH (strip_tags t) ltac:(lia)) as (r & Hr & Hloop).
      exists r. split; [exact Hr|]. intros fuel' Hf'.
      destruct fuel' as [|f']; [lia|]. cbn [delete_tag_loop].
      destruct (differs (strip_tags t) (Some t)) eqn:Ed.
      * apply Hloop. lia.
      * apply differs_false in Ed. rewrite Ed in E. lia.
Qed.

(** C10: the loop of [_delete_tag] terminates on every input.  Each turn
    leaves the text unchanged, in which case the loop exits, or makes it
    strictly shorter, by at least two characters (by three indeed: a match
    of [<.+?>] has at least three).  So with any fuel above [len(text)] the
    loop returns, the result does not depend on the fuel, it is what
    [_delete_tag] returns, and it is a fixed point of the substitution. *)
Theorem delete_tag_terminates (text : str) :
  (strip_tags text = text \/ length (strip_tags text) + 2 <= length text) /\
  (strip_tags text = text \/ length (strip_tags text) + 3 <= length text) /\
  (strip_tags text = text ->
   forall fuel, delete_tag_loop fuel (strip_tags text) (Some text) = Some text) /\
  (forall fuel, length text < fuel ->
     delete_tag_loop fuel text None = Some (_delete_tag text)) /\
  strip_tags (_delete_tag text) = _delete_tag text.
Proof.
  destruct (delete_tag_loop_converges (length text) text (le_n _)) as (r & Hr & Hloop).
  assert (Hfuel : forall fuel, length text < fuel -> delete_tag_loop fuel text None = Some r).
  { intros fuel Hf. destruct fuel as [|f]; [lia|]. cbn [delete_tag_loop differs].
    apply Hloop. lia. }
  assert (Hdt : _delete_tag text = r).
  { unfold _delete_tag. rewrite Hfuel by lia. reflexivity. }
  rewrite Hdt.
  split; [destruct (strip_tags_shrinks text); [now left|right; lia]|].
  split; [apply strip_tags_shrinks|].
  split; [|split; [exact Hfuel|exact Hr]].
  intros E fuel. rewrite E.
  assert (Hd : differs text (Some text) = false) by (now apply differs_false).
  destruct fuel; cbn [delete_tag_loop]; rewrite Hd; reflexivity.
Qed.

(** C10 on a text with nested brackets: fuel above its length suffices. *)
Lemma delete_tag_terminates_witness :
  length (u "a<<b>c>d") < 9 /\
  delete_tag_loop 9 (u "a<<b>c>d") None = Some (_delete_tag (u "a<<b>c>d")).
Proof.
  split; [vm_compute; lia|].
  apply (proj1 (proj2 (proj2 (proj2 (delete_tag_terminates (u "a<<b>c>d")))))).
  vm_compute; lia.
Defined.

(** ** The last stage of the pipeline *)

Lemma sub_loop_skip r (repl : rmatch -> str) a rest pos prev :
  sub_loop r repl (length a) pos prev (a ++ rest) =
  sub_loop r repl 0 (pos + length a) (prev_after prev a) rest.
Proof.
  revert pos prev; induction a as [|c a IH]; intros pos prev; simpl.
  - rewrite Nat.add_0_r. reflexivity.
  - rewrite IH. f_equal. lia.
Qed.

Lemma sub_loop_skip_all r (repl : rmatch -> str) s pos prev :
  match_here r (pos + length s) (prev_after prev s) [] = None ->
  sub_loop r repl (length s) pos prev s = [].
Proof.
  intros H. pose proof (sub_loop_skip r repl s [] pos prev) as E.
  rewrite app_nil_r in E. rewrite E. cbn [sub_loop]. now rewrite H.
Qed.

Lemma match_here_to_end p pos prev s :
  match_here (Seq (plus (Chr p)) EndZ) pos prev s =
  if (1 <=? length s) && forallb p s
  then Some (RMatch s [] pos prev None, length s) else None.
Proof.
  unfold match_here, plus.
  change (mt (Seq (Rep true 1 None (Chr p)) EndZ) (ms_init prev s) accept)
    with (rep_loop (mt (Chr p)) true 1 None (S (length (ms_rest (ms_init prev s))))
            (ms_init prev s) at_end).
  rewrite rep_class_at_end by (simpl; lia). cbn [ms_init ms_rest].
  destruct ((1 <=? length s) && forallb p s); [|reflexivity].
  rewrite ms_skip_len, ms_skip_rest, ms_skip_caps by (simpl; lia).
  cbn [ms_len ms_rest ms_caps ms_init Nat.add]. rewrite firstn_all, skipn_all. reflexivity.
Qed.

(** [re.sub(r'[class]+\Z', '', s)] removes the trailing run of the class. *)
Lemma sub_to_end_rstrip p s pos prev :
  sub_loop (Seq (plus (Chr p)) EndZ) (fun _ => []) 0 pos prev s = rstrip p s.
Proof.
  revert pos prev; induction s as [|c t IH]; intros pos prev.
  - cbn [sub_loop]. rewrite match_here_to_end. reflexivity.
  - cbn [sub_loop rstrip]. rewrite match_here_to_end.
    cbn [length Nat.leb andb].
    destruct (forallb p (c :: t)) eqn:E.
    + cbn [app]. rewrite sub_loop_skip_all by (rewrite match_here_to_end; reflexivity).
      simpl in E. apply andb_true_iff in E as [Hc Ht].
      apply rstrip_nil_iff in Ht. now rewrite Ht, Hc.
    + rewrite IH. destruct (rstrip p t) eqn:Er; [|reflexivity].
      apply rstrip_nil_iff in Er. simpl in E. rewrite Er, andb_true_r in E. now rewrite E.
Qed.

Lemma strip_text_end_rstrip s : strip_text_end s = rstrip is_ws s.
Proof. apply sub_to_end_rstrip. Qed.

Lemma rstrip_no_last p s : no_last p (rstrip p s).
Proof.
  induction s as [|c t IH]; [exact I|]. cbn [rstrip].
  destruct (rstrip p t) as [|d r] eqn:E.
  - destruct (p c) eqn:Hc; [exact I|]. unfold no_last. simpl. exact Hc.
  - unfold no_last in *. simpl in *. exact IH.
Qed.

(** C9 (as amended): the string that [_convert_html_fragment_to_aozora]
    returns never ends with whitespace: trailing runs of spaces, tabs,
    full-width spaces and line ends (so trailing blank lines) are always
    stripped, for every fragment, text kind and [html.unescape].  (Leading
    whitespace is not stripped by this function.) *)
Theorem output_has_no_trailing_whitespace
    (html_unescape : str -> str) (value : str) (kind : text_type) :
  no_last is_ws (_convert_html_fragment_to_aozora html_unescape value kind) /\
  forallb is_ws (u " \t　\n\r") = true.
Proof.
  split; [|reflexivity].
  unfold _convert_html_fragment_to_aozora.
  destruct (is_empty value); [exact I|].
  repeat match goal with
         | |- context [let '(_, _) := ?e in _] => destruct e
         end.
  rewrite strip_text_end_rstrip. apply rstrip_no_last.
Qed.

(** C9 as stated fails: whitespace that begins the result is kept.  A
    title that begins with a space, an introduction that begins with a
    full-width space and a body that begins with a line break return a
    string that begins with that space or with a line end. *)
Lemma leading_whitespace_kept :
  _convert_html_fragment_to_aozora unescape_plain (u " a") Title = u " ａ" /\
  _convert_html_fragment_to_aozora unescape_plain (u "　あ") Introduction = u "　あ" /\
  _convert_html_fragment_to_aozora unescape_plain (u "<br>あ") Body = u "\nあ" /\
  forallb is_ws (u " 　\n") = true.
Proof. vm_compute. repeat split. Qed.

(** ** Stash and restore *)

Lemma mem_forallb c s : mem c s = false <-> forallb (fun x => negb (chr_eqb c x)) s = true.
Proof.
  unfold mem. induction s as [|x s IH]; simpl; [tauto|].
  rewrite orb_false_iff, andb_true_iff, negb_true_iff. tauto.
Qed.

Lemma mem_app c a b : mem c (a ++ b) = mem c a || mem c b.
Proof. apply existsb_app. Qed.



Section StashRestore.
Variables (open : char) (base : N) (close : char).
Hypothesis open_lt_base : (open < base)%N.
Hypothesis open_ne_close : chr_eqb open close = false.
Variable r : regex.
Variable protect : str -> option str.
Variables alt image : str -> str.
Hypothesis alt_clean : forall t, mem open t = false -> mem open (alt t) = false.
Hypothesis image_clean :
  forall t v, mem open t = false -> protect t = Some v -> mem open (image v) = false.









End StashRestore.

(** ** The three stash steps *)


















(* ================================================================== *)
(** * Character substitutions *)

Lemma replace_char c new s : replace [c] new s = subst_char c new s.
Proof.
  unfold replace, subst_char. induction s as [|x s IH]; [reflexivity|].
  cbn [replace_from starts_with flat_map length Nat.sub].
  rewrite andb_true_r, IH. destruct (chr_eqb c x); reflexivity.
Qed.

Lemma subst_char_absent c new s : mem c s = false -> subst_char c new s = s.
Proof.
  unfold mem, subst_char. induction s as [|x s IH]; [reflexivity|].
  simpl. intros [Hx Hs]%orb_false_iff. rewrite Hx. simpl. now rewrite IH.
Qed.

Lemma subst_char_clean c new s :
  mem c new = false -> mem c (subst_char c new s) = false.
Proof.
  intros Hn. unfold subst_char. induction s as [|x s IH]; [reflexivity|].
  cbn [flat_map]. rewrite mem_app, IH, orb_false_r.
  destruct (chr_eqb c x) eqn:E; [exact Hn|]. unfold mem. simpl. now rewrite E.
Qed.

Lemma subst_char_keeps d c new s :
  mem d new = false -> mem d s = false -> mem d (subst_char c new s) = false.
Proof.
  intros Hn. unfold subst_char. induction s as [|x s IH]; [reflexivity|].
  unfold mem at 1. simpl. intros [Hx Hs]%orb_false_iff.
  rewrite mem_app, (IH Hs), orb_false_r.
  destruct (chr_eqb c x); [exact Hn|]. unfold mem. simpl. now rewrite Hx.
Qed.

(** X1: the mark ※ goes through [_stash_kome] and [_rebuild_kome_to_gaiji]
    to its gaiji note. *)
Theorem kome_round_trip (text : str) :
  _rebuild_kome_to_gaiji (_stash_kome text) =
  flat_map (fun c => if chr_eqb (ch "※") c || chr_eqb _KOME_SENTINEL c
                     then u "※［＃米印、1-2-8］" else [c]) text /\
  (mem _KOME_SENTINEL text = false ->
   _rebuild_kome_to_gaiji (_stash_kome text) =
   replace (u "※") (u "※［＃米印、1-2-8］") text) /\
  (mem (ch "※") text = false -> mem _KOME_SENTINEL text = false ->
   _rebuild_kome_to_gaiji (_stash_kome text) = text) /\
  mem _KOME_SENTINEL (_rebuild_kome_to_gaiji (_stash_kome text)) = false.
Proof.
  unfold _rebuild_kome_to_gaiji, _stash_kome.
  change (u "※") with [ch "※"]. rewrite !replace_char.
  assert (E : subst_char _KOME_SENTINEL (u "※［＃米印、1-2-8］")
                (subst_char (ch "※") [_KOME_SENTINEL] text) =
              flat_map (fun c => if chr_eqb (ch "※") c || chr_eqb _KOME_SENTINEL c
                                 then u "※［＃米印、1-2-8］" else [c]) text).
  { unfold subst_char. induction text as [|c t IH]; [reflexivity|].
    cbn [flat_map]. rewrite flat_map_app, IH. f_equal.
    destruct (chr_eqb (ch "※") c) eqn:E1.
    - cbn [flat_map orb]. unfold chr_eqb. rewrite N.eqb_refl. apply app_nil_r.
    - cbn [flat_map orb]. rewrite app_nil_r. reflexivity. }
  rewrite E. clear E.
  split; [reflexivity|]. split; [|split].
  - unfold mem, subst_char. induction text as [|c t IH]; [reflexivity|].
    simpl. intros [Hx Hs]%orb_false_iff.
    rewrite Hx, orb_false_r, (IH Hs). reflexivity.
  - unfold mem. induction text as [|c t IH]; [reflexivity|].
    simpl. intros [Hx Hs]%orb_false_iff [Hy Ht]%orb_false_iff.
    rewrite Hx, Hy, (IH Hs Ht). reflexivity.
  - induction text as [|c t IH]; [reflexivity|].
    cbn [flat_map]. rewrite mem_app, IH, orb_false_r.
    destruct (chr_eqb (ch "※") c) eqn:E1; [reflexivity|].
    destruct (chr_eqb _KOME_SENTINEL c) eqn:E2; [reflexivity|].
    unfold mem. simpl. now rewrite E2.
Qed.

(** X2: [_convert_double_angle_quotation_to_gaiji] writes the gaiji note
    for every ≪ and every ≫, so none is left. *)
Theorem double_angle_quotation_gone (text : str) :
  _convert_double_angle_quotation_to_gaiji text =
  flat_map (fun c => if chr_eqb (ch "≪") c then u "※［＃始め二重山括弧］"
                     else if chr_eqb (ch "≫") c then u "※［＃終わり二重山括弧］"
                     else [c]) text /\
  mem (ch "≪") (_convert_double_angle_quotation_to_gaiji text) = false /\
  mem (ch "≫") (_convert_double_angle_quotation_to_gaiji text) = false /\
  (mem (ch "≪") text = false -> mem (ch "≫") text = false ->
   _convert_double_angle_quotation_to_gaiji text = text).
Proof.
  unfold _convert_double_angle_quotation_to_gaiji.
  change (u "≪") with [ch "≪"]. change (u "≫") with [ch "≫"].
  rewrite !replace_char.
  split; [|split; [|split]].
  - unfold subst_char. induction text as [|c t IH]; [reflexivity|].
    cbn [flat_map]. rewrite flat_map_app, IH. f_equal.
    destruct (chr_eqb (ch "≪") c) eqn:E1; [reflexivity|].
    cbn [flat_map]. rewrite app_nil_r. reflexivity.
  - apply subst_char_keeps; [reflexivity|]. apply subst_char_clean. reflexivity.
  - apply subst_char_clean. reflexivity.
  - intros H1 H2. rewrite (subst_char_absent (ch "≪")) by exact H1.
    apply subst_char_absent. exact H2.
Qed.

Lemma subst_char_map c d s : subst_char c [d] s = map (fun x => if chr_eqb c x then d else x) s.
Proof.
  unfold subst_char. induction s as [|x s IH]; [reflexivity|].
  cbn [flat_map map]. rewrite IH. destruct (chr_eqb c x); reflexivity.
Qed.

(** X3: [_hankakukana_to_zenkakukana] writes − for － and ― for —,
    character by character, and leaves no － and no —. *)
Theorem hankakukana_dashes (text : str) :
  _hankakukana_to_zenkakukana text = map dash_image text /\
  length (_hankakukana_to_zenkakukana text) = length text /\
  mem (ch "－") (_hankakukana_to_zenkakukana text) = false /\
  mem (ch "—") (_hankakukana_to_zenkakukana text) = false /\
  (forall c, chr_eqb (ch "－") c = false -> chr_eqb (ch "—") c = false -> dash_image c = c).
Proof.
  assert (E : _hankakukana_to_zenkakukana text = map dash_image text).
  { unfold _hankakukana_to_zenkakukana.
    change (u "—") with [ch "—"]. change (u "－") with [ch "－"].
    change (u "―") with [ch "―"]. change (u "−") with [ch "−"].
    rewrite !replace_char, !subst_char_map, map_map. apply map_ext.
    intros c. unfold dash_image. destruct (chr_eqb (ch "－") c); reflexivity. }
  rewrite E. clear E. split; [reflexivity|]. split; [apply length_map|].
  split; [|split].
  - unfold mem. induction text as [|c t IH]; [reflexivity|].
    cbn [map existsb]. rewrite IH, orb_false_r. unfold dash_image.
    destruct (chr_eqb (ch "－") c) eqn:E1; [reflexivity|].
    destruct (chr_eqb (ch "—") c) eqn:E2; [reflexivity|exact E1].
  - unfold mem. induction text as [|c t IH]; [reflexivity|].
    cbn [map existsb]. rewrite IH, orb_false_r. unfold dash_image.
    destruct (chr_eqb (ch "－") c) eqn:E1; [reflexivity|].
    destruct (chr_eqb (ch "—") c) eqn:E2; [reflexivity|exact E2].
  - intros c H1 H2. unfold dash_image. now rewrite H1, H2.
Qed.

Lemma alphabet_table c :
  translate_char
    (maketrans (u "abcdefghijklmnopqrstuvwxyzABCDEFGHIJKLMNOPQRSTUVWXYZ")
               (u "ａｂｃｄｅｆｇｈｉｊｋｌｍｎｏｐｑｒｓｔｕｖｗｘｙｚＡＢＣＤＥＦＧＨＩＪＫＬＭＮＯＰＱＲＳＴＵＶＷＸＹＺ")) c =
  zenkaku_alpha c.
Proof.
  match goal with |- translate_char ?t _ = _ =>
    let t' := eval vm_compute in t in change t with t' end.
  unfold zenkaku_alpha, is_alpha, in_range. cbn [translate_char]. unfold chr_eqb.
  split_on_keys c.
  repeat match goal with
         | |- context [N.leb ?a ?b] => destruct (N.leb_spec a b)
         end;
  cbn [andb orb]; try reflexivity; exfalso; lia.
Qed.

(** X4: [_alphabet_to_zenkaku] writes the full-width letter for every
    half-width letter a-z and A-Z, position by position, and leaves every
    other character as it is. *)
Theorem alphabet_to_zenkaku_spec (s : str) :
  _alphabet_to_zenkaku s = map zenkaku_alpha s /\
  length (_alphabet_to_zenkaku s) = length s /\
  existsb is_alpha (_alphabet_to_zenkaku s) = false /\
  map zenkaku_alpha (u "abcdefghijklmnopqrstuvwxyzABCDEFGHIJKLMNOPQRSTUVWXYZ") =
  u "ａｂｃｄｅｆｇｈｉｊｋｌｍｎｏｐｑｒｓｔｕｖｗｘｙｚＡＢＣＤＥＦＧＨＩＪＫＬＭＮＯＰＱＲＳＴＵＶＷＸＹＺ" /\
  (forall c, is_alpha c = false -> zenkaku_alpha c = c).
Proof.
  assert (E : _alphabet_to_zenkaku s = map zenkaku_alpha s).
  { unfold _alphabet_to_zenkaku, translate. apply map_ext. exact alphabet_table. }
  rewrite E. clear E.
  split; [reflexivity|]. split; [apply length_map|].
  split; [|split; [vm_compute; reflexivity|]].
  - induction s as [|c t IH]; [reflexivity|].
    cbn [map existsb]. rewrite IH, orb_false_r.
    unfold zenkaku_alpha. destruct (is_alpha c) eqn:Ec; [|exact Ec].
    unfold is_alpha, in_range in *.
    repeat match goal with
           | |- context [N.leb ?a ?b] => destruct (N.leb_spec a b)
           end;
    cbn [andb orb]; try reflexivity; exfalso;
    repeat match goal with
           | H : context [N.leb ?a ?b] |- _ => destruct (N.leb_spec a b)
           end; cbn [andb orb] in Ec; try discriminate; lia.
  - intros c Hc. unfold zenkaku_alpha. now rewrite Hc.
Qed.

Lemma symbol_table_clean c :
  mem (translate_char
         (maketrans (u "-=+/*《》'" ++ [dq] ++ u "%$#&!?<>＜＞()|‐,._;:[]{}")
                    (u "－＝＋／＊≪≫’〝％＄＃＆！？〈〉〈〉（）｜－，．＿；：［］｛｝")) c)
      symbol_keys = false.
Proof.
  match goal with |- mem (translate_char ?t _) _ = _ =>
    let t' := eval vm_compute in t in change t with t' end.
  cbn [translate_char]. unfold chr_eqb.
  split_on_keys c.
  unfold mem, chr_eqb. 
  let k := eval vm_compute in symbol_keys in change symbol_keys with k.
  cbn [existsb].
  repeat match goal with
         | H : c <> ?k |- _ => rewrite (proj2 (N.eqb_neq c k) H); clear H
         end.
  reflexivity.
Qed.

(** X5: the result of [_symbols_to_zenkaku] holds none of the half-width
    symbols of its table and no backslash. *)
Theorem symbols_to_zenkaku_output (text : str) :
  forallb (fun c => negb (mem c symbol_keys) && negb (chr_eqb (ch "\\") c))
          (_symbols_to_zenkaku text) = true /\
  length symbol_keys = 32 /\
  forallb (fun c => mem c symbol_keys) (u "-=+/*'%$#&!?<>()|,._;:[]{}") = true.
Proof.
  split; [|split; vm_compute; reflexivity].
  unfold _symbols_to_zenkaku. cbv zeta.
  match goal with |- context [translate ?tbl ?x] => generalize x end.
  intros t. change (u "\\") with [ch "\\"]. rewrite replace_char.
  unfold subst_char, translate.
  induction t as [|c t IH]; [reflexivity|].
  cbn [map flat_map]. rewrite forallb_app, IH, andb_true_r.
  match goal with |- context [translate_char ?tbl c] =>
    pose proof (symbol_table_clean c) as Hc; set (x := translate_char tbl c) in * end.
  destruct (chr_eqb (ch "\\") x) eqn:E; [vm_compute; reflexivity|].
  cbn [forallb]. now rewrite Hc, E.
Qed.

(* ================================================================== *)
(** * Patterns that cannot match *)

Section Needs.
Variable ok : char -> bool.

Lemma rep_free body :
  (forall st k, free_of ok (ms_rest st) = true ->
     (forall st', free_of ok (ms_rest st') = true -> k st' = None) ->
     body st k = None) ->
  forall fuel g lo hi st k,
    free_of ok (ms_rest st) = true ->
    (forall st', free_of ok (ms_rest st') = true -> k st' = None) ->
    rep_loop body g lo hi fuel st k = None.
Proof.
  intros Hbody. induction fuel as [|f IH]; intros g lo hi st k Hst Hk; [reflexivity|].
  cbn [rep_loop].
  assert (Hmore : (if hi_open hi
                   then body st (fun st' =>
                          if length (ms_rest st') <? length (ms_rest st)
                          then rep_loop body g (pred lo) (hi_pred hi) f st' k
                          else None)
                   else None) = None).
  { destruct (hi_open hi); [|reflexivity]. apply Hbody; [exact Hst|].
    intros st' Hst'. destruct (_ <? _); [|reflexivity]. now apply IH. }
  rewrite Hmore. destruct lo; [|reflexivity].
  rewrite (Hk st Hst). destruct g; reflexivity.
Qed.

(** A continuation that refuses every state refuses after any pattern. *)
Lemma mt_free r :
  forall st k, free_of ok (ms_rest st) = true ->
    (forall st', free_of ok (ms_rest st') = true -> k st' = None) ->
    mt r st k = None.
Proof.
  induction r as [|p| | | |r1 IH1 r2 IH2|r1 IH1 r2 IH2|g lo hi r1 IH1|i r1 IH1];
    intros st k Hst Hk; cbn [mt].
  - now apply Hk.
  - destruct (ms_rest st) as [|c t] eqn:E; [reflexivity|].
    destruct (p c); [|reflexivity]. apply Hk. cbn [ms_advance ms_rest].
    unfold free_of in *. simpl in Hst. now apply andb_true_iff in Hst as [_ Hst].
  - destruct (ms_prev st) as [c|]; [destruct (chr_eqb c nl)|]; auto.
  - destruct (ms_rest st) as [|c t] eqn:E; [apply Hk; now rewrite E|].
    destruct (chr_eqb c nl); [|reflexivity]. apply Hk. now rewrite E.
  - destruct (is_empty (ms_rest st)); auto.
  - apply IH1; [exact Hst|]. intros st' Hst'. now apply IH2.
  - rewrite IH1, IH2 by assumption. reflexivity.
  - apply rep_free; assumption.
  - apply IH1; [exact Hst|]. intros st' Hst'. apply Hk. exact Hst'.
Qed.

(** A pattern that needs a character of the class does not match where
    none is left. *)
Lemma mt_needs r :
  needs ok r -> forall st k, free_of ok (ms_rest st) = true -> mt r st k = None.
Proof.
  induction r as [|p| | | |r1 IH1 r2 IH2|r1 IH1 r2 IH2|g lo hi r1 IH1|i r1 IH1];
    cbn [needs]; intros Hn st k Hst; try contradiction; cbn [mt].
  - destruct (ms_rest st) as [|c t] eqn:E; [reflexivity|].
    destruct (p c) eqn:Ep; [|reflexivity]. apply Hn in Ep.
    unfold free_of in Hst. simpl in Hst. now rewrite Ep in Hst.
  - destruct Hn as [Hn|Hn]; [now apply IH1|].
    apply mt_free; [exact Hst|]. intros st' Hst'. now apply IH2.
  - destruct Hn as [H1 H2]. rewrite IH1, IH2 by assumption. reflexivity.
  - destruct Hn as [Hlo Hn]. destruct lo as [|lo]; [lia|]. cbn [rep_loop].
    destruct (hi_open hi); [|reflexivity]. now apply IH1.
  - now apply IH1.
Qed.

Lemma match_here_needs r pos prev s :
  needs ok r -> free_of ok s = true -> match_here r pos prev s = None.
Proof.
  intros Hn Hs. unfold match_here. now rewrite mt_needs.
Qed.

Lemma free_of_tail c t : free_of ok (c :: t) = true -> free_of ok t = true.
Proof. unfold free_of. simpl. now intros [_ H]%andb_true_iff. Qed.

Lemma sub_loop_needs r repl s :
  needs ok r -> free_of ok s = true ->
  forall pos prev, sub_loop r repl 0 pos prev s = s.
Proof.
  intros Hn. induction s as [|c t IH]; intros Hs pos prev; cbn [sub_loop].
  - now rewrite match_here_needs.
  - rewrite match_here_needs by assumption. f_equal. apply IH.
    now apply free_of_tail in Hs.
Qed.

(** [re.sub] leaves a text without such a character as it is. *)
Lemma re_sub_needs r repl s :
  needs ok r -> free_of ok s = true -> re_sub r repl s = s.
Proof. intros Hn Hs. now apply sub_loop_needs. Qed.

Lemma sub_loop_st_needs (A : Type) r (f : A -> rmatch -> str * A) s :
  needs ok r -> free_of ok s = true ->
  forall pos prev acc, sub_loop_st r f 0 pos prev acc s = (s, acc).
Proof.
  intros Hn. induction s as [|c t IH]; intros Hs pos prev acc; cbn [sub_loop_st].
  - now rewrite match_here_needs.
  - rewrite match_here_needs by assumption.
    rewrite IH by (now apply free_of_tail in Hs). reflexivity.
Qed.
End Needs.

(* ================================================================== *)
(** * Tag stripping only deletes *)

Lemma subseq_refl s : subseq s s.
Proof. induction s; constructor; assumption. Qed.

Lemma subseq_nil_l s : subseq [] s.
Proof. induction s; constructor; assumption. Qed.

Lemma subseq_trans a b c : subseq a b -> subseq b c -> subseq a c.
Proof.
  intros Hab Hbc. revert a Hab.
  induction Hbc as [|b x c Hbc IH|b x c Hbc IH]; intros a Hab.
  - exact Hab.
  - constructor. now apply IH.
  - inversion Hab; subst.
    + apply subseq_drop. now apply IH.
    + apply subseq_keep. now apply IH.
Qed.

Lemma subseq_length a b : subseq a b -> length a <= length b.
Proof. induction 1; simpl; lia. Qed.

Lemma subseq_mem c a b : subseq a b -> mem c b = false -> mem c a = false.
Proof.
  unfold mem. induction 1 as [|a x b _ IH|a x b _ IH]; simpl; auto.
  - intros [_ H]%orb_false_iff. auto.
  - intros [Hx H]%orb_false_iff. rewrite Hx. auto.
Qed.

(** A substitution by the empty string only deletes. *)
Lemma sub_empty_subseq r s :
  forall skip pos prev, subseq (sub_loop r (fun _ => []) skip pos prev s) s.
Proof.
  induction s as [|c t IH]; intros skip pos prev; cbn [sub_loop].
  - destruct skip; [|constructor].
    destruct (match_here r pos prev []) as [[m n]|]; constructor.
  - destruct skip as [|k]; [|constructor; apply IH].
    destruct (match_here r pos prev (c :: t)) as [[m [|n]]|]; cbn [app].
    + constructor 3. apply IH.
    + constructor. apply IH.
    + constructor 3. apply IH.
Qed.

Lemma delete_tag_loop_subseq fuel :
  forall t prev r, delete_tag_loop fuel t prev = Some r -> subseq r t.
Proof.
  induction fuel as [|f IH]; intros t prev r; cbn [delete_tag_loop];
    destruct (differs t prev).
  - discriminate.
  - intros [= <-]. apply subseq_refl.
  - intros H. apply IH in H. eapply subseq_trans; [exact H|].
    apply sub_empty_subseq.
  - intros [= <-]. apply subseq_refl.
Qed.

Lemma delete_tag_subseq text : subseq (_delete_tag text) text.
Proof.
  unfold _delete_tag.
  destruct (delete_tag_loop (S (length text)) text None) as [r|] eqn:E.
  - now apply delete_tag_loop_subseq in E.
  - apply subseq_refl.
Qed.

Lemma delete_tag_of_fixed text : strip_tags text = text -> _delete_tag text = text.
Proof.
  intros E. unfold _delete_tag. cbn [delete_tag_loop differs]. rewrite E.
  assert (Hd : differs text (Some text) = false) by (now apply differs_false).
  destruct (length text); cbn [delete_tag_loop]; rewrite Hd; reflexivity.
Qed.

Lemma delete_tag_is_fixed text : strip_tags (_delete_tag text) = _delete_tag text.
Proof.
  unfold _delete_tag. cbn [delete_tag_loop differs].
  destruct (delete_tag_loop_converges (length text) text (le_n _)) as (r & Hr & Hloop).
  match goal with
  | |- context [delete_tag_loop ?a ?b ?c] =>
      destruct (delete_tag_loop a b c) as [x|] eqn:E2
  end; pose proof (eq_trans (eq_sym (Hloop (length text) (le_n _))) E2) as E3.
  - injection E3 as <-. exact Hr.
  - discriminate.
Qed.

Lemma free_of_mem c s : free_of (chr_eqb c) s = true <-> mem c s = false.
Proof. unfold free_of. symmetry. apply mem_forallb. Qed.

(** X6: [_delete_tag] only deletes characters, it is idempotent, and it
    returns a text that holds no [<] or no [>] as it is. *)
Theorem delete_tag_only_deletes (text : str) :
  subseq (_delete_tag text) text /\
  length (_delete_tag text) <= length text /\
  _delete_tag (_delete_tag text) = _delete_tag text /\
  (mem (ch "<") text = false \/ mem (ch ">") text = false -> _delete_tag text = text).
Proof.
  split; [apply delete_tag_subseq|].
  split; [apply subseq_length, delete_tag_subseq|].
  split; [apply delete_tag_of_fixed, delete_tag_is_fixed|].
  intros H. apply delete_tag_of_fixed. unfold strip_tags.
  destruct H as [H|H].
  - apply (re_sub_needs (chr_eqb (ch "<"))); [|now apply free_of_mem].
    left. intros c Hc. exact Hc.
  - apply (re_sub_needs (chr_eqb (ch ">"))); [|now apply free_of_mem].
    right. right. intros c Hc. exact Hc.
Qed.

(* ================================================================== *)
(** * Text without markup *)

(** Deleting the runs of a class deletes its characters. *)
Lemma sub_class_delete p s :
  forall skip pos prev, forallb p (firstn skip s) = true ->
    sub_loop (plus (Chr p)) (fun _ => []) skip pos prev s =
    filter (fun c => negb (p c)) s.
Proof.
  unfold plus. induction s as [|c t IH]; intros skip pos prev Hskip.
  - cbn [sub_loop filter]. destruct skip; [|reflexivity].
    rewrite match_here_class. reflexivity.
  - cbn [sub_loop filter]. destruct skip as [|k].
    + rewrite match_here_class. cbn [run_len].
      destruct (p c) eqn:Ec; cbn [negb Nat.leb app].
      * apply IH. apply run_len_prefix.
      * f_equal. apply IH. reflexivity.
    + simpl in Hskip. apply andb_true_iff in Hskip as [Hc Hk].
      rewrite Hc. cbn [negb]. now apply IH.
Qed.

Lemma re_sub_class_delete p s :
  re_sub (plus (Chr p)) (fun _ => []) s = filter (fun c => negb (p c)) s.
Proof. apply sub_class_delete. reflexivity. Qed.

Lemma needs_seqs_head ok r rs : needs ok r -> needs ok (seqs (r :: rs)).
Proof. intros H. destruct rs; [exact H|]. left. exact H. Qed.

Lemma needs_seqs_tail ok r rs : rs <> [] -> needs ok (seqs rs) -> needs ok (seqs (r :: rs)).
Proof. intros Hne H. destruct rs; [congruence|]. right. exact H. Qed.

Lemma needs_ilits ok s c :
  hd_error s = Some c ->
  (forall x, mem x (case_variants c) = true -> ok x = true) ->
  needs ok (ilits s).
Proof.
  destruct s as [|d s]; [discriminate|]. intros [= ->] H.
  unfold ilits. cbn [map]. apply needs_seqs_head. exact H.
Qed.

Lemma needs_lit (ok : char -> bool) c : ok c = true -> needs ok (lit c).
Proof. intros H x Hx. destruct (chr_eqb_spec c x); [now subst|discriminate]. Qed.

Lemma needs_lits ok s c :
  hd_error s = Some c -> ok c = true -> needs ok (lits s).
Proof.
  destruct s as [|d s]; [discriminate|]. intros [= ->] H.
  cbn [lits]. destruct s; [|left]; now apply needs_lit.
Qed.

Lemma lt_variants x : mem x (case_variants (ch "<")) = true -> chr_eqb (ch "<") x = true.
Proof.
  change (case_variants (ch "<")) with [ch "<"]. unfold mem. simpl.
  rewrite orb_false_r, chr_eqb_sym. auto.
Qed.

Lemma filter_free_of (ok f : char -> bool) s :
  free_of ok s = true -> free_of ok (filter f s) = true.
Proof.
  unfold free_of. induction s as [|c t IH]; [reflexivity|].
  simpl. intros [Hc Ht]%andb_true_iff. destruct (f c); simpl; [rewrite Hc|]; auto.
Qed.

Ltac needs_lt :=
  first
    [ apply needs_ilits with (c := ch "<"); [reflexivity|exact lt_variants]
    | apply needs_lits with (c := ch "<"); [reflexivity|reflexivity]
    | apply needs_lit; reflexivity
    | apply needs_seqs_head; needs_lt
    | apply needs_seqs_tail; [discriminate|needs_lt] ].

(** X7: a fragment without [<] goes through [_html_to_aozora] untouched
    up to [html.unescape]; outside preformatted text its line ends are
    removed first. *)
Theorem html_to_aozora_plain_text (html_unescape : str -> str) (value : str) :
  _html_to_aozora html_unescape [] true = [] /\
  _html_to_aozora html_unescape [] false = [] /\
  (value <> [] -> mem (ch "<") value = false ->
   _html_to_aozora html_unescape value true = html_unescape value /\
   _html_to_aozora html_unescape value false =
   html_unescape (filter (fun c => negb (mem c (u "\r\n"))) value)).
Proof.
  split; [reflexivity|]. split; [reflexivity|].
  intros Hne Hlt. apply free_of_mem in Hlt.
  assert (Hplain : forall t, free_of (chr_eqb (ch "<")) t = true ->
            forall r f, needs (chr_eqb (ch "<")) r -> re_sub r f t = t).
  { intros t Ht r f Hr. now apply (re_sub_needs (chr_eqb (ch "<"))). }
  assert (Hdel : forall t, free_of (chr_eqb (ch "<")) t = true -> _delete_tag t = t).
  { intros t Ht. apply delete_tag_of_fixed. apply Hplain; [exact Ht|].
    unfold re_tag. needs_lt. }
  unfold _html_to_aozora. destruct value as [|c v]; [congruence|]. cbn [is_empty negb].
  split.
  - repeat (rewrite (Hplain _ Hlt) by needs_lt).
    rewrite Hdel by exact Hlt. reflexivity.
  - unfold cls. rewrite re_sub_class_delete.
    set (t := filter _ (c :: v)).
    assert (Ht : free_of (chr_eqb (ch "<")) t = true) by (now apply filter_free_of).
    repeat (rewrite (Hplain _ Ht) by needs_lt).
    rewrite Hdel by exact Ht. reflexivity.
Qed.

(* ================================================================== *)
(** * What the stash tables hold *)

(** A property of the accumulator that every replacement keeps is kept by
    the whole scan. *)
Lemma sub_loop_st_inv (A : Type) (I : A -> Prop) r (f : A -> rmatch -> str * A) :
  (forall pos prev s m n acc,
     match_here r pos prev s = Some (m, n) -> I acc -> I (snd (f acc m))) ->
  forall s skip pos prev acc, I acc -> I (snd (sub_loop_st r f skip pos prev acc s)).
Proof.
  intros Hf. induction s as [|c t IH]; intros skip pos prev acc Hacc; cbn [sub_loop_st].
  - destruct skip; [|exact Hacc].
    destruct (match_here r pos prev []) as [[m n]|] eqn:E; [|exact Hacc].
    eapply Hf; eassumption.
  - destruct skip as [|k]; [|now apply IH].
    destruct (match_here r pos prev (c :: t)) as [[m n]|] eqn:E.
    + pose proof (Hf _ _ _ _ _ acc E Hacc) as H1.
      destruct (f acc m) as [out acc1]. cbn [snd] in H1.
      destruct n as [|k].
      * pose proof (IH 0 (S pos) (Some c) acc1 H1) as H2.
        destruct (sub_loop_st r f 0 (S pos) (Some c) acc1 t). exact H2.
      * pose proof (IH k (S pos) (Some c) acc1 H1) as H2.
        destruct (sub_loop_st r f k (S pos) (Some c) acc1 t). exact H2.
    + pose proof (IH 0 (S pos) (Some c) acc Hacc) as H2.
      destruct (sub_loop_st r f 0 (S pos) (Some c) acc t). exact H2.
Qed.

(** The text of a match of a run of a class. *)
Lemma match_here_class_text p pos prev s m n :
  match_here (plus (Chr p)) pos prev s = Some (m, n) ->
  m_text m <> [] /\ forallb p (m_text m) = true.
Proof.
  unfold plus. rewrite match_here_class.
  destruct (1 <=? run_len p s) eqn:E; [|discriminate]. intros [= <- <-].
  cbn [m_text]. split; [|apply run_len_prefix].
  apply Nat.leb_le in E. destruct s as [|c t]; [simpl in E; lia|].
  simpl in *. destruct (p c); [discriminate|lia].
Qed.

Lemma mt_lits l st k :
  mt (lits l) st k =
  if starts_with l (ms_rest st) then k (ms_skip st (length l)) else None.
Proof.
  revert st. induction l as [|c l IH]; intros st; [reflexivity|].
  assert (E : mt (lits (c :: l)) st k = mt (lit c) st (fun st' => mt (lits l) st' k)).
  { cbn [lits]. destruct l; reflexivity. }
  rewrite E. unfold lit. cbn [mt starts_with length ms_skip].
  destruct (ms_rest st) as [|x t]; [reflexivity|].
  destruct (chr_eqb c x); [|reflexivity]. cbn [andb]. rewrite IH. reflexivity.
Qed.

Lemma ms_skip_reach st n : n <= length (ms_rest st) -> reach st (ms_skip st n).
Proof.
  revert st; induction n as [|n IH]; intros st Hn; [apply reach_refl|].
  cbn [ms_skip]. destruct (ms_rest st) as [|c t] eqn:E; [simpl in Hn; lia|].
  eapply reach_trans; [|apply IH; cbn [ms_advance ms_rest]; simpl in Hn; lia].
  unfold reach, ms_advance. cbn [ms_len ms_rest]. rewrite E. simpl. lia.
Qed.

Lemma starts_with_firstn l s n :
  starts_with l s = true -> length l <= n -> starts_with l (firstn n s) = true.
Proof.
  revert s n; induction l as [|c l IH]; intros s n H Hn; [reflexivity|].
  destruct s as [|x s]; [discriminate|]. destruct n as [|n]; [simpl in Hn; lia|].
  simpl in *. apply andb_true_iff in H as [-> H]. apply IH; [exact H|lia].
Qed.

Lemma starts_with_app_both a b s :
  starts_with (a ++ b) s = starts_with a s && starts_with b (skipn (length a) s).
Proof.
  revert s; induction a as [|c a IH]; intros s; [reflexivity|].
  destruct s as [|x s]; [reflexivity|]. simpl.
  rewrite IH. destruct (chr_eqb c x); reflexivity.
Qed.

Lemma mt_opt_lit c st k res :
  mt (opt (lit c)) st k = Some res ->
  (exists t, ms_rest st = c :: t /\ k (ms_advance st c t) = Some res) \/
  k st = Some res.
Proof.
  unfold opt, lit. cbn [mt rep_loop hi_open hi_pred pred].
  destruct (ms_rest st) as [|x t] eqn:Ex; [auto|].
  destruct (chr_eqb_spec c x) as [<-|Hne]; [|auto].
  cbn [ms_advance ms_rest length].
  replace (length t <? S (length t)) with true by (symmetry; apply Nat.ltb_lt; lia).
  cbn [rep_loop hi_open].
  destruct (k (ms_advance st c t)) as [r|] eqn:Ek.
  - intros [= <-]. left. exists t. split; [reflexivity|exact Ek].
  - auto.
Qed.

(** A match of the URL pattern begins with [http://] or [https://]. *)
Lemma match_here_url pos prev s m n :
  match_here re_url pos prev s = Some (m, n) ->
  starts_with (u "http://") (m_text m) || starts_with (u "https://") (m_text m) = true.
Proof.
  unfold match_here.
  destruct (mt re_url (ms_init prev s) accept) as [st|] eqn:E; [|discriminate].
  intros [= <- <-]. cbn [m_text].
  unfold re_url in E. cbn [seqs mt] in E. rewrite mt_lits in E.
  cbn [ms_init ms_rest] in E.
  destruct (starts_with (u "http") s) eqn:Hh; [|discriminate].
  assert (Hlen : length (u "http") <= length s) by (now apply starts_with_length).
  set (st1 := ms_skip (ms_init prev s) (length (u "http"))) in E.
  assert (R1 : ms_rest st1 = skipn 4 s /\ ms_len st1 = 4).
  { unfold st1. rewrite ms_skip_rest, ms_skip_len by exact Hlen. split; reflexivity. }
  destruct R1 as [Hr1 Hl1].
  assert (Htail : forall st2 z, ms_rest st2 = skipn z s -> ms_len st2 = z ->
            mt (lits (u "://")) st2
               (fun st' => mt (plus (Chr is_url_char)) st' accept) = Some st ->
            starts_with (u "://") (skipn z s) = true /\ z + 3 <= ms_len st).
  { intros st2 z Hr Hl H. rewrite mt_lits, Hr in H.
    destruct (starts_with (u "://") (skipn z s)) eqn:Hs; [|discriminate].
    split; [reflexivity|].
    apply mt_reach in H as (st3 & Ha & R). injection Ha as ->.
    destruct R as [R _].
    rewrite ms_skip_len in R by (rewrite Hr; now apply starts_with_length).
    change (length (u "://")) with 3 in R. lia. }
  apply mt_opt_lit in E as [(t & Et & E)|E].
  - assert (Hx : skipn 4 s = ch "s" :: t) by (now rewrite <- Hr1).
    assert (H5 : skipn 5 s = t).
    { change 5 with (1 + 4). rewrite <- skipn_skipn, Hx. reflexivity. }
    apply (Htail _ 5) in E as [Hs Hn];
      [|cbn [ms_advance ms_rest]; now rewrite H5|cbn [ms_advance ms_len]; lia].
    apply orb_true_iff. right.
    change (u "https://") with (u "http" ++ [ch "s"] ++ u "://").
    apply starts_with_firstn; [|simpl; lia].
    rewrite starts_with_app_both, Hh. cbn [andb].
    change (length (u "http")) with 4. rewrite Hx.
    rewrite H5 in Hs. cbn [app starts_with].
    unfold chr_eqb at 1. rewrite N.eqb_refl. exact Hs.
  - apply (Htail st1 4 Hr1 Hl1) in E as [Hs Hn].
    apply orb_true_iff. left.
    change (u "http://") with (u "http" ++ u "://"). apply starts_with_firstn; [|simpl; lia].
    rewrite starts_with_app_both, Hh. exact Hs.
Qed.

Lemma subst_char_mem_new c d s :
  mem c s = true -> mem d (subst_char c [d] s) = true.
Proof.
  unfold mem, subst_char. induction s as [|x s IH]; [discriminate|].
  cbn [existsb flat_map]. destruct (chr_eqb c x) eqn:E; cbn [orb app existsb].
  - intros _. unfold chr_eqb. now rewrite N.eqb_refl.
  - intros H. rewrite (IH H). apply orb_true_r.
Qed.

Lemma subst_char_mem_other c new d s :
  chr_eqb c d = false -> mem d s = true -> mem d (subst_char c new s) = true.
Proof.
  intros Hcd. unfold subst_char. induction s as [|x s IH]; [discriminate|].
  unfold mem at 1. cbn [existsb flat_map]. rewrite mem_app.
  destruct (chr_eqb d x) eqn:E; cbn [orb].
  - intros _. destruct (chr_eqb_spec d x) as [<-|]; [|discriminate].
    rewrite Hcd. unfold mem. simpl. unfold chr_eqb. now rewrite N.eqb_refl.
  - intros H. rewrite (IH H). apply orb_true_r.
Qed.

Lemma subst_char_exists (f : char -> bool) c new s :
  f c = false -> existsb f s = true -> existsb f (subst_char c new s) = true.
Proof.
  intros Hc. unfold subst_char. induction s as [|x s IH]; [discriminate|].
  cbn [existsb flat_map]. rewrite existsb_app.
  destruct (f x) eqn:E; cbn [orb].
  - intros _. destruct (chr_eqb_spec c x) as [<-|]; [congruence|].
    simpl. now rewrite E.
  - intros H. rewrite (IH H). apply orb_true_r.
Qed.

(** X8: what the three stash tables hold.  Every stashed URL begins with
    [http://] or [https://]; every stashed English run is a non-empty run
    of the characters of the pattern that is sentence-like or a long
    word; every stashed number holds a half-width comma and a digit and
    no full-width comma. *)
Theorem stash_tables_hold (text : str) (kind : text_type) :
  Forall (fun url => starts_with (u "http://") url || starts_with (u "https://") url = true)
         (snd (_stash_urls text)) /\
  Forall (fun sentence =>
            sentence <> [] /\ forallb is_english_char sentence = true /\
            sentence_like sentence || long_ascii_word sentence = true)
         (snd (_stash_english_sentences text)) /\
  Forall (fun num =>
            mem (ch ",") num = true /\ mem (ch "，") num = false /\
            existsb is_digit num = true)
         (snd (_convert_numbers text kind)) /\
  (is_heading_kind kind = true -> snd (_convert_numbers text kind) = []).
Proof.
  split; [|split; [|split]].
  - unfold _stash_urls, re_sub_st.
    apply (sub_loop_st_inv _ (Forall _)); [|constructor].
    intros pos prev s m n acc Hm Hacc. cbn [snd].
    apply Forall_app. split; [exact Hacc|]. constructor; [|constructor].
    eapply match_here_url. exact Hm.
  - unfold _stash_english_sentences, re_sub_st.
    apply (sub_loop_st_inv _ (Forall _)); [|constructor].
    intros pos prev s m n acc Hm Hacc. unfold english_repl. cbv zeta.
    apply match_here_class_text in Hm as [Hne Hall].
    destruct (sentence_like (m_text m) || long_ascii_word (m_text m)) eqn:E;
      cbn [snd]; [|exact Hacc].
    apply Forall_app. split; [exact Hacc|]. constructor; [|constructor]. auto.
  - unfold _convert_numbers. cbv zeta.
    destruct (is_heading_kind kind); [constructor|].
    unfold re_sub_st.
    apply (sub_loop_st_inv _ (Forall _)); [|constructor].
    intros pos prev s m n acc Hm Hacc. unfold num_repl. cbv zeta.
    destruct (mem (ch ",") (m_text m) || mem (ch "，") (m_text m)) eqn:Ec;
      [|exact Hacc].
    destruct (existsb is_digit (m_text m)) eqn:Ed; cbn [snd]; [|exact Hacc].
    apply Forall_app. split; [exact Hacc|]. constructor; [|constructor].
    change (u "，") with [ch "，"]. change (u ",") with [ch ","].
    rewrite replace_char. split; [|split].
    + apply orb_true_iff in Ec as [Ec|Ec].
      * apply subst_char_mem_other; [reflexivity|exact Ec].
      * apply subst_char_mem_new. exact Ec.
    + apply subst_char_clean. reflexivity.
    + apply subst_char_exists; [vm_compute; reflexivity|exact Ed].
  - intros Hk. unfold _convert_numbers. cbv zeta. rewrite Hk. reflexivity.
Qed.

(* ================================================================== *)
(** * Border lines *)

Lemma lstrip_clean p s : forallb (fun c => negb (p c)) s = true -> lstrip p s = s.
Proof. destruct s as [|c t]; [reflexivity|]. simpl. now intros [->%negb_true_iff _]%andb_true_iff. Qed.

Lemma rstrip_clean p s : forallb (fun c => negb (p c)) s = true -> rstrip p s = s.
Proof.
  induction s as [|c t IH]; [reflexivity|]. simpl.
  intros [Hc Ht]%andb_true_iff. rewrite (IH Ht). apply negb_true_iff in Hc.
  rewrite Hc. destruct t; reflexivity.
Qed.

Lemma strip_clean p s : forallb (fun c => negb (p c)) s = true -> strip p s = s.
Proof. intros H. unfold strip. rewrite lstrip_clean by exact H. now apply rstrip_clean. Qed.

Lemma lstrip_idem p s : lstrip p (lstrip p s) = lstrip p s.
Proof.
  induction s as [|c t IH]; [reflexivity|]. simpl.
  destruct (p c) eqn:E; [exact IH|]. simpl. now rewrite E.
Qed.

Lemma strip_idem p s : strip p (strip p s) = strip p s.
Proof.
  unfold strip. rewrite (lstrip_rstrip p (lstrip p s)), lstrip_idem, rstrip_idem.
  reflexivity.
Qed.

Lemma lstrip_app_all p a b : forallb p a = true -> lstrip p (a ++ b) = lstrip p b.
Proof.
  induction a as [|c a IH]; [reflexivity|]. simpl.
  intros [-> Ha]%andb_true_iff. now apply IH.
Qed.

Lemma normalize_star b :
  star_line b = true -> _normalize_border_line b = Some b.
Proof.
  unfold star_line. intros [Hlen Hall]%andb_true_iff.
  assert (Hclean : forallb (fun c => negb (is_sp c)) b = true).
  { eapply forallb_weaken; [|exact Hall]. intros c Hc.
    destruct (chr_eqb_spec (ch "＊") c) as [E|]; [subst c; reflexivity|discriminate]. }
  unfold _normalize_border_line. rewrite strip_clean by exact Hclean.
  destruct b as [|c t]; [discriminate|]. cbn [is_empty].
  unfold at_least, cls. rewrite fullmatch_class, Hlen. cbn [andb].
  assert (H1 : forallb (fun c0 => mem c0 (u "＊*")) (c :: t) = true).
  { eapply forallb_weaken; [|exact Hall]. intros x Hx.
    destruct (chr_eqb_spec (ch "＊") x) as [E|]; [subst x; reflexivity|discriminate]. }
  rewrite H1. f_equal. change (u "*") with [ch "*"]. rewrite replace_char.
  apply subst_char_absent. apply mem_forallb.
  eapply forallb_weaken; [|exact Hall]. intros x Hx.
  destruct (chr_eqb_spec (ch "＊") x) as [E|]; [subst x; reflexivity|discriminate].
Qed.

(** Two literals without a common character. *)
Lemma mem_disjoint a b :
  forallb (fun k => negb (mem k b)) a = true ->
  forall c, mem c a = true -> mem c b = false.
Proof.
  unfold mem at 2. induction a as [|k a IH]; intros H c Hc; [discriminate|].
  cbn [forallb existsb] in *. apply andb_true_iff in H as [Hk Ha].
  apply orb_true_iff in Hc as [Hc|Hc]; [|now apply IH].
  destruct (chr_eqb_spec c k) as [E|]; [|discriminate]. subst c.
  now apply negb_true_iff in Hk.
Qed.

Lemma deco_not_star c :
  mem c (u "◆◇■□●○★☆") = true -> is_sp c = false /\ mem c (u "＊*") = false.
Proof.
  intros Hc. split.
  - apply (mem_disjoint (u "◆◇■□●○★☆") sp_chars); [vm_compute; reflexivity|exact Hc].
  - apply (mem_disjoint (u "◆◇■□●○★☆") (u "＊*")); [vm_compute; reflexivity|exact Hc].
Qed.

Lemma deco_not_ascii_star c :
  mem c (u "◆◇■□●○★☆") = true -> negb (chr_eqb (ch "*") c) = true.
Proof.
  intros Hc. pose proof (mem_disjoint (u "◆◇■□●○★☆") [ch "*"] eq_refl c Hc) as Hd.
  apply negb_true_iff. rewrite chr_eqb_sym.
  destruct (chr_eqb c (ch "*")) eqn:E; [|reflexivity].
  unfold mem in Hd. cbn [existsb] in Hd. rewrite E in Hd. discriminate.
Qed.

Lemma forallb_head_false (p q : char -> bool) c t :
  (forall x, p x = true -> q x = false) ->
  forallb p (c :: t) = true -> forallb q (c :: t) = false.
Proof.
  intros H. simpl. intros [Hc _]%andb_true_iff. now rewrite (H c Hc).
Qed.

Lemma normalize_deco b :
  deco_line b = true -> _normalize_border_line b = Some b.
Proof.
  unfold deco_line. intros [Hlen Hall]%andb_true_iff.
  assert (Hclean : forallb (fun c => negb (is_sp c)) b = true).
  { eapply forallb_weaken; [|exact Hall]. intros c Hc.
    apply deco_not_star in Hc as [-> _]. reflexivity. }
  unfold _normalize_border_line. cbv zeta. rewrite strip_clean by exact Hclean.
  destruct b as [|c t]; [discriminate Hlen|].
  assert (H1 : forallb (fun c0 => mem c0 (u "＊*")) (c :: t) = false).
  { apply (forallb_head_false (fun c0 => mem c0 (u "◆◇■□●○★☆"))); [|exact Hall].
    intros x Hx. now apply deco_not_star in Hx. }
  assert (F1 : re_fullmatch (at_least 5 (cls (u "＊*"))) (c :: t) = false).
  { unfold at_least, cls. rewrite fullmatch_class, H1. apply andb_false_r. }
  assert (F2 : re_fullmatch (plus (cls (u "◆◇■□●○★☆"))) (c :: t) = true).
  { unfold plus, cls. rewrite fullmatch_class, Hall, Hlen. reflexivity. }
  rewrite F1, F2. reflexivity.
Qed.

Lemma forallb_map_str (f : char -> bool) (g : char -> char) s :
  forallb f (map g s) = forallb (fun x => f (g x)) s.
Proof. induction s as [|c t IH]; [reflexivity|]. simpl. now rewrite IH. Qed.

Lemma mem_two c a b : mem c [a; b] = true -> chr_eqb c a = true \/ chr_eqb c b = true.
Proof.
  unfold mem. simpl. rewrite orb_false_r. intros H. now apply orb_true_iff in H.
Qed.

Lemma star_image c :
  mem c (u "＊*") = true ->
  chr_eqb (ch "＊") (if chr_eqb (ch "*") c then ch "＊" else c) = true.
Proof.
  change (u "＊*") with [ch "＊"; ch "*"]. intros H.
  destruct (chr_eqb (ch "*") c) eqn:E; [reflexivity|].
  apply mem_two in H as [H|H].
  - now rewrite chr_eqb_sym.
  - rewrite chr_eqb_sym in H. congruence.
Qed.

(** The shape of a border that [_normalize_border_line] returns. *)
Lemma normalize_shape line b :
  _normalize_border_line line = Some b ->
  star_line b || deco_line b = true /\
  length b = length (strip is_sp line) /\ mem (ch "*") b = false.
Proof.
  intros Hb.
  unfold _normalize_border_line in Hb. cbv zeta in Hb.
      destruct (is_empty (strip is_sp line)); [discriminate|].
      unfold at_least, plus, cls in Hb. rewrite !fullmatch_class in Hb.
      destruct ((5 <=? length (strip is_sp line)) &&
                forallb (fun c => mem c (u "＊*")) (strip is_sp line)) eqn:E1.
      - injection Hb as <-. apply andb_true_iff in E1 as [Hlen Hall].
        change (u "*") with [ch "*"]. change (u "＊") with [ch "＊"].
        rewrite replace_char, subst_char_map.
        split; [|split; [apply length_map|]].
        + apply orb_true_iff. left. unfold star_line. rewrite length_map, Hlen.
          cbn [andb]. rewrite forallb_map_str.
          eapply forallb_weaken; [|exact Hall]. exact star_image.
        + rewrite <- subst_char_map. apply subst_char_clean. reflexivity.
      - destruct ((1 <=? length (strip is_sp line)) &&
                  forallb (fun c => mem c (u "◆◇■□●○★☆")) (strip is_sp line)) eqn:E2;
          [|discriminate].
        injection Hb as <-. split; [|split; [reflexivity|]].
        + apply orb_true_iff. right. exact E2.
        + apply andb_true_iff in E2 as [_ Hall]. apply mem_forallb.
          eapply forallb_weaken; [|exact Hall]. exact deco_not_ascii_star.
Qed.

(** X9: [_normalize_border_line] returns [None] for a blank line; a border
    it returns is a line of five or more ＊ or of decorative characters,
    as long as the line without its surrounding whitespace, and it is
    stable: the border itself, and the border behind the four full-width
    spaces it is emitted with, are normalized to the same border. *)
Theorem normalize_border_line_stable (line : str) :
  (is_blank line = true -> _normalize_border_line line = None) /\
  (forall b, _normalize_border_line line = Some b ->
     star_line b || deco_line b = true /\
     length b = length (strip is_sp line) /\
     mem (ch "*") b = false /\
     _normalize_border_line b = Some b /\
     _normalize_border_line (str_repeat (u "　") 4 ++ b) = Some b) /\
  _normalize_border_line (strip is_sp line) = _normalize_border_line line.
Proof.
  split; [|split].
  - unfold is_blank, _normalize_border_line. intros ->. reflexivity.
  - intros b Hb.
    destruct (normalize_shape line b Hb) as (Hs & Hl & Hm).
    split; [exact Hs|]. split; [exact Hl|].
    split; [exact Hm|].
    assert (Hfix : _normalize_border_line b = Some b).
    { apply orb_true_iff in Hs as [Hs|Hs]; [now apply normalize_star|now apply normalize_deco]. }
    split; [exact Hfix|].
    rewrite <- Hfix. unfold _normalize_border_line. cbv zeta.
    assert (E : strip is_sp (str_repeat (u "　") 4 ++ b) = strip is_sp b).
    { unfold strip. rewrite lstrip_app_all by reflexivity. reflexivity. }
    rewrite E. reflexivity.
  - unfold _normalize_border_line. cbv zeta. rewrite strip_idem. reflexivity.
Qed.

(* ================================================================== *)
(** * The lines that blank-line packing returns *)

Lemma pack_step_shape st line :
  is_blank line = false ->
  exists k, k <= 4 /\
    pack_step st line =
    PackState ((packed st ++ repeat [] k) ++ [emitted line]) 0 (is_border line).
Proof.
  intros Hb. unfold pack_step, emitted, is_border. fold (is_blank line). rewrite Hb.
  destruct (_normalize_border_line line) as [b|].
  - destruct (0 <? blank_run st).
    + destruct (in_1_3 (blank_run st)); cbn [append_blanks].
      * exists 1. split; [lia|reflexivity].
      * exists 2. split; [lia|]. cbn [repeat]. now rewrite <- !app_assoc.
    + destruct (negb (is_nil (packed st)) && last_nonblank (packed st)).
      * exists 1. split; [lia|reflexivity].
      * exists 0. split; [lia|]. cbn [repeat]. now rewrite app_nil_r.
  - destruct (is_nil (packed st) && (1 <=? blank_run st)).
    + exists 1. split; [lia|reflexivity].
    + destruct (prev_border st && (1 <=? blank_run st)).
      * destruct (in_1_3 (blank_run st)); cbn [append_blanks].
        -- exists 1. split; [lia|reflexivity].
        -- exists 2. split; [lia|]. cbn [repeat]. now rewrite <- !app_assoc.
      * destruct ((2 <=? blank_run st) && last_nonblank (packed st)).
        -- exists (1 + (if 4 <=? blank_run st then 1 else 0) +
                   (if 8 <=? blank_run st then 1 else 0) +
                   (if 10 <=? blank_run st then 1 else 0)).
           destruct (4 <=? blank_run st), (8 <=? blank_run st), (10 <=? blank_run st);
             (split; [cbn; lia|]); cbn [Nat.add repeat];
             rewrite ?app_nil_r, <- ?app_assoc; reflexivity.
        -- exists 0. split; [lia|]. cbn [repeat]. now rewrite app_nil_r.
Qed.

Lemma star_deco_chars b :
  star_line b || deco_line b = true ->
  b <> [] /\ forallb (fun c => negb (is_sp c)) b = true /\ nl_free b = true.
Proof.
  intros H. apply orb_true_iff in H as [H|H].
  - unfold star_line in H. apply andb_true_iff in H as [Hlen Hall].
    split; [destruct b; [discriminate Hlen|congruence]|].
    split; (eapply forallb_weaken; [|exact Hall]); intros c Hc;
      (destruct (chr_eqb_spec (ch "＊") c) as [E|]; [subst c; reflexivity|discriminate]).
  - unfold deco_line in H. apply andb_true_iff in H as [Hlen Hall].
    split; [destruct b; [discriminate Hlen|congruence]|].
    split; (eapply forallb_weaken; [|exact Hall]); intros c Hc.
    + apply deco_not_star in Hc as [-> _]. reflexivity.
    + pose proof (mem_disjoint (u "◆◇■□●○★☆") [nl] eq_refl c Hc) as Hd.
      apply negb_true_iff. rewrite chr_eqb_sym.
      destruct (chr_eqb c nl) eqn:E; [|reflexivity].
      unfold mem in Hd. cbn [existsb] in Hd. rewrite E in Hd. discriminate.
Qed.

Lemma emitted_ok line :
  nl_free line = true -> is_blank line = false -> emitted_line (emitted line).
Proof.
  intros Hnl Hb. unfold emitted.
  destruct (_normalize_border_line line) as [b|] eqn:Eb.
  - apply normalize_shape in Eb as (Hs & _ & _).
    apply star_deco_chars in Hs as (Hne & Hsp & Hbn).
    assert (Hr : rstrip is_sp b = b) by (now apply rstrip_clean).
    split; [|split].
    + rewrite nl_free_app, Hbn. reflexivity.
    + intros E. apply app_eq_nil in E as [_ E]. contradiction.
    + rewrite rstrip_app by (now rewrite Hr). now rewrite Hr.
  - split; [|split].
    + unfold nl_free in *. now apply rstrip_incl.
    + now apply rstrip_nonblank.
    + apply rstrip_idem.
Qed.

Lemma blank_runs_le_app n a b :
  a = [] \/ last_nonblank a = true ->
  blank_runs_le n (a ++ b) = blank_runs_le n a && blank_runs_le n b.
Proof.
  intros Ha. induction a as [|l a IH]; [reflexivity|].
  assert (Ha' : a = [] \/ last_nonblank a = true).
  { destruct a as [|l2 a]; [now left|]. right.
    destruct Ha as [Ha|Ha]; [discriminate|]. exact Ha. }
  cbn [app blank_runs_le]. rewrite (IH Ha'), andb_assoc. f_equal.
  assert (E : blank_prefix ((l :: a) ++ b) = blank_prefix (l :: a)).
  { clear IH Ha'. revert l Ha. induction a as [|l2 a IH]; intros l Ha.
    - destruct Ha as [Ha|Ha]; [discriminate|].
      unfold last_nonblank in Ha. cbn [last] in Ha. cbn [app blank_prefix].
      apply negb_true_iff in Ha. now rewrite Ha.
    - cbn [app blank_prefix]. destruct (is_empty l); [|reflexivity]. f_equal.
      apply (IH l2). right. destruct Ha as [Ha|Ha]; [discriminate|]. exact Ha. }
  change (l :: a ++ b) with ((l :: a) ++ b). now rewrite E.
Qed.

Lemma blank_runs_le_block n k e :
  e <> [] -> k <= n -> blank_runs_le n (repeat [] k ++ [e]) = true.
Proof.
  intros He Hk.
  assert (Hp : forall j, blank_prefix (repeat [] j ++ [e]) = j).
  { induction j as [|j IH]; cbn [repeat app blank_prefix is_empty].
    - destruct e; [congruence|reflexivity].
    - now rewrite IH. }
  induction k as [|k IH].
  - cbn. destruct e; [congruence|reflexivity].
  - cbn [repeat app blank_runs_le]. rewrite (IH ltac:(lia)), andb_true_r.
    change ([] :: repeat [] k ++ [e]) with (repeat [] (S k) ++ [e]).
    rewrite Hp. apply Nat.leb_le. exact Hk.
Qed.

Lemma pack_step_inv st line :
  nl_free line = true ->
  Forall (fun l => l = [] \/ emitted_line l) (packed st) /\ packed_ok st /\
  blank_runs_le 4 (packed st) = true ->
  Forall (fun l => l = [] \/ emitted_line l) (packed (pack_step st line)) /\
  packed_ok (pack_step st line) /\
  blank_runs_le 4 (packed (pack_step st line)) = true.
Proof.
  intros Hnl (Hall & Hok & Hruns).
  split; [|split; [now apply pack_step_ok|]].
  - destruct (is_blank line) eqn:Hb.
    + rewrite pack_step_blank by exact Hb. exact Hall.
    + destruct (pack_step_shape st line Hb) as (k & _ & ->). cbn [packed].
      apply Forall_app. split; [apply Forall_app; split; [exact Hall|]|].
      * clear. induction k; constructor; auto.
      * constructor; [|constructor]. right. now apply emitted_ok.
  - destruct (is_blank line) eqn:Hb.
    + rewrite pack_step_blank by exact Hb. exact Hruns.
    + destruct (pack_step_shape st line Hb) as (k & Hk & ->). cbn [packed].
      rewrite <- app_assoc, blank_runs_le_app by exact Hok.
      rewrite Hruns. cbn [andb]. apply blank_runs_le_block; [|exact Hk].
      now apply emitted_nonempty.
Qed.

Lemma pack_lines_inv lines :
  forallb nl_free lines = true ->
  forall st,
  Forall (fun l => l = [] \/ emitted_line l) (packed st) /\ packed_ok st /\
  blank_runs_le 4 (packed st) = true ->
  Forall (fun l => l = [] \/ emitted_line l) (packed (pack_lines st lines)) /\
  packed_ok (pack_lines st lines) /\
  blank_runs_le 4 (packed (pack_lines st lines)) = true.
Proof.
  induction lines as [|l ls IH]; intros Hnl st Hst; [exact Hst|].
  simpl in Hnl. apply andb_true_iff in Hnl as [Hl Hls].
  cbn [pack_lines fold_left]. apply (IH Hls). now apply pack_step_inv.
Qed.

Lemma pop_blanks_kept p : p = [] \/ last_nonblank p = true -> pop_blanks p = p.
Proof.
  induction p as [|l r IH]; [reflexivity|]. intros [H|H]; [discriminate|].
  cbn [pop_blanks]. destruct r as [|l2 r'].
  - cbn [pop_blanks]. unfold last_nonblank in H. cbn [last] in H.
    apply negb_true_iff in H. now rewrite H.
  - rewrite IH by (right; exact H). reflexivity.
Qed.

Lemma pack_lines_all_blank lines st :
  forallb is_blank lines = true -> packed (pack_lines st lines) = packed st.
Proof. intros H. now rewrite pack_lines_blanks. Qed.

Lemma merge_lines_runs n pat cur rest :
  pat <> [] ->
  blank_runs_le n (cur :: rest) = true ->
  blank_runs_le n (merge_lines pat cur rest) = true /\
  blank_prefix (merge_lines pat cur rest) <= blank_prefix (cur :: rest).
Proof.
  intros Hpat. revert cur.
  induction rest as [|l r IH]; intros cur H; [split; [exact H|apply le_n]|].
  cbn [merge_lines]. destruct (starts_with pat l) eqn:Es.
  - assert (Hne : is_empty (cur ++ l) = false).
    { destruct l; [destruct pat; [congruence|discriminate Es]|]. destruct cur; reflexivity. }
    assert (Hr : blank_runs_le n r = true).
    { cbn [blank_runs_le] in H. apply andb_true_iff in H as [_ H].
      apply andb_true_iff in H as [_ H]. exact H. }
    assert (H' : blank_runs_le n ((cur ++ l) :: r) = true).
    { cbn [blank_runs_le blank_prefix]. rewrite Hne, Hr. reflexivity. }
    destruct (IH _ H') as [H1 H2]. split; [exact H1|].
    cbn [blank_prefix] in H2. rewrite Hne in H2. lia.
  - cbn [blank_runs_le] in H. apply andb_true_iff in H as [H0 H].
    destruct (IH l H) as [H1 H2].
    change (blank_prefix (cur :: l :: r))
      with (if is_empty cur then S (blank_prefix (l :: r)) else 0) in *.
    assert (E : blank_prefix (cur :: merge_lines pat l r) =
                if is_empty cur then S (blank_prefix (merge_lines pat l r)) else 0)
      by reflexivity.
    split.
    + cbn [blank_runs_le]. rewrite H1, andb_true_r, E.
      apply Nat.leb_le in H0. apply Nat.leb_le. destruct (is_empty cur); lia.
    + rewrite E. destruct (is_empty cur); lia.
Qed.

Lemma merge_lines_last pat cur rest :
  exists z, last (merge_lines pat cur rest) [] = z ++ last (cur :: rest) [].
Proof.
  revert cur. induction rest as [|l r IH]; intros cur; [now exists []|].
  cbn [merge_lines]. destruct (starts_with pat l).
  - destruct (IH (cur ++ l)) as (z & Hz). destruct r as [|l2 r'].
    + exists cur. cbn [merge_lines last] in *. reflexivity.
    + exists z. rewrite Hz. reflexivity.
  - destruct (IH l) as (z & Hz). exists z.
    pose proof (merge_lines_nonempty pat l r) as Hne.
    destruct (merge_lines pat l r) as [|m ms] eqn:Em; [congruence|].
    cbn [last] in *. exact Hz.
Qed.

Lemma no_last_forallb p s : forallb (fun c => negb (p c)) s = true -> no_last p s.
Proof.
  unfold no_last.
  assert (G : forall o, (match o with None => True | Some c => p c = false end) ->
            forallb (fun c => negb (p c)) s = true ->
            match prev_after o s with None => True | Some c => p c = false end).
  { induction s as [|c t IH]; intros o Ho H; [exact Ho|].
    simpl in H. apply andb_true_iff in H as [Hc Ht].
    cbn [prev_after]. apply IH; [now apply negb_true_iff|exact Ht]. }
  intros H. exact (G None I H).
Qed.

Lemma join_last_char ms :
  last ms [] <> [] ->
  forall o, prev_after o (join [nl] ms) = prev_after None (last ms []).
Proof.
  induction ms as [|l r IH]; intros Hlast o; [cbn in Hlast; congruence|].
  destruct r as [|l2 r'].
  - cbn [join last] in *. now apply prev_after_cons.
  - change (join [nl] (l :: l2 :: r')) with (l ++ nl :: join [nl] (l2 :: r')).
    rewrite prev_after_app. cbn [prev_after].
    change (last (l :: l2 :: r') []) with (last (l2 :: r') []).
    apply IH. exact Hlast.
Qed.

Lemma no_last_join p ms :
  last ms [] <> [] -> no_last p (last ms []) -> no_last p (join [nl] ms).
Proof. intros H. unfold no_last. now rewrite join_last_char. Qed.

Lemma no_last_or (p q : char -> bool) s :
  no_last p s -> no_last q s -> no_last (fun c => p c || q c) s.
Proof.
  unfold no_last. destruct (prev_after None s); [|auto].
  intros -> ->. reflexivity.
Qed.

(** The two replacements that end [_pack_blank_lines], on joined lines. *)
Lemma pack_fixups_merge ls :
  ls <> [] -> Forall (fun l => nl_free l = true) ls ->
  replace (u "\n？」") (u "？」") (replace (u "\n！」") (u "！」") (join [nl] ls)) =
  join [nl] (merge_all question_quote (merge_all bang_quote ls)).
Proof.
  intros Hne Hnl. destruct ls as [|l0 ls]; [congruence|].
  inversion Hnl as [|? ? H0 Hrest]; subst. cbn [merge_all].
  change (u "\n！」") with (nl :: bang_quote).
  change (u "\n？」") with (nl :: question_quote).
  change (u "！」") with bang_quote. change (u "？」") with question_quote.
  rewrite replace_merge; try reflexivity; try discriminate;
    [|exact H0|now apply forallb_Forall].
  pose proof (merge_lines_Forall (fun l => nl_free l = true) bang_quote l0 ls
                (fun a b Ha Hb _ => eq_trans (nl_free_app a b)
                                      (f_equal2 andb Ha Hb)) H0 Hrest) as Hm.
  destruct (merge_lines bang_quote l0 ls) as [|m ms] eqn:Em; [reflexivity|].
  inversion Hm as [|? ? Hm0 Hms]; subst. cbn [merge_all].
  apply replace_merge; try reflexivity; try discriminate;
    [exact Hm0|now apply forallb_Forall].
Qed.

(** X10: the lines that [_pack_blank_lines] returns.  A text of blank lines
    only gives the empty string; no line of the result ends with a space,
    a tab or a full-width space; the result does not end with a line
    break; and it holds no run of more than four empty lines. *)
Theorem pack_blank_lines_output (x : str) :
  (forallb is_blank (split_on nl x) = true -> _pack_blank_lines x = []) /\
  Forall (fun l => rstrip is_sp l = l) (split_on nl (_pack_blank_lines x)) /\
  no_last (fun c => is_sp c || chr_eqb nl c) (_pack_blank_lines x) /\
  blank_runs_le 4 (split_on nl (_pack_blank_lines x)) = true.
Proof.
  destruct (pack_lines_inv (split_on nl x) (split_nl_free x) pack_init)
    as (Hall & Hok & Hruns).
  { split; [constructor|]. split; [now left|reflexivity]. }
  unfold _pack_blank_lines. cbv zeta.
  rewrite (pop_blanks_kept _ Hok).
  destruct (packed (pack_lines pack_init (split_on nl x))) as [|cur rest] eqn:EP.
  - split; [reflexivity|]. split; [repeat constructor|]. split; [exact I|reflexivity].
  - unfold packed_ok in Hok. rewrite EP in Hok. set (P := cur :: rest) in *.
    assert (Hnl : Forall (fun l => nl_free l = true) P).
    { eapply Forall_impl; [|exact Hall]. intros l [->|(H & _)]; [reflexivity|exact H]. }
    assert (HQ : Forall (fun l => nl_free l = true /\ rstrip is_sp l = l) P).
    { eapply Forall_impl; [|exact Hall].
      intros l [->|(H1 & _ & H2)]; [split; reflexivity|split; assumption]. }
    rewrite pack_fixups_merge; [|unfold P; congruence|exact Hnl].
    assert (Hmerge : forall pat ls, pat <> [] ->
              Forall (fun l => nl_free l = true /\ rstrip is_sp l = l) ls ->
              Forall (fun l => nl_free l = true /\ rstrip is_sp l = l) (merge_all pat ls)).
    { intros pat ls Hpat H. destruct ls as [|l0 ls]; [constructor|].
      inversion H as [|? ? H0 Hr]; subst. cbn [merge_all].
      apply merge_lines_Forall; [|exact H0|exact Hr].
      intros a b [Ha1 Ha2] [Hb1 Hb2] Hs. split.
      - rewrite nl_free_app, Ha1, Hb1. reflexivity.
      - assert (Hb : b <> []).
        { destruct b; [destruct pat; [congruence|discriminate Hs]|discriminate]. }
        rewrite rstrip_app by (now rewrite Hb2). now rewrite Hb2. }
    assert (Hlast : forall pat ls, last ls [] <> [] -> last (merge_all pat ls) [] <> []).
    { intros pat ls H. destruct ls as [|l0 ls]; [exact H|]. cbn [merge_all].
      destruct (merge_lines_last pat l0 ls) as (z & ->).
      intros E. apply app_eq_nil in E as [_ E]. contradiction. }
    assert (Hrl : forall pat ls, pat <> [] -> blank_runs_le 4 ls = true ->
              blank_runs_le 4 (merge_all pat ls) = true).
    { intros pat ls Hpat H. destruct ls as [|l0 ls]; [reflexivity|]. cbn [merge_all].
      now apply merge_lines_runs. }
    set (ms := merge_all question_quote (merge_all bang_quote P)).
    assert (HQms : Forall (fun l => nl_free l = true /\ rstrip is_sp l = l) ms).
    { apply Hmerge; [discriminate|]. apply Hmerge; [discriminate|exact HQ]. }
    assert (HPlast : last P [] <> []).
    { destruct Hok as [Hok|Hok]; [unfold P in Hok; discriminate Hok|].
      unfold last_nonblank in Hok. intros E. rewrite E in Hok. discriminate. }
    assert (Hmslast : last ms [] <> []) by (now apply Hlast, Hlast).
    assert (Hmsne : ms <> []).
    { intros E. rewrite E in Hmslast. now apply Hmslast. }
    assert (Hsplit : split_on nl (join [nl] ms) = ms).
    { apply split_join; [exact Hmsne|]. apply forallb_Forall.
      eapply Forall_impl; [|exact HQms]. now intros l [H _]. }
    split; [intros Hb; rewrite (pack_lines_all_blank _ _ Hb) in EP; discriminate EP|].
    rewrite Hsplit. split; [|split].
    + eapply Forall_impl; [|exact HQms]. now intros l [_ H].
    + assert (HL : nl_free (last ms []) = true /\ rstrip is_sp (last ms []) = last ms []).
      { clear -HQms Hmsne. induction HQms as [|l r Hl Hr IH]; [congruence|].
        destruct r as [|l2 r']; [exact Hl|]. apply IH. discriminate. }
      destruct HL as [H1 H2].
      apply no_last_join; [exact Hmslast|]. apply no_last_or.
      * exact (eq_rect _ (no_last is_sp) (rstrip_no_last is_sp _) _ H2).
      * now apply no_last_forallb.
    + apply Hrl; [discriminate|]. apply Hrl; [discriminate|exact Hruns].
Qed.

(* ================================================================== *)
(** * A blank run in the returned string *)

Lemma last_app_nonempty (a p : list str) : p <> [] -> last (a ++ p) [] = last p [].
Proof.
  intros Hp. induction a as [|x a IH]; [reflexivity|].
  cbn [app last]. destruct (a ++ p) eqn:E; [|exact IH].
  apply app_eq_nil in E as [_ E]. congruence.
Qed.

Lemma append_blanks_app a p n : append_blanks (a ++ p) n = a ++ append_blanks p n.
Proof.
  revert p; induction n as [|n IH]; intros p; [reflexivity|].
  cbn [append_blanks]. now rewrite <- app_assoc, IH.
Qed.

(** The loop looks at [packed] only to see whether it is empty and what
    its last line is: lines in front of a list that is not empty change
    nothing. *)
Lemma pack_step_prefix a p r b line :
  p <> [] ->
  pack_step (PackState (a ++ p) r b) line =
  PackState (a ++ packed (pack_step (PackState p r b) line))
            (blank_run (pack_step (PackState p r b) line))
            (prev_border (pack_step (PackState p r b) line)).
Proof.
  intros Hp. unfold pack_step. cbn [packed blank_run prev_border].
  destruct (is_empty (strip is_sp line)); [reflexivity|].
  assert (Ha : is_nil (a ++ p) = false).
  { destruct a; [destruct p; [congruence|reflexivity]|reflexivity]. }
  assert (Hn : is_nil p = false) by (destruct p; [congruence|reflexivity]).
  assert (Hl : last_nonblank (a ++ p) = last_nonblank p).
  { unfold last_nonblank. now rewrite last_app_nonempty. }
  rewrite Ha, Hn, Hl. cbn [andb negb].
  destruct (_normalize_border_line line) as [bd|].
  - destruct (0 <? r).
    + cbn [packed blank_run prev_border]. now rewrite append_blanks_app, <- app_assoc.
    + destruct (last_nonblank p); cbn [packed blank_run prev_border];
        now rewrite <- ?app_assoc.
  - destruct (b && (1 <=? r)).
    + cbn [packed blank_run prev_border]. now rewrite append_blanks_app, <- app_assoc.
    + destruct ((2 <=? r) && last_nonblank p).
      * destruct (4 <=? r), (8 <=? r), (10 <=? r); cbn [packed blank_run prev_border];
          now rewrite <- ?app_assoc.
      * cbn [packed blank_run prev_border]. now rewrite <- app_assoc.
Qed.

Lemma pack_step_grows st line :
  exists q, packed (pack_step st line) = packed st ++ q.
Proof.
  destruct (is_blank line) eqn:Hb.
  - rewrite pack_step_blank by exact Hb. exists []. now rewrite app_nil_r.
  - destruct (pack_step_nonblank st line Hb) as [blanks ->]. cbn [packed].
    exists (blanks ++ [emitted line]). now rewrite <- app_assoc.
Qed.

Lemma pack_lines_grows ls st :
  exists q, packed (pack_lines st ls) = packed st ++ q.
Proof.
  revert st; induction ls as [|l ls IH]; intros st.
  - exists []. now rewrite app_nil_r.
  - cbn [pack_lines fold_left]. destruct (IH (pack_step st l)) as (q & Hq).
    destruct (pack_step_grows st l) as (q0 & Hq0).
    exists (q0 ++ q). unfold pack_lines in Hq. rewrite Hq, Hq0. now rewrite <- app_assoc.
Qed.

Lemma pack_lines_prefix ls a p r b :
  p <> [] ->
  pack_lines (PackState (a ++ p) r b) ls =
  PackState (a ++ packed (pack_lines (PackState p r b) ls))
            (blank_run (pack_lines (PackState p r b) ls))
            (prev_border (pack_lines (PackState p r b) ls)).
Proof.
  revert p r b; induction ls as [|l ls IH]; intros p r b Hp; [reflexivity|].
  cbn [pack_lines fold_left]. rewrite pack_step_prefix by exact Hp.
  destruct (pack_step_grows (PackState p r b) l) as (q & Hq). cbn [packed] in Hq.
  destruct (pack_step (PackState p r b) l) as [p1 r1 b1] eqn:E.
  cbn [packed blank_run prev_border] in *.
  apply IH. rewrite Hq. intros E0. apply app_eq_nil in E0 as [E0 _]. congruence.
Qed.

(** The first line that is not blank is emitted with nothing before it. *)
Lemma pack_step_init line :
  is_blank line = false ->
  pack_step pack_init line = PackState [emitted line] 0 (is_border line).
Proof.
  intros Hb. unfold pack_step, emitted, is_border, pack_init.
  fold (is_blank line). rewrite Hb. cbn [packed blank_run prev_border].
  destruct (_normalize_border_line line); reflexivity.
Qed.

(** The state of the loop behind lines the last of which is not blank. *)
Lemma pack_lines_last_line pre :
  pre <> [] -> is_blank (last pre []) = false ->
  packed (pack_lines pack_init pre) <> [] /\
  blank_run (pack_lines pack_init pre) = 0 /\
  prev_border (pack_lines pack_init pre) = is_border (last pre []).
Proof.
  intros Hne Hb. destruct (exists_last Hne) as (pre' & a & ->).
  rewrite last_last in *. rewrite pack_lines_app.
  change (pack_lines (pack_lines pack_init pre') [a])
    with (pack_step (pack_lines pack_init pre') a).
  destruct (pack_step_nonblank (pack_lines pack_init pre') a Hb) as [blanks ->].
  cbn [packed blank_run prev_border]. split; [|split; reflexivity].
  intros E. apply app_eq_nil in E as [_ E]. discriminate.
Qed.

(** The state behind a run of one or three blank lines and the line that
    follows it. *)
Lemma pack_lines_run (pre bs : list str) (l : str) :
  blank_run (pack_lines pack_init pre) = 0 ->
  forallb is_blank bs = true -> is_blank l = false ->
  length bs = 1 \/ length bs = 3 ->
  pack_lines pack_init (pre ++ bs ++ [l]) =
  PackState
    (packed (pack_lines pack_init pre) ++
     (if is_border l || is_nil (packed (pack_lines pack_init pre)) ||
         prev_border (pack_lines pack_init pre) || (length bs =? 3)
      then [[]] else []) ++
     [emitted l]) 0 (is_border l).
Proof.
  intros Hrun Hbs Hl Hlen.
  pose proof (pack_lines_ok pre pack_init (or_introl eq_refl)) as Hok.
  rewrite !pack_lines_app, (pack_lines_blanks _ bs Hbs), Hrun, Nat.add_0_r.
  destruct (pack_lines pack_init pre) as [p br pb]. cbn [packed prev_border] in *.
  unfold pack_lines, fold_left, pack_step, emitted, is_border.
  fold (is_blank l). rewrite Hl. cbn [packed blank_run prev_border].
  assert (Hin : in_1_3 (length bs) = true) by (destruct Hlen as [-> | ->]; reflexivity).
  assert (H0 : (0 <? length bs) = true) by (destruct Hlen as [-> | ->]; reflexivity).
  assert (H1 : (1 <=? length bs) = true) by (destruct Hlen as [-> | ->]; reflexivity).
  rewrite Hin, H0, H1, !andb_true_r.
  destruct (_normalize_border_line l) as [b|]; cbn [orb packed append_blanks].
  - now rewrite <- app_assoc.
  - destruct p as [|x p]; cbn [is_nil orb packed append_blanks app].
    + reflexivity.
    + destruct pb; cbn [orb packed append_blanks].
      * cbn [app]. rewrite <- ?app_assoc. reflexivity.
      * destruct Hok as [Hok|Hok]; [discriminate|]. cbn [packed] in Hok. rewrite Hok.
        destruct Hlen as [-> | ->]; cbn [Nat.leb Nat.eqb andb packed app];
          rewrite <- ?app_assoc; reflexivity.
Qed.

(** What [_pack_blank_lines] returns, in lines. *)
Lemma pack_as_merge x :
  _pack_blank_lines x =
  join [nl] (fixups (packed (pack_lines pack_init (split_on nl x)))).
Proof.
  destruct (pack_lines_inv (split_on nl x) (split_nl_free x) pack_init)
    as (Hall & Hok & _).
  { split; [constructor|]. split; [now left|reflexivity]. }
  unfold _pack_blank_lines. cbv zeta. rewrite (pop_blanks_kept _ Hok).
  destruct (packed (pack_lines pack_init (split_on nl x))) as [|cur rest] eqn:EP;
    [reflexivity|].
  apply pack_fixups_merge; [discriminate|].
  eapply Forall_impl; [|exact Hall]. intros l [->|(H & _)]; [reflexivity|exact H].
Qed.

Lemma pack_of_line_list (ls : list str) :
  ls <> [] -> forallb nl_free ls = true ->
  _pack_blank_lines (join [nl] ls) =
  join [nl] (fixups (packed (pack_lines pack_init ls))).
Proof. intros Hne Hnl. now rewrite pack_as_merge, split_join. Qed.

Lemma merge_lines_app (pat cur : str) (a : list str) (e : str) (q : list str) :
  starts_with pat e = false ->
  merge_lines pat cur (a ++ e :: q) = merge_lines pat cur a ++ merge_lines pat e q.
Proof.
  intros He. revert cur; induction a as [|l a IH]; intros cur.
  - cbn [app merge_lines]. now rewrite He.
  - cbn [app merge_lines]. destruct (starts_with pat l); [apply IH|].
    cbn [app]. f_equal. apply IH.
Qed.

Lemma merge_all_app (pat : str) (A : list str) (e : str) (q : list str) :
  A <> [] -> starts_with pat e = false ->
  merge_all pat (A ++ e :: q) = merge_all pat A ++ merge_all pat (e :: q).
Proof.
  intros HA He. destruct A as [|c a]; [congruence|]. cbn [app merge_all].
  now apply merge_lines_app.
Qed.

Lemma merge_all_head (pat e : str) (q : list str) :
  exists (y : str) (t : list str), merge_all pat (e :: q) = @cons str (e ++ y) t /\
              (y = [] \/ starts_with pat y = true).
Proof.
  cbn [merge_all]. destruct (merge_lines_shape pat e q) as (y & t & E & Hy & _).
  exists y, t. auto.
Qed.

Lemma starts_with_nil pat : pat <> [] -> starts_with pat [] = false.
Proof. destruct pat; [congruence|reflexivity]. Qed.

(** The two replacements do not reach across a line that begins with
    neither pattern. *)
Lemma fixups_app (A : list str) (e : str) (q : list str) :
  A <> [] -> e <> [] ->
  starts_with bang_quote e = false -> starts_with question_quote e = false ->
  fixups (A ++ e :: q) = fixups A ++ fixups (e :: q).
Proof.
  intros HA He Hb Hq. unfold fixups.
  rewrite merge_all_app by assumption.
  destruct (merge_all_head bang_quote e q) as (y & t & E & Hy). rewrite E.
  apply merge_all_app.
  - destruct A as [|c a]; [congruence|]. cbn [merge_all]. apply merge_lines_nonempty.
  - apply (merged_no_start question_quote bang_quote); auto.
Qed.

Lemma fixups_blank (e : str) (q : list str) :
  e <> [] ->
  starts_with bang_quote e = false -> starts_with question_quote e = false ->
  fixups ([] :: e :: q) = [] :: fixups (e :: q).
Proof.
  intros He Hb Hq. unfold fixups.
  change (merge_all bang_quote ([] :: e :: q)) with (merge_lines bang_quote [] (e :: q)).
  cbn [merge_lines]. rewrite Hb.
  change (merge_lines bang_quote e q) with (merge_all bang_quote (e :: q)).
  destruct (merge_all_head bang_quote e q) as (y & t & E & Hy). rewrite E.
  cbn [merge_all merge_lines].
  rewrite (merged_no_start question_quote bang_quote); auto.
Qed.

Lemma fixups_app_blank (A : list str) (e : str) (q : list str) :
  A <> [] -> e <> [] ->
  starts_with bang_quote e = false -> starts_with question_quote e = false ->
  fixups (A ++ [] :: e :: q) = fixups A ++ [] :: fixups (e :: q).
Proof.
  intros HA He Hb Hq.
  assert (E : fixups (A ++ [] :: e :: q) = fixups A ++ fixups ([] :: e :: q)).
  { unfold fixups. rewrite merge_all_app by (auto using starts_with_nil; try discriminate).
    change (merge_all bang_quote ([] :: e :: q)) with (merge_lines bang_quote [] (e :: q)).
    cbn [merge_lines]. rewrite Hb.
    apply merge_all_app; [|reflexivity].
    destruct A as [|c a]; [congruence|]. cbn [merge_all]. apply merge_lines_nonempty. }
  rewrite E, fixups_blank by assumption. reflexivity.
Qed.

Lemma join_app (A B : list str) :
  A <> [] -> B <> [] -> join [nl] (A ++ B) = join [nl] A ++ nl :: join [nl] B.
Proof.
  intros HA HB. induction A as [|l A IH]; [congruence|].
  destruct A as [|l2 A].
  - cbn [app]. rewrite join_cons. destruct B; [congruence|]. reflexivity.
  - change ((l :: l2 :: A) ++ B) with (l :: ((l2 :: A) ++ B)).
    rewrite (join_cons l ((l2 :: A) ++ B)), (join_cons l (l2 :: A)).
    change (join_tail ((l2 :: A) ++ B)) with (nl :: join [nl] ((l2 :: A) ++ B)).
    change (join_tail (l2 :: A)) with (nl :: join [nl] (l2 :: A)).
    rewrite IH by discriminate. now rewrite <- app_assoc.
Qed.

Lemma fixups_nonempty (ls : list str) : ls <> [] -> fixups ls <> [].
Proof.
  intros H. destruct ls as [|l r]; [congruence|]. unfold fixups. cbn [merge_all].
  pose proof (merge_lines_nonempty bang_quote l r) as Hm.
  destruct (merge_lines bang_quote l r) as [|m ms]; [congruence|].
  cbn [merge_all]. apply merge_lines_nonempty.
Qed.

(** What a line emits begins as the line does. *)
Lemma emitted_no_start pat line :
  pat = bang_quote \/ pat = question_quote ->
  starts_with pat line = false -> starts_with pat (emitted line) = false.
Proof.
  intros Hpat Hs. unfold emitted. destruct (_normalize_border_line line) as [b|].
  - cbn [str_repeat app].
    apply (starts_with_other (fun c => chr_eqb c (ch "　")));
      [destruct Hpat as [-> | ->]; reflexivity|reflexivity].
  - destruct (starts_with pat (rstrip is_sp line)) eqn:E; [|reflexivity].
    destruct (rstrip_prefix is_sp line) as (w & Hw).
    rewrite Hw, (starts_with_app_r _ _ w E) in Hs. discriminate.
Qed.

Lemma pack_nonblank_head (l : str) (post : list str) :
  is_blank l = false ->
  exists q, packed (pack_lines pack_init (l :: post)) = emitted l :: q.
Proof.
  intros Hl. cbn [pack_lines fold_left]. rewrite pack_step_init by exact Hl.
  destruct (pack_lines_grows post (PackState [emitted l] 0 (is_border l))) as (q & Hq).
  exists q. exact Hq.
Qed.

Lemma fixups_head (e : str) (q : list str) :
  exists (r : str) (t : list str), fixups (e :: q) = @cons str (e ++ r) t.
Proof.
  destruct (merge_all_head bang_quote e q) as (y & t & E & _).
  destruct (merge_all_head question_quote (e ++ y) t) as (y2 & t2 & E2 & _).
  exists (y ++ y2), t2. unfold fixups. rewrite E, E2. now rewrite <- app_assoc.
Qed.

Lemma merge_all_nl_free (pat : str) (ls : list str) :
  Forall (fun l => nl_free l = true) ls ->
  Forall (fun l => nl_free l = true) (merge_all pat ls).
Proof.
  intros H. destruct ls as [|l0 ls]; [constructor|].
  inversion H as [|? ? H0 Hr]; subst. cbn [merge_all].
  apply merge_lines_Forall; [|exact H0|exact Hr].
  intros a b Ha Hb _. now rewrite nl_free_app, Ha, Hb.
Qed.

Lemma merge_all_last (pat : str) (ls : list str) :
  last ls [] <> [] -> last (merge_all pat ls) [] <> [].
Proof.
  intros H. destruct ls as [|l0 ls]; [exact H|]. cbn [merge_all].
  destruct (merge_lines_last pat l0 ls) as (z & ->).
  intros E. apply app_eq_nil in E as [_ E]. contradiction.
Qed.

(** The lines that the loop has appended hold no line break, and the last
    of them is not empty. *)
Lemma packed_lines_ok (ls : list str) :
  forallb nl_free ls = true ->
  Forall (fun l => nl_free l = true) (packed (pack_lines pack_init ls)) /\
  (packed (pack_lines pack_init ls) <> [] ->
   last (packed (pack_lines pack_init ls)) [] <> []).
Proof.
  intros Hnl.
  destruct (pack_lines_inv ls Hnl pack_init) as (Hall & Hok & _).
  { split; [constructor|]. split; [now left|reflexivity]. }
  split.
  - eapply Forall_impl; [|exact Hall]. intros l [->|(H & _)]; [reflexivity|exact H].
  - intros Hne. destruct Hok as [Hok|Hok]; [contradiction|].
    unfold last_nonblank in Hok. intros E. rewrite E in Hok. discriminate.
Qed.

(** A text that is not made of blank lines only is packed to a text that
    is not empty and does not end with a line break. *)
Lemma pack_end_clean (ls : list str) :
  ls <> [] -> forallb nl_free ls = true ->
  packed (pack_lines pack_init ls) <> [] ->
  _pack_blank_lines (join [nl] ls) <> [] /\
  ends_with (_pack_blank_lines (join [nl] ls)) nl = false.
Proof.
  intros Hne Hnl HP. rewrite pack_of_line_list by assumption.
  destruct (packed_lines_ok ls Hnl) as (Hfree & Hlast). specialize (Hlast HP).
  fold (fixups (packed (pack_lines pack_init ls))).
  set (P := packed (pack_lines pack_init ls)) in *.
  assert (Hms : Forall (fun l => nl_free l = true) (fixups P))
    by (unfold fixups; now apply merge_all_nl_free, merge_all_nl_free).
  assert (Hml : last (fixups P) [] <> [])
    by (unfold fixups; now apply merge_all_last, merge_all_last).
  assert (Hfl : nl_free (last (fixups P) []) = true).
  { clear -Hms. induction Hms as [|l r Hl Hr IH]; [reflexivity|].
    destruct r as [|l2 r']; [exact Hl|exact IH]. }
  assert (Hprev : prev_after None (join [nl] (fixups P)) =
                  prev_after None (last (fixups P) []))
    by (now apply join_last_char).
  split.
  - intros E. rewrite E in Hprev. cbn [prev_after] in Hprev.
    destruct (last (fixups P) []) as [|c t]; [congruence|].
    cbn [prev_after] in Hprev. clear -Hprev.
    revert c Hprev. induction t as [|d t IH]; intros c H; [discriminate H|].
    cbn [prev_after] in H. now apply (IH d).
  - unfold ends_with. rewrite Hprev.
    pose proof (no_last_forallb (fun c => chr_eqb c nl) (last (fixups P) [])) as Hno.
    unfold no_last in Hno.
    destruct (prev_after None (last (fixups P) [])) as [c|]; [|reflexivity].
    cbn [opt_is]. apply Hno. eapply forallb_weaken; [|exact Hfl].
    intros k Hk. now rewrite chr_eqb_sym.
Qed.

(** The text that the two replacements leave, around a line that begins
    with neither pattern: behind an empty line, behind other lines, and
    behind other lines and an empty line. *)
Lemma fixups_join_first (e : str) (q : list str) :
  e <> [] ->
  starts_with bang_quote e = false -> starts_with question_quote e = false ->
  join [nl] (fixups ([] :: e :: q)) = nl :: join [nl] (fixups (e :: q)).
Proof.
  intros He Hb Hq. rewrite fixups_blank by assumption.
  destruct (fixups_head e q) as (r & t & E). rewrite E. reflexivity.
Qed.

Lemma fixups_join (A : list str) (e : str) (q : list str) :
  A <> [] -> e <> [] ->
  starts_with bang_quote e = false -> starts_with question_quote e = false ->
  join [nl] (fixups (A ++ e :: q)) =
  join [nl] (fixups A) ++ nl :: join [nl] (fixups (e :: q)).
Proof.
  intros HA He Hb Hq. rewrite fixups_app by assumption.
  apply join_app; apply fixups_nonempty; [exact HA|discriminate].
Qed.

Lemma fixups_join_blank (A : list str) (e : str) (q : list str) :
  A <> [] -> e <> [] ->
  starts_with bang_quote e = false -> starts_with question_quote e = false ->
  join [nl] (fixups (A ++ [] :: e :: q)) =
  join [nl] (fixups A) ++ nl :: nl :: join [nl] (fixups (e :: q)).
Proof.
  intros HA He Hb Hq. rewrite fixups_app_blank by assumption.
  rewrite join_app by (try discriminate; now apply fixups_nonempty).
  f_equal. f_equal. destruct (fixups_head e q) as (r & t & E). rewrite E. reflexivity.
Qed.

(** C4 (as amended): in the string that [_pack_blank_lines] returns, a run
    of exactly one or exactly three blank lines that is followed by a line
    [l] which is not blank and begins with neither ！」 nor ？」 leaves
    exactly one empty line when [l] is a border line, when the run begins
    the text, when the line before the run is a border line, or when the
    run has three lines; a run of one blank line between two ordinary lines
    leaves no empty line.  With [pre] the lines before the run and [post]
    the lines behind [l], the result is the packed text of [pre], one line
    break, one more line break in the cases listed, and the packed text of
    [l] and [post]; a run that begins the text gives one line break and the
    packed text of [l] and [post].  The packed text of [pre] does not end
    with a line break, and that of [l] and [post] begins with what [l]
    emits, which is not empty and begins with no line break. *)
Theorem blank_run_of_1_or_3 (x : str) (pre bs post : list str) (l : str) :
  split_on nl x = pre ++ bs ++ l :: post ->
  pre = [] \/ is_blank (last pre []) = false ->
  forallb is_blank bs = true -> length bs = 1 \/ length bs = 3 ->
  is_blank l = false ->
  starts_with bang_quote l = false -> starts_with question_quote l = false ->
  _pack_blank_lines x =
    (if is_nil pre then nl :: _pack_blank_lines (join [nl] (l :: post))
     else _pack_blank_lines (join [nl] pre) ++
          (if is_border l || is_border (last pre []) || (length bs =? 3)
           then [nl; nl] else [nl]) ++
          _pack_blank_lines (join [nl] (l :: post))) /\
  (exists r, _pack_blank_lines (join [nl] (l :: post)) = emitted l ++ r) /\
  emitted l <> [] /\ begins_with (emitted l) nl = false /\
  (pre <> [] ->
   _pack_blank_lines (join [nl] pre) <> [] /\
   ends_with (_pack_blank_lines (join [nl] pre)) nl = false).
Proof.
  intros Hx Hpre Hbs Hlen Hl Hb Hq.
  pose proof (split_nl_free x) as Hnl. rewrite Hx in Hnl.
  rewrite !forallb_app in Hnl.
  apply andb_true_iff in Hnl as [Hnl_pre Hnl]. apply andb_true_iff in Hnl as [_ Hnl_post].
  assert (Hnl_l : nl_free l = true)
    by (cbn [forallb] in Hnl_post; now apply andb_true_iff in Hnl_post as [H _]).
  pose proof (emitted_ok l Hnl_l Hl) as (He_nl & He_ne & _).
  pose proof (emitted_no_start bang_quote l (or_introl eq_refl) Hb) as Heb.
  pose proof (emitted_no_start question_quote l (or_intror eq_refl) Hq) as Heq.
  destruct (pack_nonblank_head l post Hl) as (q & HPpost).
  assert (Hafter : _pack_blank_lines (join [nl] (l :: post)) =
                   join [nl] (fixups (emitted l :: q))).
  { rewrite pack_of_line_list by (try discriminate; exact Hnl_post).
    apply f_equal, f_equal. exact HPpost. }
  assert (Hrun : blank_run (pack_lines pack_init pre) = 0).
  { destruct Hpre as [-> | Hlast]; [reflexivity|].
    destruct pre as [|p0 pre']; [reflexivity|].
    now apply pack_lines_last_line. }
  remember (is_border l || is_nil (packed (pack_lines pack_init pre)) ||
            prev_border (pack_lines pack_init pre) || (length bs =? 3)) as k eqn:Ek.
  assert (HP : packed (pack_lines pack_init (split_on nl x)) =
               (packed (pack_lines pack_init pre) ++ (if k then [[]] else [])) ++
               emitted l :: q).
  { rewrite Hx.
    transitivity (packed (pack_lines
                    (PackState ((packed (pack_lines pack_init pre) ++
                                 (if k then [[]] else [])) ++ [emitted l])
                               0 (is_border l)) post)).
    - apply f_equal.
      transitivity (pack_lines (pack_lines pack_init (pre ++ bs ++ [l])) post).
      + rewrite <- pack_lines_app. apply f_equal. now rewrite <- !app_assoc.
      + apply (f_equal (fun st => pack_lines st post)).
        etransitivity; [exact (pack_lines_run pre bs l Hrun Hbs Hl Hlen)|].
        rewrite <- Ek.
        apply (f_equal (fun p => PackState p 0 (is_border l))). apply app_assoc.
    - etransitivity.
      + apply f_equal. apply pack_lines_prefix. discriminate.
      + cbn [packed]. apply f_equal. cbn [pack_lines fold_left] in HPpost.
        rewrite pack_step_init in HPpost by exact Hl. exact HPpost. }
  split; [|split; [|split; [exact He_ne|split]]].
  - rewrite pack_as_merge, HP, Hafter.
    destruct pre as [|p0 pre'].
    + cbn [pack_lines fold_left pack_init packed is_nil prev_border] in Ek.
      rewrite orb_true_r in Ek. cbn [orb] in Ek. subst k.
      cbn [is_nil]. apply fixups_join_first; assumption.
    + cbn [is_nil].
      destruct Hpre as [Hpre|Hlast]; [discriminate|].
      destruct (pack_lines_last_line (p0 :: pre') ltac:(discriminate) Hlast)
        as (HPne & _ & Hpb).
      rewrite pack_of_line_list by (try discriminate; exact Hnl_pre).
      assert (Hk : k = is_border l || is_border (last (p0 :: pre') []) || (length bs =? 3)).
      { rewrite Ek, Hpb.
        destruct (packed (pack_lines pack_init (p0 :: pre'))); [congruence|].
        cbn [is_nil]. now rewrite orb_false_r. }
      rewrite <- Hk. destruct k.
      * etransitivity; [|apply (fixups_join_blank _ (emitted l) q); assumption].
        apply f_equal, f_equal. now rewrite <- app_assoc.
      * etransitivity; [|apply (fixups_join _ (emitted l) q); assumption].
        apply f_equal, f_equal. now rewrite app_nil_r.
  - rewrite Hafter. destruct (fixups_head (emitted l) q) as (r & t & E). rewrite E.
    rewrite join_cons, <- app_assoc. eexists. reflexivity.
  - unfold begins_with. destruct (emitted l) as [|c t]; [congruence|].
    cbn [hd_error opt_is]. cbn [nl_free forallb] in He_nl.
    apply andb_true_iff in He_nl as [Hc _]. apply negb_true_iff in Hc.
    now rewrite chr_eqb_sym.
  - intros Hne. apply pack_end_clean; [exact Hne|exact Hnl_pre|].
    destruct Hpre as [Hpre|Hlast]; [contradiction|].
    now apply pack_lines_last_line.
Qed.

(** C4 on a run of three blank lines between two ordinary lines, and on a
    run of one blank line before a border line: each leaves one empty
    line. *)
Lemma blank_run_of_1_or_3_witness :
  (split_on nl (u "一行目\n二行目\n\n　\n\n三行目\n四行目") =
     [u "一行目"; u "二行目"] ++ [u ""; u "　"; u ""] ++ u "三行目" :: [u "四行目"] /\
   is_blank (last [u "一行目"; u "二行目"] []) = false /\
   forallb is_blank [u ""; u "　"; u ""] = true /\
   is_blank (u "三行目") = false /\
   starts_with bang_quote (u "三行目") = false /\
   starts_with question_quote (u "三行目") = false /\
   _pack_blank_lines (u "一行目\n二行目\n\n　\n\n三行目\n四行目") =
   u "一行目\n二行目\n\n三行目\n四行目") /\
  (split_on nl (u "一行目\n\n*****\n二行目") =
     [u "一行目"] ++ [u ""] ++ u "*****" :: [u "二行目"] /\
   is_blank (last [u "一行目"] []) = false /\
   forallb is_blank [u ""] = true /\
   is_blank (u "*****") = false /\
   starts_with bang_quote (u "*****") = false /\
   starts_with question_quote (u "*****") = false /\
   _pack_blank_lines (u "一行目\n\n*****\n二行目") =
   u "一行目\n\n　　　　＊＊＊＊＊\n二行目").
Proof.
  split.
  - assert (H1 : split_on nl (u "一行目\n二行目\n\n　\n\n三行目\n四行目") =
                 [u "一行目"; u "二行目"] ++ [u ""; u "　"; u ""] ++ u "三行目" :: [u "四行目"])
      by (vm_compute; reflexivity).
    assert (H2 : is_blank (last [u "一行目"; u "二行目"] []) = false)
      by (vm_compute; reflexivity).
    assert (H3 : forallb is_blank [u ""; u "　"; u ""] = true) by (vm_compute; reflexivity).
    assert (H4 : is_blank (u "三行目") = false) by (vm_compute; reflexivity).
    assert (H5 : starts_with bang_quote (u "三行目") = false) by (vm_compute; reflexivity).
    assert (H6 : starts_with question_quote (u "三行目") = false)
      by (vm_compute; reflexivity).
    repeat (split; [assumption|]).
    etransitivity.
    + exact (proj1 (blank_run_of_1_or_3 _ _ _ _ _ H1 (or_intror H2) H3
                      (or_intror eq_refl) H4 H5 H6)).
    + vm_compute. reflexivity.
  - assert (H1 : split_on nl (u "一行目\n\n*****\n二行目") =
                 [u "一行目"] ++ [u ""] ++ u "*****" :: [u "二行目"])
      by (vm_compute; reflexivity).
    assert (H2 : is_blank (last [u "一行目"] []) = false) by (vm_compute; reflexivity).
    assert (H3 : forallb is_blank [u ""] = true) by (vm_compute; reflexivity).
    assert (H4 : is_blank (u "*****") = false) by (vm_compute; reflexivity).
    assert (H5 : starts_with bang_quote (u "*****") = false) by (vm_compute; reflexivity).
    assert (H6 : starts_with question_quote (u "*****") = false)
      by (vm_compute; reflexivity).
    repeat (split; [assumption|]).
    etransitivity.
    + exact (proj1 (blank_run_of_1_or_3 _ _ _ _ _ H1 (or_intror H2) H3
                      (or_introl eq_refl) H4 H5 H6)).
    + vm_compute. reflexivity.
Defined.

(** C4 as stated fails: a run of one blank line between two ordinary lines
    is not collapsed to one emitted blank line, it is dropped.  And the
    empty line that the loop emits for a run does not remain in the string
    returned when the line behind the run begins with ！」 or ？」: the
    replacements that end the function join that line to the one before
    it. *)
Lemma single_blank_line_dropped :
  forallb is_blank [u ""] = true /\
  packed (pack_lines pack_init [u "一行目"; u ""; u "二行目"]) = [u "一行目"; u "二行目"] /\
  _pack_blank_lines (u "一行目\n\n二行目") = u "一行目\n二行目" /\
  packed (pack_lines pack_init [u "a"; u ""; u ""; u ""; u "！」b"]) =
    [u "a"; u ""; u "！」b"] /\
  _pack_blank_lines (u "a\n\n\n\n！」b") = u "a\n！」b" /\
  _pack_blank_lines (u "\n？」b") = u "？」b".
Proof. vm_compute. repeat split. Qed.

(* ================================================================== *)
(** * Packing a packed text again *)

Lemma append_blanks_repeat (p : list str) n : append_blanks p n = p ++ repeat [] n.
Proof.
  revert p; induction n as [|n IH]; intros p; [now rewrite app_nil_r|].
  cbn [append_blanks repeat]. now rewrite IH, <- app_assoc.
Qed.

Lemma repeat_snoc (n : nat) (X : list str) :
  repeat [] (S n) ++ X = repeat [] n ++ [] :: X.
Proof. induction n as [|n IH]; [reflexivity|]. cbn [repeat app] in *. now rewrite IH. Qed.

(** One turn of the loop for a line that is not blank, by the kind of the
    line emitted last. *)
Lemma pack_step_out st l :
  packed_ok st -> is_blank l = false ->
  pack_step st l =
  PackState (packed st ++ repeat [] (blanks_for (state_kind st) (blank_run st) l) ++
             [emitted l]) 0 (is_border l).
Proof.
  intros Hok Hb. unfold pack_step, emitted, is_border, blanks_for, state_kind, is_border.
  fold (is_blank l). rewrite Hb.
  destruct st as [p r pb]. unfold packed_ok in Hok. cbn [packed blank_run prev_border] in *.
  assert (Hlast : is_nil p = false -> last_nonblank p = true).
  { intros Hn. destruct Hok as [Hok|Hok]; [rewrite Hok in Hn; discriminate Hn|exact Hok]. }
  destruct (_normalize_border_line l) as [b|].
  - destruct (0 <? r).
    + rewrite append_blanks_repeat, <- app_assoc. reflexivity.
    + destruct (is_nil p) eqn:Hn; cbn [negb andb].
      * cbn [repeat app]. reflexivity.
      * rewrite (Hlast eq_refl).
        destruct pb; cbn [repeat app]; now rewrite <- app_assoc.
  - destruct (is_nil p) eqn:Hn; cbn [andb].
    + destruct (1 <=? r) eqn:H1; cbn [andb].
      * cbn [repeat app]. now rewrite <- app_assoc.
      * rewrite andb_false_r.
        assert (H2 : (2 <=? r) = false).
        { apply Nat.leb_gt. apply Nat.leb_gt in H1. lia. }
        rewrite H2. cbn [andb repeat app]. reflexivity.
    + rewrite (Hlast eq_refl), andb_true_r. destruct pb; cbn [andb].
      * destruct (1 <=? r) eqn:H1.
        -- rewrite append_blanks_repeat, <- app_assoc. reflexivity.
        -- assert (H2 : (2 <=? r) = false).
           { apply Nat.leb_gt. apply Nat.leb_gt in H1. lia. }
           rewrite H2. cbn [repeat app]. reflexivity.
      * destruct (2 <=? r); [|reflexivity].
        destruct (4 <=? r), (8 <=? r), (10 <=? r); cbn [Nat.add repeat app];
          rewrite <- ?app_assoc; reflexivity.
Qed.

(** The loop, by the kind of the line emitted last. *)
Lemma pack_lines_out ls st :
  packed_ok st ->
  packed (pack_lines st ls) = packed st ++ pack_out (state_kind st) (blank_run st) ls.
Proof.
  revert st; induction ls as [|l ls IH]; intros st Hok.
  - cbn [pack_lines fold_left pack_out]. now rewrite app_nil_r.
  - cbn [pack_lines fold_left pack_out].
    pose proof (pack_step_ok st l Hok) as Hok'.
    fold (pack_lines (pack_step st l) ls). rewrite (IH _ Hok').
    destruct (is_blank l) eqn:Hb.
    + rewrite pack_step_blank by exact Hb. reflexivity.
    + rewrite pack_step_out by assumption. cbn [packed blank_run].
      rewrite <- !app_assoc. do 2 f_equal. cbn [app]. f_equal.
      unfold state_kind, kind_of_line. cbn [packed prev_border].
      destruct (packed st ++ repeat [] (blanks_for
                   (if is_nil (packed st) then NoLine
                    else if prev_border st then BorderLine else OrdinaryLine)
                   (blank_run st) l) ++ [emitted l]) eqn:E; [|reflexivity].
      apply app_eq_nil in E as [_ E]. apply app_eq_nil in E as [_ E]. discriminate.
Qed.

Lemma pack_lines_out_init ls :
  packed (pack_lines pack_init ls) = pack_out NoLine 0 ls.
Proof. now rewrite pack_lines_out by (now left). Qed.

(** What a line emits is emitted as it is. *)
Lemma emitted_border line :
  is_blank line = false ->
  is_border (emitted line) = is_border line /\ emitted (emitted line) = emitted line.
Proof.
  intros Hb. unfold is_border, emitted.
  destruct (_normalize_border_line line) as [b|] eqn:Eb.
  - destruct (normalize_shape line b Eb) as (Hs & _ & _).
    assert (Hfix : _normalize_border_line b = Some b).
    { apply orb_true_iff in Hs as [Hs|Hs]; [now apply normalize_star|now apply normalize_deco]. }
    assert (E : _normalize_border_line (str_repeat (u "　") 4 ++ b) = Some b).
    { rewrite <- Hfix. unfold _normalize_border_line. cbv zeta.
      assert (E : strip is_sp (str_repeat (u "　") 4 ++ b) = strip is_sp b).
      { unfold strip. rewrite lstrip_app_all by reflexivity. reflexivity. }
      rewrite E. reflexivity. }
    rewrite E. split; reflexivity.
  - rewrite normalize_rstrip, Eb. split; [reflexivity|apply rstrip_idem].
Qed.

Lemma settled_blanks k m b (X : list str) :
  settled_from k m (repeat [] b ++ X) <-> settled_from k (b + m) X.
Proof.
  revert m; induction b as [|b IH]; intros m; [reflexivity|].
  cbn [repeat app settled_from settle_ok is_empty]. rewrite IH, Nat.add_succ_r.
  cbn [Nat.add]. tauto.
Qed.

Lemma blanks_for_ext k n l l' :
  is_border l = is_border l' -> blanks_for k n l = blanks_for k n l'.
Proof. intros E. unfold blanks_for. now rewrite E. Qed.

(** The number of empty lines that the loop appends is appended again when
    the loop reads them, except between two ordinary lines. *)
Lemma blanks_for_fixed k n l :
  is_border l = true \/ k <> OrdinaryLine \/ n <= 1 ->
  blanks_for k (blanks_for k n l) l = blanks_for k n l.
Proof.
  intros H. unfold blanks_for. destruct (is_border l).
  - destruct (0 <? n); [destruct (in_1_3 n); reflexivity|].
    destruct k; reflexivity.
  - destruct H as [H|[H|H]]; [discriminate| |].
    + destruct k; [| |congruence].
      * destruct (1 <=? n); reflexivity.
      * destruct (1 <=? n); [destruct (in_1_3 n)|]; reflexivity.
    + destruct k.
      * destruct (1 <=? n); reflexivity.
      * destruct (1 <=? n); [destruct (in_1_3 n)|]; reflexivity.
      * assert (E : (2 <=? n) = false) by (apply Nat.leb_gt; lia).
        rewrite E. reflexivity.
Qed.

Lemma begins_joined_emitted l :
  begins_joined (emitted l) = true -> begins_joined l = true.
Proof.
  unfold begins_joined. intros H.
  destruct (starts_with bang_quote l) eqn:Hb; [reflexivity|].
  destruct (starts_with question_quote l) eqn:Hq; [reflexivity|].
  rewrite (emitted_no_start bang_quote l (or_introl eq_refl) Hb) in H.
  rewrite (emitted_no_start question_quote l (or_intror eq_refl) Hq) in H.
  discriminate H.
Qed.

Lemma emitted_ordinary l : is_border l = false -> emitted l = rstrip is_sp l.
Proof.
  unfold is_border, emitted. destruct (_normalize_border_line l); [discriminate|reflexivity].
Qed.

(** What the loop emits for a line of a text with the spacing asked for is
    a line that the loop leaves as it is. *)
Lemma settle_ok_emitted k n l :
  nl_free l = true -> is_blank l = false ->
  (is_border l = true \/
   match k with
   | NoLine => true
   | BorderLine => negb (begins_joined l)
   | OrdinaryLine => n <=? 1
   end = true) ->
  settle_ok k (blanks_for k n l) (emitted l).
Proof.
  intros Hnl Hb Hc.
  destruct (emitted_border l Hb) as (Hbd & Hem).
  pose proof (emitted_nonempty l Hb) as Hne.
  unfold settle_ok. destruct (emitted l) as [|c t] eqn:Ee; [congruence|].
  rewrite <- Ee in *. clear c t Ee. split.
  - rewrite (blanks_for_ext k _ (emitted l) l Hbd). apply blanks_for_fixed.
    destruct (is_border l); [now left|]. right.
    destruct Hc as [Hc|Hc]; [discriminate|].
    destruct k; [left; discriminate|left; discriminate|right].
    now apply Nat.leb_le.
  - rewrite Hbd. destruct (is_border l) eqn:Hbl; [exact Hem|].
    destruct Hc as [Hc|Hc]; [discriminate|]. split.
    + rewrite emitted_ordinary by exact Hbl. apply packed_line_rstrip; [exact Hnl|].
      unfold plain_line. now rewrite Hb, Hbl.
    + intros Hj. apply begins_joined_emitted in Hj. rewrite Hj in Hc.
      unfold blanks_for. rewrite Hbl. destruct k; cbn [negb orb] in Hc.
      * split; [discriminate|now right].
      * discriminate Hc.
      * apply Nat.leb_le in Hc.
        assert (E : (2 <=? n) = false) by (apply Nat.leb_gt; lia).
        rewrite E. split; [discriminate|now left].
Qed.

Lemma kind_of_emitted l : is_blank l = false -> kind_of_line (emitted l) = kind_of_line l.
Proof.
  intros Hb. unfold kind_of_line. now rewrite (proj1 (emitted_border l Hb)).
Qed.

(** The lines that the loop appends for a text with the spacing asked for
    are lines that the loop leaves as they are. *)
Lemma spaced_settled ls :
  forallb nl_free ls = true ->
  forall k n, spaced_from k n ls = true -> settled_from k 0 (pack_out k n ls).
Proof.
  induction ls as [|l ls IH]; intros Hnl k n Hs; [reflexivity|].
  cbn [forallb] in Hnl. apply andb_true_iff in Hnl as [Hl Hnl].
  cbn [pack_out spaced_from] in *. destruct (is_blank l) eqn:Hb; [now apply IH|].
  apply settled_blanks. rewrite Nat.add_0_r. cbn [settled_from].
  pose proof (emitted_nonempty l Hb) as Hne.
  assert (Hemp : is_empty (emitted l) = false) by (destruct (emitted l); [congruence|reflexivity]).
  rewrite Hemp, kind_of_emitted by exact Hb. split.
  - apply settle_ok_emitted; [exact Hl|exact Hb|].
    destruct (is_border l); [now left|right].
    now apply andb_true_iff in Hs as [Hs _].
  - apply (IH Hnl). unfold kind_of_line.
    destruct (is_border l); [exact Hs|]. now apply andb_true_iff in Hs as [_ Hs].
Qed.

Lemma border_not_blank l : is_border l = true -> is_blank l = false.
Proof.
  unfold is_border, is_blank, _normalize_border_line.
  destruct (is_empty (strip is_sp l)); [discriminate|reflexivity].
Qed.

Lemma settle_ok_line k n c t :
  settle_ok k n (c :: t) ->
  is_blank (c :: t) = false /\ emitted (c :: t) = c :: t /\
  blanks_for k n (c :: t) = n.
Proof.
  unfold settle_ok. intros (Hn & H). destruct (is_border (c :: t)) eqn:Hbd.
  - split; [now apply border_not_blank|]. split; [exact H|exact Hn].
  - destruct H as (Hp & _). split; [|split; [|exact Hn]].
    + apply packed_line_plain in Hp. unfold plain_line in Hp.
      apply andb_true_iff in Hp as [Hp _]. now apply negb_true_iff in Hp.
    + rewrite emitted_ordinary by exact Hbd. apply Hp.
Qed.

(** The loop appends lines that it leaves as they are without a change. *)
Lemma settled_pack_out Q :
  forall k n, settled_from k n Q -> pack_out k n Q = repeat [] n ++ Q.
Proof.
  induction Q as [|l Q IH]; intros k n H.
  - cbn [settled_from] in H. subst n. reflexivity.
  - cbn [settled_from] in H. destruct H as (Hl & HQ). destruct l as [|c t].
    + cbn [is_empty] in HQ. change (pack_out k n ([] :: Q)) with (pack_out k (S n) Q).
      rewrite (IH _ _ HQ). apply repeat_snoc.
    + cbn [is_empty] in HQ. destruct (settle_ok_line k n c t Hl) as (Hb & He & Hn).
      cbn [pack_out]. rewrite Hb, He, Hn, (IH _ _ HQ). reflexivity.
Qed.

Lemma joined_not_border pat l :
  pat = bang_quote \/ pat = question_quote ->
  starts_with pat l = true -> l <> [] /\ is_border l = false /\ begins_joined l = true.
Proof.
  intros Hpat Hs. split; [|split].
  - destruct l; [|discriminate]. destruct Hpat as [-> | ->]; discriminate Hs.
  - apply (not_border_of_char (ch "」")); try reflexivity.
    apply starts_with_split in Hs. rewrite Hs.
    apply in_or_app. left. destruct Hpat as [-> | ->]; simpl; auto.
  - unfold begins_joined. destruct Hpat as [-> | ->]; rewrite Hs; [reflexivity|apply orb_true_r].
Qed.

Lemma begins_joined_app cur l :
  cur <> [] -> begins_joined l = true -> begins_joined (cur ++ l) = true ->
  begins_joined cur = true.
Proof.
  intros Hne Hl H. unfold begins_joined in *.
  destruct (starts_with bang_quote cur) eqn:Hb; [reflexivity|].
  destruct (starts_with question_quote cur) eqn:Hq; [reflexivity|].
  assert (Hy : [] = l \/ starts_with bang_quote l = true \/ starts_with question_quote l = true).
  { right. now apply orb_true_iff in Hl. }
  assert (E1 : starts_with bang_quote (cur ++ l) = false).
  { destruct Hy as [Hy|[Hy|Hy]].
    - apply (merged_no_start bang_quote bang_quote); auto.
    - apply (merged_no_start bang_quote bang_quote); auto.
    - apply (merged_no_start bang_quote question_quote); auto. }
  assert (E2 : starts_with question_quote (cur ++ l) = false).
  { destruct Hy as [Hy|[Hy|Hy]].
    - apply (merged_no_start question_quote bang_quote); auto.
    - apply (merged_no_start question_quote bang_quote); auto.
    - apply (merged_no_start question_quote question_quote); auto. }
  rewrite E1, E2 in H. discriminate H.
Qed.

(** A line that begins with one of the two patterns, joined to the line
    before it. *)
Lemma settled_join pat k n (cur l : str) (rest : list str) :
  pat = bang_quote \/ pat = question_quote ->
  starts_with pat l = true ->
  settled_from k n (cur :: l :: rest) -> settled_from k n ((cur ++ l) :: rest).
Proof.
  intros Hpat Hs (Hc & Hl & Hrest).
  destruct (joined_not_border pat l Hpat Hs) as (Hlne & Hlb & Hlj).
  destruct l as [|c0 t0]; [congruence|]. cbn [is_empty] in Hrest.
  unfold settle_ok in Hl. rewrite Hlb in Hl. destruct Hl as (Hln & Hlp & Hlc).
  destruct (Hlc Hlj) as (Hk & Hn0).
  destruct cur as [|c t].
  { cbn [is_empty] in *. destruct Hn0 as [Hn0|Hn0]; [discriminate Hn0|]. subst k.
    unfold blanks_for in Hln. rewrite Hlb in Hln. cbn [Nat.leb] in Hln.
    injection Hln as <-. cbn [app settled_from is_empty]. split; [|exact Hrest].
    unfold settle_ok. rewrite Hlb. split; [|split; [exact Hlp|]].
    - unfold blanks_for. now rewrite Hlb.
    - intros _. split; [discriminate|now left]. }
  cbn [is_empty] in Hn0, Hk, Hrest. clear Hn0.
  assert (Hcb : is_border (c :: t) = false).
  { unfold kind_of_line in Hk. destruct (is_border (c :: t)); [congruence|reflexivity]. }
  unfold settle_ok in Hc. rewrite Hcb in Hc. destruct Hc as (Hcn & Hcp & Hcc).
  pose proof (packed_line_app pat (c :: t) (c0 :: t0) Hpat Hcp Hlp Hs) as Hp.
  assert (Hjb : is_border ((c :: t) ++ c0 :: t0) = false) by apply Hp.
  cbn [settled_from]. split.
  - change ((c :: t) ++ c0 :: t0) with (c :: (t ++ c0 :: t0)) in *.
    unfold settle_ok. rewrite Hjb. split; [|split; [exact Hp|]].
    + rewrite <- Hcn at 2. apply blanks_for_ext. now rewrite Hjb, Hcb.
    + intros Hj. apply Hcc.
      apply (begins_joined_app (c :: t) (c0 :: t0)); [discriminate|exact Hlj|exact Hj].
  - cbn [app is_empty]. unfold kind_of_line in *.
    change (c :: t ++ c0 :: t0) with ((c :: t) ++ c0 :: t0). rewrite Hjb.
    rewrite Hlb in Hrest. exact Hrest.
Qed.

(** Joining the lines that begin with one of the two patterns keeps lines
    that the loop leaves as they are. *)
Lemma merge_settled pat :
  pat = bang_quote \/ pat = question_quote ->
  forall rest cur k n,
    settled_from k n (cur :: rest) -> settled_from k n (merge_lines pat cur rest).
Proof.
  intros Hpat. induction rest as [|l rest IH]; intros cur k n H; [exact H|].
  cbn [merge_lines]. destruct (starts_with pat l) eqn:Hs.
  - apply IH. now apply (settled_join pat).
  - destruct H as (Hc & H'). split; [exact Hc|]. now apply IH.
Qed.

Lemma merge_head_no_start pat pat' (rest : list str) (cur : str) k n :
  pat = bang_quote \/ pat = question_quote ->
  pat' = bang_quote \/ pat' = question_quote ->
  k <> NoLine \/ n <> 0 ->
  settled_from k n (cur :: rest) -> starts_with pat' cur = false ->
  exists h t, merge_lines pat cur rest = h :: t /\ starts_with pat' h = false.
Proof.
  intros Hpat Hpat' Hkn H Hc. destruct cur as [|c t0].
  - destruct rest as [|l r]; [exists [], []; auto|].
    cbn [merge_lines]. destruct (starts_with pat l) eqn:Hs.
    + exfalso. destruct H as (_ & Hl & _).
      destruct (joined_not_border pat l Hpat Hs) as (Hlne & Hlb & Hlj).
      destruct l as [|c0 t1]; [congruence|]. unfold settle_ok in Hl.
      rewrite Hlb in Hl. destruct Hl as (Hln & _ & Hlc). cbn [is_empty] in *.
      destruct (Hlc Hlj) as (_ & [Hn0|Hn0]); [discriminate Hn0|]. subst k.
      unfold blanks_for in Hln. rewrite Hlb in Hln. cbn [Nat.leb] in Hln.
      injection Hln as <-. destruct Hkn; congruence.
    + eexists _, _. split; [reflexivity|exact Hc].
  - destruct (merge_lines_shape pat (c :: t0) rest) as (x & t & E & Hx & _).
    exists ((c :: t0) ++ x), t. split; [exact E|].
    apply (merged_no_start pat' pat); auto. discriminate.
Qed.

Lemma merge_tail_no_start pat pat' :
  pat = bang_quote \/ pat = question_quote ->
  pat' = bang_quote \/ pat' = question_quote ->
  forall (rest : list str) (cur : str) k n,
    settled_from k n (cur :: rest) ->
    Forall (fun l => starts_with pat l = true \/ starts_with pat' l = false) rest ->
    Forall (fun l => starts_with pat' l = false) (tl (merge_lines pat cur rest)).
Proof.
  intros Hpat Hpat'. induction rest as [|l rest IH]; intros cur k n H HF; [constructor|].
  inversion HF as [|? ? Hl HF']; subst.
  cbn [merge_lines]. destruct (starts_with pat l) eqn:Hs.
  - apply (IH _ k n); [now apply (settled_join pat)|exact HF'].
  - cbn [tl]. destruct Hl as [Hl|Hl]; [discriminate|].
    destruct H as (_ & H').
    assert (Hkn : (if is_empty cur then k else kind_of_line cur) <> NoLine \/
                  (if is_empty cur then S n else 0) <> 0).
    { destruct cur; cbn [is_empty]; [right; discriminate|left].
      unfold kind_of_line. destruct (is_border _); discriminate. }
    destruct (merge_head_no_start pat pat' rest l _ _ Hpat Hpat' Hkn H' Hl)
      as (h & t & E & Hh).
    pose proof (IH l _ _ H' HF') as Ht. rewrite E in *. cbn [tl] in Ht.
    constructor; assumption.
Qed.

(** The two replacements keep lines that the loop leaves as they are, and
    leave no line behind the first that begins with ！」 or with ？」. *)
Lemma fixups_settled (P : list str) :
  settled_from NoLine 0 P ->
  settled_from NoLine 0 (fixups P) /\
  Forall (fun l => starts_with bang_quote l = false /\
                   starts_with question_quote l = false) (tl (fixups P)).
Proof.
  intros H. unfold fixups. destruct P as [|c r]; [split; [exact H|constructor]|].
  cbn [merge_all].
  pose proof (merge_settled bang_quote (or_introl eq_refl) r c _ _ H) as H1.
  pose proof (merge_tail_no_start bang_quote bang_quote (or_introl eq_refl)
                (or_introl eq_refl) r c _ _ H) as T1.
  assert (T1' : Forall (fun l => starts_with bang_quote l = false)
                       (tl (merge_lines bang_quote c r))).
  { apply T1. clear. induction r as [|l r IH]; constructor; [|exact IH].
    destruct (starts_with bang_quote l); auto. }
  clear T1. pose proof (merge_lines_nonempty bang_quote c r) as Hne.
  destruct (merge_lines bang_quote c r) as [|c1 r1]; [congruence|]. cbn [tl] in T1'.
  cbn [merge_all].
  pose proof (merge_settled question_quote (or_intror eq_refl) r1 c1 _ _ H1) as H2.
  split; [exact H2|].
  pose proof (merge_tail_no_start question_quote question_quote (or_intror eq_refl)
                (or_intror eq_refl) r1 c1 _ _ H1) as T2.
  pose proof (merge_tail_no_start question_quote bang_quote (or_intror eq_refl)
                (or_introl eq_refl) r1 c1 _ _ H1) as T3.
  assert (T2' : Forall (fun l => starts_with question_quote l = false)
                       (tl (merge_lines question_quote c1 r1))).
  { apply T2. clear. induction r1 as [|l r IH]; constructor; [|exact IH].
    destruct (starts_with question_quote l); auto. }
  assert (T3' : Forall (fun l => starts_with bang_quote l = false)
                       (tl (merge_lines question_quote c1 r1))).
  { apply T3. eapply Forall_impl; [|exact T1']. intros l Hl. now right. }
  clear -T2' T3'. induction T2' as [|l r Hl Hr IH]; [constructor|].
  inversion T3' as [|? ? Hl3 Hr3]; subst. constructor; [split; assumption|now apply IH].
Qed.

Lemma fixups_fixed (M : list str) :
  Forall (fun l => starts_with bang_quote l = false /\
                   starts_with question_quote l = false) (tl M) ->
  fixups M = M.
Proof.
  intros H. unfold fixups. destruct M as [|m ms]; [reflexivity|]. cbn [tl merge_all] in *.
  rewrite merge_lines_fixed
    by (eapply Forall_impl; [|exact H]; intros l [Hl _]; exact Hl).
  cbn [merge_all]. apply merge_lines_fixed.
  eapply Forall_impl; [|exact H]. intros l [_ Hl]. exact Hl.
Qed.

(** A text whose lines the loop and the two replacements leave as they are
    is returned as it is. *)
Lemma pack_settled (M : list str) :
  Forall (fun l => nl_free l = true) M ->
  settled_from NoLine 0 M ->
  Forall (fun l => starts_with bang_quote l = false /\
                   starts_with question_quote l = false) (tl M) ->
  _pack_blank_lines (join [nl] M) = join [nl] M.
Proof.
  intros Hnl Hs Ht. destruct M as [|m ms]; [vm_compute; reflexivity|].
  rewrite pack_of_line_list by (try discriminate; now apply forallb_Forall).
  rewrite pack_lines_out_init, (settled_pack_out _ _ _ Hs). cbn [repeat app].
  now rewrite fixups_fixed.
Qed.

(** A text without blank lines and without border lines has the spacing
    asked for. *)
Lemma plain_lines_spaced ls :
  forallb plain_line ls = true -> spaced ls = true.
Proof.
  unfold spaced.
  assert (G : forall k n, k <> BorderLine -> n <= 1 -> forallb plain_line ls = true ->
                          spaced_from k n ls = true).
  { induction ls as [|l ls IH]; intros k n Hk Hn H; [reflexivity|].
    cbn [forallb] in H. apply andb_true_iff in H as [Hl H].
    apply andb_true_iff in Hl as [Hb Hbd]. apply negb_true_iff in Hb, Hbd.
    cbn [spaced_from]. rewrite Hb, Hbd.
    rewrite (IH OrdinaryLine 0) by (auto; discriminate). rewrite andb_true_r.
    destruct k; [reflexivity|congruence|now apply Nat.leb_le]. }
  apply G; [discriminate|lia].
Qed.

(** C2 (as amended): [_pack_blank_lines] is idempotent on every text in
    which two ordinary lines (lines that are neither blank nor border
    lines) have at most one blank line between them, and in which no line
    that begins with ！」 or ？」 has a border line as the nearest line
    before it that is not blank.  Blank lines and border lines may stand
    anywhere else: at the start and the end of the text, and in any number
    before and behind a border line. *)
Theorem pack_blank_lines_idempotent (x : str) :
  spaced (split_on nl x) = true ->
  _pack_blank_lines (_pack_blank_lines x) = _pack_blank_lines x.
Proof.
  intros Hsp. rewrite (pack_as_merge x).
  pose proof (split_nl_free x) as Hnl.
  destruct (packed_lines_ok (split_on nl x) Hnl) as (Hfree & _).
  pose proof (spaced_settled (split_on nl x) Hnl NoLine 0 Hsp) as Hs.
  rewrite <- pack_lines_out_init in Hs.
  destruct (fixups_settled _ Hs) as (HsM & HtM).
  apply pack_settled; [|exact HsM|exact HtM].
  unfold fixups. now apply merge_all_nl_free, merge_all_nl_free.
Qed.

(** C2 on a text with blank lines at its start and its end, border lines
    with one to three blank lines around them, a single blank line
    between two ordinary lines, and a line that begins with ！」. *)
Lemma pack_blank_lines_idempotent_witness :
  spaced (split_on nl (u "\n\n一行目\n\n*****\n\n\n\n二行目\n\n三行目\n！」四行目\n\n\n◆◆\n")) = true /\
  _pack_blank_lines
    (_pack_blank_lines (u "\n\n一行目\n\n*****\n\n\n\n二行目\n\n三行目\n！」四行目\n\n\n◆◆\n")) =
  _pack_blank_lines (u "\n\n一行目\n\n*****\n\n\n\n二行目\n\n三行目\n！」四行目\n\n\n◆◆\n").
Proof.
  split; [vm_compute; reflexivity|].
  apply (pack_blank_lines_idempotent
           (u "\n\n一行目\n\n*****\n\n\n\n二行目\n\n三行目\n！」四行目\n\n\n◆◆\n")).
  vm_compute; reflexivity.
Defined.

(** C2 as stated fails: two blank lines between two ordinary lines are
    packed to one blank line, and packing the result again removes that
    line.  And a line that begins with ！」 behind a border line is joined
    to the border line, which is an ordinary line when the result is
    packed again, so that the blank line before it is removed. *)
Lemma pack_blank_lines_not_idempotent :
  _pack_blank_lines (u "a\n\n\nb") = u "a\n\nb" /\
  _pack_blank_lines (_pack_blank_lines (u "a\n\n\nb")) = u "a\nb" /\
  str_eqb (_pack_blank_lines (_pack_blank_lines (u "a\n\n\nb")))
          (_pack_blank_lines (u "a\n\n\nb")) = false /\
  _pack_blank_lines (u "a\n*****\n！」b") = u "a\n\n　　　　＊＊＊＊＊！」b" /\
  _pack_blank_lines (_pack_blank_lines (u "a\n*****\n！」b")) =
    u "a\n　　　　＊＊＊＊＊！」b".
Proof. vm_compute. repeat split. Qed.

(* ================================================================== *)
(** * Line ends *)

Section LineEnds.
Variable p : char -> bool.
Hypothesis p_nl : p nl = false.

Lemma p_not_nl c : p c = true -> chr_eqb c nl = false.
Proof.
  intros Hc. destruct (chr_eqb_spec c nl) as [E|]; [|reflexivity].
  subst c. congruence.
Qed.

(** A greedy run of the class before [$]: the whole run, when a line end
    follows it. *)
Lemma rep_class_eol fuel lo st :
  length (ms_rest st) < fuel ->
  rep_loop (mt (Chr p)) true lo None fuel st (fun st' => mt Eol st' accept) =
  if (lo <=? run_len p (ms_rest st)) &&
     eol_next (skipn (run_len p (ms_rest st)) (ms_rest st))
  then Some (ms_skip st (run_len p (ms_rest st))) else None.
Proof.
  revert lo st; induction fuel as [|fuel IH]; intros lo [pv rest len caps] Hf;
    simpl in Hf; [lia|].
  destruct rest as [|c t].
  - destruct lo; reflexivity.
  - cbn [rep_loop hi_open hi_pred mt ms_rest run_len].
    destruct (p c) eqn:Hp.
    + cbn [ms_advance ms_rest length].
      assert (Hlt : (length t <? S (length t)) = true) by (apply Nat.ltb_lt; lia).
      rewrite Hlt, IH by (simpl in *; lia).
      cbn [ms_advance ms_rest ms_skip skipn].
      destruct lo as [|lo]; cbn [pred Nat.leb andb]; [|reflexivity].
      rewrite (p_not_nl c Hp).
      destruct (eol_next (skipn (run_len p t) t)); reflexivity.
    + cbn [skipn eol_next ms_skip]. destruct lo; cbn [Nat.leb andb]; [|reflexivity].
      destruct (chr_eqb c nl); reflexivity.
Qed.

Lemma match_here_eol pos prev s :
  match_here (Seq (plus (Chr p)) Eol) pos prev s =
  if (1 <=? run_len p s) && eol_next (skipn (run_len p s) s)
  then Some (RMatch (firstn (run_len p s) s) [] pos prev
                    (hd_error (skipn (run_len p s) s)), run_len p s)
  else None.
Proof.
  unfold match_here, plus.
  change (mt (Seq (Rep true 1 None (Chr p)) Eol) (ms_init prev s) accept)
    with (rep_loop (mt (Chr p)) true 1 None (S (length (ms_rest (ms_init prev s))))
            (ms_init prev s) (fun st' => mt Eol st' accept)).
  rewrite rep_class_eol by (simpl; lia). cbn [ms_init ms_rest].
  destruct ((1 <=? run_len p s) && eol_next (skipn (run_len p s) s)); [|reflexivity].
  rewrite ms_skip_len, ms_skip_rest, ms_skip_caps by (simpl; apply run_len_le).
  reflexivity.
Qed.

(** The first line is made of the class when a line end follows the run
    that begins the text. *)
Lemma first_line_all t :
  forallb p (hd [] (split_on nl t)) = eol_next (skipn (run_len p t) t).
Proof.
  induction t as [|x t IH]; [reflexivity|].
  cbn [split_on run_len]. destruct (chr_eqb x nl) eqn:Ex.
  - destruct (chr_eqb_spec x nl) as [E|]; [|discriminate]. subst x.
    rewrite p_nl. reflexivity.
  - pose proof (split_cons_nonempty t) as Hne.
    destruct (split_on nl t) as [|l ls]; [congruence|].
    cbn [hd forallb] in *. destruct (p x); cbn [andb skipn eol_next].
    + exact IH.
    + now rewrite Ex.
Qed.

Lemma rstrip_lines_nl t : rstrip_lines p (nl :: t) = nl :: rstrip_lines p t.
Proof.
  unfold rstrip_lines. cbn [split_on]. unfold chr_eqb at 1. rewrite N.eqb_refl.
  pose proof (split_cons_nonempty t) as Hne.
  destruct (split_on nl t) as [|l ls]; [congruence|]. reflexivity.
Qed.

Lemma rstrip_lines_cons c t :
  chr_eqb c nl = false ->
  rstrip_lines p (c :: t) =
  if p c && eol_next (skipn (run_len p t) t) then rstrip_lines p t
  else c :: rstrip_lines p t.
Proof.
  intros Hc. rewrite <- first_line_all. unfold rstrip_lines. cbn [split_on]. rewrite Hc.
  pose proof (split_cons_nonempty t) as Hne.
  destruct (split_on nl t) as [|l ls]; [congruence|].
  cbn [hd map]. rewrite !join_cons. cbn [rstrip].
  destruct (rstrip p l) as [|d r] eqn:Er.
  - apply rstrip_nil_iff in Er. rewrite Er, andb_true_r.
    destruct (p c); reflexivity.
  - assert (Hf : forallb p l = false).
    { destruct (forallb p l) eqn:E; [|reflexivity].
      apply rstrip_nil_iff in E. congruence. }
    rewrite Hf, andb_false_r. reflexivity.
Qed.

(** [re.sub(r'[class]+$', '', s, flags=re.MULTILINE)] removes the trailing
    run of the class of every line. *)
Lemma sub_eol_lines s :
  forall skip pos prev,
    skip <= run_len p s ->
    (1 <= skip -> eol_next (skipn (run_len p s) s) = true) ->
    sub_loop (Seq (plus (Chr p)) Eol) (fun _ => []) skip pos prev s = rstrip_lines p s.
Proof.
  induction s as [|c t IH]; intros skip pos prev Hskip Heol.
  - simpl in Hskip. assert (skip = 0) by lia. subst skip.
    cbn [sub_loop]. rewrite match_here_eol. reflexivity.
  - cbn [sub_loop]. destruct skip as [|k].
    + rewrite match_here_eol. cbn [run_len].
      destruct (p c) eqn:Hp.
      * rewrite rstrip_lines_cons by (now apply p_not_nl). rewrite Hp.
        cbn [Nat.leb andb skipn].
        destruct (eol_next (skipn (run_len p t) t)) eqn:E; cbn [app].
        -- apply IH; [lia|auto].
        -- f_equal. apply IH; [lia|intros; lia].
      * cbn [Nat.leb andb].
        destruct (chr_eqb c nl) eqn:Ec.
        -- destruct (chr_eqb_spec c nl) as [E|]; [|discriminate]. subst c.
           rewrite rstrip_lines_nl. f_equal. apply IH; [lia|intros; lia].
        -- rewrite rstrip_lines_cons by exact Ec. rewrite Hp. cbn [andb].
           f_equal. apply IH; [lia|intros; lia].
    + cbn [run_len] in Hskip, Heol. destruct (p c) eqn:Hp; [|lia].
      cbn [skipn] in Heol. specialize (Heol ltac:(lia)).
      rewrite rstrip_lines_cons by (now apply p_not_nl). rewrite Hp, Heol. cbn [andb].
      apply IH; [lia|auto].
Qed.
End LineEnds.

Lemma strip_line_ends_lines text : strip_line_ends text = rstrip_lines is_sp text.
Proof.
  unfold strip_line_ends, re_sub, cls. apply (sub_eol_lines is_sp eq_refl); [lia|intros; lia].
Qed.

Lemma rstrip_lines_split p text :
  split_on nl (rstrip_lines p text) = map (rstrip p) (split_on nl text).
Proof.
  unfold rstrip_lines. apply split_join.
  - pose proof (split_cons_nonempty text). destruct (split_on nl text); [congruence|discriminate].
  - pose proof (split_nl_free text) as H. rewrite forallb_forall in *.
    intros l Hl. apply in_map_iff in Hl as (l0 & <- & Hl0).
    unfold nl_free. apply rstrip_incl. now apply H.
Qed.

(** The lines of a prefix that does not end with a [p]-character have no
    trailing [p]-character when the lines of the whole text have none. *)
Lemma prefix_lines p a b :
  Forall (fun l => rstrip p l = l) (split_on nl (a ++ b)) ->
  no_last p a ->
  Forall (fun l => rstrip p l = l) (split_on nl a).
Proof.
  induction a as [|c a IH]; intros Hall Hlast; [repeat constructor|].
  assert (Hlast' : no_last p a).
  { destruct a as [|d a']; [exact I|]. eapply no_last_tail; [exact Hlast|discriminate]. }
  cbn [app split_on] in *. destruct (chr_eqb c nl).
  - inversion Hall; subst. constructor; [reflexivity|]. now apply IH.
  - pose proof (split_cons_nonempty (a ++ b)) as Hne1.
    pose proof (split_cons_nonempty a) as Hne2.
    destruct (split_on nl (a ++ b)) as [|l1 ls1] eqn:E1; [congruence|].
    destruct (split_on nl a) as [|l2 ls2] eqn:E2; [congruence|].
    inversion Hall as [|? ? Hc1 Hr1]; subst.
    assert (Hr1' : Forall (fun l => rstrip p l = l) (l1 :: ls1)).
    { constructor; [|exact Hr1]. cbn [rstrip] in Hc1.
      destruct (rstrip p l1) as [|d r] eqn:Er.
      - destruct (p c); [discriminate|]. injection Hc1 as <-. reflexivity.
      - now injection Hc1. }
    specialize (IH Hr1' Hlast'). inversion IH as [|? ? Hc2 Hr2]; subst.
    constructor; [|exact Hr2].
    cbn [rstrip]. rewrite Hc2. destruct l2 as [|d l2']; [|reflexivity].
    (* the line is the single character [c] *)
    destruct a as [|x a'].
    + unfold no_last in Hlast. cbn in Hlast. now rewrite Hlast.
    + cbn [split_on] in E2. destruct (chr_eqb x nl) eqn:Ex.
      * cbn [app split_on] in E1. rewrite Ex in E1. injection E1 as <- _.
        cbn [rstrip] in Hc1. destruct (p c); [discriminate|reflexivity].
      * pose proof (split_cons_nonempty a') as Hne3.
        destruct (split_on nl a'); [congruence|discriminate].
Qed.

(** Every character of a literal is in a class. *)
Lemma mem_all l (q : char -> bool) :
  forallb q l = true -> forall c, mem c l = true -> q c = true.
Proof.
  unfold mem. induction l as [|k l IH]; intros H c Hc; [discriminate|].
  cbn [forallb existsb] in *. apply andb_true_iff in H as [Hk Hl].
  apply orb_true_iff in Hc as [Hc|Hc]; [|now apply IH].
  destruct (chr_eqb_spec c k) as [E|]; [|discriminate]. now subst c.
Qed.

(** X11: in the string that [_convert_html_fragment_to_aozora] returns no
    line ends with a space, a tab or a full-width space, for every
    fragment, text kind and [html.unescape]. *)
Theorem output_lines_end_clean
    (html_unescape : str -> str) (value : str) (kind : text_type) :
  Forall (fun l => rstrip is_sp l = l)
         (split_on nl (_convert_html_fragment_to_aozora html_unescape value kind)).
Proof.
  unfold _convert_html_fragment_to_aozora.
  destruct (is_empty value); [repeat constructor|].
  repeat match goal with
         | |- context [let '(_, _) := ?e in _] => destruct e
         end.
  rewrite strip_text_end_rstrip, strip_line_ends_lines.
  match goal with |- context [rstrip_lines is_sp ?x] => generalize x end.
  intros txt.
  destruct (rstrip_prefix is_ws (rstrip_lines is_sp txt)) as (tail & Htail).
  apply (prefix_lines is_sp _ tail).
  - rewrite <- Htail, rstrip_lines_split. apply Forall_map.
    apply Forall_forall. intros line _. apply rstrip_idem.
  - apply (no_last_weaken is_sp is_ws); [|apply rstrip_no_last].
    apply (mem_all sp_chars is_ws). vm_compute. reflexivity.
Qed.

(* ================================================================== *)
(** * Plain text *)

Lemma plain_free t :
  forallb is_kana_kanji t = true -> free_of not_kana_kanji t = true.
Proof.
  unfold free_of, not_kana_kanji. apply forallb_weaken.
  intros c ->. reflexivity.
Qed.

Lemma np_lit k :
  not_kana_kanji k = true -> forall c, chr_eqb k c = true -> not_kana_kanji c = true.
Proof. intros Hk c Hc. destruct (chr_eqb_spec k c) as [E|]; [now subst|discriminate]. Qed.

Lemma np_range a b :
  range_clear a b = true ->
  forall c, in_range a b c = true -> not_kana_kanji c = true.
Proof.
  unfold range_clear, in_range, not_kana_kanji, is_kana_kanji, in_range, chr_eqb.
  intros H c Hc. apply andb_true_iff in Hc as [H1 H2].
  apply N.leb_le in H1, H2. apply negb_true_iff.
  rewrite ?orb_true_iff, ?andb_true_iff, ?N.ltb_lt in H.
  rewrite ?orb_false_iff, ?andb_false_iff, ?N.leb_gt, N.eqb_neq.
  lia.
Qed.

Lemma np_digit c : is_digit c = true -> not_kana_kanji c = true.
Proof.
  unfold is_digit.
  assert (G : forall blocks,
            forallb (fun a => range_clear a (a + 9)) blocks = true ->
            existsb (fun a => in_range a (a + 9)%N c) blocks = true ->
            not_kana_kanji c = true).
  { induction blocks as [|a bs IH]; [discriminate|].
    cbn [forallb existsb]. intros [Ha Hbs]%andb_true_iff [H|H]%orb_true_iff.
    - exact (np_range _ _ Ha c H).
    - now apply IH. }
  apply G. vm_compute. reflexivity.
Qed.

Lemma np_or (p q : char -> bool) :
  (forall c, p c = true -> not_kana_kanji c = true) ->
  (forall c, q c = true -> not_kana_kanji c = true) ->
  forall c, p c || q c = true -> not_kana_kanji c = true.
Proof. intros Hp Hq c [H|H]%orb_true_iff; auto. Qed.

Lemma np_mem l : forallb not_kana_kanji l = true ->
  forall c, mem c l = true -> not_kana_kanji c = true.
Proof. apply mem_all. Qed.

Lemma np_eq k :
  not_kana_kanji k = true -> forall c, chr_eqb c k = true -> not_kana_kanji c = true.
Proof. intros Hk c Hc. destruct (chr_eqb_spec c k) as [E|]; [now subst|discriminate]. Qed.

(** A pattern that needs a character outside plain text leaves plain
    text as it is. *)
Lemma re_sub_plain r f t :
  needs not_kana_kanji r -> forallb is_kana_kanji t = true -> re_sub r f t = t.
Proof. intros Hr Ht. apply (re_sub_needs not_kana_kanji); [exact Hr|now apply plain_free]. Qed.

Lemma re_sub_st_plain (A : Type) r (f : A -> rmatch -> str * A) acc t :
  needs not_kana_kanji r -> forallb is_kana_kanji t = true ->
  re_sub_st r f acc t = (t, acc).
Proof.
  intros Hr Ht. unfold re_sub_st.
  apply (sub_loop_st_needs not_kana_kanji); [exact Hr|now apply plain_free].
Qed.

Lemma replace_plain old new t :
  match old with [] => False | o :: _ => not_kana_kanji o = true end ->
  forallb is_kana_kanji t = true -> replace old new t = t.
Proof.
  destruct old as [|o old]; [contradiction|]. intros Ho Ht. unfold replace.
  pose proof (replace_copy_first o old new t []) as E.
  rewrite !app_nil_r in E. rewrite E; [reflexivity|].
  eapply forallb_weaken; [|exact Ht]. intros c Hc. cbn beta.
  destruct (chr_eqb_spec o c) as [E2|]; [|reflexivity]. subst c.
  unfold not_kana_kanji in Ho. now rewrite Hc in Ho.
Qed.

Lemma translate_char_absent tbl c :
  mem c (map fst tbl) = false -> translate_char tbl c = c.
Proof.
  unfold mem. induction tbl as [|[k v] tbl IH]; [reflexivity|].
  cbn [map fst existsb translate_char]. intros [Hk Ht]%orb_false_iff.
  rewrite Hk. now apply IH.
Qed.

Lemma translate_plain tbl t :
  forallb not_kana_kanji (map fst tbl) = true ->
  forallb is_kana_kanji t = true -> translate tbl t = t.
Proof.
  intros Hk Ht. unfold translate. induction t as [|c t IH]; [reflexivity|].
  cbn [map forallb] in *. apply andb_true_iff in Ht as [Hc Ht].
  rewrite (IH Ht). f_equal. apply translate_char_absent.
  destruct (mem c (map fst tbl)) eqn:E; [|reflexivity].
  apply (np_mem _ Hk) in E. unfold not_kana_kanji in E. now rewrite Hc in E.
Qed.

Lemma np_zenkaku_alpha : forall c, is_zenkaku_alpha c = true -> not_kana_kanji c = true.
Proof.
  unfold is_zenkaku_alpha. apply np_or; apply np_range; vm_compute; reflexivity.
Qed.

Lemma np_alnum : forall c, is_alnum c = true -> not_kana_kanji c = true.
Proof.
  unfold is_alnum, is_alpha. repeat apply np_or; apply np_range; vm_compute; reflexivity.
Qed.

Lemma np_english : forall c, is_english_char c = true -> not_kana_kanji c = true.
Proof.
  unfold is_english_char. apply np_or; [apply np_or|].
  - exact np_alnum.
  - apply np_mem. vm_compute. reflexivity.
  - apply np_eq. vm_compute. reflexivity.
Qed.

Lemma np_num_or_comma : forall c, is_num_or_comma c = true -> not_kana_kanji c = true.
Proof.
  unfold is_num_or_comma. apply np_or; [apply np_or|].
  - exact np_digit.
  - apply np_range. vm_compute. reflexivity.
  - apply np_mem. vm_compute. reflexivity.
Qed.

Lemma np_space : forall c, is_space c = true -> not_kana_kanji c = true.
Proof.
  unfold is_space. apply np_or; [apply np_or; [apply np_or|]|].
  - apply np_range. vm_compute. reflexivity.
  - apply np_range. vm_compute. reflexivity.
  - apply np_mem. vm_compute. reflexivity.
  - apply np_range. vm_compute. reflexivity.
Qed.

Lemma np_ws : forall c, is_ws c = true -> not_kana_kanji c = true.
Proof.
  unfold is_ws. apply np_or; [|exact np_space]. apply np_eq. vm_compute. reflexivity.
Qed.

Lemma np_sp : forall c, is_sp c = true -> not_kana_kanji c = true.
Proof. unfold is_sp. apply np_mem. vm_compute. reflexivity. Qed.

Ltac np_class :=
  first [ exact np_digit | exact np_zenkaku_alpha | exact np_alnum | exact np_english
        | exact np_num_or_comma | exact np_ws | exact np_sp
        | apply np_mem; vm_compute; reflexivity
        | apply np_lit; vm_compute; reflexivity
        | apply np_eq; vm_compute; reflexivity
        | apply np_range; vm_compute; reflexivity
        | lazymatch goal with
          | |- forall c, (_ || _) = true -> _ => apply np_or; np_class
          end ].

Lemma needs_rep ok g lo hi r : 1 <= lo -> needs ok r -> needs ok (Rep g lo hi r).
Proof. intros H1 H2. split; assumption. Qed.

Lemma needs_grp ok i r : needs ok r -> needs ok (Grp i r).
Proof. intros H. exact H. Qed.

Lemma needs_seq_l ok r1 r2 : needs ok r1 -> needs ok (Seq r1 r2).
Proof. intros H. left. exact H. Qed.

Lemma needs_seq_r ok r1 r2 : needs ok r2 -> needs ok (Seq r1 r2).
Proof. intros H. right. exact H. Qed.

Lemma needs_alt ok r1 r2 : needs ok r1 -> needs ok r2 -> needs ok (Alt r1 r2).
Proof. intros H1 H2. split; assumption. Qed.

Lemma needs_chr (ok p : char -> bool) :
  (forall c, p c = true -> ok c = true) -> needs ok (Chr p).
Proof. intros H. exact H. Qed.

Ltac needs_np :=
  lazymatch goal with
  | |- needs _ (seqs (_ :: _)) =>
      first [ apply needs_seqs_head; solve [needs_np]
            | apply needs_seqs_tail; [discriminate|solve [needs_np]] ]
  | |- needs _ (lits ?s) =>
      apply needs_lits with (c := hd 0%N s); [reflexivity|vm_compute; reflexivity]
  | |- needs _ (ilits ?s) =>
      apply needs_ilits with (c := hd 0%N s);
      [reflexivity|apply np_mem; vm_compute; reflexivity]
  | |- needs _ (lit _) => apply needs_lit; vm_compute; reflexivity
  | |- needs _ (cls _) => unfold cls; needs_np
  | |- needs _ (plus _) => unfold plus; needs_np
  | |- needs _ (plus_lazy _) => unfold plus_lazy; needs_np
  | |- needs _ (at_least _ _) => unfold at_least; needs_np
  | |- needs _ (Grp _ _) => apply needs_grp; needs_np
  | |- needs _ (Rep _ _ _ _) => apply needs_rep; [lia|needs_np]
  | |- needs _ (Seq _ _) =>
      first [ apply needs_seq_l; solve [needs_np] | apply needs_seq_r; solve [needs_np] ]
  | |- needs _ (Alt _ _) => apply needs_alt; needs_np
  | |- needs _ (Chr _) => apply needs_chr; np_class
  end.

Lemma hankakukana_plain t :
  forallb is_kana_kanji t = true -> _hankakukana_to_zenkakukana t = t.
Proof.
  intros Ht. unfold _hankakukana_to_zenkakukana.
  rewrite (replace_plain (u "－")) by (exact Ht || reflexivity).
  apply replace_plain; [reflexivity|exact Ht].
Qed.

Lemma delete_tag_plain t : forallb is_kana_kanji t = true -> _delete_tag t = t.
Proof.
  intros Ht. apply delete_tag_of_fixed. unfold strip_tags, re_tag.
  apply re_sub_plain; [needs_np|exact Ht].
Qed.

Lemma auto_join_line_plain t :
  forallb is_kana_kanji t = true -> _auto_join_line t = t.
Proof. intros Ht. unfold _auto_join_line. apply re_sub_plain; [needs_np|exact Ht]. Qed.

Lemma stash_urls_plain t :
  forallb is_kana_kanji t = true -> _stash_urls t = (t, []).
Proof.
  intros Ht. unfold _stash_urls, re_url. apply re_sub_st_plain; [needs_np|exact Ht].
Qed.

Lemma stash_english_plain t :
  forallb is_kana_kanji t = true -> _stash_english_sentences t = (t, []).
Proof.
  intros Ht. unfold _stash_english_sentences. apply re_sub_st_plain; [needs_np|exact Ht].
Qed.

Lemma stash_kome_plain t : forallb is_kana_kanji t = true -> _stash_kome t = t.
Proof. intros Ht. apply replace_plain; [reflexivity|exact Ht]. Qed.

Lemma symbols_plain t : forallb is_kana_kanji t = true -> _symbols_to_zenkaku t = t.
Proof.
  intros Ht. unfold _symbols_to_zenkaku. cbv zeta.
  rewrite (re_sub_plain _ _ t) by (exact Ht || needs_np).
  rewrite (re_sub_plain _ _ t) by (exact Ht || needs_np).
  rewrite translate_plain by (exact Ht || (vm_compute; reflexivity)).
  apply replace_plain; [reflexivity|exact Ht].
Qed.

Lemma convert_numbers_plain t kind :
  forallb is_kana_kanji t = true -> _convert_numbers t kind = (t, []).
Proof.
  intros Ht. unfold _convert_numbers, decimal_point_to_nakaten. cbv zeta.
  rewrite (re_sub_plain _ _ t) by (exact Ht || needs_np).
  destruct (is_heading_kind kind).
  - unfold _hankaku_num_to_zenkaku_num.
    rewrite re_sub_plain; [reflexivity|needs_np|exact Ht].
  - apply re_sub_st_plain; [needs_np|exact Ht].
Qed.

Lemma exception_reconvert_plain t :
  forallb is_kana_kanji t = true -> _exception_reconvert_kanji_to_num t = t.
Proof.
  intros Ht. unfold _exception_reconvert_kanji_to_num. cbv zeta.
  rewrite (re_sub_plain _ _ t) by (exact Ht || needs_np).
  apply re_sub_plain; [needs_np|exact Ht].
Qed.

Lemma insert_separate_space_plain t :
  forallb is_kana_kanji t = true -> _insert_separate_space t = t.
Proof.
  intros Ht. unfold _insert_separate_space. cbv zeta.
  apply re_sub_plain; [needs_np|exact Ht].
Qed.

Lemma tatechuyoko_plain t :
  forallb is_kana_kanji t = true -> _convert_tatechuyoko t = t.
Proof.
  intros Ht. unfold _convert_tatechuyoko, tatechuyoko_bang. cbv zeta.
  rewrite (re_sub_plain _ _ t) by (exact Ht || needs_np).
  apply re_sub_plain; [needs_np|exact Ht].
Qed.

Lemma novel_rule_plain t :
  forallb is_kana_kanji t = true -> _convert_novel_rule t = t.
Proof.
  intros Ht. unfold _convert_novel_rule. cbv zeta.
  repeat (rewrite (re_sub_plain _ _ t) by (exact Ht || needs_np)).
  reflexivity.
Qed.

Lemma horizontal_ellipsis_plain t :
  forallb is_kana_kanji t = true -> _convert_horizontal_ellipsis t = t.
Proof.
  intros Ht. unfold _convert_horizontal_ellipsis, ellipsis_fold. cbv zeta.
  cbn [fold_left]. unfold ellipsis_pass.
  repeat (rewrite (re_sub_plain _ _ t) by (exact Ht || needs_np)).
  rewrite (replace_plain (u "。。")) by (exact Ht || reflexivity).
  apply replace_plain; [reflexivity|exact Ht].
Qed.

Lemma restore_explicit_ruby_plain t :
  forallb is_kana_kanji t = true -> _restore_explicit_ruby t = t.
Proof.
  intros Ht. unfold _restore_explicit_ruby. apply re_sub_plain; [needs_np|exact Ht].
Qed.

Lemma replace_tatesen_plain t :
  forallb is_kana_kanji t = true -> _replace_tatesen t = t.
Proof.
  intros Ht. unfold _replace_tatesen. cbv zeta.
  rewrite (re_sub_plain _ _ t) by (exact Ht || needs_np).
  rewrite (replace_plain (u "｜")) by (exact Ht || reflexivity).
  apply replace_plain; [reflexivity|exact Ht].
Qed.

Lemma double_angle_plain t :
  forallb is_kana_kanji t = true -> _convert_double_angle_quotation_to_gaiji t = t.
Proof.
  intros Ht. unfold _convert_double_angle_quotation_to_gaiji. cbv zeta.
  rewrite (replace_plain (u "≪")) by (exact Ht || reflexivity).
  apply replace_plain; [reflexivity|exact Ht].
Qed.

Lemma rebuild_kome_plain t :
  forallb is_kana_kanji t = true -> _rebuild_kome_to_gaiji t = t.
Proof. intros Ht. apply replace_plain; [reflexivity|exact Ht]. Qed.

Lemma half_indent_plain t :
  forallb is_kana_kanji t = true -> _half_indent_bracket t = t.
Proof.
  intros Ht. unfold _half_indent_bracket. apply re_sub_plain; [|exact Ht].
  apply needs_seqs_tail; [discriminate|]. needs_np.
Qed.

Lemma strip_ends_plain t :
  forallb is_kana_kanji t = true -> strip_text_end (strip_line_ends t) = t.
Proof.
  intros Ht. unfold strip_line_ends, strip_text_end.
  rewrite (re_sub_plain _ _ t) by (exact Ht || needs_np).
  apply re_sub_plain; [needs_np|exact Ht].
Qed.

Lemma plain_not_char k t :
  not_kana_kanji k = true -> forallb is_kana_kanji t = true -> mem k t = false.
Proof.
  intros Hk Ht. apply free_of_mem. unfold free_of.
  apply (forallb_weaken is_kana_kanji); [|exact Ht].
  intros c Hc. destruct (chr_eqb_spec k c) as [E|]; [|reflexivity].
  subst c. unfold not_kana_kanji in Hk. rewrite Hc in Hk. discriminate Hk.
Qed.

Lemma plain_clean (p : char -> bool) t :
  (forall c, p c = true -> not_kana_kanji c = true) ->
  forallb is_kana_kanji t = true -> forallb (fun c => negb (p c)) t = true.
Proof.
  intros Hp. apply forallb_weaken. intros c Hc.
  destruct (p c) eqn:E; [|reflexivity].
  apply Hp in E. unfold not_kana_kanji in E. rewrite Hc in E. discriminate E.
Qed.

Lemma split_on_plain t : forallb is_kana_kanji t = true -> split_on nl t = [t].
Proof.
  induction t as [|c t IH]; [reflexivity|].
  cbn [forallb split_on]. intros [Hc Ht]%andb_true_iff. rewrite (IH Ht).
  destruct (chr_eqb_spec c nl) as [E|]; [|reflexivity].
  subst c. vm_compute in Hc. discriminate Hc.
Qed.

Lemma fullmatch_plain r t :
  needs not_kana_kanji r -> forallb is_kana_kanji t = true -> re_fullmatch r t = false.
Proof.
  intros Hr Ht. unfold re_fullmatch.
  rewrite (mt_needs not_kana_kanji); [reflexivity|exact Hr|now apply plain_free].
Qed.

Lemma normalize_border_plain t :
  forallb is_kana_kanji t = true -> _normalize_border_line t = None.
Proof.
  intros Ht. unfold _normalize_border_line. cbv zeta.
  rewrite strip_clean by (apply plain_clean; [np_class|exact Ht]).
  rewrite !fullmatch_plain by (exact Ht || needs_np).
  destruct (is_empty t); reflexivity.
Qed.

Lemma pack_blank_lines_plain t :
  forallb is_kana_kanji t = true -> _pack_blank_lines t = t.
Proof.
  intros Ht. destruct t as [|c t]; [reflexivity|].
  assert (Hsp : forallb (fun x => negb (is_sp x)) (c :: t) = true)
    by (apply plain_clean; [np_class|exact Ht]).
  unfold _pack_blank_lines. cbv zeta. rewrite (split_on_plain _ Ht).
  cbn [pack_lines fold_left]. unfold pack_step.
  rewrite (strip_clean _ _ Hsp), (normalize_border_plain _ Ht), (rstrip_clean _ _ Hsp).
  match goal with |- replace _ _ (replace _ _ ?x) = _ => change x with (c :: t) end.
  rewrite (replace_plain (u "\n！」") _ (c :: t)) by (exact Ht || (vm_compute; reflexivity)).
  apply replace_plain; [vm_compute; reflexivity|exact Ht].
Qed.

Section PlainPipeline.
Variable html_unescape : str -> str.
Hypothesis unescape_without_amp : forall s, mem (ch "&") s = false -> html_unescape s = s.

Lemma html_to_aozora_plain t pre :
  forallb is_kana_kanji t = true -> _html_to_aozora html_unescape t pre = t.
Proof.
  intros Ht. unfold _html_to_aozora. destruct (is_empty t) eqn:E.
  - destruct t; [reflexivity|discriminate E].
  - cbv zeta.
    assert (H0 : (if negb pre
                  then re_sub (seqs [ilits (u "<br"); star_lazy dot; lit (ch ">")])
                         (fun _ => u "\n") (re_sub (plus (cls (u "\r\n"))) (fun _ => []) t)
                  else t) = t).
    { destruct pre; [reflexivity|]. cbn [negb].
      rewrite (re_sub_plain _ _ t) by (exact Ht || needs_np).
      apply re_sub_plain; [needs_np|exact Ht]. }
    rewrite H0.
    repeat rewrite (re_sub_plain _ _ t) by (exact Ht || needs_np).
    rewrite (delete_tag_plain _ Ht).
    apply unescape_without_amp. apply plain_not_char; [reflexivity|exact Ht].
Qed.
End PlainPipeline.

(** X12: a fragment made only of hiragana, katakana, the long-vowel mark
    and kanji comes out of [_convert_html_fragment_to_aozora] unchanged,
    whatever the kind of text, as long as [html.unescape] returns a string
    without [&] as it is. *)
Theorem kana_kanji_text_unchanged (html_unescape : str -> str)
    (value : str) (kind : text_type) :
  (forall s, mem (ch "&") s = false -> html_unescape s = s) ->
  forallb is_kana_kanji value = true ->
  _convert_html_fragment_to_aozora html_unescape value kind = value.
Proof.
  intros Hu Ht. unfold _convert_html_fragment_to_aozora.
  destruct (is_empty value) eqn:E; [destruct value; [reflexivity|discriminate E]|].
  cbv zeta.
  rewrite (html_to_aozora_plain html_unescape Hu _ _ Ht).
  rewrite (hankakukana_plain _ Ht).
  assert (H0 : match kind with Story => _ensure_story_linebreaks value | _ => value end
               = value).
  { destruct kind; try reflexivity. unfold _ensure_story_linebreaks.
    destruct (negb (mem (ch "<") value) && negb (mem (ch ">") value)); reflexivity. }
  rewrite H0. rewrite (auto_join_line_plain _ Ht).
  rewrite (replace_plain _ _ value) by (exact Ht || (vm_compute; reflexivity)).
  rewrite (re_sub_plain _ _ value) by (exact Ht || needs_np).
  rewrite (re_sub_plain _ _ value) by (exact Ht || needs_np).
  rewrite (stash_urls_plain _ Ht), (stash_english_plain _ Ht), (stash_kome_plain _ Ht).
  rewrite (symbols_plain _ Ht), (convert_numbers_plain _ kind Ht).
  assert (H1 : (if negb (is_heading_kind kind)
                then _exception_reconvert_kanji_to_num value else value) = value).
  { destruct (negb (is_heading_kind kind)); [now apply exception_reconvert_plain|reflexivity]. }
  rewrite H1.
  rewrite (insert_separate_space_plain _ Ht), (tatechuyoko_plain _ Ht).
  rewrite (novel_rule_plain _ Ht), (horizontal_ellipsis_plain _ Ht).
  rewrite (restore_explicit_ruby_plain _ Ht), (replace_tatesen_plain _ Ht).
  rewrite (double_angle_plain _ Ht).
  unfold _rebuild_english_sentences, _rebuild_hankaku_num_and_comma, _rebuild_urls.
  cbn [rebuild_from].
  rewrite (rebuild_kome_plain _ Ht).
  rewrite (re_sub_plain _ _ value) by (exact Ht || needs_np).
  assert (H2 : match kind with
               | Body | Textfile =>
                   _convert_tatechuyoko (_pack_blank_lines (_half_indent_bracket value))
               | Introduction | Postscript => _pack_blank_lines value
               | _ => value
               end = value).
  { destruct kind; try reflexivity;
      rewrite ?(half_indent_plain _ Ht), (pack_blank_lines_plain _ Ht);
      try reflexivity; now apply tatechuyoko_plain. }
  rewrite H2. now apply strip_ends_plain.
Qed.

(** X12 on a line of a well-known novel, read as body text. *)
Lemma kana_kanji_text_unchanged_witness :
  (forall s, mem (ch "&") s = false -> unescape_plain s = s) /\
  forallb is_kana_kanji (u "吾輩は猫である") = true /\
  _convert_html_fragment_to_aozora unescape_plain (u "吾輩は猫である") Body
  = u "吾輩は猫である".
Proof.
  split; [intros s _; reflexivity|]. split; [vm_compute; reflexivity|].
  apply kana_kanji_text_unchanged; [intros s _; reflexivity|vm_compute; reflexivity].
Defined.

(** ** Ellipses come in pairs *)

Lemma even_runs_chars c n k o : even_runs c n (chars c k ++ o) = even_runs c (n + k) o.
Proof.
  revert n; induction k as [|k IH]; intros n; cbn [chars repeat app even_runs].
  - now rewrite Nat.add_0_r.
  - fold (chars c k). destruct (chr_eqb_spec c c) as [_|Hn]; [|congruence].
    rewrite IH. f_equal. lia.
Qed.

Lemma even_runs_no_head c n o :
  no_head (fun x => chr_eqb x c) o ->
  even_runs c n o = Nat.even n && even_runs c 0 o.
Proof.
  destruct o as [|y o]; cbn [no_head even_runs].
  - intros _. now rewrite andb_true_r.
  - intros ->. reflexivity.
Qed.

Lemma even_runs_block c n b o :
  b <> [] -> mem c b = false ->
  even_runs c n (b ++ o) = Nat.even n && even_runs c 0 o.
Proof.
  intros Hne Hb. destruct b as [|y b]; [congruence|]. clear Hne.
  revert n y Hb. induction b as [|z b IH]; intros n y Hb.
  - unfold mem in Hb. cbn [existsb] in Hb. rewrite orb_false_r, chr_eqb_sym in Hb.
    cbn [app even_runs]. now rewrite Hb.
  - unfold mem in Hb. cbn [existsb] in Hb. apply orb_false_iff in Hb as [Hy Hb].
    rewrite chr_eqb_sym in Hy.
    change ((y :: z :: b) ++ o) with (y :: (z :: b) ++ o). cbn [even_runs].
    rewrite Hy. rewrite (IH 0 z Hb). reflexivity.
Qed.

Lemma run_split p s :
  s = firstn (run_len p s) s ++ skipn (run_len p s) s /\
  forallb p (firstn (run_len p s) s) = true /\
  no_head p (skipn (run_len p s) s) /\
  length (firstn (run_len p s) s) = run_len p s.
Proof.
  split; [symmetry; apply firstn_skipn|]. split; [apply run_len_prefix|]. split.
  - induction s as [|x t IH]; [exact I|]. cbn [run_len].
    destruct (p x) eqn:E; [exact IH|exact E].
  - apply firstn_length_le. apply run_len_le.
Qed.

Lemma all_one_char c run :
  forallb (fun x => mem x [c]) run = true -> run = chars c (length run).
Proof.
  induction run as [|x run IH]; [reflexivity|]. cbn [forallb length chars repeat].
  intros [Hx Hr]%andb_true_iff. unfold mem in Hx. cbn [existsb] in Hx.
  rewrite orb_false_r in Hx. destruct (chr_eqb_spec x c) as [->|]; [|discriminate].
  f_equal. exact (IH Hr).
Qed.

Section PadRuns.
Variable c : char.

Let p : char -> bool := fun x => mem x [c].
Let g : str -> bool -> option char -> option char -> str :=
  fun run _ _ _ => if length run mod 2 =? 0 then run else run ++ [c].

Lemma p_is_c x : p x = chr_eqb x c.
Proof. unfold p, mem. cbn [existsb]. apply orb_false_r. Qed.

Lemma pad_head rest pos prev :
  no_head p rest ->
  no_head (fun x => chr_eqb x c)
          (sub_loop (plus (Chr p)) (fun m => g (m_text m) (Nat.eqb (m_start m) 0)
                                                (m_prev m) (m_next m)) 0 pos prev rest).
Proof.
  destruct rest as [|y rest]; intros Hh.
  - rewrite (sub_nil p 1 (le_n 1) g). exact I.
  - cbn [no_head] in Hh. rewrite (sub_nonp p 1 (le_n 1) g) by exact Hh.
    cbn [no_head]. now rewrite <- p_is_c.
Qed.

(** After [re.sub] has padded the odd runs of [c], every run is even. *)
Lemma pad_runs_even n :
  forall s, length s <= n -> forall pos prev,
    even_runs c 0
      (sub_loop (plus (Chr p)) (fun m => g (m_text m) (Nat.eqb (m_start m) 0)
                                            (m_prev m) (m_next m)) 0 pos prev s) = true.
Proof.
  induction n as [|n IH]; intros s Hlen pos prev.
  - destruct s; [|simpl in Hlen; lia]. now rewrite (sub_nil p 1 (le_n 1) g).
  - destruct s as [|x t]; [now rewrite (sub_nil p 1 (le_n 1) g)|].
    destruct (p x) eqn:Ex.
    + destruct (run_split p (x :: t)) as (Hs & Hall & Hh & Hl).
      set (run := firstn (run_len p (x :: t)) (x :: t)) in *.
      set (rest := skipn (run_len p (x :: t)) (x :: t)) in *.
      assert (Hk : 1 <= length run) by (rewrite Hl; cbn [run_len]; rewrite Ex; lia).
      assert (Hne : run <> []) by (intros E; rewrite E in Hk; simpl in Hk; lia).
      rewrite Hs. rewrite (sub_run p 1 (le_n 1) g) by assumption.
      assert (Hrest : length rest <= n).
      { apply (f_equal (@length _)) in Hs. rewrite length_app in Hs. simpl in Hlen, Hs. lia. }
      pose proof (all_one_char c run Hall) as Hrun.
      set (out := sub_loop _ _ 0 _ _ rest).
      assert (Hout : even_runs c 0 out = true) by (apply IH; exact Hrest).
      assert (Hoh : no_head (fun y => chr_eqb y c) out) by (apply pad_head; exact Hh).
      unfold g. destruct (length run mod 2 =? 0) eqn:Em.
      * rewrite Hrun, even_runs_chars, (even_runs_no_head _ _ _ Hoh), Hout, andb_true_r.
        apply Nat.eqb_eq in Em. cbn [Nat.add]. rewrite Nat.even_spec.
        exists (length run / 2).
        pose proof (Nat.div_mod_eq (length run) 2). lia.
      * apply Nat.eqb_neq in Em.
        replace (run ++ [c]) with (chars c (S (length run))).
        2:{ rewrite Hrun at 2. unfold chars. change [c] with (repeat c 1).
            rewrite <- repeat_app. f_equal. lia. }
        rewrite even_runs_chars, (even_runs_no_head _ _ _ Hoh), Hout, andb_true_r.
        cbn [Nat.add]. rewrite Nat.even_spec. exists (S (length run / 2)).
        pose proof (Nat.div_mod_eq (length run) 2).
        pose proof (Nat.mod_upper_bound (length run) 2). lia.
    + rewrite (sub_nonp p 1 (le_n 1) g) by exact Ex. cbn [even_runs].
      rewrite <- p_is_c, Ex. cbn [Nat.even andb]. apply IH. simpl in Hlen. lia.
Qed.

(** Padding the runs of [c] leaves the runs of another character alone. *)
Lemma pad_runs_other d n :
  chr_eqb d c = false ->
  forall s, length s <= n -> forall k pos prev,
    even_runs d k
      (sub_loop (plus (Chr p)) (fun m => g (m_text m) (Nat.eqb (m_start m) 0)
                                            (m_prev m) (m_next m)) 0 pos prev s) =
    even_runs d k s.
Proof.
  intros Hd. induction n as [|n IH]; intros s Hlen k pos prev.
  - destruct s; [|simpl in Hlen; lia]. now rewrite (sub_nil p 1 (le_n 1) g).
  - destruct s as [|x t]; [now rewrite (sub_nil p 1 (le_n 1) g)|].
    destruct (p x) eqn:Ex.
    + destruct (run_split p (x :: t)) as (Hs & Hall & Hh & Hl).
      set (run := firstn (run_len p (x :: t)) (x :: t)) in *.
      set (rest := skipn (run_len p (x :: t)) (x :: t)) in *.
      assert (Hk : 1 <= length run) by (rewrite Hl; cbn [run_len]; rewrite Ex; lia).
      assert (Hne : run <> []) by (intros E; rewrite E in Hk; simpl in Hk; lia).
      rewrite Hs. rewrite (sub_run p 1 (le_n 1) g) by assumption.
      assert (Hrest : length rest <= n).
      { apply (f_equal (@length _)) in Hs. rewrite length_app in Hs. simpl in Hlen, Hs. lia. }
      pose proof (all_one_char c run Hall) as Hrun.
      assert (Hfree : forall j, mem d (chars c j) = false).
      { intros j. induction j as [|j IHj]; [reflexivity|].
        unfold mem in *. cbn [chars repeat existsb]. rewrite Hd. exact IHj. }
      assert (Himg : g run (pos =? 0) prev (hd_error rest) <> [] /\
                     mem d (g run (pos =? 0) prev (hd_error rest)) = false).
      { unfold g. destruct (length run mod 2 =? 0).
        - split; [exact Hne|]. rewrite Hrun. apply Hfree.
        - split; [destruct run; discriminate|].
          replace (run ++ [c]) with (chars c (S (length run))); [apply Hfree|].
          rewrite Hrun at 2. unfold chars. change [c] with (repeat c 1).
          rewrite <- repeat_app. f_equal. lia. }
      destruct Himg as [Hi1 Hi2].
      rewrite (even_runs_block d k _ _ Hi1 Hi2).
      rewrite (even_runs_block d k run rest Hne) by (rewrite Hrun; apply Hfree).
      f_equal. apply IH. exact Hrest.
    + rewrite (sub_nonp p 1 (le_n 1) g) by exact Ex. cbn [even_runs].
      destruct (chr_eqb x d); [|f_equal]; apply IH; simpl in Hlen; lia.
Qed.
End PadRuns.

Lemma match_here_lits l pos prev s :
  match_here (lits l) pos prev s =
  if starts_with l s
  then Some (RMatch (firstn (length l) s) [] pos prev (hd_error (skipn (length l) s)),
             length l)
  else None.
Proof.
  unfold match_here. rewrite mt_lits. cbn [ms_init ms_rest].
  destruct (starts_with l s) eqn:E; [|reflexivity].
  apply starts_with_length in E. unfold accept.
  rewrite ms_skip_len, ms_skip_rest, ms_skip_caps by exact E. reflexivity.
Qed.

(** Deleting a [b] that follows an [a] neither joins nor cuts the runs of
    a third character. *)
Lemma drop_after_keeps_runs a b c n :
  chr_eqb a c = false -> chr_eqb b c = false ->
  forall s, length s <= n -> forall k pos prev,
    even_runs c k (sub_loop (lits [a; b]) (fun _ => [a]) 0 pos prev s) = even_runs c k s.
Proof.
  intros Ha Hb. induction n as [|n IH]; intros s Hlen k pos prev.
  - destruct s; [reflexivity|simpl in Hlen; lia].
  - destruct s as [|x t]; [reflexivity|].
    cbn [sub_loop]. rewrite match_here_lits.
    destruct (starts_with [a; b] (x :: t)) eqn:E.
    + destruct t as [|y t]; [cbn in E; now rewrite andb_false_r in E|].
      cbn [starts_with] in E. rewrite andb_true_r in E.
      apply andb_true_iff in E as [E1 E2].
      destruct (chr_eqb_spec a x) as [<-|]; [|discriminate].
      destruct (chr_eqb_spec b y) as [<-|]; [|discriminate].
      cbn [length sub_loop app even_runs]. rewrite Ha, Hb.
      cbn [Nat.even andb]. f_equal. apply IH. simpl in Hlen. lia.
    + cbn [even_runs]. destruct (chr_eqb x c); [|f_equal]; apply IH; simpl in Hlen; lia.
Qed.

(** X13: in the text that [_convert_novel_rule] returns, every maximal run
    of the ellipsis … and every maximal run of the two-dot leader ‥ has an
    even length. *)
Theorem novel_rule_pairs_ellipses (text : str) :
  even_runs (ch "…") 0 (_convert_novel_rule text) = true /\
  even_runs (ch "‥") 0 (_convert_novel_rule text) = true.
Proof.
  unfold _convert_novel_rule. cbv zeta.
  set (t1 := re_sub (seqs [lit (ch "。"); Grp 1 (cls (u "」』）"))]) _ text).
  set (t2 := re_sub (plus (cls (u "…"))) _ t1).
  set (t3 := re_sub (plus (cls (u "‥"))) _ t2).
  assert (H4 : forall c, chr_eqb (ch "。") c = false -> chr_eqb (ch "　") c = false ->
                 even_runs c 0 (re_sub (lits (u "。　")) (fun _ => u "。") t3) =
                 even_runs c 0 t3).
  { intros c Ha Hb.
    exact (drop_after_keeps_runs (ch "。") (ch "　") c (length t3) Ha Hb t3 (le_n _) 0 0 None). }
  assert (H2 : even_runs (ch "…") 0 t2 = true).
  { exact (pad_runs_even (ch "…") (length t1) t1 (le_n _) 0 None). }
  assert (H3 : even_runs (ch "‥") 0 t3 = true).
  { exact (pad_runs_even (ch "‥") (length t2) t2 (le_n _) 0 None). }
  assert (H3' : even_runs (ch "…") 0 t3 = even_runs (ch "…") 0 t2).
  { exact (pad_runs_other (ch "‥") (ch "…") (length t2) eq_refl t2 (le_n _) 0 0 None). }
  split.
  - rewrite H4 by reflexivity. now rewrite H3'.
  - rewrite H4 by reflexivity. exact H3.
Qed.

(** ** A run of a class followed by one character outside it *)

Section RunThenOne.
Variable p : char -> bool.
Variable F : str -> str -> str.

Let R : regex := seqs [Grp 1 (plus (Chr p)); Grp 2 (Chr (fun c => negb (p c)))].
Let repl : rmatch -> str := fun m => F (m_group m 1) (m_group m 2).

(** Behind a greedy run of [p], a continuation that refuses to start on a
    [p]-character is tried at the end of the whole run only. *)
Lemma rep_class_blocked (k : cont) fuel lo st :
  (forall st' c t, ms_rest st' = c :: t -> p c = true -> k st' = None) ->
  length (ms_rest st) < fuel ->
  rep_loop (mt (Chr p)) true lo None fuel st k =
  if lo <=? run_len p (ms_rest st)
  then k (ms_skip st (run_len p (ms_rest st))) else None.
Proof.
  intros Hk. revert lo st; induction fuel as [|fuel IH]; intros lo [pv rest len caps] Hf;
    simpl in Hf; [lia|].
  destruct rest as [|c t].
  - destruct lo; reflexivity.
  - cbn [rep_loop hi_open hi_pred mt ms_rest run_len].
    destruct (p c) eqn:Hp.
    + cbn [ms_advance ms_rest length].
      assert (Hlt : (length t <? S (length t)) = true) by (apply Nat.ltb_lt; lia).
      rewrite Hlt, IH by (simpl in *; lia).
      cbn [ms_rest ms_skip ms_advance ms_len ms_caps].
      destruct lo as [|lo]; cbn [pred Nat.leb]; [|reflexivity].
      rewrite (Hk (MState pv (c :: t) len caps) c t eq_refl Hp).
      destruct (k _); reflexivity.
    + destruct lo; reflexivity.
Qed.

Lemma match_here_run_one pos prev s :
  match_here R pos prev s =
  if 1 <=? run_len p s then
    match skipn (run_len p s) s with
    | x :: r =>
        Some (RMatch (firstn (S (run_len p s)) s)
                     [(2, [x]); (1, firstn (run_len p s) s)] pos prev (hd_error r),
              S (run_len p s))
    | [] => None
    end
  else None.
Proof.
  unfold match_here, R, plus. cbn [seqs mt].
  rewrite rep_class_blocked.
  - cbn [ms_init ms_rest]. destruct (1 <=? run_len p s) eqn:E1; [|reflexivity].
    pose proof (run_len_le p s) as Hle.
    destruct (run_split p s) as (Hs & Hall & Hh & Hl).
    unfold ms_capture, ms_advance, accept. cbn [ms_rest ms_len ms_caps ms_prev].
    rewrite ms_skip_rest, ms_skip_len, ms_skip_caps by exact Hle.
    cbn [ms_init ms_rest ms_len ms_caps Nat.add].
    destruct (skipn (run_len p s) s) as [|x r] eqn:Es; [reflexivity|].
    cbn [no_head] in Hh. rewrite Hh. cbn [negb ms_len ms_rest ms_caps ms_prev].
    rewrite Nat.sub_0_r. replace (S (run_len p s) - run_len p s) with 1 by lia.
    reflexivity.
  - intros st' c t E Hc. unfold ms_capture. cbn [mt ms_rest]. rewrite E, Hc. reflexivity.
  - cbn [ms_init ms_rest]. lia.
Qed.

Lemma sub_one_nil skip pos prev : sub_loop R repl skip pos prev [] = [].
Proof. destruct skip; [|reflexivity]. cbn [sub_loop]. now rewrite match_here_run_one. Qed.

(** The scan does not depend on where it is in the text. *)
Lemma sub_one_indep s : forall skip pos prev pos' prev',
  sub_loop R repl skip pos prev s = sub_loop R repl skip pos' prev' s.
Proof.
  induction s as [|c t IH]; intros skip pos prev pos' prev'.
  - now rewrite !sub_one_nil.
  - cbn [sub_loop]. destruct skip as [|k]; [|apply IH].
    rewrite !match_here_run_one.
    destruct (1 <=? run_len p (c :: t)); [|f_equal; apply IH].
    destruct (skipn (run_len p (c :: t)) (c :: t)); [f_equal; apply IH|].
    unfold repl, m_group. cbn [m_caps]. f_equal. apply IH.
Qed.

Lemma sub_one_app pre x : forall skip pos prev,
  no_last p pre -> skip <= length pre ->
  sub_loop R repl skip pos prev (pre ++ x) =
  sub_loop R repl skip pos prev pre ++ sub_loop R repl 0 0 None x.
Proof.
  induction pre as [|c t IH]; intros skip pos prev Hl Hs.
  - simpl in Hs. replace skip with 0 by lia. rewrite sub_one_nil. apply sub_one_indep.
  - assert (Ht : no_last p t).
    { destruct t; [exact I|]. apply (no_last_tail _ _ _ Hl). congruence. }
    cbn [app sub_loop]. destruct skip as [|k].
    + rewrite !match_here_run_one.
      change (c :: t ++ x) with ((c :: t) ++ x).
      destruct (run_len_closed p 1 (le_n 1) (c :: t) x) as [E L]; [congruence|exact Hl|].
      rewrite E. destruct (1 <=? run_len p (c :: t)) eqn:E1.
      * rewrite skipn_app, firstn_app.
        replace (run_len p (c :: t) - length (c :: t)) with 0 by lia.
        replace (S (run_len p (c :: t)) - length (c :: t)) with 0 by lia.
        rewrite skipn_O, firstn_O, app_nil_r.
        destruct (skipn (run_len p (c :: t)) (c :: t)) as [|y r] eqn:Es.
        { apply (f_equal (@length _)) in Es. rewrite length_skipn in Es.
          simpl length in Es at 2. lia. }
        cbn [app]. unfold repl at 1 3, m_group. cbn [m_caps].
        change (c :: t ++ x) with ((c :: t) ++ x). rewrite firstn_app.
        replace (run_len p (c :: t) - length (c :: t)) with 0 by lia.
        rewrite firstn_O, app_nil_r, <- app_assoc. f_equal.
        apply IH; [exact Ht|]. cbn [length] in L. lia.
      * cbn [app]. f_equal. apply IH; [exact Ht|lia].
    + apply IH; [exact Ht|]. simpl in Hs. lia.
Qed.

(** A run that closes the text is copied. *)
Lemma sub_one_all run : forallb p run = true -> sub_loop R repl 0 0 None run = run.
Proof.
  induction run as [|c t IH]; intros Hall; [apply sub_one_nil|].
  cbn [sub_loop]. rewrite match_here_run_one.
  pose proof (run_len_all p (c :: t) [] Hall I) as E. rewrite app_nil_r in E.
  rewrite E, skipn_all.
  destruct (1 <=? length (c :: t)); (f_equal; rewrite (sub_one_indep t 0 1 (Some c) 0 None);
    apply IH; simpl in Hall; now apply andb_true_iff in Hall).
Qed.

(** One run and the character behind it, in their context. *)
Lemma re_sub_run_one pre run x post :
  no_last p pre -> run <> [] -> forallb p run = true -> p x = false ->
  re_sub R repl (pre ++ run ++ x :: post) =
  re_sub R repl pre ++ F run [x] ++ re_sub R repl post.
Proof.
  intros Hl Hne Hall Hx. unfold re_sub.
  rewrite sub_one_app by (assumption || lia). f_equal.
  destruct run as [|c run]; [congruence|].
  cbn [app sub_loop]. rewrite match_here_run_one.
  change (c :: run ++ x :: post) with ((c :: run) ++ x :: post).
  rewrite (run_len_all p (c :: run) (x :: post) Hall Hx).
  change (1 <=? length (c :: run)) with true. cbv iota.
  rewrite skipn_app, Nat.sub_diag, skipn_all, skipn_O.
  change ([] ++ x :: post) with (x :: post). cbv beta iota.
  unfold repl at 1, m_group. cbn [m_caps cap_lookup Nat.eqb].
  rewrite firstn_app, Nat.sub_diag, firstn_all, firstn_O, app_nil_r. f_equal.
  pose proof (sub_loop_skip R repl (run ++ [x]) post 1 (Some c)) as E.
  rewrite length_app, <- app_assoc in E. cbn [length app] in E.
  rewrite Nat.add_1_r in E. change (length (c :: run)) with (S (length run)).
  rewrite E. apply sub_one_indep.
Qed.

Lemma re_sub_run_end pre run :
  no_last p pre -> forallb p run = true ->
  re_sub R repl (pre ++ run) = re_sub R repl pre ++ run.
Proof.
  intros Hl Hall. unfold re_sub.
  rewrite sub_one_app by (assumption || lia). f_equal. now apply sub_one_all.
Qed.
End RunThenOne.

Lemma existsb_singletons x l : existsb (str_eqb [x]) (map (fun k => [k]) l) = mem x l.
Proof.
  unfold mem. induction l as [|k l IH]; [reflexivity|].
  cbn [map existsb].
  change (str_eqb [x] [k]) with (chr_eqb x k && true). now rewrite andb_true_r, IH.
Qed.

(** X14: [_insert_separate_space] looks at each maximal run of [!?！？]
    and at the character behind it.  A space, a full-width space, 、 or 。
    behind the run becomes one full-width space; a closing character stays
    as it is; before any other character a full-width space is inserted.
    A run that ends the text is left alone. *)
Theorem insert_separate_space_runs (pre run post : str) (x : char) :
  (no_last is_exclamation pre -> run <> [] ->
   forallb is_exclamation run = true -> is_exclamation x = false ->
   _insert_separate_space (pre ++ run ++ x :: post) =
   _insert_separate_space pre ++ run ++
   (if mem x (u " 　、。") then u "　"
    else if mem x close_chars then [x] else u "　" ++ [x]) ++
   _insert_separate_space post) /\
  (no_last is_exclamation pre -> forallb is_exclamation run = true ->
   _insert_separate_space (pre ++ run) = _insert_separate_space pre ++ run).
Proof.
  pose (F := fun (m1 m2 : str) =>
    let m2 := if existsb (str_eqb m2) [u " "; u "　"; u "、"; u "。"]
              then u "　" else m2 in
    if negb (existsb (fun c => mem c close_chars) m2) then m1 ++ u "　" ++ m2
    else m1 ++ m2).
  assert (HE : forall s, _insert_separate_space s =
     re_sub (seqs [Grp 1 (plus (Chr is_exclamation));
                   Grp 2 (Chr (fun c => negb (is_exclamation c)))])
            (fun m => F (m_group m 1) (m_group m 2)) s).
  { intros s. unfold _insert_separate_space, F, is_exclamation, close_chars, cls, ncls.
    cbv beta zeta. reflexivity. }
  split.
  - intros Hl Hne Hall Hx. rewrite !HE.
    rewrite (re_sub_run_one is_exclamation F pre run x post Hl Hne Hall Hx).
    f_equal. rewrite app_assoc. f_equal. unfold F. cbv zeta.
    change [u " "; u "　"; u "、"; u "。"] with (map (fun k => [k]) (u " 　、。")).
    rewrite existsb_singletons.
    destruct (mem x (u " 　、。")).
    + assert (Hc : existsb (fun c => mem c close_chars) (u "　") = true)
        by (vm_compute; reflexivity).
      rewrite Hc. reflexivity.
    + cbn [existsb]. rewrite orb_false_r.
      destruct (mem x close_chars); reflexivity.
  - intros Hl Hall. rewrite !HE.
    rewrite (re_sub_run_end is_exclamation F pre run Hl Hall). reflexivity.
Qed.

(** X14 on え！？あか: a full-width space is inserted behind the run. *)
Lemma insert_separate_space_runs_witness :
  no_last is_exclamation (u "え") /\
  forallb is_exclamation (u "！？") = true /\
  is_exclamation (ch "あ") = false /\
  _insert_separate_space (u "え" ++ u "！？" ++ ch "あ" :: u "か") =
  _insert_separate_space (u "え") ++ u "！？" ++
  (if mem (ch "あ") (u " 　、。") then u "　"
   else if mem (ch "あ") close_chars then [ch "あ"] else u "　" ++ [ch "あ"]) ++
  _insert_separate_space (u "か").
Proof.
  split; [vm_compute; reflexivity|].
  split; [vm_compute; reflexivity|].
  split; [vm_compute; reflexivity|].
  apply (proj1 (insert_separate_space_runs (u "え") (u "！？") (u "か") (ch "あ"))).
  - vm_compute; reflexivity.
  - vm_compute; discriminate.
  - vm_compute; reflexivity.
  - vm_compute; reflexivity.
Defined.

(** ** A substitution anchored at the start of every line *)

Section LineStart.
Variable sp : char -> bool.
Variables opening gaiji mark : str.
Hypothesis opening_sp : forall c, sp c = true -> mem c opening = false.
Hypothesis opening_nl : mem nl opening = false.
Hypothesis gaiji_sp : forall c t, sp c = true -> starts_with gaiji (c :: t) = false.
Hypothesis gaiji_nl : nl_free gaiji = true.
Hypothesis gaiji_ne : gaiji <> [].
Hypothesis sp_nl : sp nl = false.

Let R : regex := seqs [Bol; star (Chr sp); Grp 1 (Alt (cls opening) (lits gaiji))].
Let repl : rmatch -> str := fun m => mark ++ m_group m 1.

Lemma mh_inside pos c s : chr_eqb c nl = false -> match_here R pos (Some c) s = None.
Proof. intros Hc. unfold match_here, R. cbn [seqs mt ms_init ms_prev]. now rewrite Hc. Qed.

Lemma starts_with_nil_false : starts_with gaiji [] = false.
Proof. destruct gaiji; [congruence|reflexivity]. Qed.

Lemma mh_start pos prev s :
  line_start prev = true ->
  match_here R pos prev s =
  match skipn (run_len sp s) s with
  | b :: r =>
      if mem b opening then
        Some (RMatch (firstn (S (run_len sp s)) s) [(1, [b])] pos prev (hd_error r),
              S (run_len sp s))
      else if starts_with gaiji (b :: r) then
        Some (RMatch (firstn (run_len sp s + length gaiji) s) [(1, gaiji)] pos prev
                     (hd_error (skipn (length gaiji) (b :: r))),
              run_len sp s + length gaiji)
      else None
  | [] => None
  end.
Proof.
  intros Hp. unfold match_here, R, star. cbn [seqs mt ms_init ms_prev].
  assert (E : forall (X : option mstate), match prev with
                     | None => X
                     | Some c => if chr_eqb c nl then X else None
                     end = X).
  { intros X. destruct prev as [c|]; [|reflexivity]. cbn [line_start] in Hp. now rewrite Hp. }
  rewrite E. clear E.
  rewrite (rep_class_blocked sp).
  - unfold ms_init. cbn [Nat.leb ms_rest].
    pose proof (run_len_le sp s) as Hle.
    set (k := run_len sp s) in *.
    unfold ms_capture, accept, cls. cbn [mt].
    rewrite !mt_lits.
    rewrite ms_skip_rest, ms_skip_len, ms_skip_caps by exact Hle.
    cbn [ms_rest ms_len ms_caps Nat.add].
    destruct (skipn k s) as [|b r] eqn:Es.
    + rewrite starts_with_nil_false. reflexivity.
    + destruct (mem b opening) eqn:Eb.
      * unfold ms_advance. cbn [ms_len ms_rest ms_caps ms_prev].
        rewrite ?ms_skip_len, ?ms_skip_caps by exact Hle. cbn [ms_len ms_caps Nat.add].
        replace (S k - k) with 1 by lia. reflexivity.
      * destruct (starts_with gaiji (b :: r)) eqn:Eg; [|reflexivity].
        pose proof (starts_with_length _ _ Eg) as Hlen.
        assert (Hlen2 : length gaiji <= length (ms_rest (ms_skip (MState prev s 0 []) k))).
        { rewrite ms_skip_rest. cbn [ms_rest]. rewrite Es. exact Hlen. }
        rewrite !ms_skip_len, !ms_skip_rest, !ms_skip_caps by (exact Hle || exact Hlen2).
        cbn [ms_len ms_rest ms_caps Nat.add]. rewrite Es.
        replace (k + length gaiji - k) with (length gaiji) by lia.
        pose proof (starts_with_split _ _ Eg) as Hsplit.
        rewrite Hsplit at 1. rewrite firstn_app, Nat.sub_diag, firstn_all, firstn_O, app_nil_r.
        reflexivity.
  - intros st' c t Hr Hc. unfold cls. cbn [mt]. rewrite mt_lits, Hr.
    rewrite (opening_sp c Hc), (gaiji_sp c t Hc). reflexivity.
  - cbn [ms_rest]. lia.
Qed.

Lemma mh_not_start pos prev s : line_start prev = false -> match_here R pos prev s = None.
Proof.
  destruct prev as [c|]; [|discriminate]. cbn [line_start]. apply mh_inside.
Qed.

Lemma nl_free_cons x l :
  nl_free (x :: l) = true -> chr_eqb x nl = false /\ nl_free l = true.
Proof.
  unfold nl_free. cbn [forallb]. intros [Hx Hl]%andb_true_iff.
  apply negb_true_iff in Hx. now rewrite chr_eqb_sym.
Qed.

(** Inside a line nothing matches: the scan copies the line. *)
Lemma sub_in_line l : forall skip pos prev rest,
  nl_free l = true -> skip <= length l -> (skip = 0 -> line_start prev = false) ->
  sub_loop R repl skip pos prev (l ++ rest) =
  skipn skip l ++ sub_loop R repl 0 (pos + length l) (prev_after prev l) rest.
Proof.
  induction l as [|x l IH]; intros skip pos prev rest Hl Hs Hp.
  - simpl in Hs. replace skip with 0 by lia. cbn. now rewrite Nat.add_0_r.
  - apply nl_free_cons in Hl as [Hx Hl].
    cbn [app sub_loop prev_after length].
    replace (pos + S (length l)) with (S pos + length l) by lia.
    destruct skip as [|n].
    + rewrite mh_not_start by auto. cbn [skipn]. f_equal.
      rewrite IH; [reflexivity|exact Hl|lia|intros _; exact Hx].
    + cbn [skipn]. apply IH; [exact Hl|simpl in Hs; lia|intros _; exact Hx].
Qed.

Lemma gaiji_head c t : starts_with gaiji (c :: t) = true -> chr_eqb c nl = false.
Proof.
  destruct gaiji as [|g gs]; [congruence|]. cbn [starts_with].
  intros [Hg _]%andb_true_iff. destruct (chr_eqb_spec g c) as [E|]; [|discriminate].
  subst c. now apply nl_free_cons in gaiji_nl.
Qed.

Lemma gaiji_in_line a rest :
  (rest = [] \/ exists more, rest = nl :: more) ->
  starts_with gaiji (a ++ rest) = starts_with gaiji a.
Proof.
  intros Hrest. clear gaiji_sp gaiji_ne. revert a.
  induction gaiji as [|x g IH]; intros a; [reflexivity|].
  apply nl_free_cons in gaiji_nl as [Hx Hg].
  destruct a as [|y a].
  - cbn [app]. destruct Hrest as [->|(more & ->)]; [reflexivity|].
    cbn [starts_with]. now rewrite Hx.
  - cbn [app starts_with]. now rewrite (IH Hg).
Qed.

Lemma sub_at_nl pos prev more :
  sub_loop R repl 0 pos prev (nl :: more) = nl :: sub_loop R repl 0 (S pos) (Some nl) more.
Proof.
  cbn [sub_loop]. destruct (line_start prev) eqn:Hp.
  - rewrite mh_start by exact Hp. cbn [run_len]. rewrite sp_nl. cbn [skipn].
    rewrite opening_nl.
    destruct (starts_with gaiji (nl :: more)) eqn:Eg; [|reflexivity].
    apply gaiji_head in Eg. unfold chr_eqb in Eg. now rewrite N.eqb_refl in Eg.
  - now rewrite mh_not_start.
Qed.

Lemma sub_at_end pos prev : sub_loop R repl 0 pos prev [] = [].
Proof.
  cbn [sub_loop]. destruct (line_start prev) eqn:Hp.
  - now rewrite mh_start.
  - now rewrite mh_not_start.
Qed.

Lemma lstrip_skipn l : lstrip sp l = skipn (run_len sp l) l.
Proof. induction l as [|c l IH]; [reflexivity|]. simpl. destruct (sp c); [exact IH|reflexivity]. Qed.

(** A line at the start of which the scan stands. *)
Lemma sub_line l rest pos prev :
  line_start prev = true -> nl_free l = true ->
  (rest = [] \/ exists more, rest = nl :: more) ->
  sub_loop R repl 0 pos prev (l ++ rest) =
  mark_line sp opening gaiji mark l ++
  sub_loop R repl 0 (pos + length l) (prev_after prev l) rest.
Proof.
  intros Hp Hl Hrest.
  assert (Hh : no_head sp rest).
  { destruct Hrest as [->|(more & ->)]; [exact I|exact sp_nl]. }
  destruct l as [|c t].
  - cbn [app length prev_after]. rewrite Nat.add_0_r.
    unfold mark_line. cbn [lstrip].
    rewrite starts_with_nil_false. reflexivity.
  - pose proof (run_len_le sp (c :: t)) as Hle.
    assert (Hsk : skipn (run_len sp (c :: t)) ((c :: t) ++ rest) =
                  lstrip sp (c :: t) ++ rest).
    { rewrite skipn_app, lstrip_skipn.
      replace (run_len sp (c :: t) - length (c :: t)) with 0 by lia. reflexivity. }
    set (l := c :: t) in *. set (k := run_len sp l) in *.
    apply nl_free_cons in Hl as Hct. destruct Hct as [Hc Ht].
    assert (Hcopy : c :: sub_loop R repl 0 (S pos) (Some c) (t ++ rest) =
                    l ++ sub_loop R repl 0 (pos + length l) (prev_after prev l) rest).
    { rewrite (sub_in_line t 0 (S pos) (Some c) rest Ht) by (lia || auto).
      unfold l. cbn [app length prev_after skipn]. do 3 f_equal. lia. }
    assert (Hmatch : forall len g1, 1 <= len -> len <= length l ->
              g1 ++ skipn len l = lstrip sp l ->
              (mark ++ g1) ++ sub_loop R repl (len - 1) (S pos) (Some c) (t ++ rest) =
              (mark ++ lstrip sp l) ++
              sub_loop R repl 0 (pos + length l) (prev_after prev l) rest).
    { intros len g1 H1 H2 Hg.
      rewrite (sub_in_line t (len - 1) (S pos) (Some c) rest Ht)
        by (unfold l in H2; cbn [length] in H2; lia || auto).
      rewrite <- Hg. replace (skipn len l) with (skipn (len - 1) t).
      2:{ unfold l. destruct len; [lia|]. replace (S len - 1) with len by lia. reflexivity. }
      rewrite <- !app_assoc. unfold l. cbn [length prev_after]. do 4 f_equal. lia. }
    assert (Hstep : sub_loop R repl 0 pos prev (l ++ rest) =
              match match_here R pos prev (l ++ rest) with
              | Some (m, len) =>
                  repl m ++
                  match len with
                  | O => c :: sub_loop R repl 0 (S pos) (Some c) (t ++ rest)
                  | S n => sub_loop R repl n (S pos) (Some c) (t ++ rest)
                  end
              | None => c :: sub_loop R repl 0 (S pos) (Some c) (t ++ rest)
              end) by reflexivity.
    rewrite Hstep. clear Hstep. rewrite mh_start by exact Hp.
    rewrite (run_len_app_no_head sp l rest Hh). fold k. rewrite Hsk.
    unfold mark_line. cbv zeta.
    destruct (lstrip sp l) as [|b r] eqn:Eb.
    + cbn [app]. rewrite starts_with_nil_false.
      destruct Hrest as [->|(more & ->)]; [exact Hcopy|].
      rewrite opening_nl.
      destruct (starts_with gaiji (nl :: more)) eqn:Eg; [|exact Hcopy].
      apply gaiji_head in Eg. unfold chr_eqb in Eg. now rewrite N.eqb_refl in Eg.
    + assert (Hk : k < length l).
      { rewrite lstrip_skipn in Eb. fold k in Eb. apply (f_equal (@length _)) in Eb.
        rewrite length_skipn in Eb. cbn [length] in Eb. lia. }
      assert (Ek : skipn k l = b :: r).
      { rewrite <- Eb. unfold k. symmetry. apply lstrip_skipn. }
      cbn [app].
      change (b :: r ++ rest) with ((b :: r) ++ rest).
      rewrite (gaiji_in_line (b :: r) rest Hrest).
      destruct (starts_with gaiji (b :: r)) eqn:Eg.
      * assert (Hlen : length gaiji <= length (b :: r)) by (now apply starts_with_length).
        assert (Hb : length (b :: r) = length l - k).
        { rewrite <- Ek. now rewrite length_skipn. }
        assert (Hg1 : 1 <= length gaiji).
        { destruct gaiji; [congruence|simpl; lia]. }
        destruct (mem b opening) eqn:Em.
        -- cbn [app]. unfold repl at 1, m_group. cbn [m_caps cap_lookup Nat.eqb].
           replace k with (S k - 1) at 1 by lia.
           apply Hmatch; [lia|lia|].
           change (S k) with (1 + k). rewrite <- skipn_skipn, Ek. reflexivity.
        -- destruct (k + length gaiji) as [|n] eqn:En; [lia|].
           unfold repl at 1, m_group. cbn [m_caps cap_lookup Nat.eqb].
           replace n with (S n - 1) at 1 by lia. rewrite <- En.
           apply Hmatch; [lia|lia|].
           rewrite Nat.add_comm, <- skipn_skipn, Ek.
           symmetry. now apply starts_with_split.
      * destruct (mem b opening) eqn:Em; [|exact Hcopy].
        cbn [app]. unfold repl at 1, m_group. cbn [m_caps cap_lookup Nat.eqb].
        replace k with (S k - 1) at 1 by lia.
        apply Hmatch; [lia|lia|].
        change (S k) with (1 + k). rewrite <- skipn_skipn, Ek. reflexivity.
Qed.

(** The substitution works line by line. *)
Lemma sub_lines ls : forall pos prev,
  ls <> [] -> forallb nl_free ls = true -> line_start prev = true ->
  sub_loop R repl 0 pos prev (join [nl] ls) =
  join [nl] (map (mark_line sp opening gaiji mark) ls).
Proof.
  induction ls as [|l ls IH]; intros pos prev Hne Hls Hp; [congruence|].
  cbn [forallb] in Hls. apply andb_true_iff in Hls as [Hl Hls].
  cbn [map]. rewrite !join_cons. destruct ls as [|l2 ls].
  - cbn [join_tail map]. rewrite sub_line by (auto).
    now rewrite sub_at_end.
  - cbn [join_tail map]. rewrite sub_line by (eauto).
    rewrite sub_at_nl. do 2 f_equal. apply IH; [discriminate|exact Hls|reflexivity].
Qed.
End LineStart.

(** X15: [_half_indent_bracket] works line by line: in a line whose first
    character after its leading spaces, full-width spaces and tabs is an
    opening bracket, or which goes on there with ※［＃始め二重山括弧］, these
    leading characters are replaced by ［＃二分アキ］; every other line is
    kept as it is. *)
Theorem half_indent_bracket_lines (text : str) :
  _half_indent_bracket text = join [nl] (map half_indent_line (split_on nl text)).
Proof.
  unfold _half_indent_bracket, half_indent_line.
  rewrite <- (join_split text) at 1.
  apply (sub_lines is_sp (u "〔「『(（【〈《≪〝") (u "※［＃始め二重山括弧］") (u "［＃二分アキ］")).
  - apply mem_disjoint. vm_compute. reflexivity.
  - vm_compute. reflexivity.
  - apply starts_with_other. vm_compute. reflexivity.
  - vm_compute. reflexivity.
  - intros E; apply (f_equal (@length _)) in E; vm_compute in E; discriminate E.
  - vm_compute. reflexivity.
  - apply split_cons_nonempty.
  - apply split_nl_free.
  - reflexivity.
Qed.

(** ** Runs of ！ and ？ that the ！-run substitution leaves alone *)

Lemma bang_or_q_cases c : is_bang_or_q c = true -> c = ch "！" \/ c = ch "？".
Proof.
  unfold is_bang_or_q, mem. change (u "！？") with [ch "！"; ch "？"]. cbn [existsb].
  rewrite orb_false_r. intros [H|H]%orb_true_iff;
    destruct (chr_eqb_spec c (ch "！")), (chr_eqb_spec c (ch "？")); auto; discriminate.
Qed.

Lemma bang_image_nonempty run l r : run <> [] -> bang_image run l r <> [].
Proof.
  intros Hne. unfold bang_image. destruct (l || r); [exact Hne|].
  destruct (length run =? 3); [vm_compute; discriminate|].
  destruct (4 <=? length run) eqn:E4; [|exact Hne].
  apply Nat.leb_le in E4.
  assert (Hk : 1 <= (if length run mod 2 =? 1 then length run + 1 else length run) / 2).
  { destruct (length run mod 2 =? 1);
      apply Nat.div_le_lower_bound; lia. }
  destruct ((if length run mod 2 =? 1 then length run + 1 else length run) / 2) as [|k];
    [lia|].
  cbn [str_repeat]. vm_compute. discriminate.
Qed.

Section BangStage.
Let G1 : str -> bool -> option char -> option char -> str :=
  fun run _ pv nx => bang_image run (opt_is pv (ch "？")) (opt_is nx (ch "？")).
Let B1 : nat -> nat -> option char -> str -> str :=
  sub_loop (Rep true 1 None (Chr is_bang))
           (fun m => G1 (m_text m) (Nat.eqb (m_start m) 0) (m_prev m) (m_next m)).

Lemma bang_stage_eq s : tatechuyoko_bang s = B1 0 0 None s.
Proof. reflexivity. Qed.

(** A run of ！ and ？ that holds a ？, or that follows a ？, is copied. *)
Lemma bang_stage_mixed n : forall s post pos prev,
  length s <= n -> forallb is_bang_or_q s = true ->
  mem (ch "？") s = true \/ opt_is prev (ch "？") = true ->
  no_head is_bang post ->
  B1 0 pos prev (s ++ post) = s ++ B1 0 (pos + length s) (prev_after prev s) post.
Proof.
  induction n as [|n IH]; intros s post pos prev Hlen Hall Hq Hh.
  - destruct s; [|simpl in Hlen; lia]. cbn. now rewrite Nat.add_0_r.
  - destruct s as [|c t]; [cbn; now rewrite Nat.add_0_r|].
    cbn [forallb] in Hall. apply andb_true_iff in Hall as [Hc Ht].
    destruct (bang_or_q_cases c Hc) as [Ec|Ec]; subst c.
    + destruct (run_split is_bang (ch "！" :: t)) as (Hs & Hrun & Hrh & Hl).
      set (s := ch "！" :: t) in *.
      set (run := firstn (run_len is_bang s) s) in *.
      set (rest := skipn (run_len is_bang s) s) in *.
      assert (Hb : is_bang (ch "！") = true) by (vm_compute; reflexivity).
      assert (Hk : 1 <= length run) by (rewrite Hl; unfold s; cbn [run_len]; rewrite Hb; lia).
      assert (Hne : run <> []) by (intros E; rewrite E in Hk; simpl in Hk; lia).
      assert (Hrest_all : forallb is_bang_or_q rest = true).
      { assert (Hsall : forallb is_bang_or_q s = true) by (unfold s; cbn [forallb]; now rewrite Ht).
        rewrite Hs, forallb_app in Hsall. now apply andb_true_iff in Hsall. }
      assert (Hrest_len : length rest <= n).
      { apply (f_equal (@length _)) in Hs. rewrite length_app in Hs.
        unfold s in Hs at 1. cbn [length] in Hs. simpl in Hlen. lia. }
      assert (Hrun_noq : mem (ch "？") run = false).
      { apply mem_forallb. apply (forallb_weaken is_bang); [|exact Hrun].
        intros c Hc'. unfold is_bang in Hc'.
        destruct (chr_eqb_spec (ch "！") c) as [E|]; [|discriminate]. now subst c. }
      assert (Hhead : no_head is_bang (rest ++ post)).
      { destruct rest; [exact Hh|exact Hrh]. }
      rewrite Hs at 1. rewrite <- app_assoc. unfold B1.
      rewrite (sub_run is_bang 1 (le_n 1) G1 run (rest ++ post) pos prev Hne Hrun Hhead Hk).
      fold B1.
      assert (Himg : G1 run (pos =? 0) prev (hd_error (rest ++ post)) = run).
      { unfold G1, bang_image. destruct (opt_is prev (ch "？")) eqn:Ep; [reflexivity|].
        destruct Hq as [Hq|Hq]; [|congruence].
        assert (Hqs : mem (ch "？") (run ++ rest) = true) by (now rewrite <- Hs).
        rewrite mem_app, Hrun_noq in Hqs. cbn [orb] in Hqs.
        destruct rest as [|d rest']; [discriminate|].
        cbn [forallb] in Hrest_all. apply andb_true_iff in Hrest_all as [Hd _].
        cbn [no_head] in Hrh.
        destruct (bang_or_q_cases d Hd) as [Ed|Ed]; subst d; [discriminate Hrh|].
        reflexivity. }
      rewrite Himg.
      destruct rest as [|d rest'] eqn:Er.
      * rewrite app_nil_r in Hs. cbn [app]. rewrite Hs. reflexivity.
      * assert (Ed : d = ch "？").
        { cbn [forallb] in Hrest_all. apply andb_true_iff in Hrest_all as [Hd _].
          cbn [no_head] in Hrh.
          destruct (bang_or_q_cases d Hd) as [Ed|Ed]; subst d; [discriminate Hrh|reflexivity]. }
        rewrite (IH (d :: rest') post (pos + length run) (prev_after prev run) Hrest_len
                    Hrest_all); [|left; subst d; reflexivity|exact Hh].
        rewrite Hs. rewrite <- app_assoc, length_app, prev_after_app.
        do 3 f_equal. lia.
    + unfold B1. cbn [app].
      rewrite (sub_nonp is_bang 1 (le_n 1) G1) by reflexivity. fold B1.
      cbn [length prev_after]. f_equal.
      replace (pos + S (length t)) with (S pos + length t) by lia.
      apply IH; [simpl in Hlen; lia|exact Ht|right; reflexivity|exact Hh].
Qed.

Lemma bang_stage_last pre :
  no_last is_bang pre -> prev_after None (tatechuyoko_bang pre) = prev_after None pre.
Proof.
  intros Hl. destruct pre as [|c t]; [reflexivity|].
  destruct (sub_last is_bang 1 (le_n 1) G1 (fun _ => True)) with
    (s := c :: t) (skip := 0) (pos := 0) (prev := @None char) as (out & y & E & Hy).
  - intros run z pv nx Hne _. unfold G1.
    destruct (exists_last (bang_image_nonempty run (opt_is pv (ch "？"))
                             (opt_is nx (ch "？")) Hne)) as (out & y & E).
    exists out, y. split; [exact E|exact I].
  - simpl. lia.
  - rewrite bang_stage_eq. unfold B1. rewrite E, prev_after_app.
    destruct Hy as [Hy|[(x & Hx & Hpx) _]]; [rewrite Hy; reflexivity|].
    unfold no_last in Hl. rewrite Hx in Hl. congruence.
Qed.

Lemma bang_stage_head post :
  no_head is_bang post -> hd_error (tatechuyoko_bang post) = hd_error post.
Proof.
  intros Hh. destruct post as [|c t]; [reflexivity|].
  rewrite bang_stage_eq. unfold B1.
  now rewrite (sub_nonp is_bang 1 (le_n 1) G1) by exact Hh.
Qed.

Lemma bang_stage_run pre run post :
  no_last is_bang_or_q pre -> no_head is_bang_or_q post ->
  forallb is_bang_or_q run = true -> mem (ch "？") run = true ->
  tatechuyoko_bang (pre ++ run ++ post) =
  tatechuyoko_bang pre ++ run ++ tatechuyoko_bang post.
Proof.
  intros Hl Hh Hall Hq.
  assert (Hl' : no_last is_bang pre) by (apply (no_last_weaken _ _ _ bang_is_bang_or_q Hl)).
  assert (Hh' : no_head is_bang post) by (apply (no_head_weaken _ _ _ bang_is_bang_or_q Hh)).
  rewrite !bang_stage_eq. unfold B1.
  rewrite (sub_app_skip is_bang 1 (le_n 1) G1 pre (run ++ post) 0 0 None Hl') by (now left).
  f_equal. fold B1.
  rewrite (bang_stage_mixed (length run) run post _ _ (le_n _) Hall (or_introl Hq) Hh').
  f_equal. unfold B1. apply (sub_context is_bang 1 (le_n 1) G1). exact Hh'.
Qed.
End BangStage.

Lemma all_bang_chars run :
  forallb is_bang_or_q run = true -> mem (ch "？") run = false ->
  run = chars (ch "！") (length run).
Proof.
  induction run as [|c t IH]; [reflexivity|]. cbn [forallb length chars repeat].
  intros [Hc Ht]%andb_true_iff Hq. unfold mem in Hq. cbn [existsb] in Hq.
  apply orb_false_iff in Hq as [Hq1 Hq2].
  destruct (bang_or_q_cases c Hc) as [E|E]; subst c.
  - f_equal. exact (IH Ht Hq2).
  - vm_compute in Hq1. discriminate Hq1.
Qed.

Lemma no_head_hd (p : char -> bool) a b : hd_error a = hd_error b -> no_head p b -> no_head p a.
Proof. destruct a, b; cbn; intros E H; try discriminate; [exact I|]. now injection E as ->. Qed.

(** X16: the runs of ！ and ？ that the ！-run substitution of
    [_convert_tatechuyoko] leaves alone.  A maximal run of ！ and ？ that
    holds a ？, or that has at most two characters, is wrapped as
    tate-chu-yoko, with its marks in half width, when it has two characters
    or is ！！？ or ？！！; otherwise it is kept as it is.  The text before
    and after the run is converted independently. *)
Theorem tatechuyoko_mixed_runs (pre run post : str) :
  no_last is_bang_or_q pre -> no_head is_bang_or_q post ->
  forallb is_bang_or_q run = true ->
  (mem (ch "？") run = true \/ length run <= 2) /\ 1 <= length run ->
  _convert_tatechuyoko (pre ++ run ++ post) =
  _convert_tatechuyoko pre ++
  (if (length run =? 2) || str_eqb run (u "！！？") || str_eqb run (u "？！！")
   then tcy (translate (maketrans (u "！？") (u "!?")) run) else run) ++
  _convert_tatechuyoko post.
Proof.
  intros Hl Hh Hall [Hq Hlen].
  assert (Hne : run <> []) by (intros E; rewrite E in Hlen; simpl in Hlen; lia).
  assert (Hl1 : no_last is_bang pre) by (apply (no_last_weaken _ _ _ bang_is_bang_or_q Hl)).
  assert (Hh1 : no_head is_bang post) by (apply (no_head_weaken _ _ _ bang_is_bang_or_q Hh)).
  assert (H1 : tatechuyoko_bang (pre ++ run ++ post) =
               tatechuyoko_bang pre ++ run ++ tatechuyoko_bang post).
  { destruct (mem (ch "？") run) eqn:Em; [now apply bang_stage_run|].
    destruct Hq as [Hq|Hq]; [discriminate|].
    rewrite (all_bang_chars run Hall Em).
    rewrite tatechuyoko_bang_run by (assumption || lia).
    rewrite not_q_of_no_last, not_q_of_no_head by assumption.
    unfold bang_image. rewrite chars_length. cbn [orb].
    destruct (length run) as [|[|[|k]]]; try reflexivity; lia. }
  assert (Hl2 : no_last is_bang_or_q (tatechuyoko_bang pre)).
  { unfold no_last. rewrite (bang_stage_last pre Hl1). exact Hl. }
  assert (Hh2 : no_head is_bang_or_q (tatechuyoko_bang post)).
  { apply (no_head_hd _ _ post); [now apply bang_stage_head|exact Hh]. }
  unfold _convert_tatechuyoko. cbv zeta. rewrite H1.
  pose proof (ctx_sub_run is_bang_or_q 1 (le_n 1) (fun _ => false) mixed_image
                (tatechuyoko_bang pre) run (tatechuyoko_bang post) Hl2 Hne Hall Hh2) as E.
  etransitivity; [exact E|]. clear E. f_equal. f_equal.
  apply Nat.leb_le in Hlen. rewrite Hlen. unfold mixed_image.
  destruct (length run =? 2) eqn:E2; cbn [orb]; [reflexivity|].
  destruct (str_eqb_spec run (u "！！？")) as [Ea|_].
  - rewrite Ea. reflexivity.
  - destruct (str_eqb_spec run (u "？！！")) as [Eb|_].
    + rewrite Eb. reflexivity.
    + now rewrite andb_false_r.
Qed.

(** X16 on あ！？か: the two marks are wrapped together. *)
Lemma tatechuyoko_mixed_runs_witness :
  no_last is_bang_or_q (u "あ") /\ no_head is_bang_or_q (u "か") /\
  forallb is_bang_or_q (u "！？") = true /\
  _convert_tatechuyoko (u "あ" ++ u "！？" ++ u "か") =
  _convert_tatechuyoko (u "あ") ++
  (if (length (u "！？") =? 2) || str_eqb (u "！？") (u "！！？") ||
      str_eqb (u "！？") (u "？！！")
   then tcy (translate (maketrans (u "！？") (u "!?")) (u "！？")) else u "！？") ++
  _convert_tatechuyoko (u "か").
Proof.
  split; [vm_compute; reflexivity|]. split; [vm_compute; reflexivity|].
  split; [vm_compute; reflexivity|].
  apply tatechuyoko_mixed_runs.
  - vm_compute; reflexivity.
  - vm_compute; reflexivity.
  - vm_compute; reflexivity.
  - split; [left; vm_compute; reflexivity|vm_compute; lia].
Defined.

(** ** The first match of a pattern that begins with a fixed character *)

Lemma sub_copy_until r (repl : rmatch -> str) (p : char -> bool) :
  (forall pos prev c t, p c = false -> match_here r pos prev (c :: t) = None) ->
  forall pre rest pos prev,
    forallb (fun c => negb (p c)) pre = true ->
    sub_loop r repl 0 pos prev (pre ++ rest) =
    pre ++ sub_loop r repl 0 (pos + length pre) (prev_after prev pre) rest.
Proof.
  intros Hr. induction pre as [|c pre IH]; intros rest pos prev Hpre.
  - cbn. now rewrite Nat.add_0_r.
  - cbn [forallb] in Hpre. apply andb_true_iff in Hpre as [Hc Hpre].
    apply negb_true_iff in Hc.
    cbn [app sub_loop length prev_after]. rewrite (Hr pos prev c _ Hc).
    f_equal. rewrite IH by exact Hpre. do 2 f_equal. lia.
Qed.

Lemma mt_seq r1 r2 st k : mt (Seq r1 r2) st k = mt r1 st (fun st' => mt r2 st' k).
Proof. reflexivity. Qed.

Lemma mt_lit_hit c t st k : ms_rest st = c :: t -> mt (lit c) st k = k (ms_advance st c t).
Proof.
  intros E. unfold lit. cbn [mt]. rewrite E. unfold chr_eqb. now rewrite N.eqb_refl.
Qed.

Lemma mt_lit_miss c x t st k :
  ms_rest st = x :: t -> chr_eqb c x = false -> mt (lit c) st k = None.
Proof. intros E Hx. unfold lit. cbn [mt]. now rewrite E, Hx. Qed.

Lemma ms_skip_run pv run rest len caps :
  ms_skip (MState pv (run ++ rest) len caps) (length run) =
  MState (prev_after pv run) rest (len + length run) caps.
Proof.
  revert pv len. induction run as [|c run IH]; intros pv len.
  - cbn. now rewrite Nat.add_0_r.
  - cbn [length ms_skip app ms_rest prev_after]. unfold ms_advance. cbn [ms_len ms_caps].
    rewrite IH. f_equal. lia.
Qed.

(** A group that holds a greedy run of a class, before a continuation that
    cannot start on a character of the class: the group takes the whole
    run. *)
Lemma mt_group_run i (c : char -> bool) (k : cont) pv run rest len caps :
  1 <= length run -> forallb c run = true -> no_head c rest ->
  (forall st' x t, ms_rest st' = x :: t -> c x = true -> k st' = None) ->
  mt (Grp i (plus (Chr c))) (MState pv (run ++ rest) len caps) k =
  k (MState (prev_after pv run) rest (len + length run) ((i, run) :: caps)).
Proof.
  intros H1 Hall Hh Hk. unfold plus.
  change (mt (Grp i (Rep true 1 None (Chr c))) (MState pv (run ++ rest) len caps) k)
    with (rep_loop (mt (Chr c)) true 1 None
            (S (length (ms_rest (MState pv (run ++ rest) len caps))))
            (MState pv (run ++ rest) len caps)
            (fun st' => k (ms_capture i (MState pv (run ++ rest) len caps) st'))).
  rewrite (rep_class_blocked c).
  - cbn [ms_rest]. rewrite (run_len_all c run rest Hall Hh).
    apply Nat.leb_le in H1. rewrite H1. rewrite ms_skip_run.
    unfold ms_capture. cbn [ms_prev ms_rest ms_len ms_caps].
    replace (len + length run - len) with (length run) by lia.
    now rewrite firstn_app, Nat.sub_diag, firstn_all, firstn_O, app_nil_r.
  - intros st' x t E Hx. apply (Hk _ x t); [exact E|exact Hx].
  - lia.
Qed.

Section RubyPattern.
Variables bar op cl : char.
Variables c1 c2 : char -> bool.
Hypothesis c1_op : c1 op = false.
Hypothesis c2_cl : c2 cl = false.
Variable repl : rmatch -> str.
Hypothesis repl_ext : forall t c pos prev nx pos' prev' nx',
  repl (RMatch t c pos prev nx) = repl (RMatch t c pos' prev' nx').

Let R : regex :=
  seqs [lit bar; Grp 1 (plus (Chr c1)); lit op; Grp 2 (plus (Chr c2)); lit cl].

Lemma mh_not_bar pos prev c t : chr_eqb bar c = false -> match_here R pos prev (c :: t) = None.
Proof.
  intros Hc. unfold match_here, R, lit. cbn [seqs mt ms_init ms_rest]. now rewrite Hc.
Qed.

Lemma mt_ruby_indep prev prev' s :
  mt R (ms_init prev s) accept = mt R (ms_init prev' s) accept.
Proof.
  unfold R, lit. cbn [seqs mt ms_init ms_rest]. destruct s as [|c t]; [reflexivity|].
  destruct (chr_eqb bar c); reflexivity.
Qed.

Lemma sub_ruby_indep s : forall skip pos prev pos' prev',
  sub_loop R repl skip pos prev s = sub_loop R repl skip pos' prev' s.
Proof.
  assert (Hm : forall pos prev pos' prev' x,
            match match_here R pos prev x with Some (m, len) => Some (repl m, len) | None => None end =
            match match_here R pos' prev' x with Some (m, len) => Some (repl m, len) | None => None end).
  { intros pos prev pos' prev' x. unfold match_here. rewrite (mt_ruby_indep prev prev' x).
    destruct (mt R (ms_init prev' x) accept); [|reflexivity].
    now rewrite (repl_ext _ _ pos prev _ pos' prev' (hd_error (ms_rest m))). }
  induction s as [|c t IH]; intros skip pos prev pos' prev'.
  - destruct skip; [|reflexivity]. cbn [sub_loop].
    specialize (Hm pos prev pos' prev' []).
    destruct (match_here R pos prev []) as [[m len]|], (match_here R pos' prev' []) as [[m' len']|];
      try discriminate; [now injection Hm as ->|reflexivity].
  - cbn [sub_loop]. destruct skip as [|k]; [|apply IH].
    specialize (Hm pos prev pos' prev' (c :: t)).
    destruct (match_here R pos prev (c :: t)) as [[m len]|],
             (match_here R pos' prev' (c :: t)) as [[m' len']|]; try discriminate.
    + injection Hm as -> ->. f_equal. destruct len'; [f_equal|]; apply IH.
    + f_equal. apply IH.
Qed.

Lemma mh_ruby pos prev base ruby post :
  1 <= length base -> forallb c1 base = true ->
  1 <= length ruby -> forallb c2 ruby = true ->
  match_here R pos prev (bar :: base ++ op :: ruby ++ cl :: post) =
  Some (RMatch (firstn (3 + length base + length ruby)
                       (bar :: base ++ op :: ruby ++ cl :: post))
               [(2, ruby); (1, base)] pos prev (hd_error post),
        3 + length base + length ruby).
Proof.
  intros Hb1 Hb Hr1 Hr.
  unfold match_here, R. cbn [seqs]. rewrite mt_seq.
  rewrite (mt_lit_hit bar (base ++ op :: ruby ++ cl :: post)) by reflexivity.
  unfold ms_init, ms_advance. cbn [ms_len ms_caps]. rewrite mt_seq.
  rewrite (mt_group_run 1 c1 _ (Some bar) base (op :: ruby ++ cl :: post) 1 [] Hb1 Hb c1_op).
  2:{ intros st' x t E Hx. rewrite mt_seq. apply (mt_lit_miss op x t); [exact E|].
      destruct (chr_eqb_spec op x) as [Eo|]; [|reflexivity]. subst x. congruence. }
  rewrite mt_seq.
  rewrite (mt_lit_hit op (ruby ++ cl :: post)) by reflexivity.
  unfold ms_advance. cbn [ms_len ms_caps]. rewrite mt_seq.
  rewrite (mt_group_run 2 c2 _ (Some op) ruby (cl :: post) _ _ Hr1 Hr c2_cl).
  2:{ intros st' x t E Hx. apply (mt_lit_miss cl x t); [exact E|].
      destruct (chr_eqb_spec cl x) as [Eo|]; [|reflexivity]. subst x. congruence. }
  rewrite (mt_lit_hit cl post) by reflexivity.
  unfold ms_advance, accept. cbn [ms_len ms_caps ms_rest].
  replace (S (S (1 + length base) + length ruby)) with (3 + length base + length ruby) by lia.
  reflexivity.
Qed.

(** The first bar of the text, when a ruby notation begins there. *)
Lemma re_sub_first_ruby pre base ruby post :
  mem bar pre = false ->
  1 <= length base -> forallb c1 base = true ->
  1 <= length ruby -> forallb c2 ruby = true ->
  re_sub R repl (pre ++ bar :: base ++ op :: ruby ++ cl :: post) =
  pre ++
  repl (RMatch (bar :: base ++ op :: ruby ++ [cl]) [(2, ruby); (1, base)] 0 None None) ++
  re_sub R repl post.
Proof.
  intros Hpre Hb1 Hb Hr1 Hr. unfold re_sub.
  rewrite (sub_copy_until R repl (chr_eqb bar)).
  2:{ intros pos prev c t Hc. now apply mh_not_bar. }
  2:{ now apply mem_forallb. }
  f_equal. cbn [sub_loop]. rewrite mh_ruby by assumption.
  assert (Ht : firstn (3 + length base + length ruby)
                 (bar :: base ++ op :: ruby ++ cl :: post) =
               bar :: base ++ op :: ruby ++ [cl]).
  { replace (bar :: base ++ op :: ruby ++ cl :: post)
      with ((bar :: base ++ op :: ruby ++ [cl]) ++ post)
      by (cbn [app]; rewrite <- !app_assoc; cbn [app]; rewrite <- !app_assoc; reflexivity).
    rewrite firstn_app.
    assert (Hlen : length (bar :: base ++ op :: ruby ++ [cl]) = 3 + length base + length ruby).
    { cbn [length]. rewrite length_app. cbn [length]. rewrite length_app. cbn [length]. lia. }
    rewrite <- Hlen, firstn_all, Nat.sub_diag, firstn_O, app_nil_r. reflexivity. }
  rewrite Ht. rewrite (repl_ext _ _ _ _ _ 0 None None). f_equal.
  cbn [Nat.add].
  replace (base ++ op :: ruby ++ cl :: post) with ((base ++ op :: ruby ++ [cl]) ++ post)
    by (rewrite <- !app_assoc; cbn [app]; rewrite <- !app_assoc; reflexivity).
  replace (S (S (length base + length ruby))) with (length (base ++ op :: ruby ++ [cl]))
    by (rewrite length_app; cbn [length]; rewrite length_app; cbn [length]; lia).
  rewrite sub_loop_skip. apply sub_ruby_indep.
Qed.
End RubyPattern.

(** X17: the first ｜ of a text, when a ruby notation ｜base≪ruby≫ begins
    there.  [_restore_explicit_ruby] writes it as ｜base《ruby》, unless
    the ruby is made only of the marks …‥。．、,- in which case it keeps
    it; the text before it is kept and the text behind it is converted in
    the same way. *)
Theorem restore_explicit_ruby_first (pre base ruby post : str) :
  mem (ch "｜") pre = false ->
  1 <= length base -> forallb (fun c => negb (mem c (u "｜≪≫\n"))) base = true ->
  1 <= length ruby -> forallb (fun c => negb (mem c (u "≪≫\n"))) ruby = true ->
  _restore_explicit_ruby (pre ++ u "｜" ++ base ++ u "≪" ++ ruby ++ u "≫" ++ post) =
  pre ++
  (if forallb (fun c => mem c (u "…‥。．、,-")) ruby
   then u "｜" ++ base ++ u "≪" ++ ruby ++ u "≫"
   else u "｜" ++ base ++ u "《" ++ ruby ++ u "》") ++
  _restore_explicit_ruby post.
Proof.
  intros Hpre Hb1 Hb Hr1 Hr.
  pose (repl := fun m : rmatch =>
    if re_fullmatch (plus (cls (u "…‥。．、,-"))) (m_group m 2) then m_text m
    else u "｜" ++ m_group m 1 ++ u "《" ++ m_group m 2 ++ u "》").
  assert (HE : forall s, _restore_explicit_ruby s =
     re_sub (seqs [lit (ch "｜"); Grp 1 (plus (Chr (fun c => negb (mem c (u "｜≪≫\n")))));
                   lit (ch "≪"); Grp 2 (plus (Chr (fun c => negb (mem c (u "≪≫\n")))));
                   lit (ch "≫")]) repl s).
  { intros s. unfold _restore_explicit_ruby, repl, ncls. reflexivity. }
  rewrite !HE.
  change (u "｜") with [ch "｜"]. change (u "≪") with [ch "≪"]. change (u "≫") with [ch "≫"].
  cbn [app].
  rewrite (re_sub_first_ruby (ch "｜") (ch "≪") (ch "≫")
             (fun c => negb (mem c (u "｜≪≫\n"))) (fun c => negb (mem c (u "≪≫\n")))
             ltac:(vm_compute; reflexivity) ltac:(vm_compute; reflexivity)
             repl ltac:(intros; reflexivity) pre base ruby post Hpre Hb1 Hb Hr1 Hr).
  f_equal. f_equal. unfold repl, m_group. cbn [m_caps m_text cap_lookup Nat.eqb].
  unfold plus, cls. rewrite fullmatch_class.
  apply Nat.leb_le in Hr1. rewrite Hr1. cbn [andb].
  destruct (forallb (fun c => mem c (u "…‥。．、,-")) ruby); reflexivity.
Qed.

(** X17 on あ｜漢字≪かんじ≫。 *)
Lemma restore_explicit_ruby_first_witness :
  mem (ch "｜") (u "あ") = false /\
  forallb (fun c => negb (mem c (u "｜≪≫\n"))) (u "漢字") = true /\
  forallb (fun c => negb (mem c (u "≪≫\n"))) (u "かんじ") = true /\
  _restore_explicit_ruby
    (u "あ" ++ u "｜" ++ u "漢字" ++ u "≪" ++ u "かんじ" ++ u "≫" ++ u "。") =
  u "あ" ++
  (if forallb (fun c => mem c (u "…‥。．、,-")) (u "かんじ")
   then u "｜" ++ u "漢字" ++ u "≪" ++ u "かんじ" ++ u "≫"
   else u "｜" ++ u "漢字" ++ u "《" ++ u "かんじ" ++ u "》") ++
  _restore_explicit_ruby (u "。").
Proof.
  split; [vm_compute; reflexivity|]. split; [vm_compute; reflexivity|].
  split; [vm_compute; reflexivity|].
  apply restore_explicit_ruby_first.
  - vm_compute; reflexivity.
  - vm_compute; lia.
  - vm_compute; reflexivity.
  - vm_compute; lia.
  - vm_compute; reflexivity.
Defined.

(** ** Bars and ruby in [_replace_tatesen] *)

Lemma starts_with_self l r : starts_with l (l ++ r) = true.
Proof.
  induction l as [|c l IH]; [reflexivity|]. cbn [app starts_with].
  unfold chr_eqb. now rewrite N.eqb_refl, IH.
Qed.

Lemma replace_first_occ old new o a b :
  hd_error old = Some o -> mem o a = false ->
  replace old new (a ++ old ++ b) = a ++ new ++ replace old new b.
Proof.
  destruct old as [|o' old]; [discriminate|]. intros [= ->] Ha. unfold replace.
  rewrite replace_copy_first by (now apply mem_forallb). f_equal.
  change ((o :: old) ++ b) with (o :: old ++ b). cbn [replace_from].
  change (o :: old ++ b) with ((o :: old) ++ b). rewrite starts_with_self.
  f_equal. replace (length (o :: old) - 1) with (length old) by (cbn [length]; lia).
  apply replace_skip.
Qed.

Lemma replace_copy_hd old new o a b :
  hd_error old = Some o -> mem o a = false ->
  replace old new (a ++ b) = a ++ replace old new b.
Proof.
  destruct old as [|o' old]; [discriminate|]. intros [= ->] Ha. unfold replace.
  apply replace_copy_first. now apply mem_forallb.
Qed.

Lemma starts_with_prefix_false old s r :
  starts_with (firstn (length s) old) s = false -> starts_with old (s ++ r) = false.
Proof.
  revert s. induction old as [|x old IH]; intros s H.
  - rewrite firstn_nil in H. discriminate H.
  - destruct s as [|y s]; [discriminate H|].
    cbn [length firstn starts_with app] in *.
    destruct (chr_eqb x y); [|reflexivity]. cbn [andb] in *. now apply IH.
Qed.

(** A block in which no occurrence of [old] can begin is copied. *)
Lemma replace_copy_block old new blk r :
  (forall k, k < length blk ->
     starts_with (firstn (length blk - k) old) (skipn k blk) = false) ->
  replace_from old new 0 (blk ++ r) = blk ++ replace_from old new 0 r.
Proof.
  induction blk as [|c b IH]; intros H; [reflexivity|].
  cbn [app replace_from].
  pose proof (H 0 ltac:(simpl; lia)) as H0. rewrite Nat.sub_0_r in H0. cbn [skipn] in H0.
  apply starts_with_prefix_false with (r := r) in H0.
  change ((c :: b) ++ r) with (c :: b ++ r) in H0. rewrite H0. f_equal.
  apply IH. intros k Hk. specialize (H (S k) ltac:(simpl; lia)). exact H.
Qed.

Lemma subst_char_app c new a b :
  subst_char c new (a ++ b) = subst_char c new a ++ subst_char c new b.
Proof. unfold subst_char. apply flat_map_app. Qed.

(** The last replacement of [_replace_tatesen] finds nothing in a text in
    which every ［ comes from the gaiji note of a bar. *)
Lemma tatesen_notes_stay text :
  mem (ch "［") text = false ->
  replace (u "［＃ルビ用縦線］") (u "｜") (subst_char (ch "｜") (u "※［＃縦線］") text) =
  subst_char (ch "｜") (u "※［＃縦線］") text.
Proof.
  induction text as [|c t IH]; intros Hc; [reflexivity|].
  unfold mem in Hc. cbn [existsb] in Hc. apply orb_false_iff in Hc as [Hc Ht].
  change (c :: t) with ([c] ++ t). rewrite subst_char_app.
  unfold subst_char at 1 3. cbn [flat_map]. rewrite !app_nil_r.
  destruct (chr_eqb (ch "｜") c).
  - unfold replace. rewrite replace_copy_block; [f_equal; exact (IH Ht)|].
    assert (Hlen : length (u "※［＃縦線］") = 6) by (vm_compute; reflexivity).
    rewrite Hlen. intros k Hk.
    do 6 (destruct k as [|k]; [vm_compute; reflexivity|]). lia.
  - rewrite (replace_copy_hd _ _ (ch "［") [c]);
      [f_equal; exact (IH Ht)|vm_compute; reflexivity|].
    unfold mem. cbn [existsb]. now rewrite Hc.
Qed.

(** X19: in a text without 《 and without ［, [_replace_tatesen] writes the
    gaiji note ※［＃縦線］ for every ｜ and changes nothing else. *)
Theorem replace_tatesen_lone_bars (text : str) :
  mem (ch "《") text = false -> mem (ch "［") text = false ->
  _replace_tatesen text =
  flat_map (fun c => if chr_eqb (ch "｜") c then u "※［＃縦線］" else [c]) text.
Proof.
  intros Hq Hb. unfold _replace_tatesen. cbv zeta.
  rewrite (re_sub_needs (chr_eqb (ch "《"))).
  - change (u "｜") with [ch "｜"]. rewrite replace_char.
    exact (tatesen_notes_stay text Hb).
  - apply needs_seqs_tail; [discriminate|]. apply needs_seqs_tail; [discriminate|].
    apply needs_seqs_head. apply needs_lit. vm_compute. reflexivity.
  - now apply free_of_mem.
Qed.

(** X19 on あ｜い: the bar becomes the gaiji note. *)
Lemma replace_tatesen_lone_bars_witness :
  mem (ch "《") (u "あ｜い") = false /\ mem (ch "［") (u "あ｜い") = false /\
  _replace_tatesen (u "あ｜い") =
  flat_map (fun c => if chr_eqb (ch "｜") c then u "※［＃縦線］" else [c]) (u "あ｜い").
Proof.
  split; [vm_compute; reflexivity|]. split; [vm_compute; reflexivity|].
  apply replace_tatesen_lone_bars; vm_compute; reflexivity.
Defined.

Lemma mem_excluded X s k :
  forallb (fun c => negb (mem c X)) s = true -> mem k X = true -> mem k s = false.
Proof.
  intros Hs Hk. apply mem_forallb. revert Hs. apply forallb_weaken. intros c Hc.
  destruct (chr_eqb_spec k c) as [E|]; [|reflexivity].
  subst c. rewrite Hk in Hc. discriminate Hc.
Qed.

Lemma excluded_sub X Y s :
  forallb (fun k => mem k X) Y = true ->
  forallb (fun c => negb (mem c X)) s = true ->
  forallb (fun c => negb (mem c Y)) s = true.
Proof.
  intros HY. apply forallb_weaken. intros c Hc.
  destruct (mem c Y) eqn:E; [|reflexivity].
  apply (mem_all Y (fun k => mem k X) HY) in E. cbv beta in E. rewrite E in Hc. discriminate Hc.
Qed.

(** X18: the first ｜ of a text, when a ruby notation ｜base《ruby》
    begins there and the text so far holds no ［.  [_replace_tatesen] keeps
    the notation as it is, with its bar; the text behind it is converted in
    the same way. *)
Theorem replace_tatesen_ruby (pre base ruby post : str) :
  mem (ch "｜") pre = false -> mem (ch "［") pre = false ->
  1 <= length base -> forallb (fun c => negb (mem c (u "｜《》\n［"))) base = true ->
  1 <= length ruby -> forallb (fun c => negb (mem c (u "｜《》\n［"))) ruby = true ->
  _replace_tatesen (pre ++ u "｜" ++ base ++ u "《" ++ ruby ++ u "》" ++ post) =
  pre ++ u "｜" ++ base ++ u "《" ++ ruby ++ u "》" ++ _replace_tatesen post.
Proof.
  intros Hp1 Hp2 Hb1 Hb Hr1 Hr.
  pose (repl := fun m : rmatch =>
    u "［＃ルビ用縦線］" ++ m_group m 1 ++ u "《" ++ m_group m 2 ++ u "》").
  pose (R := seqs [lit (ch "｜"); Grp 1 (plus (Chr (fun c => negb (mem c (u "｜《》\n")))));
                   lit (ch "《"); Grp 2 (plus (Chr (fun c => negb (mem c (u "《》\n")))));
                   lit (ch "》")]).
  assert (HE : forall s, _replace_tatesen s =
     replace (u "［＃ルビ用縦線］") (u "｜") (replace [ch "｜"] (u "※［＃縦線］") (re_sub R repl s))).
  { intros s. unfold _replace_tatesen, repl, R, ncls. reflexivity. }
  rewrite !HE.
  change (u "｜" ++ base ++ u "《" ++ ruby ++ u "》" ++ post)
    with (ch "｜" :: base ++ ch "《" :: ruby ++ ch "》" :: post).
  assert (Hb' : forallb (fun c => negb (mem c (u "｜《》\n"))) base = true).
  { apply (excluded_sub (u "｜《》\n［")); [vm_compute; reflexivity|exact Hb]. }
  assert (Hr' : forallb (fun c => negb (mem c (u "《》\n"))) ruby = true).
  { apply (excluded_sub (u "｜《》\n［")); [vm_compute; reflexivity|exact Hr]. }
  unfold R.
  rewrite (re_sub_first_ruby (ch "｜") (ch "《") (ch "》")
             (fun c => negb (mem c (u "｜《》\n"))) (fun c => negb (mem c (u "《》\n")))
             ltac:(vm_compute; reflexivity) ltac:(vm_compute; reflexivity)
             repl ltac:(intros; reflexivity) pre base ruby post Hp1 Hb1 Hb' Hr1 Hr').
  fold R. unfold repl at 1, m_group. cbn [m_caps cap_lookup Nat.eqb].
  set (body := base ++ u "《" ++ ruby ++ u "》").
  set (M := u "［＃ルビ用縦線］").
  assert (Hbody_bar : mem (ch "｜") body = false).
  { unfold body. rewrite !mem_app.
    rewrite (mem_excluded _ base (ch "｜") Hb), (mem_excluded _ ruby (ch "｜") Hr)
      by (vm_compute; reflexivity).
    vm_compute. reflexivity. }
  assert (Hbody_br : mem (ch "［") body = false).
  { unfold body. rewrite !mem_app.
    rewrite (mem_excluded _ base (ch "［") Hb), (mem_excluded _ ruby (ch "［") Hr)
      by (vm_compute; reflexivity).
    vm_compute. reflexivity. }
  change (M ++ base ++ u "《" ++ ruby ++ u "》") with (M ++ body).
  rewrite !replace_char, !subst_char_app.
  rewrite (subst_char_absent _ _ pre Hp1), (subst_char_absent _ _ body Hbody_bar).
  rewrite (subst_char_absent _ _ M) by (vm_compute; reflexivity).
  rewrite <- !app_assoc.
  rewrite (replace_first_occ M (u "｜") (ch "［") pre _ eq_refl Hp2).
  rewrite (replace_copy_hd M (u "｜") (ch "［") body _ eq_refl Hbody_br).
  unfold body. rewrite <- !app_assoc. reflexivity.
Qed.

(** X18 on あ｜漢字《かんじ》。 *)
Lemma replace_tatesen_ruby_witness :
  mem (ch "｜") (u "あ") = false /\ mem (ch "［") (u "あ") = false /\
  forallb (fun c => negb (mem c (u "｜《》\n［"))) (u "漢字") = true /\
  forallb (fun c => negb (mem c (u "｜《》\n［"))) (u "かんじ") = true /\
  _replace_tatesen (u "あ" ++ u "｜" ++ u "漢字" ++ u "《" ++ u "かんじ" ++ u "》" ++ u "。") =
  u "あ" ++ u "｜" ++ u "漢字" ++ u "《" ++ u "かんじ" ++ u "》" ++ _replace_tatesen (u "。").
Proof.
  split; [vm_compute; reflexivity|]. split; [vm_compute; reflexivity|].
  split; [vm_compute; reflexivity|]. split; [vm_compute; reflexivity|].
  apply replace_tatesen_ruby.
  - vm_compute; reflexivity.
  - vm_compute; reflexivity.
  - vm_compute; lia.
  - vm_compute; reflexivity.
  - vm_compute; lia.
  - vm_compute; reflexivity.
Defined.

(** ** Substitutions that work character by character *)

Section Pointwise.
Variable Rel : char -> char -> Prop.
Hypothesis Rel_refl : forall a, Rel a a.
Variable r : regex.
Variable repl : rmatch -> str.
Hypothesis repl_pointwise : forall pos prev s m len,
  match_here r pos prev s = Some (m, len) -> Forall2 Rel (firstn len s) (repl m).

Lemma Forall2_same s : Forall2 Rel s s.
Proof. induction s; constructor; auto. Qed.

Lemma sub_loop_pointwise s : forall skip pos prev,
  skip <= length s -> Forall2 Rel (skipn skip s) (sub_loop r repl skip pos prev s).
Proof.
  induction s as [|c t IH]; intros skip pos prev Hs.
  - simpl in Hs. replace skip with 0 by lia. cbn [skipn sub_loop].
    destruct (match_here r pos prev []) as [[m len]|] eqn:E; [|constructor].
    apply repl_pointwise in E as H. apply match_here_length in E. simpl in E.
    replace len with 0 in H by lia. exact H.
  - cbn [sub_loop]. destruct skip as [|k].
    + cbn [skipn]. destruct (match_here r pos prev (c :: t)) as [[m len]|] eqn:E.
      * apply repl_pointwise in E as H. apply match_here_length in E.
        destruct len as [|k].
        -- cbn [firstn] in H. inversion H. cbn [app]. constructor; [apply Rel_refl|].
           apply (IH 0). lia.
        -- rewrite <- (firstn_skipn (S k) (c :: t)). apply Forall2_app; [exact H|].
           cbn [skipn]. apply IH. simpl in E. lia.
      * constructor; [apply Rel_refl|]. apply (IH 0). lia.
    + cbn [skipn]. apply IH. simpl in Hs. lia.
Qed.

Lemma re_sub_pointwise s : Forall2 Rel s (re_sub r repl s).
Proof. apply (sub_loop_pointwise s 0 0 None). lia. Qed.
End Pointwise.

(** A greedy run of a class that is too short is no match; one that is
    long enough is taken whole when the continuation accepts behind it. *)
Lemma rep_class_short (p : char -> bool) (k : cont) fuel lo st :
  run_len p (ms_rest st) < lo ->
  rep_loop (mt (Chr p)) true lo None fuel st k = None.
Proof.
  revert lo st. induction fuel as [|fuel IH]; intros lo [pv rest len caps] Hlo; [reflexivity|].
  cbn [ms_rest] in Hlo. destruct lo as [|lo]; [lia|].
  cbn [rep_loop hi_open hi_pred mt ms_rest pred]. destruct rest as [|c t]; [reflexivity|].
  cbn [run_len] in Hlo. destruct (p c); [|reflexivity].
  cbn [ms_advance ms_rest]. destruct (length t <? length (c :: t)); [|reflexivity].
  apply IH. unfold ms_advance. cbn [ms_rest]. lia.
Qed.

Lemma rep_class_first (p : char -> bool) (k : cont) fuel lo st res :
  lo <= run_len p (ms_rest st) -> length (ms_rest st) < fuel ->
  k (ms_skip st (run_len p (ms_rest st))) = Some res ->
  rep_loop (mt (Chr p)) true lo None fuel st k = Some res.
Proof.
  revert lo st. induction fuel as [|fuel IH]; intros lo [pv rest len caps] Hlo Hf Hk;
    [simpl in Hf; lia|].
  cbn [ms_rest] in *. cbn [rep_loop hi_open hi_pred mt ms_rest].
  destruct rest as [|c t].
  - cbn [run_len] in *. replace lo with 0 by lia. exact Hk.
  - cbn [run_len] in *. destruct (p c) eqn:Hp.
    + cbn [ms_rest length].
      assert (Hlt : (length t <? S (length t)) = true) by (apply Nat.ltb_lt; lia).
      erewrite IH; [destruct lo; cbn [ms_advance ms_rest]; rewrite Hlt; reflexivity| | |exact Hk].
      * unfold ms_advance; cbn [ms_rest]; lia.
      * unfold ms_advance; cbn [ms_rest]; simpl in Hf; lia.
    + replace lo with 0 by lia. exact Hk.
Qed.

Lemma mt_group_none i (c : char -> bool) (k : cont) st :
  no_head c (ms_rest st) -> mt (Grp i (plus (Chr c))) st k = None.
Proof.
  intros Hh. unfold plus.
  change (mt (Grp i (Rep true 1 None (Chr c))) st k)
    with (rep_loop (mt (Chr c)) true 1 None (S (length (ms_rest st))) st
            (fun st' => k (ms_capture i st st'))).
  apply rep_class_short. destruct (ms_rest st) as [|x t]; cbn [run_len]; [lia|].
  cbn [no_head] in Hh. rewrite Hh. lia.
Qed.

Lemma mt_group_first i (c : char -> bool) (k : cont) pv run rest len caps res :
  1 <= length run -> forallb c run = true -> no_head c rest ->
  k (MState (prev_after pv run) rest (len + length run) ((i, run) :: caps)) = Some res ->
  mt (Grp i (plus (Chr c))) (MState pv (run ++ rest) len caps) k = Some res.
Proof.
  intros H1 Hall Hh Hk. unfold plus.
  change (mt (Grp i (Rep true 1 None (Chr c))) (MState pv (run ++ rest) len caps) k)
    with (rep_loop (mt (Chr c)) true 1 None
            (S (length (ms_rest (MState pv (run ++ rest) len caps))))
            (MState pv (run ++ rest) len caps)
            (fun st' => k (ms_capture i (MState pv (run ++ rest) len caps) st'))).
  apply rep_class_first.
  - cbn [ms_rest]. now rewrite (run_len_all c run rest Hall Hh).
  - lia.
  - cbn [ms_rest]. rewrite (run_len_all c run rest Hall Hh), ms_skip_run.
    unfold ms_capture. cbn [ms_prev ms_rest ms_len ms_caps].
    replace (len + length run - len) with (length run) by lia.
    now rewrite firstn_app, Nat.sub_diag, firstn_all, firstn_O, app_nil_r.
Qed.

Lemma mt_grp_chr i (p : char -> bool) st (k : cont) :
  mt (Grp i (Chr p)) st k =
  match ms_rest st with
  | c :: t => if p c then k (ms_capture i st (ms_advance st c t)) else None
  | [] => None
  end.
Proof. reflexivity. Qed.

(** A match of [(class)(run)+]: one character, then a run. *)
Lemma mh_one_then_run (A K : char -> bool) pos prev s m len :
  match_here (seqs [Grp 1 (Chr A); Grp 2 (plus (Chr K))]) pos prev s = Some (m, len) ->
  exists c run, firstn len s = c :: run /\ m_group m 1 = [c] /\ m_group m 2 = run.
Proof.
  unfold match_here. cbn [seqs]. rewrite mt_seq, mt_grp_chr. cbn [ms_init ms_rest].
  destruct s as [|c t]; [discriminate|]. destruct (A c); [|discriminate].
  cbv beta.
  match goal with
  | |- context [mt (Grp 2 _) ?st _] => change st with (MState (Some c) t 1 [(1, [c])])
  end.
  destruct (run_split K t) as (Hs & Hall & Hh & Hl).
  set (run := firstn (run_len K t) t) in *. set (rest := skipn (run_len K t) t) in *.
  destruct run as [|x run'] eqn:Er.
  - cbn [app] in Hs. cbv beta. rewrite mt_group_none; [discriminate|]. cbn [ms_rest]. now rewrite Hs.
  - rewrite <- Er in *. assert (H1 : 1 <= length run) by (rewrite Er; simpl; lia).
    rewrite Hs. cbv beta.
    rewrite (mt_group_first 2 K accept (Some c) run rest 1 [(1, [c])] _ H1 Hall Hh eq_refl).
    intros [= <- <-]. exists c, run. cbn [ms_len ms_caps m_group m_caps cap_lookup Nat.eqb].
    split; [|split; reflexivity].
    change (S (length run)) with (length (c :: run)).
    change (c :: run ++ rest) with ((c :: run) ++ rest).
    now rewrite firstn_app, Nat.sub_diag, firstn_all, firstn_O, app_nil_r.
Qed.

(** A match of [(run)+(class)] for a class disjoint from the run's. *)
Lemma mh_run_then_one (K Q : char -> bool) pos prev s m len :
  (forall x, K x = true -> Q x = false) ->
  match_here (seqs [Grp 1 (plus (Chr K)); Grp 2 (Chr Q)]) pos prev s = Some (m, len) ->
  exists run q, firstn len s = run ++ [q] /\ m_group m 1 = run /\ m_group m 2 = [q].
Proof.
  intros HKQ. unfold match_here. cbn [seqs]. rewrite mt_seq. unfold ms_init.
  destruct (run_split K s) as (Hs & Hall & Hh & Hl).
  set (run := firstn (run_len K s) s) in *. set (rest := skipn (run_len K s) s) in *.
  destruct run as [|x run'] eqn:Er.
  - cbn [app] in Hs. rewrite mt_group_none; [discriminate|]. cbn [ms_rest]. now rewrite Hs.
  - rewrite <- Er in *. assert (H1 : 1 <= length run) by (rewrite Er; simpl; lia).
    rewrite Hs. cbv beta.
    rewrite (mt_group_run 1 K _ prev run rest 0 [] H1 Hall Hh).
    2:{ intros st' y t E Hy. rewrite mt_grp_chr, E. now rewrite (HKQ y Hy). }
    rewrite mt_grp_chr. cbn [ms_rest].
    destruct rest as [|q r]; [discriminate|]. destruct (Q q); [|discriminate].
    unfold accept, ms_capture, ms_advance. cbn [ms_len ms_caps ms_rest ms_prev].
    replace (S (0 + length run) - (0 + length run)) with 1 by lia.
    replace (0 + length run) with (length run) by lia. cbn [firstn].
    intros [= <- <-]. exists run, q. unfold m_group. cbn [m_caps cap_lookup Nat.eqb].
    split; [|split; reflexivity].
    replace (run ++ q :: r) with ((run ++ [q]) ++ r) by (now rewrite <- app_assoc).
    replace (S (length run)) with (length (run ++ [q])) by (rewrite length_app; simpl; lia).
    now rewrite firstn_app, Nat.sub_diag, firstn_all, firstn_O, app_nil_r.
Qed.

Lemma kanji_to_zenkaku_other a : mem a _KANJI_NUM = false -> kanji_to_zenkaku a = a.
Proof.
  intros Ha. apply translate_char_absent.
  destruct (mem a (map fst (maketrans _KANJI_NUM _ZENKAKU_NUM))) eqn:E; [|reflexivity].
  apply (mem_all _ (fun k => mem k _KANJI_NUM)) in E; [cbv beta in E; congruence|].
  vm_compute. reflexivity.
Qed.

Lemma digit_or_same_image a : digit_or_same a (kanji_to_zenkaku a).
Proof.
  unfold digit_or_same. destruct (mem a _KANJI_NUM) eqn:E; [right; auto|left].
  now apply kanji_to_zenkaku_other.
Qed.

Lemma digit_or_same_trans a b c : digit_or_same a b -> digit_or_same b c -> digit_or_same a c.
Proof.
  intros [->|[Ha ->]] H; [exact H|]. destruct H as [->|[Hb _]]; [right; auto|].
  apply (mem_all _ (fun a => negb (mem (kanji_to_zenkaku a) _KANJI_NUM))) in Ha;
    [|vm_compute; reflexivity].
  cbv beta in Ha. rewrite Hb in Ha. discriminate Ha.
Qed.

Lemma digit_or_same_translate l :
  Forall2 digit_or_same l (translate (maketrans _KANJI_NUM _ZENKAKU_NUM) l).
Proof.
  induction l as [|a l IH]; [constructor|]. cbn [translate map].
  constructor; [apply digit_or_same_image|exact IH].
Qed.

Lemma Forall2_chain (R : char -> char -> Prop) :
  (forall a b c, R a b -> R b c -> R a c) ->
  forall l1 l2 l3, Forall2 R l1 l2 -> Forall2 R l2 l3 -> Forall2 R l1 l3.
Proof.
  intros Ht l1 l2 l3 H12. revert l3. induction H12; intros l3 H23; inversion H23; subst;
    constructor; eauto.
Qed.

Lemma kanji_run_chars x :
  mem x (_KANJI_NUM ++ u "・～") = true ->
  negb (is_zenkaku_alpha x || mem x (u "％㎜㎝㎞㎎㎏㏄㎡㎥")) = true.
Proof.
  intros Hx.
  assert (H0 : forallb (fun x => negb (is_zenkaku_alpha x || mem x (u "％㎜㎝㎞㎎㎏㏄㎡㎥")))
                       (_KANJI_NUM ++ u "・～") = true) by (vm_compute; reflexivity).
  exact (mem_all _ (fun x => negb (is_zenkaku_alpha x || mem x (u "％㎜㎝㎞㎎㎏㏄㎡㎥")))
                 H0 x Hx).
Qed.

Lemma kanji_run_unfold x : is_kanji_num_run x = mem x _KANJI_NUM || mem x (u "・～").
Proof. unfold is_kanji_num_run. reflexivity. Qed.

Lemma kanji_run_not_unit x :
  is_kanji_num_run x = true ->
  is_zenkaku_alpha x || mem x (u "％㎜㎝㎞㎎㎏㏄㎡㎥") = false.
Proof.
  intros Hx. rewrite kanji_run_unfold in Hx. apply negb_true_iff. apply kanji_run_chars.
  rewrite mem_app. exact Hx.
Qed.

Lemma reconvert_after_letter text :
  Forall2 digit_or_same text
    (re_sub (seqs [Grp 1 (Chr is_zenkaku_alpha); Grp 2 (plus (Chr is_kanji_num_run))])
            (fun m => m_group m 1 ++
                      translate (maketrans _KANJI_NUM _ZENKAKU_NUM) (m_group m 2)) text).
Proof.
  apply (re_sub_pointwise digit_or_same (fun a => or_introl eq_refl)).
  intros pos prev s m len E.
  apply mh_one_then_run in E as (c & run & E1 & E2 & E3).
  rewrite E1, E2, E3.
  constructor; [now left|apply digit_or_same_translate].
Qed.

Lemma reconvert_before_unit text :
  Forall2 digit_or_same text
    (re_sub (seqs [Grp 1 (plus (Chr is_kanji_num_run));
                   Grp 2 (Chr (fun c => is_zenkaku_alpha c ||
                                        mem c (u "％㎜㎝㎞㎎㎏㏄㎡㎥")))])
            (fun m => translate (maketrans _KANJI_NUM _ZENKAKU_NUM) (m_group m 1) ++
                      m_group m 2) text).
Proof.
  apply (re_sub_pointwise digit_or_same (fun a => or_introl eq_refl)).
  intros pos prev s m len E.
  apply mh_run_then_one in E as (run & q & E1 & E2 & E3); [|exact kanji_run_not_unit].
  rewrite E1, E2, E3. apply Forall2_app; [apply digit_or_same_translate|].
  constructor; [now left|constructor].
Qed.

(** X20: [_exception_reconvert_kanji_to_num] touches nothing but kanji
    numerals: its result has the length of the text, and at every position
    it holds the character of the text or, for a kanji numeral, the
    full-width digit of that numeral. *)
Theorem exception_reconvert_digits_only (text : str) :
  Forall2 digit_or_same text (_exception_reconvert_kanji_to_num text) /\
  length (_exception_reconvert_kanji_to_num text) = length text /\
  map kanji_to_zenkaku _KANJI_NUM = _ZENKAKU_NUM.
Proof.
  assert (H : Forall2 digit_or_same text (_exception_reconvert_kanji_to_num text)).
  { unfold _exception_reconvert_kanji_to_num. cbv zeta.
    eapply (Forall2_chain _ digit_or_same_trans);
      [apply reconvert_after_letter|apply reconvert_before_unit]. }
  split; [exact H|]. split; [symmetry; exact (Forall2_length H)|].
  vm_compute. reflexivity.
Qed.

(** ** Joining a line that was broken behind a comma *)

Lemma mt_lit_nil c st k : ms_rest st = [] -> mt (lit c) st k = None.
Proof. intros E. unfold lit. cbn [mt]. now rewrite E. Qed.

Lemma mt_star_unfold body st (k : cont) :
  mt (star body) st k = rep_loop (mt body) true 0 None (S (length (ms_rest st))) st k.
Proof. reflexivity. Qed.

Lemma rep_loop_greedy_more body fuel st (k : cont) res :
  body st (fun st' => if length (ms_rest st') <? length (ms_rest st)
                      then rep_loop body true 0 None fuel st' k else None) = Some res ->
  rep_loop body true 0 None (S fuel) st k = Some res.
Proof. intros H. cbn [rep_loop hi_open hi_pred pred]. now rewrite H. Qed.

Lemma rep_loop_greedy_stop body fuel st (k : cont) :
  body st (fun st' => if length (ms_rest st') <? length (ms_rest st)
                      then rep_loop body true 0 None fuel st' k else None) = None ->
  rep_loop body true 0 None (S fuel) st k = k st.
Proof. intros H. cbn [rep_loop hi_open hi_pred pred]. now rewrite H. Qed.

Section AutoJoin.
Variables comma sp : char.
Variables c1 ws ok2 : char -> bool.
Hypothesis ws_nl : ws nl = false.
Variable repl : rmatch -> str.
Hypothesis repl_ext : forall t c pos prev nx pos' prev' nx',
  repl (RMatch t c pos prev nx) = repl (RMatch t c pos' prev' nx').

Let blank : regex := Seq (star (Chr ws)) (lit nl).
Let R : regex :=
  seqs [Grp 1 (Chr c1); lit comma; lit nl; star blank; lit sp; Grp 2 (Chr ok2)].

(** The text of the blank lines between the comma and the indented line. *)
Let lines_text (blanks : list str) : str := concat (map (fun b => b ++ [nl]) blanks).

Lemma mh_no_comma pos prev c s :
  no_head (chr_eqb comma) s -> match_here R pos prev (c :: s) = None.
Proof.
  intros Hs. unfold match_here, R. cbn [seqs]. rewrite mt_seq, mt_grp_chr.
  cbn [ms_init ms_rest]. destruct (c1 c); [|reflexivity]. rewrite mt_seq.
  destruct s as [|d t].
  - rewrite mt_lit_nil; reflexivity.
  - cbn [no_head] in Hs. rewrite (mt_lit_miss comma d t); [reflexivity|reflexivity|exact Hs].
Qed.

Lemma mh_join_nil pos prev : match_here R pos prev [] = None.
Proof. reflexivity. Qed.

Lemma mt_join_indep prev prev' s :
  mt R (ms_init prev s) accept = mt R (ms_init prev' s) accept.
Proof.
  unfold R. cbn [seqs]. rewrite !mt_seq, !mt_grp_chr. cbn [ms_init ms_rest].
  destruct s as [|c t]; [reflexivity|]. destruct (c1 c); reflexivity.
Qed.

Lemma sub_join_indep s : forall skip pos prev pos' prev',
  sub_loop R repl skip pos prev s = sub_loop R repl skip pos' prev' s.
Proof.
  assert (Hm : forall pos prev pos' prev' x,
            match match_here R pos prev x with Some (m, len) => Some (repl m, len) | None => None end =
            match match_here R pos' prev' x with Some (m, len) => Some (repl m, len) | None => None end).
  { intros pos prev pos' prev' x. unfold match_here. rewrite (mt_join_indep prev prev' x).
    destruct (mt R (ms_init prev' x) accept); [|reflexivity].
    now rewrite (repl_ext _ _ pos prev _ pos' prev' (hd_error (ms_rest m))). }
  induction s as [|c t IH]; intros skip pos prev pos' prev'.
  - destruct skip; reflexivity.
  - cbn [sub_loop]. destruct skip as [|k]; [|apply IH].
    specialize (Hm pos prev pos' prev' (c :: t)).
    destruct (match_here R pos prev (c :: t)) as [[m len]|],
             (match_here R pos' prev' (c :: t)) as [[m' len']|]; try discriminate.
    + injection Hm as -> ->. f_equal. destruct len'; [f_equal|]; apply IH.
    + f_equal. apply IH.
Qed.

(** The text before the first comma is copied. *)
Lemma sub_join_copy pre rest : forall pos prev,
  mem comma pre = false -> no_head (chr_eqb comma) rest ->
  sub_loop R repl 0 pos prev (pre ++ rest) =
  pre ++ sub_loop R repl 0 (pos + length pre) (prev_after prev pre) rest.
Proof.
  induction pre as [|c pre IH]; intros pos prev Hpre Hrest.
  - cbn. now rewrite Nat.add_0_r.
  - unfold mem in Hpre. cbn [existsb] in Hpre. apply orb_false_iff in Hpre as [Hc Hpre].
    cbn [app sub_loop length prev_after]. rewrite mh_no_comma.
    + f_equal. rewrite IH by assumption. do 2 f_equal. lia.
    + destruct pre as [|d pre']; [exact Hrest|].
      unfold mem in Hpre. cbn [existsb] in Hpre. apply orb_false_iff in Hpre as [Hd _].
      exact Hd.
Qed.

(** A line that begins with [sp] and goes on with a character that is
    neither white space nor a line feed is no blank line. *)
Lemma blank_fails pv y post len caps (k : cont) :
  ws y = false -> chr_eqb nl y = false -> ws sp = true ->
  mt blank (MState pv (sp :: y :: post) len caps) k = None.
Proof.
  intros Hy Hn Hsp. unfold blank. rewrite mt_seq, mt_star_unfold.
  rewrite (rep_class_blocked ws).
  - cbn [ms_rest run_len Nat.leb]. rewrite Hsp, Hy. cbn [ms_skip ms_rest].
    apply (mt_lit_miss nl y post); [reflexivity|exact Hn].
  - intros st' x t E Hx. apply (mt_lit_miss nl x t); [exact E|].
    destruct (chr_eqb_spec nl x) as [Ex|]; [|reflexivity]. subst x. congruence.
  - cbn [ms_rest]. lia.
Qed.

Lemma blanks_taken blanks : forall fuel pv len caps y post (k : cont) res,
  forallb (forallb ws) blanks = true ->
  ws y = false -> chr_eqb nl y = false -> ws sp = true ->
  length (lines_text blanks ++ sp :: y :: post) < fuel ->
  k (MState (prev_after pv (lines_text blanks)) (sp :: y :: post)
            (len + length (lines_text blanks)) caps) = Some res ->
  rep_loop (mt blank) true 0 None fuel
           (MState pv (lines_text blanks ++ sp :: y :: post) len caps) k = Some res.
Proof.
  induction blanks as [|b bs IH]; intros fuel pv len caps y post k res Hb Hy Hn Hsp Hf Hk.
  - cbn [lines_text map concat app length prev_after] in *. rewrite Nat.add_0_r in Hk.
    destruct fuel as [|fuel]; [lia|].
    rewrite rep_loop_greedy_stop; [exact Hk|]. now apply blank_fails.
  - cbn [forallb] in Hb. apply andb_true_iff in Hb as [Hb Hbs].
    assert (Et : lines_text (b :: bs) = b ++ nl :: lines_text bs).
    { unfold lines_text. cbn [map concat]. now rewrite <- app_assoc. }
    rewrite Et in *. rewrite <- app_assoc in *. cbn [app] in *.
    destruct fuel as [|fuel]; [lia|].
    apply rep_loop_greedy_more. unfold blank at 1. rewrite mt_seq, mt_star_unfold.
    apply rep_class_first.
    + cbn [ms_rest]. lia.
    + cbn [ms_rest]. lia.
    + cbn [ms_rest].
      rewrite (run_len_all ws b (nl :: lines_text bs ++ sp :: y :: post) Hb ws_nl).
      rewrite ms_skip_run.
      rewrite (mt_lit_hit nl (lines_text bs ++ sp :: y :: post)) by reflexivity.
      unfold ms_advance. cbn [ms_rest ms_len ms_caps].
      assert (Hlt : (length (lines_text bs ++ sp :: y :: post) <?
                     length (b ++ nl :: lines_text bs ++ sp :: y :: post)) = true).
      { apply Nat.ltb_lt. rewrite (length_app b). cbn [length]. lia. }
      rewrite Hlt. apply IH; try assumption.
      * rewrite length_app in Hf. cbn [length] in Hf. lia.
      * rewrite length_app, prev_after_app in Hk. cbn [length prev_after] in Hk.
        replace (S (len + length b) + length (lines_text bs))
          with (len + (length b + S (length (lines_text bs)))) by lia.
        exact Hk.
Qed.

Lemma mh_join pos prev x y blanks post :
  c1 x = true -> forallb (forallb ws) blanks = true ->
  ok2 y = true -> ws y = false -> chr_eqb nl y = false -> ws sp = true ->
  match_here R pos prev (x :: comma :: nl :: lines_text blanks ++ sp :: y :: post) =
  Some (RMatch (firstn (5 + length (lines_text blanks))
                       (x :: comma :: nl :: lines_text blanks ++ sp :: y :: post))
               [(2, [y]); (1, [x])] pos prev (hd_error post),
        5 + length (lines_text blanks)).
Proof.
  intros Hx Hb Hy2 Hy Hn Hsp. unfold match_here, R. cbn [seqs].
  rewrite mt_seq, mt_grp_chr. cbn [ms_init ms_rest]. rewrite Hx. cbv beta.
  match goal with
  | |- context [mt (Seq (lit comma) _) ?st _] =>
      change st with (MState (Some x) (comma :: nl :: lines_text blanks ++ sp :: y :: post)
                             1 [(1, [x])])
  end.
  rewrite mt_seq, (mt_lit_hit comma (nl :: lines_text blanks ++ sp :: y :: post)) by reflexivity.
  unfold ms_advance at 1. cbn [ms_len ms_caps].
  rewrite mt_seq, (mt_lit_hit nl (lines_text blanks ++ sp :: y :: post)) by reflexivity.
  unfold ms_advance at 1. cbn [ms_len ms_caps].
  rewrite mt_seq, mt_star_unfold.
  erewrite (blanks_taken blanks _ (Some nl) 3 [(1, [x])] y post); try assumption.
  2:{ cbn [ms_rest]. lia. }
  2:{ cbv beta. rewrite mt_seq, (mt_lit_hit sp (y :: post)) by reflexivity.
      rewrite mt_grp_chr. unfold ms_advance at 1 2. cbn [ms_rest]. rewrite Hy2.
      unfold accept. reflexivity. }
  unfold ms_capture, ms_advance. cbn [ms_len ms_caps ms_rest ms_prev].
  replace (S (S (3 + length (lines_text blanks))) - S (3 + length (lines_text blanks)))
    with 1 by lia.
  cbn [firstn].
  replace (S (S (3 + length (lines_text blanks)))) with (5 + length (lines_text blanks)) by lia.
  reflexivity.
Qed.

(** The first comma of the text, when a broken line is to be joined there. *)
Lemma re_sub_join pre x y blanks post :
  mem comma pre = false -> chr_eqb comma x = false ->
  c1 x = true -> forallb (forallb ws) blanks = true ->
  ok2 y = true -> ws y = false -> chr_eqb nl y = false -> ws sp = true ->
  re_sub R repl (pre ++ x :: comma :: nl :: lines_text blanks ++ sp :: y :: post) =
  pre ++
  repl (RMatch (x :: comma :: nl :: lines_text blanks ++ [sp; y]) [(2, [y]); (1, [x])]
               0 None None) ++
  re_sub R repl post.
Proof.
  intros Hpre Hcx Hx Hb Hy2 Hy Hn Hsp. unfold re_sub.
  rewrite sub_join_copy by assumption. f_equal.
  cbn [sub_loop]. rewrite mh_join by assumption.
  set (T := lines_text blanks).
  assert (Hcut : x :: comma :: nl :: T ++ sp :: y :: post =
                 (x :: comma :: nl :: T ++ [sp; y]) ++ post).
  { cbn [app]. rewrite <- app_assoc. reflexivity. }
  assert (Hlen : length (x :: comma :: nl :: T ++ [sp; y]) = 5 + length T).
  { cbn [length]. rewrite length_app. cbn [length]. lia. }
  rewrite Hcut at 1. rewrite <- Hlen, firstn_app, firstn_all, Nat.sub_diag, firstn_O, app_nil_r.
  rewrite (repl_ext _ _ _ _ _ 0 None None). f_equal.
  rewrite Hlen. cbn [Nat.add sub_loop].
  replace (T ++ sp :: y :: post) with ((T ++ [sp; y]) ++ post)
    by (rewrite <- app_assoc; reflexivity).
  replace (S (S (length T))) with (length (T ++ [sp; y]))
    by (rewrite length_app; cbn [length]; lia).
  rewrite sub_loop_skip. apply sub_join_indep.
Qed.
End AutoJoin.

(** X21: the first 、 of a text, when it ends a line that is to be joined.
    Behind the 、 come the line feed, any number of lines of spaces, tabs
    and full-width spaces, and a line that begins with one full-width space
    and goes on with a character that may begin a joined line and is no
    white space.  [_auto_join_line] removes the line feed, the blank lines
    and the full-width space; the text before the 、 is kept and the text
    behind the joined character is converted in the same way. *)
Theorem auto_join_line_first (pre post : str) (x y : char) (blanks : list str) :
  mem (ch "、") pre = false -> chr_eqb (ch "、") x = false ->
  forallb (forallb is_sp) blanks = true ->
  join_head_ok y = true -> is_sp y = false -> chr_eqb nl y = false ->
  _auto_join_line
    (pre ++ [x] ++ u "、" ++ [nl] ++ concat (map (fun b => b ++ [nl]) blanks) ++
     u "　" ++ [y] ++ post) =
  pre ++ [x] ++ u "、" ++ [y] ++ _auto_join_line post.
Proof.
  intros Hpre Hx Hb Hy2 Hy Hn.
  pose (repl := fun m : rmatch => m_group m 1 ++ u "、" ++ m_group m 2).
  assert (HE : forall s, _auto_join_line s =
     re_sub (seqs [Grp 1 (Chr (fun c => negb (mem c (u "、")))); lit (ch "、"); lit nl;
                   star (Seq (star (Chr is_sp)) (lit nl)); lit (ch "　");
                   Grp 2 (Chr join_head_ok)]) repl s).
  { intros s. unfold _auto_join_line, repl, ncls, cls, join_head_ok, is_sp, sp_chars.
    reflexivity. }
  rewrite !HE.
  change (u "、") with [ch "、"]. change (u "　") with [ch "　"]. cbn [app].
  assert (Hc1 : negb (mem x [ch "、"]) = true).
  { unfold mem. cbn [existsb]. rewrite orb_false_r, chr_eqb_sym, Hx. reflexivity. }
  rewrite (re_sub_join (ch "、") (ch "　") (fun c => negb (mem c [ch "、"])) is_sp join_head_ok
             ltac:(vm_compute; reflexivity) repl ltac:(intros; reflexivity)
             pre x y blanks post Hpre Hx Hc1 Hb Hy2 Hy Hn ltac:(vm_compute; reflexivity)).
  reflexivity.
Qed.

(** X21 on a sentence broken behind its comma, with one blank line. *)
Lemma auto_join_line_first_witness :
  mem (ch "、") (u "あ") = false /\ chr_eqb (ch "、") (ch "い") = false /\
  forallb (forallb is_sp) [u " "] = true /\
  join_head_ok (ch "う") = true /\ is_sp (ch "う") = false /\ chr_eqb nl (ch "う") = false /\
  _auto_join_line
    (u "あ" ++ [ch "い"] ++ u "、" ++ [nl] ++ concat (map (fun b => b ++ [nl]) [u " "]) ++
     u "　" ++ [ch "う"] ++ u "え") =
  u "あ" ++ [ch "い"] ++ u "、" ++ [ch "う"] ++ _auto_join_line (u "え").
Proof.
  repeat (split; [vm_compute; reflexivity|]).
  apply auto_join_line_first; vm_compute; reflexivity.
Defined.
